(** * hypersearch.py: the hyperparameter specification-and-search engine

    A shallow embedding of [src/hypersearch.py]: the dotted-key store
    [DotDict], the hyper catalogue [hypers], the flatten/hydrate pipeline
    [HSearchEnv.get_hypers] / [get_winner], the vector codec of [main_gp]
    ([hypers2vec], [vec2hypers], the bounds table, the jitter loop) and
    [boost_optimization].

    Modelling conventions.
    - A Python [dict] is an association list in insertion order: iteration
      order is observable in the source (first failing key, order of the
      post hooks, order of the features).
    - Python exceptions are values of [exn]; a computation that may raise
      returns [result].
    - A Python [float] is a finite binary64 number, read as the rational
      it denotes ([Q]); the literals and the comparisons of the source
      are exact under this reading.  Infinities and NaN have no
      counterpart in [Q], and a sum, product or quotient in [Q] is not
      rounded: a property that depends on either is stated for the inputs
      on which the reading is exact.  Float exponentiation, whose value
      is in general not a rational, is a parameter ([float_pow]).  The
      jitter of [main_gp] is modelled in binary64 itself ([Binary64]). *)

From Stdlib Require Import String Ascii List ZArith QArith Qround Qabs Bool Lia Lqa Arith.
From Stdlib Require SpecFloat.
Import ListNotations.
Local Open Scope string_scope.
Local Open Scope list_scope.
#[local] Set Warnings "-register-all".

Set Implicit Arguments.

(** ** Python values and exceptions *)

Inductive scalar : Type :=
| VNone
| VBool (b : bool)
| VInt (z : Z)
| VFloat (q : Q)
| VStr (s : string).

Inductive exn : Type :=
| KeyError (k : scalar)
| TypeError
| ValueError
| NameError (name : string)
| IndexError
| OverflowError
| ZeroDivisionError
| AttributeError.

Inductive result (A : Type) : Type :=
| Ok (a : A)
| Err (e : exn).
Arguments Ok {A} a.
Arguments Err {A} e.

Definition bind {A B} (r : result A) (f : A -> result B) : result B :=
  match r with
  | Ok a => f a
  | Err e => Err e
  end.

Declare Scope py_scope.
Delimit Scope py_scope with py.
Notation "x <- c1 ;; c2" := (bind c1 (fun x => c2))
  (at level 61, c1 at next level, right associativity) : py_scope.
Notation "' pat <- c1 ;; c2" := (bind c1 (fun x => match x with pat => c2 end))
  (at level 61, pat pattern, c1 at next level, right associativity) : py_scope.
Local Open Scope py_scope.

Definition is_ok {A} (r : result A) : bool :=
  match r with Ok _ => true | Err _ => false end.

(** ** Dictionaries in insertion order *)

Module Dict.

Definition t (V : Type) : Type := list (string * V).

Fixpoint get {V} (k : string) (d : t V) : option V :=
  match d with
  | [] => None
  | (k', v) :: rest => if String.eqb k k' then Some v else get k rest
  end.

Definition mem {V} (k : string) (d : t V) : bool :=
  match get k d with Some _ => true | None => false end.

(** [d[k] = v]: an existing key keeps its position, a new key goes last. *)
Fixpoint set {V} (k : string) (v : V) (d : t V) : t V :=
  match d with
  | [] => [(k, v)]
  | (k', v') :: rest =>
      if String.eqb k k' then (k', v) :: rest else (k', v') :: set k v rest
  end.

(** [d.update(d2)] *)
Definition update {V} (d d2 : t V) : t V :=
  fold_left (fun acc kv => set (fst kv) (snd kv) acc) d2 d.

(** [d.pop(k)], the dictionary that is left *)
Fixpoint remove {V} (k : string) (d : t V) : t V :=
  match d with
  | [] => []
  | (k', v') :: rest =>
      if String.eqb k k' then rest else (k', v') :: remove k rest
  end.

Definition keys {V} (d : t V) : list string := map fst d.

(** No key occurs twice: what every [dict] satisfies. *)
Fixpoint distinct (l : list string) : bool :=
  match l with
  | [] => true
  | k :: rest => negb (existsb (String.eqb k) rest) && distinct rest
  end.

(** [d[k]], which raises [KeyError] *)
Definition item {V} (k : string) (d : t V) : result V :=
  match get k d with
  | Some v => Ok v
  | None => Err (KeyError (VStr k))
  end.

End Dict.

(** ** Strings *)

(** [s.split(c)] for a one-character separator: never empty. *)
Fixpoint split_on (c : ascii) (s : string) : list string :=
  match s with
  | EmptyString => [EmptyString]
  | String a rest =>
      if Ascii.eqb a c then EmptyString :: split_on c rest
      else match split_on c rest with
           | [] => [String a EmptyString]
           | h :: t => String a h :: t
           end
  end.

(** [c in s] for a character *)
Fixpoint has_char (c : ascii) (s : string) : bool :=
  match s with
  | EmptyString => false
  | String a rest => Ascii.eqb a c || has_char c rest
  end.

(** [sub in s] for strings *)
Fixpoint is_substring (sub s : string) : bool :=
  String.prefix sub s ||
  match s with
  | EmptyString => false
  | String _ rest => is_substring sub rest
  end.

(** ** Trees: what a nested configuration holds

    A leaf is a scalar, the layer list of a network class returned by
    [custom_net], or a session configuration; a node is a nested dict. *)

Inductive tree : Type :=
| Leaf (s : scalar)
| Node (d : list (string * tree))
| NetSpec (layers : list tree)
| SessionConfig (fraction : Q).

(** ** DotDict *)

Module DotDict.

(** [__getitem__], over the split path.  [k not in v] on a string is a
    substring test (and indexing the string then raises), on any other
    non-mapping it raises. *)
Fixpoint getitem_path (v : tree) (path : list string) : result tree :=
  match path with
  | [] => Ok v
  | k :: rest =>
      match v with
      | Node d =>
          match Dict.get k d with
          | None => Ok (Leaf VNone)
          | Some c => getitem_path c rest
          end
      | Leaf (VStr s) => if is_substring k s then Err TypeError else Ok (Leaf VNone)
      | _ => Err TypeError
      end
  end.

Definition getitem (data : tree) (path : string) : result tree :=
  getitem_path data (split_on "." path).

(** [__setitem__], over the split path.  The source mutates in place; a
    call that raises has not yet written anything, so the caller keeps
    the old tree.  A tree holds every dict with its parent: it stands for
    a store in which no dict is shared between two keys, as are the
    stores [get_hypers] builds.  [DotStore] below is the store with
    sharing. *)
Fixpoint setitem_path (v : tree) (path : list string) (val : tree) : result tree :=
  match path with
  | [] => Ok v
  | k :: rest =>
      match rest with
      | [] =>
          match v with
          | Node d => Ok (Node (Dict.set k val d))
          | _ => Err TypeError
          end
      | _ :: _ =>
          match v with
          | Node d =>
              match Dict.get k d with
              | Some c =>
                  c' <- setitem_path c rest val ;;
                  Ok (Node (Dict.set k c' d))
              | None =>
                  c' <- setitem_path (Node []) rest val ;;
                  Ok (Node (Dict.set k c' d))
              end
          | _ => Err TypeError
          end
      end
  end.

Definition setitem (data : tree) (path : string) (val : tree) : result tree :=
  setitem_path data (split_on "." path) val.

(** [self.update = self._data.update] *)
Definition update (data : tree) (d : list (string * tree)) : result tree :=
  match data with
  | Node d0 => Ok (Node (Dict.update d0 d))
  | _ => Err AttributeError
  end.

(** The path can be written: every entry that exists on the way down,
    before the last segment, is a mapping. *)
Fixpoint clear_path (v : tree) (path : list string) : bool :=
  match path with
  | [] => true
  | k :: rest =>
      match v with
      | Node d =>
          match rest with
          | [] => true
          | _ :: _ =>
              match Dict.get k d with
              | Some c => clear_path c rest
              | None => true
              end
          end
      | _ => false
      end
  end.

End DotDict.

(** ** DotDict over dicts that may be shared

    [DotDict] keeps the dict it is given and writes into it and into the
    dicts below it in place.  A dict that is stored under two keys is one
    object: a write through one path is seen through the other.  Here the
    dicts are objects of a store, told by their position in it; a value
    is a scalar or a reference to a dict.  [DotDict] above is the case in
    which no dict is shared, each dict being told with its parent. *)

Module DotStore.

Inductive value : Type :=
| Atom (s : scalar)
| Ref (l : nat).

Definition heap : Type := list (Dict.t value).

(** [h] with the dict at [l] replaced *)
Fixpoint write (h : heap) (l : nat) (d : Dict.t value) : heap :=
  match h, l with
  | [], _ => []
  | _ :: rest, O => d :: rest
  | x :: rest, S l' => x :: write rest l' d
  end.

(** [__getitem__], over the split path, from the value [v].  A reference
    always leads to a dict of the store ([closed] below); the branch for
    one that does not is never taken. *)
Fixpoint getitem_path (h : heap) (v : value) (path : list string) : result value :=
  match path with
  | [] => Ok v
  | k :: rest =>
      match v with
      | Ref l =>
          match nth_error h l with
          | Some d =>
              match Dict.get k d with
              | None => Ok (Atom VNone)
              | Some c => getitem_path h c rest
              end
          | None => Err TypeError
          end
      | Atom (VStr s) => if is_substring k s then Err TypeError else Ok (Atom VNone)
      | Atom _ => Err TypeError
      end
  end.

Definition getitem (h : heap) (root : nat) (path : string) : result value :=
  getitem_path h (Ref root) (split_on "." path).

(** [__setitem__], over the split path.  [v[k] = {}] makes a new dict,
    which goes to the end of the store.  A call that raises has not
    written anything yet. *)
Fixpoint setitem_path (h : heap) (v : value) (path : list string) (val : value)
  : result heap :=
  match path with
  | [] => Ok h
  | k :: rest =>
      match v with
      | Ref l =>
          match nth_error h l with
          | Some d =>
              match rest with
              | [] => Ok (write h l (Dict.set k val d))
              | _ :: _ =>
                  match Dict.get k d with
                  | Some c => setitem_path h c rest val
                  | None =>
                      let n := length h in
                      setitem_path (write h l (Dict.set k (Ref n) d) ++ [[]])
                                   (Ref n) rest val
                  end
              end
          | None => Err TypeError
          end
      | Atom _ => Err TypeError
      end
  end.

Definition setitem (h : heap) (root : nat) (path : string) (val : value) : result heap :=
  setitem_path h (Ref root) (split_on "." path) val.

(** The entry of a dict of [h] that a set at [path] writes: the last
    segment in the dict the path leads to, or the first segment that is
    missing, under which the new dicts hang. *)
Fixpoint written_cell (h : heap) (v : value) (path : list string) : option (nat * string) :=
  match path with
  | [] => None
  | k :: rest =>
      match v with
      | Ref l =>
          match nth_error h l with
          | Some d =>
              match rest with
              | [] => Some (l, k)
              | _ :: _ =>
                  match Dict.get k d with
                  | Some c => written_cell h c rest
                  | None => Some (l, k)
                  end
              end
          | None => None
          end
      | Atom _ => None
      end
  end.

(** The entries a get at [path] looks up *)
Fixpoint cells_read (h : heap) (v : value) (path : list string) : list (nat * string) :=
  match path with
  | [] => []
  | k :: rest =>
      match v with
      | Ref l =>
          match nth_error h l with
          | Some d =>
              (l, k) :: match Dict.get k d with
                        | Some c => cells_read h c rest
                        | None => []
                        end
          | None => []
          end
      | Atom _ => []
      end
  end.

(** Every reference leads to a dict of the store *)
Definition valid (h : heap) (v : value) : bool :=
  match v with
  | Ref l => (l <? length h)%nat
  | Atom _ => true
  end.

Definition closed (h : heap) : bool :=
  forallb (fun d : Dict.t value => forallb (fun kv => valid h (snd kv)) d) h.

(** [h'] has the dicts of [h] with the same entries, but for one entry *)
Definition agree_except (h h' : heap) (cell : nat * string) : Prop :=
  forall l d, nth_error h l = Some d ->
              exists d', nth_error h' l = Some d' /\
                         forall k, (l, k) <> cell -> Dict.get k d' = Dict.get k d.

(** One dict with an entry [x], stored under [a] and under [b] *)
Definition example_shared : heap :=
  [[("a", Ref 1); ("b", Ref 1)]; [("x", Atom (VInt 1))]].

End DotStore.


(** ** Python operators on scalars *)

Module Py.

(** [bool(v)] *)
Definition truthy (v : scalar) : bool :=
  match v with
  | VNone => false
  | VBool b => b
  | VInt z => negb (z =? 0)%Z
  | VFloat q => negb (Qeq_bool q 0)
  | VStr s => negb (String.eqb s "")
  end.

(** The number a [bool], [int] or [float] stands for *)
Definition number (v : scalar) : option Q :=
  match v with
  | VBool b => Some (inject_Z (Z.b2z b))
  | VInt z => Some (inject_Z z)
  | VFloat q => Some q
  | _ => None
  end.

(** [x == y] *)
Definition eq (x y : scalar) : bool :=
  match number x, number y with
  | Some a, Some b => Qeq_bool a b
  | _, _ =>
      match x, y with
      | VNone, VNone => true
      | VStr s, VStr s' => String.eqb s s'
      | _, _ => false
      end
  end.

(** [x > y] *)
Definition gt (x y : scalar) : result bool :=
  match number x, number y with
  | Some a, Some b => Ok (negb (Qle_bool a b))
  | _, _ =>
      match x, y with
      | VStr s, VStr s' => Ok (String.ltb s' s)
      | _, _ => Err TypeError
      end
  end.

(** [-x] *)
Definition neg (x : scalar) : result scalar :=
  match x with
  | VBool b => Ok (VInt (- Z.b2z b))
  | VInt z => Ok (VInt (- z))
  | VFloat q => Ok (VFloat (- q))
  | _ => Err TypeError
  end.

(** Rounding of a float to the nearest integer, ties to even *)
Definition round_half_even (q : Q) : Z :=
  let f := Qfloor q in
  match Qcompare (q - inject_Z f) (1 # 2) with
  | Lt => f
  | Gt => (f + 1)%Z
  | Eq => if Z.even f then f else (f + 1)%Z
  end.

(** The builtin [round] with one argument *)
Definition round (v : scalar) : result scalar :=
  match v with
  | VBool b => Ok (VInt (Z.b2z b))
  | VInt z => Ok (VInt z)
  | VFloat q => Ok (VInt (round_half_even q))
  | _ => Err TypeError
  end.

Definition truncate (q : Q) : Z :=
  if Qle_bool 0 q then Qfloor q else Qceiling q.

Definition is_space (a : ascii) : bool :=
  let n := nat_of_ascii a in
  (n =? 32)%nat || ((9 <=? n)%nat && (n <=? 13)%nat).

Definition digit (a : ascii) : option Z :=
  let n := nat_of_ascii a in
  if ((48 <=? n)%nat && (n <=? 57)%nat) then Some (Z.of_nat (n - 48)) else None.

(** Digits with single underscores between them. [after_digit] tells
    whether the previous character was a digit. *)
Fixpoint digits (acc : Z) (after_digit : bool) (l : list ascii) : option Z :=
  match l with
  | [] => if after_digit then Some acc else None
  | a :: rest =>
      match digit a with
      | Some d => digits (acc * 10 + d)%Z true rest
      | None =>
          if Ascii.eqb a "_" && after_digit
          then match rest with
               | [] => None
               | _ :: _ => digits acc false rest
               end
          else None
      end
  end.

Fixpoint lstrip (l : list ascii) : list ascii :=
  match l with
  | a :: rest => if is_space a then lstrip rest else l
  | [] => []
  end.

(** [int(s)] for an ASCII string, base 10 *)
Definition parse_int (s : string) : option Z :=
  let l := rev (lstrip (rev (lstrip (list_ascii_of_string s)))) in
  match l with
  | a :: rest =>
      if Ascii.eqb a "-" then option_map Z.opp (digits 0 false rest)
      else if Ascii.eqb a "+" then digits 0 false rest
      else digits 0 false l
  | [] => None
  end.

(** The builtin [int] with one argument *)
Definition int (v : scalar) : result scalar :=
  match v with
  | VBool b => Ok (VInt (Z.b2z b))
  | VInt z => Ok (VInt z)
  | VFloat q => Ok (VInt (truncate q))
  | VStr s => match parse_int s with Some z => Ok (VInt z) | None => Err ValueError end
  | VNone => Err TypeError
  end.

(** [float(v)] for the values [hypers2vec] passes: a [bool] *)
Definition float_of_bool (b : bool) : Q := inject_Z (Z.b2z b).

Definition is_int (v : scalar) : option Z :=
  match v with
  | VBool b => Some (Z.b2z b)
  | VInt z => Some z
  | _ => None
  end.

End Py.

(** ** What the module takes from outside

    - [float_pow b e]: the float [b ** e]; it may raise ([OverflowError],
      [ZeroDivisionError]).
    - [build_net_spec hypers baseline]: the layer list of the network; it
      reads [data.n_cols] of the [data] module and works in float division
      and [math.ceil]; it raises when the tree lacks a key it reads.
    - [select_run id]: the [hypers] column of the stored run [id]. *)

Class Collaborators : Type := {
  float_pow : Q -> Q -> result Q;
  build_net_spec : tree -> bool -> result (list tree);
  select_run : Z -> result (Dict.t scalar)
}.

Section Pow.
Context {C : Collaborators}.

(** [b ** x]: exact on integers with a non-negative exponent, a float
    otherwise. *)
Definition pow (b x : scalar) : result scalar :=
  match Py.is_int b, Py.is_int x with
  | Some z, Some n =>
      if (0 <=? n)%Z then Ok (VInt (z ^ n))
      else q <- float_pow (inject_Z z) (inject_Z n) ;; Ok (VFloat q)
  | _, _ =>
      match Py.number b, Py.number x with
      | Some p, Some e => q <- float_pow p e ;; Ok (VFloat q)
      | _, _ => Err TypeError
      end
  end.

End Pow.

(** ** Hyper specifications *)

Definition flat_record : Type := Dict.t scalar.

Inductive kind : Type := KInt | KBounded | KBool.

(** One [{type, vals, guess, pre, post, hydrate}] dict; an absent key is
    [None]. *)
Record hyper : Type := {
  h_type : kind;
  h_vals : option (list scalar);
  h_guess : option scalar;
  h_pre : option (scalar -> result scalar);
  h_post : option (scalar -> flat_record -> result scalar);
  h_hydrate : option (scalar -> flat_record -> result tree)
}.

(** A section maps a key to a spec dict or to a hard-coded value. *)
Inductive entry : Type :=
| Literal (v : scalar)
| Spec (h : hyper).

Definition kind_eqb (a b : kind) : bool :=
  match a, b with
  | KInt, KInt | KBounded, KBounded | KBool, KBool => true
  | _, _ => false
  end.

(** ** The hooks *)

Section Hooks.
Context {C : Collaborators}.

Definition two_to_the (x : scalar) (_ : flat_record) : result scalar :=
  pow (VInt 2) x.

Definition ten_to_the_neg (x : scalar) (_ : flat_record) : result scalar :=
  nx <- Py.neg x ;; pow (VInt 10) nx.

(** [lambda x, _: x if (x and x > thresh) else fallback] *)
Definition min_threshold (thresh : Q) (fallback : scalar)
           (x : scalar) (_ : flat_record) : result scalar :=
  if Py.truthy x
  then b <- Py.gt x (VFloat thresh) ;; Ok (if b then x else fallback)
  else Ok fallback.

Definition min_ten_neg (thresh : Q) (fallback : scalar)
           (x : scalar) (f : flat_record) : result scalar :=
  y <- ten_to_the_neg x f ;; min_threshold thresh fallback y f.

(** The dict display is built before it is indexed by [x], so the three
    reads of [flat] happen for either value of [x]. *)
Definition hydrate_baseline (x : scalar) (flat : flat_record) : result tree :=
  num_steps <- Dict.item "optimization_steps" flat ;;
  opt_type <- Dict.item "step_optimizer.type" flat ;;
  lr <- Dict.item "step_optimizer.learning_rate" flat ;;
  nlr <- Py.neg lr ;;
  rate <- pow (VInt 10) nlr ;;
  if Py.eq x (VBool false) then
    Ok (Node [("baseline_mode", Leaf VNone)])
  else if Py.eq x (VBool true) then
    Ok (Node
      [("baseline", Node [("type", Leaf (VStr "custom"))]);
       ("baseline_mode", Leaf (VStr "states"));
       ("baseline_optimizer", Node
          [("type", Leaf (VStr "multi_step"));
           ("num_steps", Leaf num_steps);
           ("optimizer", Node
              [("type", Leaf opt_type);
               ("learning_rate", Leaf rate)])])])
  else Err (KeyError x).

(** [lambda x, others: x if (x and x > .9 and others['baseline_mode']) else None] *)
Definition gae_lambda_post (x : scalar) (others : flat_record) : result scalar :=
  if Py.truthy x then
    b <- Py.gt x (VFloat (9 # 10)) ;;
    if b then
      bm <- Dict.item "baseline_mode" others ;;
      Ok (if Py.truthy bm then x else VNone)
    else Ok VNone
  else Ok VNone.

(** A hook that returns a scalar, used as a [hydrate] hook *)
Definition scalar_hook (f : scalar -> flat_record -> result scalar)
           (x : scalar) (flat : flat_record) : result tree :=
  v <- f x flat ;; Ok (Leaf v).

End Hooks.

(** ** The catalogue [hypers] *)

Module Catalogue.
Section Catalogue.
Context {C : Collaborators}.

Definition bounded (lo hi guess : scalar)
           (pre : option (scalar -> result scalar))
           (post : option (scalar -> flat_record -> result scalar))
           (hydrate : option (scalar -> flat_record -> result tree)) : entry :=
  Spec {| h_type := KBounded; h_vals := Some [lo; hi]; h_guess := Some guess;
          h_pre := pre; h_post := post; h_hydrate := hydrate |}.

Definition choice (vals : list scalar) (guess : scalar) : entry :=
  Spec {| h_type := KInt; h_vals := Some vals; h_guess := Some guess;
          h_pre := None; h_post := None; h_hydrate := None |}.

Definition boolean (guess : bool)
           (hydrate : option (scalar -> flat_record -> result tree)) : entry :=
  Spec {| h_type := KBool; h_vals := None; h_guess := Some (VBool guess);
          h_pre := None; h_post := None; h_hydrate := hydrate |}.

Definition agent : Dict.t entry := [].

Definition batch_agent : Dict.t entry :=
  [("batch_size", bounded (VInt 3) (VInt 11) (VInt 10)
                    (Some Py.round) None (Some (scalar_hook two_to_the)));
   ("keep_last_timestep", boolean true None)].

Definition model : Dict.t entry :=
  [("optimizer.type", choice [VStr "nadam"; VStr "adam"] (VStr "adam"));
   ("optimizer.learning_rate",
      bounded (VFloat 0) (VFloat 8) (VFloat (65 # 10))
        None None (Some (scalar_hook ten_to_the_neg)));
   ("optimization_steps", bounded (VInt 1) (VInt 30) (VInt 10)
                            (Some Py.round) None None);
   ("discount", bounded (VFloat (9 # 10)) (VFloat (99 # 100)) (VFloat (99 # 100))
                  None None None)].

Definition distribution_model : Dict.t entry :=
  [("entropy_regularization",
      bounded (VInt 0) (VInt 5) (VInt 2)
        None None (Some (scalar_hook (min_ten_neg (1 # 10000) (VFloat 0)))))].

Definition pg_model : Dict.t entry :=
  [("baseline_mode", boolean true (Some hydrate_baseline));
   ("gae_lambda", bounded (VFloat (8 # 10)) (VFloat 1) (VFloat (95 # 100))
                    None (Some gae_lambda_post) None)].

Definition pg_prob_ration_model : Dict.t entry :=
  [("likelihood_ratio_clipping",
      bounded (VFloat 0) (VFloat 1) (VFloat (2 # 10))
        None None (Some (scalar_hook (min_threshold (5 # 100) VNone))))].

(** [d[new] = d.pop(old)]; [old] is present where this is used. *)
Definition rekey (old new : string) (d : Dict.t entry) : Dict.t entry :=
  match Dict.get old d with
  | Some v => Dict.set new v (Dict.remove old d)
  | None => d
  end.

Definition ppo_agent : Dict.t entry :=
  let d := Dict.update [] agent in
  let d := Dict.update d batch_agent in
  let d := Dict.update d model in
  let d := Dict.update d distribution_model in
  let d := Dict.update d pg_model in
  let d := Dict.update d pg_prob_ration_model in
  let d := rekey "optimizer.learning_rate" "step_optimizer.learning_rate" d in
  rekey "optimizer.type" "step_optimizer.type" d.

Definition custom : Dict.t entry :=
  [("indicators", boolean true None);
   ("net.depth_mid", bounded (VInt 1) (VInt 3) (VInt 3) (Some Py.round) None None);
   ("net.depth_post", bounded (VInt 1) (VInt 3) (VInt 2) (Some Py.round) None None);
   ("net.width", bounded (VInt 3) (VInt 9) (VInt 6)
                   (Some Py.round) None (Some (scalar_hook two_to_the)));
   ("net.funnel", boolean true None);
   ("net.activation", choice [VStr "tanh"; VStr "relu"] (VStr "tanh"));
   ("net.dropout", bounded (VFloat 0) (VFloat (5 # 10)) (VFloat (1 # 1000))
                     None None (Some (scalar_hook (min_threshold (1 # 10) VNone))));
   ("net.l2", bounded (VInt 0) (VInt 7) (VInt 7)
                None None (Some (scalar_hook (min_ten_neg (1 # 1000000) (VFloat 0)))));
   ("net.l1", bounded (VInt 0) (VInt 7) (VInt 3)
                None None (Some (scalar_hook (min_ten_neg (1 # 1000000) (VFloat 0)))));
   ("pct_change", boolean false None);
   ("unimodal", boolean false None);
   ("scale", boolean true None);
   ("punish_repeats", boolean false None);
   ("arbitrage", boolean true None)].

Definition lstm : Dict.t entry :=
  [("net.depth_pre", bounded (VInt 0) (VInt 3) (VInt 2) (Some Py.int) None None)].

Definition conv2d : Dict.t entry :=
  [("net.window", bounded (VInt 1) (VInt 3) (VInt 2) (Some Py.round) None None);
   ("net.stride", bounded (VInt 1) (VInt 3) (VInt 3) (Some Py.round) None None);
   ("step_window", bounded (VInt 100) (VInt 400) (VInt 200) (Some Py.round) None None)].

(** The sections as written, before the implicit [vals] are filled in *)
Definition declared : Dict.t (Dict.t entry) :=
  [("agent", agent);
   ("batch_agent", batch_agent);
   ("model", model);
   ("distribution_model", distribution_model);
   ("pg_model", pg_model);
   ("pg_prob_ration_model", pg_prob_ration_model);
   ("ppo_agent", ppo_agent);
   ("custom", custom);
   ("lstm", lstm);
   ("conv2d", conv2d)].

(** [if v['type'] == 'bool': v['vals'] = [0, 1]] *)
Definition fill_vals (e : entry) : entry :=
  match e with
  | Literal v => Literal v
  | Spec h =>
      match h_type h with
      | KBool =>
          Spec {| h_type := h_type h; h_vals := Some [VInt 0; VInt 1];
                  h_guess := h_guess h; h_pre := h_pre h; h_post := h_post h;
                  h_hydrate := h_hydrate h |}
      | _ => Spec h
      end
  end.

(** The module-level [hypers] once the file is imported *)
Definition hypers : Dict.t (Dict.t entry) :=
  map (fun s => (fst s, map (fun kv => (fst kv, fill_vals (snd kv))) (snd s))) declared.

End Catalogue.
End Catalogue.

(** Decidable equality of records, to settle finite case analyses by
    computation *)

Definition scalar_eqb (a b : scalar) : bool :=
  match a, b with
  | VNone, VNone => true
  | VBool x, VBool y => Bool.eqb x y
  | VInt x, VInt y => (x =? y)%Z
  | VFloat x, VFloat y => (Qnum x =? Qnum y)%Z && (Qden x =? Qden y)%positive
  | VStr x, VStr y => String.eqb x y
  | _, _ => false
  end.

Fixpoint flat_eqb (a b : flat_record) : bool :=
  match a, b with
  | [], [] => true
  | (k, v) :: a', (k', v') :: b' => String.eqb k k' && scalar_eqb v v' && flat_eqb a' b'
  | _, _ => false
  end.

Definition returns (r : result flat_record) (expected : flat_record) : bool :=
  match r with
  | Ok f => flat_eqb f expected
  | Err _ => false
  end.

(** ** Loops that may raise *)

Fixpoint for_each {S A : Type} (step : S -> A -> result S) (s : S) (l : list A) : result S :=
  match l with
  | [] => Ok s
  | a :: rest => s' <- step s a ;; for_each step s' rest
  end.

(** [t[k]] and [t[k] = v] on an arbitrary object *)
Definition tree_item (k : string) (t : tree) : result tree :=
  match t with
  | Node d => Dict.item k d
  | _ => Err TypeError
  end.

Definition tree_setitem (k : string) (v : tree) (t : tree) : result tree :=
  match t with
  | Node d => Ok (Node (Dict.set k v d))
  | _ => Err TypeError
  end.

(** ** HSearchEnv *)

Module HSearchEnv.
Section HSearchEnv.
Context {C : Collaborators}.

(** [gpu_split] is the finite float given on the command line; an
    infinity or a NaN, which [type=float] parses too, has no counterpart. *)
Record t : Type := {
  hypers : Dict.t entry;
  agent : string;
  hardcoded : flat_record;
  gpu_split : Q;
  net_type : string
}.

(** [hardcoded[k] = v] for the entries that are not spec dicts *)
Fixpoint literals (d : Dict.t entry) : flat_record :=
  match d with
  | [] => []
  | (k, Literal v) :: rest => (k, v) :: literals rest
  | (k, Spec _) :: rest => literals rest
  end.

(** [__init__] *)
Definition init (agent : string) (gpu_split : Q) (net_type : string) : result t :=
  base <- Dict.item agent Catalogue.hypers ;;
  custom <- Dict.item "custom" Catalogue.hypers ;;
  let hypers_ := Dict.update base custom in
  let hypers_ := Dict.set "net.type" (Literal (VStr net_type)) hypers_ in
  net <- Dict.item net_type Catalogue.hypers ;;
  let hypers_ := Dict.update hypers_ net in
  Ok {| hypers := hypers_; agent := agent; hardcoded := literals hypers_;
        gpu_split := gpu_split; net_type := net_type |}.

Definition with_hardcoded (env : t) (h : flat_record) : t :=
  {| hypers := hypers env; agent := agent env; hardcoded := h;
     gpu_split := gpu_split env; net_type := net_type env |}.

(** *** get_hypers, phase by phase *)

(** One turn of the "Preprocess hypers" loop.  [v.item()] only unwraps a
    numpy scalar and is the identity here.  ['pre' in hyper] on a
    hard-coded string is a substring test, on another literal it raises. *)
Definition pre_step (env : t) (flat : flat_record) (kv : string * scalar)
  : result flat_record :=
  let (k, v) := kv in
  hyper <- Dict.item k (hypers env) ;;
  v' <- match hyper with
        | Spec h => match h_pre h with Some pre => pre v | None => Ok v end
        | Literal (VStr s) => if is_substring "pre" s then Err TypeError else Ok v
        | Literal _ => Err TypeError
        end ;;
  Ok (Dict.set k v' flat).

Definition pre_phase (env : t) (actions : flat_record) : result flat_record :=
  flat <- for_each (pre_step env) [] actions ;;
  Ok (Dict.update flat (hardcoded env)).

(** One turn of the "Post-process hypers" loop *)
Definition post_step (env : t) (flat : flat_record) (kv : string * scalar)
  : result flat_record :=
  let (k, v) := kv in
  hyper <- Dict.item k (hypers env) ;;
  match hyper with
  | Spec h =>
      match h_post h with
      | Some post => v' <- post v flat ;; Ok (Dict.set k v' flat)
      | None => Ok flat
      end
  | Literal _ => Ok flat
  end.

Definition post_phase (env : t) (flat : flat_record) : result flat_record :=
  for_each (post_step env) flat flat.

(** The FlatRecord: [flat] after the first two loops *)
Definition flatten (env : t) (actions : flat_record) : result flat_record :=
  flat <- pre_phase env actions ;;
  post_phase env flat.

(** [self.hypers[k]['hydrate'](v, self.flat)] *)
Definition call_hydrate (env : t) (flat : flat_record) (k : string) (v : scalar)
  : result tree :=
  hyper <- Dict.item k (hypers env) ;;
  match hyper with
  | Spec h =>
      match h_hydrate h with
      | Some hydrate => hydrate v flat
      | None => Err (KeyError (VStr "hydrate"))
      end
  | Literal _ => Err TypeError
  end.

(** The [try ... except: obj[k] = v] block, given what the hook call
    did.  When the store in the [try] raises, [v] is already the hook's
    result, and the [except] branch stores that. *)
Definition store (obj : tree) (k : string) (v : scalar) (called : result tree)
  : result tree :=
  match called with
  | Ok (Node d) =>
      match DotDict.update obj d with
      | Ok obj' => Ok obj'
      | Err _ => DotDict.setitem obj k (Node d)
      end
  | Ok v' =>
      match DotDict.setitem obj k v' with
      | Ok obj' => Ok obj'
      | Err _ => DotDict.setitem obj k v'
      end
  | Err _ => DotDict.setitem obj k (Leaf v)
  end.

(** One turn of the hydrate loop over the pair [(main, custom)] *)
Definition hydrate_step (env : t) (flat : flat_record) (trees : tree * tree)
           (kv : string * scalar) : result (tree * tree) :=
  let (k, v) := kv in
  let (main, custom) := trees in
  section <- Dict.item (agent env) Catalogue.hypers ;;
  if Dict.mem k section
  then main' <- store main k v (call_hydrate env flat k v) ;; Ok (main', custom)
  else custom' <- store custom k v (call_hydrate env flat k v) ;; Ok (main, custom').

Definition hydrate_phase (env : t) (flat : flat_record) : result (tree * tree) :=
  for_each (hydrate_step env flat) (Node [], Node []) flat.

Definition custom_net (hypers : tree) (baseline : bool) : result tree :=
  layers <- build_net_spec hypers baseline ;;
  Ok (NetSpec layers).

(** From [network = custom_net(...)] to the [return] *)
Definition finish (env : t) (flat : flat_record) (main custom : tree)
  : result (flat_record * tree * tree) :=
  network <- custom_net custom false ;;
  bm <- Dict.item "baseline_mode" flat ;;
  main <- (if Py.truthy bm then
             e <- Dict.item "baseline_mode" (hypers env) ;;
             main <- match e with
                     | Literal (VBool b) =>
                         h <- hydrate_baseline (VBool b) flat ;;
                         match main, h with
                         | Node m, Node d => Ok (Node (Dict.update m d))
                         | _, _ => Err TypeError
                         end
                     | _ => Ok main
                     end ;;
             net_b <- custom_net custom true ;;
             baseline <- tree_item "baseline" main ;;
             baseline <- tree_setitem "network_spec" net_b baseline ;;
             tree_setitem "baseline" baseline main
           else Ok main) ;;
  let session_config :=
    if Qeq_bool (gpu_split env) 1 then Leaf VNone
    else SessionConfig (if negb (Qle_bool (gpu_split env) 1)
                        then (9 # 10) / gpu_split env
                        else gpu_split env) in
  main <- tree_setitem "session_config" session_config main ;;
  Ok (flat, main, network).

Definition get_hypers (env : t) (actions : flat_record)
  : result (flat_record * tree * tree) :=
  flat <- flatten env actions ;;
  '(main, custom) <- hydrate_phase env flat ;;
  finish env flat main custom.

(** *** get_winner *)

(** [winner[k] = v['guess']] for the keys outside [self.hardcoded] *)
Definition guess_step (env : t) (winner : flat_record) (kv : string * entry)
  : result flat_record :=
  let (k, v) := kv in
  if Dict.mem k (hardcoded env) then Ok winner
  else match v with
       | Spec h =>
           match h_guess h with
           | Some g => Ok (Dict.set k g winner)
           | None => Err (KeyError (VStr "guess"))
           end
       | Literal _ => Err TypeError
       end.

(** The [else] branch: the guesses, then [winner.update(self.hardcoded)] *)
Definition guesses (env : t) : result flat_record :=
  winner <- for_each (guess_step env) [] (hypers env) ;;
  Ok (Dict.update winner (hardcoded env)).

(** [if id:] is false for [None] and for [0]. *)
Definition winner_of (env : t) (id : option Z) : result flat_record :=
  match id with
  | Some i => if (i =? 0)%Z then guesses env else select_run i
  | None => guesses env
  end.

(** The environment after the call, and what the call returns *)
Definition get_winner (env : t) (id : option Z)
  : t * result (flat_record * tree * tree) :=
  match winner_of env id with
  | Ok winner =>
      let env' := with_hardcoded env winner in
      (env', get_hypers env' [])
  | Err e => (env, Err e)
  end.

(** *** The same environment with the [hydrate] hook of one key removed

    Used to state what a failing hook amounts to. *)

Definition drop_hydrate (e : entry) : entry :=
  match e with
  | Literal v => Literal v
  | Spec h =>
      Spec {| h_type := h_type h; h_vals := h_vals h; h_guess := h_guess h;
              h_pre := h_pre h; h_post := h_post h; h_hydrate := None |}
  end.

Definition without_hydrate (k : string) (env : t) : t :=
  {| hypers := map (fun kv => if String.eqb (fst kv) k
                              then (fst kv, drop_hydrate (snd kv)) else kv)
                   (hypers env);
     agent := agent env; hardcoded := hardcoded env;
     gpu_split := gpu_split env; net_type := net_type env |}.

End HSearchEnv.
End HSearchEnv.

(** ** sklearn's DictVectorizer, as [main_gp] uses it

    [fit] collects the feature names of the rows, a string value [v] under
    key [f] giving the name [f=v] and any other value the name [f], and
    sorts them; [transform] fills a row of that length, summing what falls
    on the same column and dropping unknown names; [inverse_transform]
    returns the columns that are not zero, in column order. *)

Module DictVectorizer.

Inductive feature_value : Type :=
| FStr (s : string)
| FNum (q : Q).

Definition feature_name (f : string) (s : string) : string :=
  (f ++ "=" ++ s)%string.

Definition name_of (f : string) (v : scalar) : string :=
  match v with
  | VStr s => feature_name f s
  | _ => f
  end.

(** Insertion into a sorted list without duplicates *)
Fixpoint insert (s : string) (l : list string) : list string :=
  match l with
  | [] => [s]
  | x :: rest =>
      if String.eqb s x then l
      else if String.ltb s x then s :: l
      else x :: insert s rest
  end.

Definition fit (rows : list (Dict.t scalar)) : list string :=
  fold_left (fun acc row =>
               fold_left (fun acc kv => insert (name_of (fst kv) (snd kv)) acc) row acc)
            rows [].

Fixpoint index_of (s : string) (names : list string) : option nat :=
  match names with
  | [] => None
  | x :: rest =>
      if String.eqb s x then Some 0%nat
      else option_map S (index_of s rest)
  end.

Fixpoint add_at (i : nat) (q : Q) (row : list Q) : list Q :=
  match row, i with
  | [], _ => []
  | x :: rest, O => (x + q)%Q :: rest
  | x :: rest, S j => x :: add_at j q rest
  end.

Definition column (f : string) (v : feature_value) : string * Q :=
  match v with
  | FStr s => (feature_name f s, 1%Q)
  | FNum q => (f, q)
  end.

(** The columns of a row filled from the entries of a dict *)
Definition fill (names : list string) (row : list Q) (h : Dict.t feature_value) : list Q :=
  fold_left (fun row kv =>
               let (name, q) := column (fst kv) (snd kv) in
               match index_of name names with
               | Some i => add_at i q row
               | None => row
               end)
            h row.

Definition transform (names : list string) (h : Dict.t feature_value) : list Q :=
  fill names (map (fun _ => 0%Q) names) h.

Fixpoint inverse_transform (names : list string) (vec : list Q) : result (Dict.t Q) :=
  match vec with
  | [] => Ok []
  | x :: vs =>
      match names with
      | n :: ns =>
          rest <- inverse_transform ns vs ;;
          Ok (if Qeq_bool x 0 then rest else (n, x) :: rest)
      | [] =>
          if Qeq_bool x 0 then inverse_transform [] vs else Err IndexError
      end
  end.

(** The columns that are not zero, with their names *)
Definition nonzero_columns (names : list string) (vec : list Q) : Dict.t Q :=
  filter (fun p : string * Q => negb (Qeq_bool (snd p) 0)) (combine names vec).

End DictVectorizer.

(** ** binary64 arithmetic

    The rows that [main_gp] jitters are numpy arrays of [float64], and
    [x[i] += np.random.random() * 1e-6] multiplies and adds in binary64.
    A finite binary64 number is an integer multiple of [2^-1074] (the
    smallest subnormal) whose magnitude, counted in such units, has at
    most 53 significant bits and does not exceed [max_float]; [Finite k]
    stands for [k * 2^-1074].  An operation computes the exact result and
    rounds it to the nearest such number, ties to the even significand; a
    magnitude that rounds above [max_float] gives an infinity.  The sign
    of a zero is not kept: no operation below depends on it. *)

Module Binary64.

Inductive t : Type :=
| Finite (k : Z)
| Infinite (negative : bool)
| NaN.

(** [p / 2^s] rounded to the nearest integer, ties to even ([0 <= p]) *)
Definition round_shift (p s : Z) : Z :=
  let q := (p / 2 ^ s)%Z in
  match (2 * (p mod 2 ^ s) ?= 2 ^ s)%Z with
  | Lt => q
  | Gt => (q + 1)%Z
  | Eq => if Z.even q then q else (q + 1)%Z
  end.

(** The number of low bits to drop so that 53 are left; at least [extra] *)
Definition shift_of (extra p : Z) : Z := Z.max (Z.log2 p - 52) extra.

(** [p >= 0] counts units of [2^-(1074 + extra)]; the result counts units
    of [2^-1074] *)
Definition round_nonneg (extra p : Z) : Z :=
  let s := shift_of extra p in
  (round_shift p s * 2 ^ (s - extra))%Z.

Definition round (extra p : Z) : Z :=
  if (p <? 0)%Z then (- round_nonneg extra (- p))%Z else round_nonneg extra p.

(** [(2^53 - 1) * 2^971], in units of [2^-1074] *)
Definition max_float : Z := ((2 ^ 53 - 1) * 2 ^ 2045)%Z.

Definition pack (k : Z) : t :=
  if (Z.abs k <=? max_float)%Z then Finite k else Infinite (k <? 0)%Z.

Definition add (a b : t) : t :=
  match a, b with
  | Finite x, Finite y => pack (round 0 (x + y))
  | Infinite s, Finite _ | Finite _, Infinite s => Infinite s
  | Infinite s, Infinite s' => if Bool.eqb s s' then Infinite s else NaN
  | _, _ => NaN
  end.

Definition mul (a b : t) : t :=
  match a, b with
  | Finite x, Finite y => pack (round 1074 (x * y))
  | Infinite s, Finite y | Finite y, Infinite s =>
      if (y =? 0)%Z then NaN else Infinite (xorb s (y <? 0)%Z)
  | Infinite s, Infinite s' => Infinite (xorb s s')
  | _, _ => NaN
  end.

(** [k] counts a binary64 number *)
Definition is_float (k : Z) : bool :=
  (Z.abs k <=? max_float)%Z && (round 0 k =? k)%Z.

(** [1.0], and the integer [z] *)
Definition one : Z := (2 ^ 1074)%Z.
Definition of_Z (z : Z) : Z := (z * one)%Z.

(** The literal [1e-6]: the float [0x1.0c6f7a0b5ed8dp-20] *)
Definition epsilon : Z := (4722366482869645 * 2 ^ 1002)%Z.

(** [n / d] rounded to the nearest integer, ties to even ([0 <= n],
    [0 < d]) *)
Definition round_quot (n d : Z) : Z :=
  let q := (n / d)%Z in
  match (2 * (n mod d) ?= d)%Z with
  | Lt => q
  | Gt => (q + 1)%Z
  | Eq => if Z.even q then q else (q + 1)%Z
  end.

(** The quotient of [n] by [d], both positive, rounded to 53 bits *)
Definition div_nonneg (n d : Z) : Z :=
  let s := shift_of 0 (n / d) in
  (round_quot n (d * 2 ^ s) * 2 ^ s)%Z.

(** [a / b] for Python floats: a zero divisor raises *)
Definition div (a b : t) : result t :=
  match a, b with
  | _, Finite 0 => Err ZeroDivisionError
  | Finite x, Finite y =>
      let m := div_nonneg (Z.abs x * 2 ^ 1074) (Z.abs y) in
      Ok (pack (if xorb (x <? 0)%Z (y <? 0)%Z then (- m)%Z else m))
  | Finite _, Infinite _ => Ok (Finite 0)
  | Infinite s, Finite y => Ok (Infinite (xorb s (y <? 0)%Z))
  | _, _ => Ok NaN
  end.

(** [a == b] and [a < b] *)
Definition eqb (a b : t) : bool :=
  match a, b with
  | Finite x, Finite y => (x =? y)%Z
  | Infinite s, Infinite s' => Bool.eqb s s'
  | _, _ => false
  end.

Definition ltb (a b : t) : bool :=
  match a, b with
  | Finite x, Finite y => (x <? y)%Z
  | Infinite true, Finite _ | Finite _, Infinite false => true
  | Infinite true, Infinite false => true
  | _, _ => false
  end.

(** The literal [.9]: the float [0x1.ccccccccccccdp-1] *)
Definition nine_tenths : Z := (8106479329266893 * 2 ^ 1021)%Z.

(** The same number in the Standard Library's specification of IEEE 754 *)
Definition to_spec (x : t) : SpecFloat.spec_float :=
  match x with
  | NaN => SpecFloat.S754_nan
  | Infinite s => SpecFloat.S754_infinity s
  | Finite k =>
      match Z.abs k with
      | Zpos p =>
          let s := Z.max (Z.log2 (Zpos p) - 52) 0 in
          SpecFloat.S754_finite (k <? 0)%Z (Z.to_pos (Zpos p / 2 ^ s)) (s - 1074)
      | _ => SpecFloat.S754_zero false
      end
  end.

End Binary64.

(** *** The GPU split of get_hypers, on floats *)

(** The lines under [# GPU split] on the float that [--gpu_split] parses
    to: [None] stands for [session_config = None], and [Some f] for a
    configuration with fraction [f]. *)
Definition session_fraction (g : Binary64.t) : result (option Binary64.t) :=
  if negb (Binary64.eqb g (Binary64.Finite Binary64.one)) then
    match (if Binary64.ltb (Binary64.Finite Binary64.one) g
           then Binary64.div (Binary64.Finite Binary64.nine_tenths) g
           else Ok g) with
    | Ok f => Ok (Some f)
    | Err e => Err e
    end
  else Ok None.

(** ** main_gp: the vector codec, the bounds table and the jitter *)

Module MainGP.

(** [hyper['vals']] and [hyper['type']] *)
Definition vals_of (e : entry) : result (list scalar) :=
  match e with
  | Spec h => match h_vals h with Some l => Ok l | None => Err (KeyError (VStr "vals")) end
  | Literal _ => Err TypeError
  end.

Definition type_of (e : entry) : result kind :=
  match e with
  | Spec h => Ok (h_type h)
  | Literal _ => Err TypeError
  end.

(** [{k: v for k, v in hypers_.items() if k not in hardcoded}] *)
Definition searched (hypers_ : Dict.t entry) (hardcoded : flat_record) : Dict.t entry :=
  filter (fun kv => negb (Dict.mem (fst kv) hardcoded)) hypers_.

Definition max_num_vals (hypers_ : Dict.t entry) : result nat :=
  for_each (fun m kv => l <- vals_of (snd kv) ;; Ok (Nat.max m (length l)))
           0%nat hypers_.

(** The cell of row [i] after [ffill]: the [i]th value, or the last one. *)
Definition cell (i : nat) (vals : list scalar) : scalar :=
  nth i vals (last vals VNone).

Definition coverage_row (hypers_ : Dict.t entry) (i : nat) : result (Dict.t scalar) :=
  for_each (fun row kv => l <- vals_of (snd kv) ;; Ok (row ++ [(fst kv, cell i l)]))
           [] hypers_.

Definition coverage (hypers_ : Dict.t entry) : result (list (Dict.t scalar)) :=
  n <- max_num_vals hypers_ ;;
  for_each (fun rows i => r <- coverage_row hypers_ i ;; Ok (rows ++ [r]))
           [] (seq 0 n).

Definition feat_names (hypers_ : Dict.t entry) : result (list string) :=
  rows <- coverage hypers_ ;;
  Ok (DictVectorizer.fit rows).

(** *** The bounds table *)

(** [min(l)] and [max(l)]: the first least, the first greatest *)
Fixpoint extremum (pick_new : scalar -> scalar -> result bool) (cur : scalar)
         (l : list scalar) : result scalar :=
  match l with
  | [] => Ok cur
  | x :: rest =>
      b <- pick_new x cur ;;
      extremum pick_new (if b then x else cur) rest
  end.

Definition py_min (l : list scalar) : result scalar :=
  match l with
  | [] => Err ValueError
  | x :: rest => extremum (fun new cur => Py.gt cur new) x rest
  end.

Definition py_max (l : list scalar) : result scalar :=
  match l with
  | [] => Err ValueError
  | x :: rest => extremum (fun new cur => Py.gt new cur) x rest
  end.

(** The loop variables [bounded, min_, max_]: unbound before the first
    assignment, and kept from one turn to the next. *)
Definition loop_vars : Type := option (bool * scalar * scalar).

Definition bounds_step (hypers_ : Dict.t entry)
           (st : loop_vars * list (scalar * scalar)) (k : string)
  : result (loop_vars * list (scalar * scalar)) :=
  let (vars, bounds) := st in
  vars <- match Dict.get k hypers_ with
          | Some (Spec h) =>
              ty <- type_of (Spec h) ;;
              vals <- vals_of (Spec h) ;;
              lo <- py_min vals ;;
              vals <- vals_of (Spec h) ;;
              hi <- py_max vals ;;
              Ok (Some (kind_eqb ty KBounded, lo, hi))
          | Some (Literal v) =>
              if Py.truthy v then Err TypeError else Ok vars
          | None => Ok vars
          end ;;
  match vars with
  | None => Err (NameError "bounded")
  | Some (bounded, min_, max_) =>
      let b := if bounded then (min_, max_) else (VInt 0, VInt 1) in
      Ok (vars, bounds ++ [b])
  end.

Definition bounds_table (hypers_ : Dict.t entry) (names : list string)
  : result (list (scalar * scalar)) :=
  r <- for_each (bounds_step hypers_) (None, []) names ;;
  Ok (snd r).

(** *** hypers2vec and vec2hypers *)

(** [float(v)] for a bool, [v or 0.] otherwise.  The vectorizer then
    stores the number as a [float64]: that is the number itself for a
    float and for an int of magnitude up to [2^53], and a rounded value
    for a larger int, which the model does not follow. *)
Definition encode_value (v : scalar) : DictVectorizer.feature_value :=
  match v with
  | VBool b => DictVectorizer.FNum (Py.float_of_bool b)
  | VInt z => DictVectorizer.FNum (if (z =? 0)%Z then 0 else inject_Z z)
  | VFloat q => DictVectorizer.FNum (if Qeq_bool q 0 then 0 else q)
  | VStr s => if String.eqb s "" then DictVectorizer.FNum 0 else DictVectorizer.FStr s
  | VNone => DictVectorizer.FNum 0
  end.

Definition hypers2vec (names : list string) (hardcoded : flat_record)
           (obj : flat_record) : list Q :=
  let h := fold_left (fun h kv =>
                        if Dict.mem (fst kv) hardcoded then h
                        else Dict.set (fst kv) (encode_value (snd kv)) h)
                     obj [] in
  DictVectorizer.transform names h.

(** [k.split('=')[i]] *)
Definition part (i : nat) (k : string) : string :=
  nth i (split_on "=" k) "".

(** The inner loop: the option of [attr] with the greatest activation,
    the first one on ties. *)
Definition winner (reversed : Dict.t Q) (attr : string) (score : Q) (val : string)
  : Q * string :=
  fold_left (fun (best : Q * string) (kv : string * Q) =>
               if String.prefix (attr ++ "=")%string (fst kv)
                  && negb (Qle_bool (snd kv) (fst best))
               then (snd kv, part 1 (fst kv))
               else best)
            reversed (score, val).

Definition decode_step (reversed : Dict.t Q) (obj : flat_record) (kv : string * Q)
  : flat_record :=
  let (k, v) := kv in
  if negb (has_char "=" k) then Dict.set k (VFloat v) obj
  else if Dict.mem k obj then obj
  else Dict.set (part 0 k) (VStr (snd (winner reversed (part 0 k) v (part 1 k)))) obj.

(** [obj[k] = bool(round(obj.get(k, 0.)))] for the bool hypers *)
Definition bool_step (obj : flat_record) (kv : string * entry) : result flat_record :=
  ty <- type_of (snd kv) ;;
  match ty with
  | KBool =>
      let cur := match Dict.get (fst kv) obj with Some v => v | None => VFloat 0 end in
      r <- Py.round cur ;;
      Ok (Dict.set (fst kv) (VBool (Py.truthy r)) obj)
  | _ => Ok obj
  end.

Definition vec2hypers (names : list string) (hypers_ : Dict.t entry) (vec : list Q)
  : result flat_record :=
  reversed <- DictVectorizer.inverse_transform names vec ;;
  let obj := fold_left (decode_step reversed) reversed [] in
  for_each bool_step obj hypers_.

(** *** What [main_gp] sets up before its loop

    [HSearchEnv] is built with the default agent; the closures
    [hypers2vec] and [vec2hypers] capture [hypers_], [hardcoded] and the
    fitted vectorizer. *)

Record codec : Type := {
  c_hypers : Dict.t entry;
  c_hardcoded : flat_record;
  c_names : list string;
  c_bounds : list (scalar * scalar)
}.

Definition setup {C : Collaborators} (gpu_split : Q) (net_type : string) : result codec :=
  hsearch <- HSearchEnv.init "ppo_agent" gpu_split net_type ;;
  let hardcoded := HSearchEnv.hardcoded hsearch in
  let hypers_ := searched (HSearchEnv.hypers hsearch) hardcoded in
  names <- feat_names hypers_ ;;
  bounds <- bounds_table hypers_ names ;;
  Ok {| c_hypers := hypers_; c_hardcoded := hardcoded;
        c_names := names; c_bounds := bounds |}.

Definition encode (c : codec) (obj : flat_record) : list Q :=
  hypers2vec (c_names c) (c_hardcoded c) obj.

Definition decode (c : codec) (vec : list Q) : result flat_record :=
  vec2hypers (c_names c) (c_hypers c) vec.

(** The bounds of the slot of one feature name *)
Definition slot_bounds (c : codec) (name : string) : option (scalar * scalar) :=
  match DictVectorizer.index_of name (c_names c) with
  | Some i => nth_error (c_bounds c) i
  | None => None
  end.

(** *** The jitter before the Gaussian-process fit

    [rand n] is the [n]th value [np.random.random()] returns, a float in
    [[0, 1)]; the counter is threaded through the loops. *)




(** *** What the round trip relies on in a codec

    The conditions below hold of the codecs [setup] builds from the
    shipped catalogue; they are checked by computation. *)

Definition mem_name (n : string) (names : list string) : bool :=
  existsb (String.eqb n) names.

(** A declared option of a categorical hyper: a non-empty string without
    [=], with a slot of its own *)
Definition option_ok (k : string) (names : list string) (v : scalar) : bool :=
  match v with
  | VStr s =>
      negb (String.eqb s "") && negb (has_char "=" s)
      && mem_name (DictVectorizer.feature_name k s) names
  | _ => false
  end.

Definition key_ok (names : list string) (hardcoded : flat_record) (kv : string * entry)
  : bool :=
  negb (has_char "=" (fst kv)) && negb (Dict.mem (fst kv) hardcoded)
  && match snd kv with
     | Spec h =>
         match h_type h, h_vals h with
         | KInt, Some vals =>
             negb (mem_name (fst kv) names) && forallb (option_ok (fst kv) names) vals
         | KBool, Some vals =>
             mem_name (fst kv) names
             && forallb (fun v => scalar_eqb v (VInt 0) || scalar_eqb v (VInt 1)) vals
         | KBounded, _ => true
         | _, None => false
         end
     | Literal _ => false
     end.

(** A feature name with [=] is [k=s] for a categorical key [k]. *)
Definition slot_ok (hypers_ : Dict.t entry) (n : string) : bool :=
  if has_char "=" n then
    String.eqb n (DictVectorizer.feature_name (part 0 n) (part 1 n))
    && match Dict.get (part 0 n) hypers_ with
       | Some (Spec h) => kind_eqb (h_type h) KInt
       | _ => false
       end
  else true.

(** Only the slots of [k] start with [k=]. *)
Definition prefix_ok (hypers_ : Dict.t entry) (names : list string) : bool :=
  forallb (fun kv : string * entry =>
             forallb (fun n => implb (String.prefix (fst kv ++ "=")%string n)
                                     (has_char "=" n && String.eqb (part 0 n) (fst kv)))
                     names)
          hypers_.

Definition codec_wf (c : codec) : bool :=
  Dict.distinct (c_names c)
  && Dict.distinct (Dict.keys (c_hypers c))
  && forallb (key_ok (c_names c) (c_hardcoded c)) (c_hypers c)
  && forallb (slot_ok (c_hypers c)) (c_names c)
  && prefix_ok (c_hypers c) (c_names c).

(** [v in hyper['vals']] *)
Definition in_domain (v : scalar) (h : hyper) : bool :=
  match h_vals h with
  | Some vals => existsb (Py.eq v) vals
  | None => false
  end.

(** What the entries of a dict add to the column of one feature name *)
Fixpoint contribution (n : string) (h : Dict.t DictVectorizer.feature_value) : Q :=
  match h with
  | [] => 0
  | kv :: rest =>
      let (name, q) := DictVectorizer.column (fst kv) (snd kv) in
      if String.eqb name n then q + contribution n rest else contribution n rest
  end.

(** The dict [h] that [hypers2vec] hands to the vectorizer *)
Definition encoded (hardcoded : flat_record) (obj : flat_record)
  : Dict.t DictVectorizer.feature_value :=
  fold_left (fun h kv =>
               if Dict.mem (fst kv) hardcoded then h
               else Dict.set (fst kv) (encode_value (snd kv)) h)
            obj [].


End MainGP.

(** ** boost_optimization

    The lists [x_list] and [y_list] are objects: the function works on the
    lists its caller holds.  The world keeps the list objects by address,
    the number of draws taken from [np.random] and the arguments
    [loss_fn] has been called with.  The two default lists are created
    once, when the [def] is executed, at address [0] of each store. *)

Module Boost.

Definition vec : Type := list Q.

(** A score as [loss_fn] returns it, [[reward]]; a guess still to run is
    [[None]]. *)
Definition yval : Type := list (option Q).

Record world : Type := {
  x_lists : list (list vec);
  y_lists : list (list yval);
  draws : nat;
  evaluated : list (option vec)
}.

(** The world right after the [def]: the two default lists, empty. *)
Definition at_definition : world :=
  {| x_lists := [[]]; y_lists := [[]]; draws := 0%nat; evaluated := [] |}.

Definition default_x_list : nat := 0%nat.
Definition default_y_list : nat := 0%nat.

(** Computations that change the world and may raise *)
Definition M (A : Type) : Type := world -> world * result A.

Definition ret {A} (a : A) : M A := fun w => (w, Ok a).
Definition raise {A} (e : exn) : M A := fun w => (w, Err e).
Definition bindM {A B} (m : M A) (f : A -> M B) : M B :=
  fun w => match m w with
           | (w', Ok a) => f a w'
           | (w', Err e) => (w', Err e)
           end.

Declare Scope world_scope.
Delimit Scope world_scope with world.
Notation "x <~ c1 ;; c2" := (bindM c1 (fun x => c2))
  (at level 61, c1 at next level, right associativity) : world_scope.
Local Open Scope world_scope.

Fixpoint replace_nth {A} (i : nat) (a : A) (l : list A) : list A :=
  match l, i with
  | [], _ => []
  | _ :: rest, O => a :: rest
  | x :: rest, S j => x :: replace_nth j a rest
  end.

Definition read_x (a : nat) : M (list vec) := fun w => (w, Ok (nth a (x_lists w) [])).
Definition read_y (a : nat) : M (list yval) := fun w => (w, Ok (nth a (y_lists w) [])).

Definition write_x (a : nat) (l : list vec) : M unit :=
  fun w => ({| x_lists := replace_nth a l (x_lists w); y_lists := y_lists w;
               draws := draws w; evaluated := evaluated w |}, Ok tt).

Definition write_y (a : nat) (l : list yval) : M unit :=
  fun w => ({| x_lists := x_lists w; y_lists := replace_nth a l (y_lists w);
               draws := draws w; evaluated := evaluated w |}, Ok tt).

(** A call of [loss_fn]: the call is recorded, the result may be an
    exception. *)
Definition call (loss_fn : option vec -> result yval) (p : option vec) : M yval :=
  fun w => ({| x_lists := x_lists w; y_lists := y_lists w; draws := draws w;
               evaluated := evaluated w ++ [p] |}, loss_fn p).

(** [np.random.uniform(bounds[:, 0], bounds[:, 1], (n, d))]: [n] rows,
    drawn before the loop over them starts. *)
Definition uniform_row (rand : nat -> Q) (bounds : list (Q * Q)) (c : nat) : vec :=
  map (fun jb : nat * (Q * Q) => let (j, b) := jb in
                 (fst b + (snd b - fst b) * rand (c + j)%nat)%Q)
      (combine (seq 0 (length bounds)) bounds).

(** [n] rows, the first one drawn from draw number [c] on *)
Definition pre_samples (rand : nat -> Q) (bounds : list (Q * Q)) (c n : nat) : list vec :=
  map (fun r => uniform_row rand bounds (c + r * length bounds)%nat) (seq 0 n).

Definition uniform (rand : nat -> Q) (bounds : list (Q * Q)) (n : nat) : M (list vec) :=
  fun w =>
    ({| x_lists := x_lists w; y_lists := y_lists w;
        draws := (draws w + n * length bounds)%nat; evaluated := evaluated w |},
     Ok (pre_samples rand bounds (draws w) n)).

(** "Handle any specifically-asked for guesses first" *)
Fixpoint run_guesses (loss_fn : option vec -> result yval) (x_list y_list : nat)
         (indices : list nat) : M unit :=
  match indices with
  | [] => ret tt
  | i :: rest =>
      ys <~ read_y y_list ;;
      match nth_error ys i with
      | None => ret tt
      | Some v =>
          match v with
          | [] => raise IndexError
          | Some _ :: _ => run_guesses loss_fn x_list y_list rest
          | None :: _ =>
              xs <~ read_x x_list ;;
              match nth_error xs i with
              | None => raise IndexError
              | Some x =>
                  y <~ call loss_fn (Some x) ;;
                  ys <~ read_y y_list ;;
                  _ <~ write_y y_list (replace_nth i y ys) ;;
                  run_guesses loss_fn x_list y_list rest
              end
          end
      end
  end.

(** The pre-sample loop: [x_list.append(params)], then
    [y_list.append(loss_fn(params))] *)
Fixpoint pre_sample (loss_fn : option vec -> result yval) (x_list y_list : nat)
         (rows : list vec) : M unit :=
  match rows with
  | [] => ret tt
  | params :: rest =>
      xs <~ read_x x_list ;;
      _ <~ write_x x_list (xs ++ [params]) ;;
      y <~ call loss_fn (Some params) ;;
      ys <~ read_y y_list ;;
      _ <~ write_y y_list (ys ++ [y]) ;;
      pre_sample loss_fn x_list y_list rest
  end.

(** The search for the best prediction *)
Fixpoint best_of (predict : vec -> Q) (best : option vec * Q) (rows : list vec)
  : option vec * Q :=
  match rows with
  | [] => best
  | params :: rest =>
      let prediction := predict params in
      best_of predict
              (if negb (Qle_bool prediction (snd best)) then (Some params, prediction)
               else best)
              rest
  end.

Definition n_candidates : nat := N.to_nat 1000000.

(** [model] is [None] when fewer than five runs were stored. *)
Definition boost_optimization (rand : nat -> Q)
           (model : option (vec -> Q)) (loss_fn : option vec -> result yval)
           (bounds : list (Q * Q)) (x_list y_list : option nat) (n_pre_samples : option Z)
  : M unit :=
  let x_list := match x_list with Some a => a | None => default_x_list end in
  let y_list := match y_list with Some a => a | None => default_y_list end in
  let n_pre_samples := match n_pre_samples with Some n => n | None => 5%Z end in
  ys <~ read_y y_list ;;
  _ <~ run_guesses loss_fn x_list y_list (seq 0 (length ys)) ;;
  xs <~ read_x x_list ;;
  let n_pre_samples := (n_pre_samples - Z.of_nat (length xs))%Z in
  _ <~ (if (0 <? n_pre_samples)%Z
        then rows <~ uniform rand bounds (Z.to_nat n_pre_samples) ;;
             pre_sample loss_fn x_list y_list rows
        else ret tt) ;;
  rows <~ uniform rand bounds n_candidates ;;
  match model with
  | None => raise AttributeError
  | Some predict =>
      let best := best_of predict (None, (-1000)%Q) rows in
      _ <~ call loss_fn (fst best) ;;
      ret tt
  end.

(** *** What the caller finds in its lists afterwards *)

(** The scores once the guesses are run: an entry that starts with [None]
    is replaced by the score of the vector at the same position. *)
Fixpoint refreshed (f : option vec -> yval) (xs : list vec) (ys : list yval) {struct ys}
  : list yval :=
  match ys, xs with
  | v :: ys', x :: xs' =>
      match v with
      | None :: _ => f (Some x) :: refreshed f xs' ys'
      | _ => v :: refreshed f xs' ys'
      end
  | _, _ => ys
  end.

(** The vectors [loss_fn] is called with while the guesses are run *)
Fixpoint guess_calls (xs : list vec) (ys : list yval) {struct ys} : list (option vec) :=
  match ys, xs with
  | v :: ys', x :: xs' =>
      match v with
      | None :: _ => Some x :: guess_calls xs' ys'
      | _ => guess_calls xs' ys'
      end
  | _, _ => []
  end.

End Boost.

(** ** The record the spec expects from [get_winner]

    In the words of the spec: the guess of every schema key that is not
    hard-coded, united with the hard-coded values. *)

Definition guess_entries (hypers_ : Dict.t entry) (hardcoded : flat_record) : flat_record :=
  flat_map (fun kv =>
              match snd kv with
              | Spec h =>
                  match h_guess h with
                  | Some g => if Dict.mem (fst kv) hardcoded then [] else [(fst kv, g)]
                  | None => []
                  end
              | Literal _ => []
              end)
           hypers_.

Definition guess_record (hypers_ : Dict.t entry) (hardcoded : flat_record) : flat_record :=
  guess_entries hypers_ hardcoded ++ hardcoded.

(** What C5 says of one pair of section names *)
Definition winner_check {C : Collaborators} (agent : string) (gpu : Q) (net : string) : bool :=
  match HSearchEnv.init agent gpu net with
  | Ok env =>
      let expected := guess_record (HSearchEnv.hypers env) (HSearchEnv.hardcoded env) in
      returns (HSearchEnv.guesses env) expected
      && returns (HSearchEnv.flatten (HSearchEnv.with_hardcoded env expected) []) expected
  | Err _ => true
  end.

(** ** Shapes of keys, trees and hook results

    What the hydrate loop relies on in the shipped catalogue: a dotted key
    has two segments and starts with one of a few names, no plain key is
    one of these names, and a hook that returns a mapping does not bind
    them. *)

(** Two paths part ways before either ends. *)
Fixpoint diverge (p q : list string) : bool :=
  match p, q with
  | a :: p', b :: q' => if String.eqb a b then diverge p' q' else true
  | _, _ => false
  end.

Definition apart (k q : string) : bool :=
  diverge (split_on "." k) (split_on "." q).

Definition dotted_prefixes : list string := ["net"; "step_optimizer"; "optimizer"].

Definition is_prefix_name (a : string) : bool :=
  existsb (String.eqb a) dotted_prefixes.

Definition key_fits (k : string) : bool :=
  match split_on "." k with
  | [a] => negb (is_prefix_name a)
  | [a; _] => is_prefix_name a
  | _ => false
  end.

(** A mapping in which each of the prefix names is free or bound to a
    mapping *)
Definition roomy (t : tree) : bool :=
  match t with
  | Node d =>
      forallb (fun a => match Dict.get a d with
                        | None | Some (Node _) => true
                        | Some _ => false
                        end)
              dotted_prefixes
  | _ => false
  end.

Definition shaped (r : result tree) : Prop :=
  match r with
  | Ok (Node d) => forallb (fun a => negb (Dict.mem a d)) dotted_prefixes = true
  | _ => True
  end.

Definition hook_shaped (e : entry) : Prop :=
  match e with
  | Spec h =>
      match h_hydrate h with
      | Some hydrate => forall v flat, shaped (hydrate v flat)
      | None => True
      end
  | Literal _ => True
  end.

(** What the proof about [net.width] uses of an environment *)
Record width_ready {C : Collaborators} (env : HSearchEnv.t) : Prop := {
  wr_hooks : Forall (fun kv => hook_shaped (snd kv)) (HSearchEnv.hypers env);
  wr_keys :
    forallb (fun kv : string * entry =>
               key_fits (fst kv)
               && (String.eqb (fst kv) "net.width" || apart (fst kv) "net.width"))
            (HSearchEnv.hypers env) = true;
  wr_section :
    exists section,
      Dict.item (HSearchEnv.agent env) Catalogue.hypers = Ok section /\
      Dict.mem "net.width" section = false;
  wr_spec :
    exists h,
      Dict.get "net.width" (HSearchEnv.hypers env) = Some (Spec h) /\
      h_pre h = Some Py.round /\ h_post h = None /\
      h_hydrate h = Some (scalar_hook two_to_the);
  wr_hardcoded : Dict.get "net.width" (HSearchEnv.hardcoded env) = None
}.

(** ** A concrete setting for the worked examples

    The statements below hold for every instance of [Collaborators].  The
    examples need one: a float power that is exact on integral exponents
    (and uses the integral part of the exponent otherwise), a network
    builder that returns an empty layer list, and an empty run store. *)

Definition example_collaborators : Collaborators :=
  {| float_pow := fun b e => Ok (Qred (Qpower b (Qfloor e)));
     build_net_spec := fun _ _ => Ok [];
     select_run := fun i => Err (KeyError (VInt i)) |}.

Definition empty_env : HSearchEnv.t :=
  {| HSearchEnv.hypers := []; HSearchEnv.agent := ""; HSearchEnv.hardcoded := [];
     HSearchEnv.gpu_split := 1; HSearchEnv.net_type := "" |}.

(** [HSearchEnv(net_type='conv2d')] and [HSearchEnv(net_type='lstm')] *)
Definition example_conv2d : HSearchEnv.t :=
  match HSearchEnv.init (C := example_collaborators) "ppo_agent" 1 "conv2d" with
  | Ok env => env
  | Err _ => empty_env
  end.

Definition example_lstm : HSearchEnv.t :=
  match HSearchEnv.init (C := example_collaborators) "ppo_agent" 1 "lstm" with
  | Ok env => env
  | Err _ => empty_env
  end.

(** The guesses of the conv2d schema, as an actions mapping *)
Definition example_actions : flat_record :=
  [("batch_size", VInt 10); ("keep_last_timestep", VBool true);
   ("optimization_steps", VInt 10); ("discount", VFloat (99 # 100));
   ("entropy_regularization", VInt 2); ("baseline_mode", VBool true);
   ("gae_lambda", VFloat (95 # 100)); ("likelihood_ratio_clipping", VFloat (2 # 10));
   ("step_optimizer.learning_rate", VFloat (65 # 10));
   ("step_optimizer.type", VStr "adam"); ("indicators", VBool true);
   ("net.depth_mid", VInt 3); ("net.depth_post", VInt 2); ("net.width", VFloat 6);
   ("net.funnel", VBool true); ("net.activation", VStr "tanh");
   ("net.dropout", VFloat (1 # 1000)); ("net.l2", VInt 7); ("net.l1", VInt 3);
   ("pct_change", VBool false); ("unimodal", VBool false); ("scale", VBool true);
   ("punish_repeats", VBool false); ("arbitrage", VBool true);
   ("net.window", VInt 2); ("net.stride", VInt 3); ("step_window", VInt 200)].

(** The codec [main_gp] builds for [net_type='conv2d'] *)
Definition example_codec : MainGP.codec :=
  match MainGP.setup (C := example_collaborators) 1 "conv2d" with
  | Ok c => c
  | Err _ => {| MainGP.c_hypers := []; MainGP.c_hardcoded := [];
                MainGP.c_names := []; MainGP.c_bounds := [] |}
  end.

(** ** What [__init__] leaves hard-coded, checked per pair of sections *)

Definition init_check {C : Collaborators} (agent : string) (gpu : Q) (net : string) : bool :=
  match HSearchEnv.init agent gpu net with
  | Ok env =>
      flat_eqb (HSearchEnv.hardcoded env) [("net.type", VStr net)]
      && match Dict.get "net.type" (HSearchEnv.hypers env) with
         | Some (Literal v) => scalar_eqb v (VStr net)
         | _ => false
         end
  | Err _ => true
  end.

(** ** A run store that holds one record

    The FlatRecord of [example_actions] in the conv2d environment, and
    collaborators whose store returns it under every id. *)

Definition example_stored : flat_record :=
  match HSearchEnv.flatten example_conv2d example_actions with
  | Ok flat => flat
  | Err _ => []
  end.

Definition stored_collaborators : Collaborators :=
  {| float_pow := fun b e => Ok (Qred (Qpower b (Qfloor e)));
     build_net_spec := fun _ _ => Ok [];
     select_run := fun _ => Ok example_stored |}.

Definition stored_conv2d : HSearchEnv.t :=
  match HSearchEnv.init (C := stored_collaborators) "ppo_agent" 1 "conv2d" with
  | Ok env => env
  | Err _ => empty_env
  end.

(** ** More of what the shipped codecs satisfy, checked by computation *)

(** A bounded hyper has a slot under its own name. *)
Definition bounded_ok (names : list string) (kv : string * entry) : bool :=
  match snd kv with
  | Spec h =>
      match h_type h with
      | KBounded => MainGP.mem_name (fst kv) names
      | _ => true
      end
  | Literal _ => true
  end.

(** A feature name [k=s] stands for a declared option [s] of [k]; a plain
    feature name is a key of [hypers_]. *)
Definition slot_declared (hypers_ : Dict.t entry) (n : string) : bool :=
  if has_char "=" n then
    match Dict.get (MainGP.part 0 n) hypers_ with
    | Some (Spec h) =>
        match h_vals h with
        | Some vals => existsb (scalar_eqb (VStr (MainGP.part 1 n))) vals
        | None => false
        end
    | _ => false
    end
  else Dict.mem n hypers_.

Definition codec_slots_ok (c : MainGP.codec) : bool :=
  forallb (bounded_ok (MainGP.c_names c)) (MainGP.c_hypers c)
  && forallb (slot_declared (MainGP.c_hypers c)) (MainGP.c_names c).

(** ** print_feature_importances

    With fewer than five rows the function returns at once, that is
    [None]; otherwise it returns the model the grid search fits, which is
    taken from outside ([fit X Y] is its [predict]).  What it prints is
    left out. *)

Definition print_feature_importances
           (fit : list Boost.vec -> list Boost.yval -> Boost.vec -> Q)
           (X : list Boost.vec) (Y : list Boost.yval) (feat_names : list string)
  : option (Boost.vec -> Q) :=
  if (length X <? 5)%nat then None else Some (fit X Y).

(** ** What the hydrate loop relies on, for every key

    In the shipped catalogue two different keys part ways as dotted paths,
    a hook returns a scalar or raises, except the one of baseline_mode,
    which may return a mapping over the three baseline names, and no key
    starts with one of these names. *)

Definition baseline_names : list string :=
  ["baseline"; "baseline_mode"; "baseline_optimizer"].

Definition first_segment (k : string) : string := hd "" (split_on "." k).

Definition hook_result_ok (k : string) (r : result tree) : Prop :=
  match r with
  | Ok (Leaf _) => True
  | Ok (Node d) =>
      k = "baseline_mode" /\
      forallb (fun kv : string * tree => existsb (String.eqb (fst kv)) baseline_names) d = true
  | Ok _ => False
  | Err _ => True
  end.

Definition hook_tidy (kv : string * entry) : Prop :=
  match snd kv with
  | Spec h =>
      match h_hydrate h with
      | Some hydrate => forall v flat, hook_result_ok (fst kv) (hydrate v flat)
      | None => True
      end
  | Literal _ => True
  end.

(** No key starts with one of the two entries that [get_hypers] writes at
    the top of [main] after the hydrate loop *)
Definition keys_off_finish (hypers_ : Dict.t entry) : bool :=
  forallb (fun kv : string * entry =>
             negb (String.eqb (first_segment (fst kv)) "baseline")
             && negb (String.eqb (first_segment (fst kv)) "session_config"))
          hypers_.

Definition keys_apart (hypers_ : Dict.t entry) : bool :=
  forallb (fun kv1 : string * entry =>
             forallb (fun kv2 : string * entry =>
                        String.eqb (fst kv1) (fst kv2) || apart (fst kv1) (fst kv2))
                     hypers_)
          hypers_.

Definition keys_off_baseline (hypers_ : Dict.t entry) : bool :=
  forallb (fun kv : string * entry =>
             String.eqb (fst kv) "baseline_mode"
             || negb (existsb (String.eqb (first_segment (fst kv))) baseline_names))
          hypers_.

Record hydrate_ready (env : HSearchEnv.t) : Prop := {
  hr_hooks : Forall hook_tidy (HSearchEnv.hypers env);
  hr_apart : keys_apart (HSearchEnv.hypers env) = true;
  hr_off : keys_off_baseline (HSearchEnv.hypers env) = true
}.

(** ** bins_of_8

    [int(x // 8) * 8]: floor division, on an [int] or on a [float].  On a
    finite float [x // 8] is the floor of the exact quotient (a division
    by [8] does not round), so that the rational reading is exact. *)

Definition bins_of_8 (x : scalar) : result scalar :=
  match x with
  | VBool b => Ok (VInt (Z.b2z b / 8 * 8))
  | VInt z => Ok (VInt (z / 8 * 8))
  | VFloat q => Ok (VInt (Qfloor (q / 8) * 8))
  | _ => Err TypeError
  end.

(** The same on a float given in binary64, which also covers the floats
    that [Q] leaves out: on an infinity or a NaN, [x // 8] is NaN and
    [int] raises [ValueError].  [Finite k] is [k * 2^-1074], whose eighth
    is [k * 2^-1077]. *)
Definition bins_of_8_float (x : Binary64.t) : result Z :=
  match x with
  | Binary64.Finite k => Ok (k / 2 ^ 1077 * 8)%Z
  | _ => Err ValueError
  end.

(** ** main_gp: the guess turns of the loop

    While [args.guess] is not [-1] a turn of the [while] loop evaluates
    one hand-written guess and goes on to the next turn.  The state is
    [args.guess] and [guess_i]. *)

Module GuessLoop.

(** [l[i]] on a list: a negative index counts from the end. *)
Definition py_index {A} (l : list A) (i : Z) : result A :=
  let n := Z.of_nat (length l) in
  let j := if (i <? 0)%Z then (n + i)%Z else i in
  if (0 <=? j)%Z && (j <? n)%Z
  then match nth_error l (Z.to_nat j) with
       | Some a => Ok a
       | None => Err IndexError
       end
  else Err IndexError.

Definition guess_overrides : list (list flat_record) :=
  [ [ [];
      [("net.l1", VFloat 7); ("net.l2", VFloat 3); ("net.dropout", VFloat (5 # 10))];
      [("pct_change", VBool true)] ];
    [ [("net.l1", VFloat 7); ("net.l2", VFloat 7); ("net.dropout", VFloat (1 # 1000))];
      [("optimization_steps", VInt 20)];
      [("step_optimizer.learning_rate", VFloat (55 # 10))] ];
    [ [("net.l1", VFloat 7); ("net.l2", VFloat 7); ("net.dropout", VFloat (5 # 10))];
      [("net.width", VInt 4)];
      [("net.width", VInt 8)] ];
    [ [("net.l1", VFloat 7); ("net.l2", VFloat 3); ("net.dropout", VFloat (1 # 1000))];
      [("net.activation", VStr "relu")];
      [("net.stride", VInt 2)] ];
    [ [("net.l1", VFloat 3); ("net.l2", VFloat 3); ("net.dropout", VFloat (5 # 10))];
      [("step_window", VInt 400)];
      [("unimodal", VBool true)] ];
    [ [("scale", VBool false)];
      [("baseline_mode", VBool false)];
      [("net.window", VInt 1)] ];
    [ [("net.window", VInt 3)];
      [("net.depth_post", VInt 1)];
      [("net.stride", VInt 1)] ];
    [ [("net.depth_mid", VInt 2)];
      [("punish_repeats", VBool true)];
      [("arbitrage", VBool false)] ];
    [ [("batch_size", VInt 9)];
      [("batch_size", VInt 11)];
      [("indicators", VBool false)] ] ].

(** [{k: v['guess'] for k, v in hypers_.items()}] *)
Definition guess_of (hypers_ : Dict.t entry) : result flat_record :=
  for_each (fun (g : flat_record) (kv : string * entry) =>
              match snd kv with
              | Spec h =>
                  match h_guess h with
                  | Some v => Ok (Dict.set (fst kv) v g)
                  | None => Err (KeyError (VStr "guess"))
                  end
              | Literal _ => Err TypeError
              end)
           [] hypers_.

(** One turn under [if args.guess != -1:], up to the [continue]: the
    vector [loss_fn] is called with, and the state the next turn starts
    from.  [loss_fn] is taken to return. *)
Definition guess_turn (c : MainGP.codec) (args_guess guess_i : Z)
  : result (list Q * (Z * Z)) :=
  guess <- guess_of (MainGP.c_hypers c) ;;
  row <- py_index guess_overrides args_guess ;;
  override <- py_index row guess_i ;;
  let guess := Dict.update guess override in
  let vec := MainGP.encode c guess in
  let guess_i := (guess_i + 1)%Z in
  row <- py_index guess_overrides args_guess ;;
  let args_guess := if (Z.of_nat (length row) - 1 <? guess_i)%Z then (-1)%Z else args_guess in
  Ok (vec, (args_guess, guess_i)).

(** The turns taken until [args.guess] is [-1], [fuel] at most: the
    vectors evaluated, and whether [args.guess] got to [-1]. *)
Fixpoint guess_phase (c : MainGP.codec) (fuel : nat) (args_guess guess_i : Z)
  : result (list (list Q) * bool) :=
  if (args_guess =? -1)%Z then Ok ([], true)
  else match fuel with
       | O => Ok ([], false)
       | S fuel' =>
           '(vec, (g, i)) <- guess_turn c args_guess guess_i ;;
           '(vecs, done) <- guess_phase c fuel' g i ;;
           Ok (vec :: vecs, done)
       end.

End GuessLoop.

(** ** build_net_spec

    The body of [build_net_spec], on the [custom] tree of [get_hypers].
    [Box(hypers['net'])] gives attribute access to the entries of the
    [net] mapping; a missing attribute raises Box's key error, read here
    as [KeyError].  [data.n_cols], whose result the function does not use,
    is taken from outside.  A layer is the dict the source appends, as a
    record of its entries; the tuples [(step_window, 1)] and
    [(step_stride, 1)] are given by their first component. *)

Module NetSpecBuilder.

Inductive layer : Type :=
| Dense (size activation l2_regularization l1_regularization : tree)
| Dropout (rate : tree)
| InternalLstm (size dropout : tree)
| Conv2d (size window stride : Z) (l2_regularization l1_regularization : tree)
| Flatten.

(** [net.name] *)
Definition attr (net : Dict.t tree) (name : string) : result tree :=
  Dict.item name net.

(** The number an operand of [/], [*] or [-] stands for *)
Definition num (t : tree) : result Q :=
  match t with
  | Leaf s => match Py.number s with Some q => Ok q | None => Err TypeError end
  | _ => Err TypeError
  end.

(** [range(t)]: how many turns *)
Definition range_of (t : tree) : result nat :=
  match t with
  | Leaf s => match Py.is_int s with Some z => Ok (Z.to_nat z) | None => Err TypeError end
  | _ => Err TypeError
  end.

(** [bool(t)] *)
Definition truthy (t : tree) : bool :=
  match t with
  | Leaf s => Py.truthy s
  | Node d => negb (Nat.eqb (length d) 0)
  | NetSpec l => negb (Nat.eqb (length l) 0)
  | SessionConfig _ => true
  end.

Definition true_div (a b : Q) : result Q :=
  if Qeq_bool b 0 then Err ZeroDivisionError else Ok (a / b).

(** [t == s] for a string literal [s] *)
Definition is_str (t : tree) (s : string) : bool :=
  match t with
  | Leaf (VStr s') => String.eqb s' s
  | _ => false
  end.

Section Builder.
Variable n_cols : tree -> tree -> result unit.

(** [int(net.width / divisor) if net.funnel else net.width].  The quotient
    is the exact one; the source's is its nearest float, which has the same
    integer part when [net.width] is an int of magnitude below [2^53]. *)
Definition funnel_size (net : Dict.t tree) (divisor : Z) : result tree :=
  funnel <- attr net "funnel" ;;
  if truthy funnel then
    width <- attr net "width" ;;
    w <- num width ;;
    q <- true_div w (inject_Z divisor) ;;
    Ok (Leaf (VInt (Py.truncate q)))
  else attr net "width".

(** One turn of a dense loop: the dense layer, and the dropout layer when
    [net.dropout] is truthy *)
Definition dense_turn (net : Dict.t tree) (activation l2 l1 rate : tree) (divisor : Z)
  : result (list layer) :=
  size <- funnel_size net divisor ;;
  dropout <- attr net "dropout" ;;
  Ok (Dense size activation l2 l1 :: (if truthy dropout then [Dropout rate] else [])).

(** The turns [i = 0 .. n-1] of a dense loop, with divisor [divisor i] *)
Definition dense_loop (net : Dict.t tree) (activation l2 l1 rate : tree)
           (divisor : nat -> Z) (n : nat) : result (list layer) :=
  for_each (fun arr i =>
              ls <- dense_turn net activation l2 l1 rate (divisor i) ;;
              Ok (arr ++ ls))
           [] (seq 0 n).

(** One turn of the mid loop for a network that is not an lstm: the new
    [steps_out] and the layer.  [steps_out] is unbound unless the type is
    conv2d; it is [hypers['step_window']] in the first turn and a float
    afterwards. *)
Definition conv_turn (net : Dict.t tree) (l2 l1 : tree) (steps_out : option tree)
  : result (tree * layer) :=
  so <- match steps_out with
        | Some t => Ok t
        | None => Err (NameError "steps_out")
        end ;;
  window <- attr net "window" ;;
  w <- num window ;;
  so <- num so ;;
  d <- true_div so (w * 10) ;;
  let step_window := Qceiling d in
  stride <- attr net "stride" ;;
  st <- num stride ;;
  d <- true_div (inject_Z step_window) st ;;
  let step_stride := Qceiling d in
  so' <- true_div (so - inject_Z step_window) (inject_Z step_stride) ;;
  let steps_out := Leaf (VFloat (so' + 1)) in
  let step_window := Z.max step_window 3 in
  let step_stride := Z.max step_stride 2 in
  width <- attr net "width" ;;
  wd <- num width ;;
  let size := Z.max 32 (Py.truncate (wd / 4)) in
  Ok (steps_out, Conv2d size step_window step_stride l2 l1).

(** The mid loop: [n] turns *)
Fixpoint mid_loop (net : Dict.t tree) (lstm : bool) (l2 l1 rate : tree)
         (steps_out : option tree) (n : nat) : result (list layer) :=
  match n with
  | O => Ok []
  | S n' =>
      if lstm then
        width <- attr net "width" ;;
        rest <- mid_loop net lstm l2 l1 rate steps_out n' ;;
        Ok (InternalLstm width rate :: rest)
      else
        '(so, l) <- conv_turn net l2 l1 steps_out ;;
        rest <- mid_loop net lstm l2 l1 rate (Some so) n' ;;
        Ok (l :: rest)
  end.

(** The block under [# Pre-layer] *)
Definition pre_block (net : Dict.t tree) (activation l2 l1 rate : tree)
  : result (list layer) :=
  if Dict.mem "depth_pre" net then
    depth_pre <- attr net "depth_pre" ;;
    n <- range_of depth_pre ;;
    dense_loop net activation l2 l1 rate (fun i => (Z.of_nat n - Z.of_nat i + 1)%Z) n
  else Ok [].

(** The block under [# Mid-layer] *)
Definition mid_block (hypers : tree) (net : Dict.t tree) (indicators arbitrage : tree)
           (l2 l1 rate : tree) (baseline : bool) : result (list layer) :=
  type <- attr net "type" ;;
  if is_str type "lstm" && baseline then Ok []
  else
    steps_out <- (if is_str type "conv2d" then
                    _ <- n_cols indicators arbitrage ;;
                    sw <- tree_item "step_window" hypers ;;
                    Ok (Some sw)
                  else Ok None) ;;
    depth_mid <- attr net "depth_mid" ;;
    n <- range_of depth_mid ;;
    layers <- mid_loop net (is_str type "lstm") l2 l1 rate steps_out n ;;
    Ok (layers ++ (if is_str type "conv2d" then [Flatten] else [])).

(** The block under [# Dense] *)
Definition post_block (net : Dict.t tree) (activation l2 l1 rate : tree)
  : result (list layer) :=
  depth_post <- attr net "depth_post" ;;
  n <- range_of depth_post ;;
  dense_loop net activation l2 l1 rate (fun i => (Z.of_nat i + 1)%Z) n.

Definition build_net_spec (hypers : tree) (baseline : bool) : result (list layer) :=
  net <- tree_item "net" hypers ;;
  net <- match net with Node d => Ok d | _ => Err ValueError end ;;
  indicators <- tree_item "indicators" hypers ;;
  arbitrage <- tree_item "arbitrage" hypers ;;
  activation <- attr net "activation" ;;
  l2 <- attr net "l2" ;;
  l1 <- attr net "l1" ;;
  rate <- attr net "dropout" ;;
  pre <- pre_block net activation l2 l1 rate ;;
  mid <- mid_block hypers net indicators arbitrage l2 l1 rate baseline ;;
  post <- post_block net activation l2 l1 rate ;;
  Ok (pre ++ mid ++ post).

End Builder.

(** Kinds of layers, and what a conv2d layer never goes below *)

Definition is_dense_or_dropout (l : layer) : bool :=
  match l with
  | Dense _ _ _ _ | Dropout _ => true
  | _ => false
  end.

Definition is_lstm_layer (l : layer) : bool :=
  match l with
  | InternalLstm _ _ => true
  | _ => false
  end.

Definition conv_within (l : layer) : bool :=
  match l with
  | Conv2d size window stride _ _ => (32 <=? size)%Z && (3 <=? window)%Z && (2 <=? stride)%Z
  | _ => true
  end.

Definition is_conv_layer (l : layer) : bool :=
  match l with
  | Conv2d _ _ _ _ _ => true
  | _ => false
  end.

(** The sizes of the dense layers of a list, in order *)
Definition dense_sizes (ls : list layer) : list tree :=
  flat_map (fun l => match l with Dense size _ _ _ => [size] | _ => [] end) ls.

(** The divisors of [net.width] in a funnel: [depth_pre - i + 1] in the
    turns of the pre loop, [i + 1] in those of the post loop *)
Definition funnel_divisors (n_pre n_post : nat) : list Z :=
  map (fun i => (Z.of_nat n_pre - Z.of_nat i + 1)%Z) (seq 0 n_pre)
  ++ map (fun i => (Z.of_nat i + 1)%Z) (seq 0 n_post).

(** A [custom] tree as [get_hypers] would give it *)
Definition example_net (type : string) (depth_mid : Z) : Dict.t tree :=
  [("type", Leaf (VStr type)); ("activation", Leaf (VStr "tanh"));
   ("l2", Leaf (VFloat (1 # 10))); ("l1", Leaf (VFloat (1 # 100)));
   ("dropout", Leaf (VFloat (1 # 2))); ("depth_pre", Leaf (VInt 1));
   ("width", Leaf (VInt 200)); ("funnel", Leaf (VBool true));
   ("depth_mid", Leaf (VInt depth_mid)); ("depth_post", Leaf (VInt 2));
   ("window", Leaf (VInt 2)); ("stride", Leaf (VInt 2))].

Definition example_custom (type : string) (depth_mid : Z) : tree :=
  Node [("net", Node (example_net type depth_mid));
        ("indicators", Leaf (VBool false)); ("arbitrage", Leaf (VBool true));
        ("step_window", Leaf (VInt 300))].

Definition example_n_cols : tree -> tree -> result unit := fun _ _ => Ok tt.

End NetSpecBuilder.

(** * Properties *)

Unset Implicit Arguments.

(** ** Dictionaries *)

Section DictFacts.
Context {V : Type}.

Lemma get_set_same (k : string) (v : V) (d : Dict.t V) :
  Dict.get k (Dict.set k v d) = Some v.
Proof.
  induction d as [|[k' v'] d IH]; simpl.
  - now rewrite String.eqb_refl.
  - destruct (String.eqb k k') eqn:E; simpl; rewrite E; auto.
Qed.

Lemma get_set_other (k k' : string) (v : V) (d : Dict.t V) :
  k <> k' -> Dict.get k' (Dict.set k v d) = Dict.get k' d.
Proof.
  intros Hne. induction d as [|[k0 v0] d IH]; simpl.
  - destruct (String.eqb k' k) eqn:E; auto.
    apply String.eqb_eq in E. congruence.
  - destruct (String.eqb k k0) eqn:E; simpl.
    + apply String.eqb_eq in E. subst k0.
      destruct (String.eqb k' k) eqn:E'; auto.
      apply String.eqb_eq in E'. congruence.
    + now rewrite IH.
Qed.

Lemma get_none_not_in (k : string) (d : Dict.t V) :
  Dict.get k d = None <-> ~ In k (Dict.keys d).
Proof.
  unfold Dict.keys. induction d as [|[k0 v0] d IH]; simpl; [tauto|].
  destruct (String.eqb k k0) eqn:E.
  - apply String.eqb_eq in E. subst. split; [discriminate|tauto].
  - apply String.eqb_neq in E. rewrite IH. split.
    + intros H [H1|H1]; [congruence|tauto].
    + tauto.
Qed.

Lemma get_some_in (k : string) (v : V) (d : Dict.t V) :
  Dict.get k d = Some v -> In (k, v) d.
Proof.
  induction d as [|[k0 v0] d IH]; simpl; [discriminate|].
  destruct (String.eqb k k0) eqn:E.
  - apply String.eqb_eq in E. intros [= ->]. subst. now left.
  - intros H. right. now apply IH.
Qed.

Lemma in_get_nodup (k : string) (v : V) (d : Dict.t V) :
  NoDup (Dict.keys d) -> In (k, v) d -> Dict.get k d = Some v.
Proof.
  unfold Dict.keys. induction d as [|[k0 v0] d IH]; simpl; [tauto|].
  intros Hnd [Heq|Hin].
  - injection Heq as -> ->. now rewrite String.eqb_refl.
  - inversion Hnd as [|? ? Hni Hnd']; subst.
    destruct (String.eqb k k0) eqn:E.
    + apply String.eqb_eq in E. subst. exfalso. apply Hni.
      change k0 with (fst (k0, v)). now apply in_map.
    + now apply IH.
Qed.

Lemma set_not_in (k : string) (v : V) (d : Dict.t V) :
  Dict.get k d = None -> Dict.set k v d = d ++ [(k, v)].
Proof.
  induction d as [|[k0 v0] d IH]; simpl; auto.
  destruct (String.eqb k k0); [discriminate|].
  intros H. now rewrite IH.
Qed.

Lemma keys_set (k : string) (v : V) (d : Dict.t V) :
  Dict.keys (Dict.set k v d) =
  if Dict.mem k d then Dict.keys d else Dict.keys d ++ [k].
Proof.
  unfold Dict.keys, Dict.mem. induction d as [|[k0 v0] d IH]; simpl; auto.
  destruct (String.eqb k k0) eqn:E; simpl; auto.
  rewrite IH. now destruct (Dict.get k d).
Qed.

Lemma nodup_keys_set (k : string) (v : V) (d : Dict.t V) :
  NoDup (Dict.keys d) -> NoDup (Dict.keys (Dict.set k v d)).
Proof.
  intros Hnd. rewrite keys_set. unfold Dict.mem.
  destruct (Dict.get k d) eqn:G; auto.
  apply get_none_not_in in G.
  apply NoDup_app; auto.
  - apply NoDup_cons; [intros []|constructor].
  - intros x Hx [<-|[]]. contradiction.
Qed.

Lemma nodup_keys_update (d d2 : Dict.t V) :
  NoDup (Dict.keys d) -> NoDup (Dict.keys (Dict.update d d2)).
Proof.
  unfold Dict.update. revert d.
  induction d2 as [|[k v] d2 IH]; simpl; intros d Hnd; auto.
  apply IH. now apply nodup_keys_set.
Qed.

Lemma get_update_other (k : string) (d d2 : Dict.t V) :
  Dict.get k d2 = None -> Dict.get k (Dict.update d d2) = Dict.get k d.
Proof.
  unfold Dict.update. revert d.
  induction d2 as [|[k0 v0] d2 IH]; simpl; intros d Hn; auto.
  destruct (String.eqb k k0) eqn:E; [discriminate|].
  rewrite IH by assumption. apply get_set_other.
  apply String.eqb_neq in E. congruence.
Qed.

Lemma get_update_nodup (k : string) (v : V) (d d2 : Dict.t V) :
  NoDup (Dict.keys d2) -> Dict.get k d2 = Some v ->
  Dict.get k (Dict.update d d2) = Some v.
Proof.
  unfold Dict.update, Dict.keys. revert d.
  induction d2 as [|[k0 v0] d2 IH]; simpl; intros d Hnd Hg; [discriminate|].
  inversion Hnd as [|? ? Hni Hnd']; subst.
  destruct (String.eqb k k0) eqn:E.
  - apply String.eqb_eq in E. subst k0. injection Hg as ->.
    assert (Hn : Dict.get k d2 = None) by now apply get_none_not_in.
    pose proof (get_update_other k (Dict.set k v d) d2 Hn) as H.
    unfold Dict.update in H. rewrite H. apply get_set_same.
  - now apply IH.
Qed.

End DictFacts.

(** ** Loops *)

Lemma for_each_app {S A} (step : S -> A -> result S) (l1 l2 : list A) (s : S) :
  for_each step s (l1 ++ l2) = bind (for_each step s l1) (fun s' => for_each step s' l2).
Proof.
  revert s. induction l1 as [|a l1 IH]; intros s; simpl; auto.
  destruct (step s a); simpl; auto.
Qed.

Lemma for_each_invariant {S A} (step : S -> A -> result S) (P : S -> Prop) (l : list A) :
  (forall s a s', In a l -> P s -> step s a = Ok s' -> P s') ->
  forall s s', P s -> for_each step s l = Ok s' -> P s'.
Proof.
  induction l as [|a l IH]; simpl; intros Hstep s s' Hs Hf.
  - now injection Hf as <-.
  - destruct (step s a) as [s1|e] eqn:E; simpl in Hf; [|discriminate].
    apply (IH (fun s a s' Hin => Hstep s a s' (or_intror Hin)) s1 s'); auto.
    apply (Hstep s a s1); auto.
Qed.

(** ** DotDict *)

Lemma split_on_nonempty (c : ascii) (s : string) : split_on c s <> [].
Proof.
  destruct s as [|a s]; simpl; [discriminate|].
  destruct (Ascii.eqb a c); [discriminate|].
  destruct (split_on c s); discriminate.
Qed.

Section DotDictFacts.
Import DotDict.

Lemma setitem_path_cons (k k2 : string) (rest : list string) (v val : tree) :
  setitem_path v (k :: k2 :: rest) val =
  match v with
  | Node d =>
      bind (setitem_path (match Dict.get k d with Some c => c | None => Node [] end)
                         (k2 :: rest) val)
           (fun c' => Ok (Node (Dict.set k c' d)))
  | _ => Err TypeError
  end.
Proof.
  cbn [setitem_path]. destruct v as [s|d|l|q]; try reflexivity.
  destruct (Dict.get k d); reflexivity.
Qed.

Lemma clear_path_cons (k k2 : string) (rest : list string) (v : tree) :
  clear_path v (k :: k2 :: rest) =
  match v with
  | Node d => clear_path (match Dict.get k d with Some c => c | None => Node [] end)
                         (k2 :: rest)
  | _ => false
  end.
Proof.
  cbn [clear_path]. destruct v as [s|d|l|q]; try reflexivity.
  destruct (Dict.get k d); try reflexivity.
  destruct rest; reflexivity.
Qed.

Lemma setitem_path_clear (path : list string) : forall (v val : tree),
  path <> [] ->
  clear_path v path = true ->
  exists v', setitem_path v path val = Ok v' /\ getitem_path v' path = Ok val.
Proof.
  induction path as [|k rest IH]; intros v val Hne Hc; [congruence|].
  destruct rest as [|k2 rest'].
  - cbn [clear_path setitem_path] in *. destruct v; try discriminate.
    eexists; split; [reflexivity|].
    cbn [getitem_path]. now rewrite get_set_same.
  - assert (Hr : k2 :: rest' <> []) by discriminate.
    rewrite clear_path_cons in Hc. rewrite setitem_path_cons.
    destruct v as [s|d|l|q]; try discriminate.
    destruct (IH _ val Hr Hc) as (c' & S1 & G1).
    rewrite S1. cbn [bind]. eexists; split; [reflexivity|].
    change (getitem_path (Node (Dict.set k c' d)) (k :: k2 :: rest'))
      with (match Dict.get k (Dict.set k c' d) with
            | None => Ok (Leaf VNone)
            | Some c => getitem_path c (k2 :: rest')
            end).
    now rewrite get_set_same.
Qed.

Lemma setitem_path_blocked (path : list string) : forall (v val : tree),
  path <> [] ->
  clear_path v path = false ->
  setitem_path v path val = Err TypeError.
Proof.
  induction path as [|k rest IH]; intros v val Hne Hc; [congruence|].
  destruct rest as [|k2 rest'].
  - cbn [clear_path setitem_path] in *. destruct v; try discriminate; reflexivity.
  - assert (Hr : k2 :: rest' <> []) by discriminate.
    rewrite clear_path_cons in Hc. rewrite setitem_path_cons.
    destruct v as [s|d|l|q]; try reflexivity.
    now rewrite (IH _ val Hr Hc).
Qed.

Lemma getitem_path_cons (k : string) (rest : list string) (d : Dict.t tree) :
  getitem_path (Node d) (k :: rest) =
  match Dict.get k d with
  | None => Ok (Leaf VNone)
  | Some c => getitem_path c rest
  end.
Proof. reflexivity. Qed.

(** Writing one path leaves a path that parts ways with it as it was. *)
Lemma setitem_path_frame (p : list string) :
  forall (q : list string) (t x t' : tree),
    diverge p q = true ->
    setitem_path t p x = Ok t' ->
    getitem_path t' q = getitem_path t q.
Proof.
  induction p as [|a p IH]; intros q t x t' Hd Hs; [discriminate|].
  destruct q as [|b q]; [discriminate|].
  cbn [diverge] in Hd.
  destruct p as [|k2 rest].
  - cbn [setitem_path] in Hs. destruct t as [s|d|l|f]; try discriminate.
    injection Hs as <-. rewrite !getitem_path_cons.
    destruct (String.eqb a b) eqn:E; [discriminate|].
    apply String.eqb_neq in E. now rewrite get_set_other.
  - rewrite setitem_path_cons in Hs. destruct t as [s|d|l|f]; try discriminate.
    destruct (setitem_path
                (match Dict.get a d with Some c => c | None => Node [] end)
                (k2 :: rest) x) as [c'|] eqn:Ec; cbn [bind] in Hs; [|discriminate].
    injection Hs as <-. rewrite !getitem_path_cons.
    destruct (String.eqb a b) eqn:E.
    + apply String.eqb_eq in E. subst b. rewrite get_set_same.
      rewrite (IH q _ x c' Hd Ec).
      destruct (Dict.get a d); auto.
      destruct q as [|b' q']; [discriminate|]. reflexivity.
    + apply String.eqb_neq in E. now rewrite get_set_other.
Qed.

Lemma setitem_ok_getitem (data : tree) (path : string) (val data' : tree) :
  setitem data path val = Ok data' -> getitem data' path = Ok val.
Proof.
  unfold setitem, getitem. intros H.
  pose proof (split_on_nonempty "." path) as Hne.
  destruct (clear_path data (split_on "." path)) eqn:Hc.
  - destruct (setitem_path_clear _ _ val Hne Hc) as (v' & S1 & G1).
    congruence.
  - rewrite (setitem_path_blocked _ _ val Hne Hc) in H. discriminate.
Qed.

End DotDictFacts.

(** C6, as amended.  [DotDict.__setitem__] succeeds exactly when every
    entry that already exists on the way down the path (the store itself
    included) is a mapping: it then creates the mappings that are missing
    and a [__getitem__] of the same path returns the value.  When an
    existing entry on the way is not a mapping it is not overwritten: the
    call raises [TypeError]. *)
Theorem setitem_creates_or_raises (data : tree) (path : string) (val : tree) :
  match DotDict.setitem data path val with
  | Ok data' =>
      DotDict.clear_path data (split_on "." path) = true /\
      DotDict.getitem data' path = Ok val
  | Err e =>
      DotDict.clear_path data (split_on "." path) = false /\ e = TypeError
  end.
Proof.
  pose proof (split_on_nonempty "." path) as Hne.
  unfold DotDict.setitem, DotDict.getitem.
  destruct (DotDict.clear_path data (split_on "." path)) eqn:Hc.
  - destruct (setitem_path_clear _ _ val Hne Hc) as (v' & S1 & G1).
    rewrite S1. auto.
  - rewrite (setitem_path_blocked _ _ val Hne Hc). auto.
Qed.

(** C6 as stated fails: with [{'a': 5}], setting ['a.b'] does not replace
    the [5] by a mapping, it raises. *)
Lemma setitem_through_scalar_raises :
  DotDict.setitem (Node [("a", Leaf (VInt 5))]) "a.b" (Leaf (VInt 1)) = Err TypeError.
Proof. reflexivity. Qed.

(** ** The flatten/hydrate pipeline *)

Lemma distinct_nodup (l : list string) : Dict.distinct l = true -> NoDup l.
Proof.
  induction l as [|k l IH]; simpl; intros H; [constructor|].
  apply andb_true_iff in H. destruct H as [H1 H2].
  constructor; auto.
  intros Hin. apply negb_true_iff in H1.
  assert (existsb (String.eqb k) l = true); [|congruence].
  apply existsb_exists. exists k. split; auto. apply String.eqb_refl.
Qed.

Section PipelineFacts.
Context {C : Collaborators}.
Import HSearchEnv.

Lemma pre_loop_unknown (env : t) (actions : flat_record) :
  forall (flat : flat_record) (k : string),
    In k (Dict.keys actions) -> Dict.get k (hypers env) = None ->
    exists e, for_each (pre_step env) flat actions = Err e.
Proof.
  induction actions as [|[k0 v0] actions IH]; intros flat k Hin Hk; [destruct Hin|].
  cbn [for_each]. destruct (pre_step env flat (k0, v0)) as [flat'|e] eqn:E.
  - cbn [bind]. destruct Hin as [Heq|Hin].
    + simpl in Heq. subst k0. unfold pre_step, Dict.item in E.
      rewrite Hk in E. discriminate.
    + now apply (IH flat' k).
  - now exists e.
Qed.

Lemma pre_loop_stops_at_unknown (env : t) (seen rest : flat_record)
      (k : string) (v : scalar) (flat : flat_record) :
  Dict.get k (hypers env) = None ->
  for_each (pre_step env) [] seen = Ok flat ->
  for_each (pre_step env) [] (seen ++ (k, v) :: rest) = Err (KeyError (VStr k)).
Proof.
  intros Hk Hseen. rewrite for_each_app, Hseen. cbn [bind for_each].
  unfold pre_step, Dict.item. now rewrite Hk.
Qed.

Lemma get_hypers_pre_error (env : t) (actions : flat_record) (e : exn) :
  for_each (pre_step env) [] actions = Err e -> get_hypers env actions = Err e.
Proof.
  intros H. unfold get_hypers, flatten, pre_phase. now rewrite H.
Qed.

(** C2, as amended.  When [actions] holds a key without an entry in
    [self.hypers], [get_hypers] raises and returns nothing; the exception
    is the [KeyError] that names the key when the pre-phase loop reaches
    it, that is when every key before it in [actions] has passed its turn
    of the loop.  Otherwise the exception of the earlier key comes
    first. *)
Theorem unknown_action_key_is_fatal (env : t) (actions : flat_record) (k : string) :
  In k (Dict.keys actions) ->
  Dict.get k (hypers env) = None ->
  (exists e, get_hypers env actions = Err e) /\
  (forall seen v rest flat,
      actions = seen ++ (k, v) :: rest ->
      for_each (pre_step env) [] seen = Ok flat ->
      get_hypers env actions = Err (KeyError (VStr k))).
Proof.
  intros Hin Hk. split.
  - destruct (pre_loop_unknown env actions [] k Hin Hk) as [e He].
    exists e. now apply get_hypers_pre_error.
  - intros seen v rest flat -> Hseen.
    apply get_hypers_pre_error.
    now apply pre_loop_stops_at_unknown with (flat := flat).
Qed.

(** *** Hard-coded values *)

Lemma literals_get (d : Dict.t entry) (k : string) (v : scalar) :
  Dict.get k d = Some (Literal v) -> Dict.get k (literals d) = Some v.
Proof.
  induction d as [|[k0 e0] d IH]; simpl; [discriminate|].
  destruct (String.eqb k k0) eqn:E.
  - intros [= ->]. simpl. now rewrite E.
  - intros H. destruct e0; simpl; [rewrite E|]; auto.
Qed.

Lemma literals_keys_incl (d : Dict.t entry) (k : string) :
  In k (Dict.keys (literals d)) -> In k (Dict.keys d).
Proof.
  unfold Dict.keys. induction d as [|[k0 e0] d IH]; simpl; auto.
  destruct e0; simpl; intuition.
Qed.

Lemma literals_nodup (d : Dict.t entry) :
  NoDup (Dict.keys d) -> NoDup (Dict.keys (literals d)).
Proof.
  unfold Dict.keys. induction d as [|[k0 e0] d IH]; simpl; intros H; auto.
  inversion H as [|? ? Hni Hnd]; subst. destruct e0; simpl; auto.
  constructor; auto. intros Hin. apply Hni. now apply literals_keys_incl.
Qed.

Lemma sections_distinct (name : string) (section : Dict.t entry) :
  Dict.get name Catalogue.hypers = Some section ->
  NoDup (Dict.keys section).
Proof.
  intros H. apply get_some_in in H. apply distinct_nodup.
  cbv [Catalogue.hypers Catalogue.declared map fst snd] in H.
  repeat (destruct H as [H|H]; [injection H as <- <-; vm_compute; reflexivity|]).
  destruct H.
Qed.

Lemma init_hypers_nodup (agent : string) (gpu : Q) (net : string) (env : t) :
  init agent gpu net = Ok env -> NoDup (Dict.keys (hypers env)).
Proof.
  unfold init, Dict.item.
  destruct (Dict.get agent Catalogue.hypers) as [base|] eqn:Ea; [|discriminate].
  cbn [bind].
  destruct (Dict.get "custom" Catalogue.hypers) as [custom|] eqn:Ec; [|discriminate].
  cbn [bind].
  destruct (Dict.get net Catalogue.hypers) as [sec|] eqn:En; [|discriminate].
  cbn [bind]. intros [= <-]. cbn [hypers].
  apply nodup_keys_update, nodup_keys_set, nodup_keys_update.
  now apply sections_distinct with (name := agent).
Qed.

Lemma init_hardcoded (agent : string) (gpu : Q) (net : string) (env : t) :
  init agent gpu net = Ok env -> hardcoded env = literals (hypers env).
Proof.
  unfold init.
  destruct (Dict.item agent Catalogue.hypers); [|discriminate]. cbn [bind].
  destruct (Dict.item "custom" Catalogue.hypers); [|discriminate]. cbn [bind].
  destruct (Dict.item net Catalogue.hypers); [|discriminate]. cbn [bind].
  now intros [= <-].
Qed.

Lemma post_step_keeps_literal (env : t) (k : string) (v : scalar)
      (flat flat' : flat_record) (kv : string * scalar) :
  Dict.get k (hypers env) = Some (Literal v) ->
  Dict.get k flat = Some v ->
  post_step env flat kv = Ok flat' ->
  Dict.get k flat' = Some v.
Proof.
  intros Hk Hf. destruct kv as [k' v']. unfold post_step, Dict.item.
  destruct (Dict.get k' (hypers env)) as [[lit|h]|] eqn:E; cbn [bind];
    try discriminate.
  - now intros [= <-].
  - destruct (h_post h) as [post|]; [|now intros [= <-]].
    destruct (post v' flat) as [v''|]; cbn [bind]; [|discriminate].
    intros [= <-]. rewrite get_set_other; auto.
    intros ->. congruence.
Qed.

Lemma get_hypers_flatten (env : t) (actions flat : flat_record) (main network : tree) :
  get_hypers env actions = Ok (flat, main, network) ->
  flatten env actions = Ok flat.
Proof.
  unfold get_hypers. destruct (flatten env actions) as [flat0|]; cbn [bind]; [|discriminate].
  destruct (hydrate_phase env flat0) as [[m c]|]; cbn [bind]; [|discriminate].
  unfold finish.
  destruct (custom_net c false); cbn [bind]; [|discriminate].
  destruct (Dict.item "baseline_mode" flat0); cbn [bind]; [|discriminate].
  match goal with
  | |- bind ?X _ = _ -> _ => destruct X; cbn [bind]; [|discriminate]
  end.
  match goal with
  | |- bind ?X _ = _ -> _ => destruct X; cbn [bind]; [|discriminate]
  end.
  now intros [= -> _ _].
Qed.

Lemma flatten_keeps_literal (env : t) (actions flat : flat_record)
      (k : string) (v : scalar) :
  NoDup (Dict.keys (hardcoded env)) ->
  Dict.get k (hardcoded env) = Some v ->
  Dict.get k (hypers env) = Some (Literal v) ->
  flatten env actions = Ok flat ->
  Dict.get k flat = Some v.
Proof.
  intros Hnd Hh Hk. unfold flatten, pre_phase.
  destruct (for_each (pre_step env) [] actions) as [flat0|]; cbn [bind]; [|discriminate].
  unfold post_phase.
  apply for_each_invariant with (P := fun f => Dict.get k f = Some v).
  - intros s a s' _ Hs Hstep. eapply post_step_keeps_literal; eauto.
  - now apply get_update_nodup.
Qed.

(** C9.  For an environment built by [__init__], and whatever the
    actions hold, the FlatRecord that [get_hypers] returns maps every
    hard-coded key of the schema to its literal. *)
Theorem hardcoded_literal_overrides_action
        (agent : string) (gpu : Q) (net : string) (env : t)
        (actions flat : flat_record) (main network : tree)
        (k : string) (v : scalar) :
  init agent gpu net = Ok env ->
  Dict.get k (hypers env) = Some (Literal v) ->
  get_hypers env actions = Ok (flat, main, network) ->
  Dict.get k flat = Some v.
Proof.
  intros Hinit Hk Hget.
  apply get_hypers_flatten in Hget.
  pose proof (init_hardcoded _ _ _ _ Hinit) as Hh.
  pose proof (init_hypers_nodup _ _ _ _ Hinit) as Hnd.
  apply flatten_keeps_literal with (env := env) (actions := actions); auto.
  - rewrite Hh. now apply literals_nodup.
  - rewrite Hh. now apply literals_get.
Qed.

(** *** A failing hydrate hook, a failing post hook *)

Lemma for_each_ext_in {S A} (f g : S -> A -> result S) (l : list A) :
  (forall s a, In a l -> f s a = g s a) ->
  forall s, for_each f s l = for_each g s l.
Proof.
  induction l as [|a l IH]; intros H s; cbn [for_each]; auto.
  rewrite (H s a (or_introl eq_refl)).
  destruct (g s a); cbn [bind]; auto.
  apply IH. intros s' a' Hin. apply H. now right.
Qed.

Lemma get_without_hydrate (k k' : string) (env : t) :
  Dict.get k' (hypers (without_hydrate k env)) =
  if String.eqb k' k then option_map drop_hydrate (Dict.get k' (hypers env))
  else Dict.get k' (hypers env).
Proof.
  cbn [without_hydrate hypers].
  induction (hypers env) as [|[k0 e0] d IH]; cbn [map Dict.get fst snd].
  - now destruct (String.eqb k' k).
  - destruct (String.eqb k0 k) eqn:E0; cbn [Dict.get fst snd];
      destruct (String.eqb k' k0) eqn:E1; auto.
    + apply String.eqb_eq in E0, E1. subst.
      now rewrite String.eqb_refl.
    + apply String.eqb_eq in E1. subst. now rewrite E0.
Qed.

Lemma pre_step_without (k : string) (env : t) (flat : flat_record) (kv : string * scalar) :
  pre_step (without_hydrate k env) flat kv = pre_step env flat kv.
Proof.
  destruct kv as [k' v]. unfold pre_step, Dict.item. rewrite get_without_hydrate.
  destruct (String.eqb k' k); auto.
  destruct (Dict.get k' (hypers env)) as [[lit|h]|]; reflexivity.
Qed.

Lemma post_step_without (k : string) (env : t) (flat : flat_record) (kv : string * scalar) :
  post_step (without_hydrate k env) flat kv = post_step env flat kv.
Proof.
  destruct kv as [k' v]. unfold post_step, Dict.item. rewrite get_without_hydrate.
  destruct (String.eqb k' k); auto.
  destruct (Dict.get k' (hypers env)) as [[lit|h]|]; reflexivity.
Qed.

Lemma flatten_without (k : string) (env : t) (actions : flat_record) :
  flatten (without_hydrate k env) actions = flatten env actions.
Proof.
  unfold flatten, pre_phase, post_phase.
  rewrite (for_each_ext_in (pre_step (without_hydrate k env)) (pre_step env))
    by (intros; apply pre_step_without).
  cbn [without_hydrate hardcoded].
  destruct (for_each (pre_step env) [] actions); cbn [bind]; auto.
  apply for_each_ext_in. intros; apply post_step_without.
Qed.

Lemma call_hydrate_without_other (k k' : string) (env : t) (flat : flat_record) (v : scalar) :
  k' <> k ->
  call_hydrate (without_hydrate k env) flat k' v = call_hydrate env flat k' v.
Proof.
  intros Hne. unfold call_hydrate, Dict.item. rewrite get_without_hydrate.
  apply String.eqb_neq in Hne. now rewrite Hne.
Qed.

Lemma call_hydrate_without_same (k : string) (env : t) (flat : flat_record) (v : scalar) :
  exists e, call_hydrate (without_hydrate k env) flat k v = Err e.
Proof.
  unfold call_hydrate, Dict.item. rewrite get_without_hydrate, String.eqb_refl.
  destruct (Dict.get k (hypers env)) as [[lit|h]|]; cbn; eauto.
Qed.

Lemma hydrate_step_without (k : string) (env : t) (flat : flat_record)
      (trees : tree * tree) (kv : string * scalar) :
  (forall v, kv = (k, v) -> exists e, call_hydrate env flat k v = Err e) ->
  hydrate_step (without_hydrate k env) flat trees kv = hydrate_step env flat trees kv.
Proof.
  destruct kv as [k' v], trees as [main custom]. intros H.
  unfold hydrate_step. cbn [without_hydrate agent].
  destruct (String.eqb k' k) eqn:E.
  - apply String.eqb_eq in E. subst k'.
    destruct (H v eq_refl) as [e He].
    destruct (call_hydrate_without_same k env flat v) as [e' He'].
    now rewrite He, He'.
  - apply String.eqb_neq in E.
    now rewrite call_hydrate_without_other.
Qed.

Lemma finish_without (k : string) (env : t) (flat : flat_record) (main custom : tree) :
  finish (without_hydrate k env) flat main custom = finish env flat main custom.
Proof.
  unfold finish, Dict.item. rewrite get_without_hydrate.
  cbn [without_hydrate gpu_split].
  destruct (String.eqb "baseline_mode" k); auto.
  destruct (Dict.get "baseline_mode" (hypers env)) as [[lit|h]|]; reflexivity.
Qed.

Lemma post_hook_error_propagates (env : t) (actions flat seen rest flat' : flat_record)
      (k : string) (v : scalar) (h : hyper)
      (post : scalar -> flat_record -> result scalar) (e : exn) :
  pre_phase env actions = Ok flat ->
  flat = seen ++ (k, v) :: rest ->
  for_each (post_step env) flat seen = Ok flat' ->
  Dict.get k (hypers env) = Some (Spec h) ->
  h_post h = Some post ->
  post v flat' = Err e ->
  get_hypers env actions = Err e.
Proof.
  intros Hpre Hflat Hseen Hk Hp He.
  unfold get_hypers, flatten. rewrite Hpre. cbn [bind].
  unfold post_phase. rewrite Hflat at 2. rewrite for_each_app, Hseen.
  cbn [bind for_each]. unfold post_step at 1, Dict.item.
  rewrite Hk. cbn [bind]. rewrite Hp, He. reflexivity.
Qed.

(** A [hydrate] hook that raises is caught: the call of [get_hypers] goes
    as if the key had no [hydrate] hook, and the turn of the hydrate loop
    binds the key's path in its target tree to the value the FlatRecord
    holds. *)
Lemma raised_hook_as_if_absent (env : t) (actions flat : flat_record) (k : string) :
  flatten env actions = Ok flat ->
  (forall v, In (k, v) flat -> exists e, call_hydrate env flat k v = Err e) ->
  get_hypers env actions = get_hypers (without_hydrate k env) actions /\
  (forall v main custom main' custom' section,
      In (k, v) flat ->
      Dict.item (agent env) Catalogue.hypers = Ok section ->
      hydrate_step env flat (main, custom) (k, v) = Ok (main', custom') ->
      DotDict.getitem (if Dict.mem k section then main' else custom') k
      = Ok (Leaf v)).
Proof.
  intros Hflat Hraise. split.
  - unfold get_hypers. rewrite flatten_without, Hflat. cbn [bind].
    unfold hydrate_phase.
    rewrite (for_each_ext_in (hydrate_step (without_hydrate k env) flat)
                             (hydrate_step env flat)).
    + destruct (for_each (hydrate_step env flat) (Node [], Node []) flat)
        as [[m c]|]; cbn [bind]; auto.
      now rewrite finish_without.
    + intros s a Hin. apply hydrate_step_without.
      intros v ->. now apply Hraise.
  - intros v main custom main' custom' section Hin Hsec.
    destruct (Hraise v Hin) as [e He].
    unfold hydrate_step. rewrite Hsec, He. cbn [bind store].
    destruct (Dict.mem k section).
    + destruct (DotDict.setitem main k (Leaf v)) as [m|] eqn:Es; cbn [bind];
        [|discriminate].
      intros [= <- _]. now apply setitem_ok_getitem with (data := main).
    + destruct (DotDict.setitem custom k (Leaf v)) as [c|] eqn:Es; cbn [bind];
        [|discriminate].
      intros [= _ <-]. now apply setitem_ok_getitem with (data := custom).
Qed.

(** *** get_winner *)

Lemma item_in_keys {V} (k : string) (v : V) (d : Dict.t V) :
  Dict.item k d = Ok v -> In k (Dict.keys d).
Proof.
  unfold Dict.item. destruct (Dict.get k d) eqn:E; [|discriminate].
  intros _. apply get_some_in in E.
  change k with (fst (k, v0)). now apply in_map.
Qed.

Lemma init_names (agent : string) (gpu : Q) (net : string) (env : t) :
  init agent gpu net = Ok env ->
  In agent (Dict.keys Catalogue.hypers) /\ In net (Dict.keys Catalogue.hypers).
Proof.
  unfold init.
  destruct (Dict.item agent Catalogue.hypers) eqn:Ea; [|discriminate]. cbn [bind].
  destruct (Dict.item "custom" Catalogue.hypers); [|discriminate]. cbn [bind].
  destruct (Dict.item net Catalogue.hypers) eqn:En; [|discriminate].
  intros _. split; eapply item_in_keys; eauto.
Qed.

Lemma scalar_eqb_eq (a b : scalar) : scalar_eqb a b = true -> a = b.
Proof.
  destruct a, b; simpl; try discriminate; intros H; try reflexivity.
  - apply Bool.eqb_prop in H. now subst.
  - apply Z.eqb_eq in H. now subst.
  - apply andb_true_iff in H. destruct H as [H1 H2].
    apply Z.eqb_eq in H1. apply Pos.eqb_eq in H2.
    destruct q, q0. simpl in *. now subst.
  - apply String.eqb_eq in H. now subst.
Qed.

Lemma flat_eqb_eq (a b : flat_record) : flat_eqb a b = true -> a = b.
Proof.
  revert b. induction a as [|[k v] a IH]; intros [|[k' v'] b]; simpl;
    try discriminate; auto.
  intros H. apply andb_true_iff in H. destruct H as [H H3].
  apply andb_true_iff in H. destruct H as [H1 H2].
  apply String.eqb_eq in H1. apply scalar_eqb_eq in H2.
  f_equal; [congruence|now apply IH].
Qed.

Lemma returns_eq (r : result flat_record) (expected : flat_record) :
  returns r expected = true -> r = Ok expected.
Proof.
  destruct r; simpl; [|discriminate]. intros H. f_equal. now apply flat_eqb_eq.
Qed.

Lemma winner_checks (gpu : Q) :
  forallb (fun agent =>
             forallb (fun net => winner_check agent gpu net) (Dict.keys Catalogue.hypers))
          (Dict.keys Catalogue.hypers) = true.
Proof. vm_compute. reflexivity. Qed.

Lemma winner_is_guess_record (agent : string) (gpu : Q) (net : string) (env : t) :
  init agent gpu net = Ok env ->
  guesses env = Ok (guess_record (hypers env) (hardcoded env)) /\
  flatten (with_hardcoded env (guess_record (hypers env) (hardcoded env))) []
  = Ok (guess_record (hypers env) (hardcoded env)).
Proof.
  intros Hinit. destruct (init_names _ _ _ _ Hinit) as [Ha Hn].
  pose proof (winner_checks gpu) as H.
  rewrite forallb_forall in H. specialize (H agent Ha).
  rewrite forallb_forall in H. specialize (H net Hn).
  unfold winner_check in H. rewrite Hinit in H.
  apply andb_true_iff in H. destruct H as [H1 H2].
  split; now apply returns_eq.
Qed.

(** C5.  For an environment built by [__init__] (every spec of the
    catalogue has a guess), [get_winner()] without an id leaves
    [get_hypers] with the FlatRecord made of the guesses of the keys
    that are not hard-coded and of the hard-coded values: that record is
    what the first two loops produce, what the environment keeps as
    [hardcoded], and the FlatRecord of every result the call returns. *)
Theorem get_winner_flat_is_guess_record
        (agent : string) (gpu : Q) (net : string) (env : t) :
  init agent gpu net = Ok env ->
  let expected := guess_record (hypers env) (hardcoded env) in
  winner_of env None = Ok expected /\
  hardcoded (fst (get_winner env None)) = expected /\
  flatten (fst (get_winner env None)) [] = Ok expected /\
  (forall flat main network,
      snd (get_winner env None) = Ok (flat, main, network) -> flat = expected).
Proof.
  intros Hinit expected.
  destruct (winner_is_guess_record _ _ _ _ Hinit) as [Hg Hf].
  fold expected in Hg, Hf.
  unfold get_winner. cbn [winner_of]. rewrite Hg. cbn [fst snd].
  repeat split; auto.
  intros flat main network H. apply get_hypers_flatten in H.
  congruence.
Qed.

(** *** The hydrate loop on the shipped catalogue *)

Lemma is_prefix_name_in (a : string) :
  is_prefix_name a = true <-> In a dotted_prefixes.
Proof.
  unfold is_prefix_name. rewrite existsb_exists. split.
  - intros (x & Hin & E). apply String.eqb_eq in E. now subst.
  - intros H. exists a. split; auto. apply String.eqb_refl.
Qed.

Lemma roomy_get (d : Dict.t tree) (a : string) :
  roomy (Node d) = true -> In a dotted_prefixes ->
  Dict.get a d = None \/ exists d', Dict.get a d = Some (Node d').
Proof.
  cbn [roomy]. rewrite forallb_forall. intros H Hin. specialize (H a Hin).
  destruct (Dict.get a d) as [[s|d'|l|f]|]; try discriminate; eauto.
Qed.

Lemma roomy_intro (d : Dict.t tree) :
  (forall a, In a dotted_prefixes ->
             Dict.get a d = None \/ exists d', Dict.get a d = Some (Node d')) ->
  roomy (Node d) = true.
Proof.
  intros H. cbn [roomy]. rewrite forallb_forall. intros a Hin.
  destruct (H a Hin) as [->|[d' ->]]; reflexivity.
Qed.

Lemma setitem_fits (obj : tree) (k : string) (x : tree) :
  roomy obj = true -> key_fits k = true ->
  exists obj', DotDict.setitem obj k x = Ok obj' /\ roomy obj' = true.
Proof.
  intros Hr Hk. unfold key_fits in Hk. unfold DotDict.setitem.
  destruct obj as [s|d|l|f]; try discriminate.
  destruct (split_on "." k) as [|a [|b [|c rest]]]; try discriminate.
  - cbn [DotDict.setitem_path]. eexists; split; [reflexivity|].
    apply roomy_intro. intros p Hp.
    assert (a <> p).
    { intros ->. apply is_prefix_name_in in Hp. rewrite Hp in Hk. discriminate. }
    rewrite get_set_other by assumption. now apply roomy_get.
  - apply is_prefix_name_in in Hk. rewrite setitem_path_cons.
    assert (exists c', DotDict.setitem_path
                         (match Dict.get a d with Some c => c | None => Node [] end)
                         [b] x = Ok (Node c')) as [c' Hc'].
    { destruct (roomy_get d a Hr Hk) as [->|[d' ->]]; cbn [DotDict.setitem_path]; eauto. }
    rewrite Hc'. cbn [bind]. eexists; split; [reflexivity|].
    apply roomy_intro. intros p Hp.
    destruct (String.eqb a p) eqn:E.
    + apply String.eqb_eq in E. subst p. rewrite get_set_same. eauto.
    + apply String.eqb_neq in E. rewrite get_set_other by assumption.
      now apply roomy_get.
Qed.

Lemma store_fits (obj : tree) (k : string) (v : scalar) (r : result tree) :
  roomy obj = true -> key_fits k = true -> shaped r ->
  exists obj', store obj k v r = Ok obj' /\ roomy obj' = true.
Proof.
  intros Hr Hk Hs.
  assert (Hset : forall x, exists obj',
             match DotDict.setitem obj k x with
             | Ok o => Ok o
             | Err _ => DotDict.setitem obj k x
             end = Ok obj' /\ roomy obj' = true).
  { intros x. destruct (setitem_fits obj k x Hr Hk) as (obj' & E & Hr').
    rewrite E. eauto. }
  destruct r as [[s|d|l|f]|e]; cbn [store]; auto.
  - destruct obj as [s0|d0|l0|f0]; try discriminate. cbn [DotDict.update].
    eexists; split; [reflexivity|].
    apply roomy_intro. intros p Hp.
    cbn [shaped] in Hs. rewrite forallb_forall in Hs. specialize (Hs p Hp).
    unfold Dict.mem in Hs.
    destruct (Dict.get p d) eqn:E; [discriminate|].
    rewrite get_update_other by assumption. now apply roomy_get.
  - apply setitem_fits; assumption.
Qed.

Lemma store_frame (obj : tree) (k : string) (v : scalar) (r : result tree)
      (q : string) (obj' : tree) :
  shaped r ->
  apart k q = true ->
  is_prefix_name (hd "" (split_on "." q)) = true ->
  store obj k v r = Ok obj' ->
  DotDict.getitem obj' q = DotDict.getitem obj q.
Proof.
  intros Hs Ha Hq. unfold DotDict.getitem.
  assert (Hset : forall x, match DotDict.setitem obj k x with
                           | Ok o => Ok o
                           | Err _ => DotDict.setitem obj k x
                           end = Ok obj' ->
                           DotDict.getitem_path obj' (split_on "." q)
                           = DotDict.getitem_path obj (split_on "." q)).
  { intros x H. apply setitem_path_frame with (p := split_on "." k) (x := x); auto.
    unfold DotDict.setitem in H.
    destruct (DotDict.setitem_path obj (split_on "." k) x); auto. }
  destruct r as [[s|d|l|f]|e]; cbn [store]; try apply Hset.
  - destruct obj as [s0|d0|l0|f0]; cbn [DotDict.update];
      try (intros H;
           now apply setitem_path_frame with (p := split_on "." k) (x := Node d)).
    intros [= <-].
    destruct (split_on "." q) as [|a rest]; [vm_compute in Hq; discriminate|].
    cbn [hd] in Hq. apply is_prefix_name_in in Hq.
    rewrite !getitem_path_cons.
    cbn [shaped] in Hs. rewrite forallb_forall in Hs. specialize (Hs a Hq).
    unfold Dict.mem in Hs.
    destruct (Dict.get a d) eqn:E; [discriminate|].
    now rewrite get_update_other.
  - intros H. now apply setitem_path_frame with (p := split_on "." k) (x := Leaf v).
Qed.

Lemma call_hydrate_shaped (env : t) (flat : flat_record) (k : string) (v : scalar) :
  Forall (fun kv => hook_shaped (snd kv)) (hypers env) ->
  shaped (call_hydrate env flat k v).
Proof.
  intros H. unfold call_hydrate, Dict.item.
  destruct (Dict.get k (hypers env)) as [e|] eqn:E; cbn [bind]; [|exact I].
  apply get_some_in in E. rewrite Forall_forall in H. specialize (H _ E).
  cbn [snd] in H. destruct e as [lit|h]; [exact I|].
  cbn [hook_shaped] in H. destruct (h_hydrate h); [apply H|exact I].
Qed.

Lemma known_key_fits (env : t) (k : string) (e : entry) :
  width_ready env -> Dict.get k (hypers env) = Some e ->
  key_fits k = true /\ (k <> "net.width" -> apart k "net.width" = true).
Proof.
  intros [_ Hkeys _ _ _] E. apply get_some_in in E.
  rewrite forallb_forall in Hkeys. specialize (Hkeys _ E). cbn [fst] in Hkeys.
  apply andb_true_iff in Hkeys. destruct Hkeys as [H1 H2]. split; auto.
  intros Hne. apply orb_true_iff in H2. destruct H2 as [H2|H2]; auto.
  apply String.eqb_eq in H2. contradiction.
Qed.

Lemma hydrate_step_ready (env : t) (flat : flat_record) (main custom : tree)
      (k : string) (v : scalar) :
  width_ready env ->
  (exists e, Dict.get k (hypers env) = Some e) ->
  roomy main = true -> roomy custom = true ->
  exists main' custom',
    hydrate_step env flat (main, custom) (k, v) = Ok (main', custom') /\
    roomy main' = true /\ roomy custom' = true /\
    (k <> "net.width" ->
     DotDict.getitem custom' "net.width" = DotDict.getitem custom "net.width").
Proof.
  intros Hw [e He] Hm Hc.
  destruct (known_key_fits env k e Hw He) as [Hfit Hapart].
  pose proof (call_hydrate_shaped env flat k v (wr_hooks Hw)) as Hs.
  destruct (wr_section Hw) as (section & Hsec & _).
  unfold hydrate_step. rewrite Hsec. cbn [bind].
  destruct (Dict.mem k section).
  - destruct (store_fits main k v _ Hm Hfit Hs) as (main' & -> & Hm'). cbn [bind].
    exists main', custom. auto.
  - destruct (store_fits custom k v _ Hc Hfit Hs) as (custom' & E & Hc'). rewrite E. cbn [bind].
    exists main, custom'. repeat split; auto.
    intros Hne. apply store_frame with (k := k) (v := v) (r := call_hydrate env flat k v); auto.
Qed.

Lemma hydrate_loop_ready (env : t) (flat : flat_record) (l : flat_record) :
  width_ready env ->
  (forall k v, In (k, v) l -> exists e, Dict.get k (hypers env) = Some e) ->
  forall main custom,
    roomy main = true -> roomy custom = true ->
    exists main' custom',
      for_each (hydrate_step env flat) (main, custom) l = Ok (main', custom') /\
      roomy main' = true /\ roomy custom' = true /\
      (~ In "net.width" (Dict.keys l) ->
       DotDict.getitem custom' "net.width" = DotDict.getitem custom "net.width").
Proof.
  intros Hw. induction l as [|[k v] l IH]; intros Hknown main custom Hm Hc.
  - exists main, custom. cbn [for_each]. auto.
  - destruct (hydrate_step_ready env flat main custom k v Hw (Hknown k v (or_introl eq_refl)) Hm Hc)
      as (m1 & c1 & E1 & Hm1 & Hc1 & F1).
    destruct (IH (fun k' v' Hin => Hknown k' v' (or_intror Hin)) m1 c1 Hm1 Hc1)
      as (m2 & c2 & E2 & Hm2 & Hc2 & F2).
    exists m2, c2. cbn [for_each]. rewrite E1. cbn [bind]. repeat split; auto.
    intros Hni. cbn [Dict.keys map fst] in Hni.
    rewrite F2, F1; auto.
    + intros ->. apply Hni. now left.
    + intros Hin. apply Hni. now right.
Qed.

(** *** What the first two loops do to one key *)

Lemma pre_step_sets (env : t) (s s' : flat_record) (k : string) (v : scalar) :
  pre_step env s (k, v) = Ok s' -> exists v', s' = Dict.set k v' s.
Proof.
  unfold pre_step.
  destruct (Dict.item k (hypers env)) as [e|]; cbn [bind]; [|discriminate].
  match goal with |- bind ?X _ = _ -> _ => destruct X as [v'|] end;
    cbn [bind]; [|discriminate].
  intros [= <-]. now exists v'.
Qed.

Lemma pre_loop_other (env : t) (k : string) (l : flat_record) :
  ~ In k (Dict.keys l) ->
  forall s s', for_each (pre_step env) s l = Ok s' -> Dict.get k s' = Dict.get k s.
Proof.
  induction l as [|[k0 v0] l IH]; intros Hni s s'; cbn [for_each].
  - now intros [= <-].
  - destruct (pre_step env s (k0, v0)) as [s1|] eqn:E; cbn [bind]; [|discriminate].
    intros H. rewrite (IH (fun Hin => Hni (or_intror Hin)) s1 s' H).
    destruct (pre_step_sets _ _ _ _ _ E) as [v' ->].
    apply get_set_other. intros ->. apply Hni. now left.
Qed.

Lemma pre_loop_nodup (env : t) (l : flat_record) :
  forall s s', NoDup (Dict.keys s) -> for_each (pre_step env) s l = Ok s' ->
               NoDup (Dict.keys s').
Proof.
  apply for_each_invariant. intros s [k v] s' _ Hs E.
  destruct (pre_step_sets _ _ _ _ _ E) as [v' ->]. now apply nodup_keys_set.
Qed.

Lemma post_step_keys (env : t) (s s' : flat_record) (kv : string * scalar) :
  In (fst kv) (Dict.keys s) -> post_step env s kv = Ok s' ->
  Dict.keys s' = Dict.keys s.
Proof.
  destruct kv as [k v]. cbn [fst]. intros Hin. unfold post_step.
  destruct (Dict.item k (hypers env)) as [[lit|h]|]; cbn [bind]; try discriminate.
  - now intros [= <-].
  - destruct (h_post h) as [post|]; [|now intros [= <-]].
    destruct (post v s) as [v'|]; cbn [bind]; [|discriminate].
    intros [= <-]. rewrite keys_set. unfold Dict.mem.
    destruct (Dict.get k s) eqn:G; auto.
    apply get_none_not_in in G. contradiction.
Qed.

Lemma post_phase_keys (env : t) (flat flat' : flat_record) :
  post_phase env flat = Ok flat' -> Dict.keys flat' = Dict.keys flat.
Proof.
  unfold post_phase.
  apply (for_each_invariant (post_step env)
           (fun s => Dict.keys s = Dict.keys flat) flat); auto.
  intros s a s' Hin Hs E. rewrite <- Hs. apply post_step_keys with (env := env) (kv := a); auto.
  rewrite Hs. now apply in_map.
Qed.

Lemma post_loop_known (env : t) (l : flat_record) :
  forall s s', for_each (post_step env) s l = Ok s' ->
               forall k v, In (k, v) l -> exists e, Dict.get k (hypers env) = Some e.
Proof.
  induction l as [|[k0 v0] l IH]; intros s s' H k v Hin; [destruct Hin|].
  cbn [for_each] in H.
  destruct (post_step env s (k0, v0)) as [s1|] eqn:E; cbn [bind] in H; [|discriminate].
  destruct Hin as [[= -> ->]|Hin]; [|now apply (IH s1 s' H k v)].
  unfold post_step, Dict.item in E.
  destruct (Dict.get k (hypers env)) as [e|]; [now exists e|discriminate].
Qed.

Lemma post_loop_no_post (env : t) (k : string) (h : hyper) (l : flat_record) :
  Dict.get k (hypers env) = Some (Spec h) -> h_post h = None ->
  forall s s', for_each (post_step env) s l = Ok s' -> Dict.get k s' = Dict.get k s.
Proof.
  intros Hk Hp. induction l as [|[k0 v0] l IH]; intros s s'; cbn [for_each].
  - now intros [= <-].
  - destruct (post_step env s (k0, v0)) as [s1|] eqn:E; cbn [bind]; [|discriminate].
    intros H. rewrite (IH s1 s' H). clear H IH.
    unfold post_step, Dict.item in E.
    destruct (Dict.get k0 (hypers env)) as [[lit|h0]|] eqn:G; cbn [bind] in E;
      try discriminate.
    + now injection E as <-.
    + destruct (h_post h0) as [post|] eqn:P; [|now injection E as <-].
      destruct (post v0 s) as [v'|]; cbn [bind] in E; [|discriminate].
      injection E as <-. apply get_set_other. intros ->.
      rewrite Hk in G. injection G as <-. congruence.
Qed.

Lemma flatten_shape (env : t) (actions flat : flat_record) :
  flatten env actions = Ok flat ->
  NoDup (Dict.keys flat) /\
  (forall k v, In (k, v) flat -> exists e, Dict.get k (hypers env) = Some e).
Proof.
  unfold flatten, pre_phase.
  destruct (for_each (pre_step env) [] actions) as [flat0|] eqn:E0; cbn [bind];
    [|discriminate].
  intros Hpost. pose proof (post_phase_keys _ _ _ Hpost) as Hkeys. split.
  - rewrite Hkeys. apply nodup_keys_update.
    apply (pre_loop_nodup env actions [] flat0); [constructor|assumption].
  - intros k v Hin.
    assert (Hk : In k (Dict.keys (Dict.update flat0 (hardcoded env)))).
    { rewrite <- Hkeys. change k with (fst (k, v)). now apply in_map. }
    unfold Dict.keys in Hk. apply in_map_iff in Hk. destruct Hk as ([k' v'] & <- & Hin').
    apply (post_loop_known env _ _ _ Hpost k' v' Hin').
Qed.

Lemma round_six (q : Q) : q == 6 -> Py.round (VFloat q) = Ok (VInt 6).
Proof.
  intros Hq. cbn [Py.round]. unfold Py.round_half_even.
  rewrite (Qfloor_comp q 6 Hq).
  assert (H : q - inject_Z (Qfloor 6) == 6 - inject_Z (Qfloor 6))
    by (apply Qplus_comp; [assumption|reflexivity]).
  rewrite (Qcompare_comp _ _ H (1 # 2) (1 # 2) (Qeq_refl _)).
  reflexivity.
Qed.

Lemma flatten_net_width (env : t) (actions flat : flat_record) (q : Q) :
  width_ready env ->
  NoDup (Dict.keys actions) ->
  In ("net.width", VFloat q) actions -> q == 6 ->
  flatten env actions = Ok flat ->
  Dict.get "net.width" flat = Some (VInt 6).
Proof.
  intros Hw Hnd Hin Hq. unfold flatten, pre_phase.
  destruct (wr_spec Hw) as (h & Hk & Hpre & Hpost & _).
  destruct (for_each (pre_step env) [] actions) as [flat0|] eqn:E0; cbn [bind];
    [|discriminate].
  unfold post_phase. intros H.
  rewrite (post_loop_no_post env "net.width" h _ Hk Hpost _ _ H).
  rewrite get_update_other by apply (wr_hardcoded Hw).
  destruct (in_split _ _ Hin) as (l1 & l2 & ->).
  rewrite for_each_app in E0.
  destruct (for_each (pre_step env) [] l1) as [s1|]; cbn [bind for_each] in E0;
    [|discriminate].
  unfold pre_step at 1, Dict.item in E0. rewrite Hk in E0. cbn [bind] in E0.
  rewrite Hpre, (round_six q Hq) in E0. cbn [bind] in E0.
  rewrite (pre_loop_other env "net.width" l2) with (s := Dict.set "net.width" (VInt 6) s1);
    auto.
  - apply get_set_same.
  - unfold Dict.keys in *. rewrite map_app in Hnd. cbn [map fst] in Hnd.
    apply NoDup_remove_2 in Hnd. intros Hin2. apply Hnd. apply in_or_app. now right.
Qed.

Lemma hydrate_net_width (env : t) (flat : flat_record) :
  width_ready env ->
  NoDup (Dict.keys flat) ->
  (forall k v, In (k, v) flat -> exists e, Dict.get k (hypers env) = Some e) ->
  Dict.get "net.width" flat = Some (VInt 6) ->
  exists main custom,
    hydrate_phase env flat = Ok (main, custom) /\
    DotDict.getitem custom "net.width" = Ok (Leaf (VInt 64)).
Proof.
  intros Hw Hnd Hknown Hget. unfold hydrate_phase.
  apply get_some_in in Hget.
  destruct (in_split _ _ Hget) as (l1 & l2 & Hflat).
  assert (Hni : ~ In "net.width" (Dict.keys l2)).
  { rewrite Hflat in Hnd. unfold Dict.keys in *. rewrite map_app in Hnd.
    cbn [map fst] in Hnd. apply NoDup_remove_2 in Hnd.
    intros Hin2. apply Hnd. apply in_or_app. now right. }
  assert (Hk1 : forall k v, In (k, v) l1 -> exists e, Dict.get k (hypers env) = Some e).
  { intros k v Hin. apply (Hknown k v). rewrite Hflat. apply in_or_app. now left. }
  assert (Hk2 : forall k v, In (k, v) l2 -> exists e, Dict.get k (hypers env) = Some e).
  { intros k v Hin. apply (Hknown k v). rewrite Hflat. apply in_or_app. right. now right. }
  remember (hydrate_step env flat) as step eqn:Hstep.
  rewrite Hflat, for_each_app. subst step.
  destruct (hydrate_loop_ready env flat l1 Hw Hk1 (Node []) (Node []) eq_refl eq_refl)
    as (m1 & c1 & E1 & Hm1 & Hc1 & _).
  rewrite E1. cbn [bind for_each].
  destruct (wr_section Hw) as (section & Hsec & Hmem).
  destruct (wr_spec Hw) as (h & Hk & _ & _ & Hhyd).
  assert (Hcall : call_hydrate env flat "net.width" (VInt 6) = Ok (Leaf (VInt 64))).
  { unfold call_hydrate, Dict.item. rewrite Hk. cbn [bind]. rewrite Hhyd. reflexivity. }
  destruct (hydrate_step_ready env flat m1 c1 "net.width" (VInt 6) Hw
              (ex_intro _ _ Hk) Hm1 Hc1) as (m2 & c2 & E2 & Hm2 & Hc2 & _).
  rewrite E2. cbn [bind].
  assert (Hc64 : DotDict.getitem c2 "net.width" = Ok (Leaf (VInt 64))).
  { unfold hydrate_step in E2. rewrite Hsec in E2. cbn [bind] in E2.
    rewrite Hmem, Hcall in E2. cbn [store] in E2.
    destruct (DotDict.setitem c1 "net.width" (Leaf (VInt 64))) as [c|] eqn:Es.
    - cbn [bind] in E2. injection E2 as _ <-.
      now apply setitem_ok_getitem with (data := c1).
    - cbn [bind] in E2. discriminate. }
  destruct (hydrate_loop_ready env flat l2 Hw Hk2 m2 c2 Hm2 Hc2)
    as (m3 & c3 & E3 & _ & _ & F3).
  exists m3, c3. split; auto. rewrite F3; auto.
Qed.

Lemma scalar_hook_shaped (f : scalar -> flat_record -> result scalar)
      (v : scalar) (flat : flat_record) :
  shaped (scalar_hook f v flat).
Proof. unfold scalar_hook. destruct (f v flat); exact I. Qed.

Lemma hydrate_baseline_shaped (v : scalar) (flat : flat_record) :
  shaped (hydrate_baseline v flat).
Proof.
  unfold hydrate_baseline.
  repeat match goal with
         | |- shaped (bind ?X _) => destruct X; cbn [bind]; [|exact I]
         end.
  destruct (Py.eq v (VBool false)); [reflexivity|].
  destruct (Py.eq v (VBool true)); [reflexivity|exact I].
Qed.

Lemma init_width_ready (gpu : Q) (net : string) (env : t) :
  net = "lstm" \/ net = "conv2d" ->
  init "ppo_agent" gpu net = Ok env ->
  width_ready env.
Proof.
  intros [->| ->] Hinit;
    cbv -[scalar_hook two_to_the ten_to_the_neg min_threshold min_ten_neg
          hydrate_baseline gae_lambda_post Py.round Py.int] in Hinit;
    injection Hinit as <-;
    (constructor; cbn [hypers agent hardcoded];
     [ repeat constructor; cbn [snd hook_shaped h_hydrate];
       try exact I; intros;
       first [apply scalar_hook_shaped | apply hydrate_baseline_shaped]
     | vm_compute; reflexivity
     | eexists; split; [reflexivity | vm_compute; reflexivity]
     | eexists; repeat split; reflexivity
     | reflexivity ]).
Qed.

(** C7.  With the shipped catalogue ([net.width]: bounds [3, 9], [pre]
    [round], [hydrate] [two_to_the]), any actions mapping that holds
    [6.0] under [net.width] and gets through the first two loops leaves
    the FlatRecord with the integer [6] under [net.width], and the
    hydrate loop returns trees where the path [net.width] of the
    [custom] tree holds [64]. *)
Theorem net_width_six_hydrates_to_64
        (gpu : Q) (net : string) (env : t) (actions flat : flat_record) (q : Q) :
  net = "lstm" \/ net = "conv2d" ->
  init "ppo_agent" gpu net = Ok env ->
  NoDup (Dict.keys actions) ->
  In ("net.width", VFloat q) actions -> q == 6 ->
  flatten env actions = Ok flat ->
  Dict.get "net.width" flat = Some (VInt 6) /\
  exists main custom,
    hydrate_phase env flat = Ok (main, custom) /\
    DotDict.getitem custom "net.width" = Ok (Leaf (VInt 64)).
Proof.
  intros Hnet Hinit Hnd Hin Hq Hflat.
  pose proof (init_width_ready gpu net env Hnet Hinit) as Hw.
  pose proof (flatten_net_width env actions flat q Hw Hnd Hin Hq Hflat) as H6.
  destruct (flatten_shape env actions flat Hflat) as [Hnd' Hknown].
  split; auto. now apply hydrate_net_width.
Qed.

End PipelineFacts.

(** ** The pipeline on the example environments *)

Section PipelineExamples.
Import HSearchEnv.
Existing Instance example_collaborators.

Lemma example_conv2d_init : init "ppo_agent" 1 "conv2d" = Ok example_conv2d.
Proof. reflexivity. Qed.

Lemma example_lstm_init : init "ppo_agent" 1 "lstm" = Ok example_lstm.
Proof. reflexivity. Qed.

End PipelineExamples.

(** C2 at work: [bogus] is not in the schema; the key before it is. *)
Lemma unknown_action_key_example :
  In "bogus" (Dict.keys [("net.width", VFloat 6); ("bogus", VInt 1)]) /\
  Dict.get "bogus" (HSearchEnv.hypers example_conv2d) = None /\
  HSearchEnv.get_hypers (C := example_collaborators) example_conv2d
    [("net.width", VFloat 6); ("bogus", VInt 1)]
  = Err (KeyError (VStr "bogus")).
Proof.
  assert (H1 : In "bogus" (Dict.keys [("net.width", VFloat 6); ("bogus", VInt 1)]))
    by (right; left; reflexivity).
  assert (H2 : Dict.get "bogus" (HSearchEnv.hypers example_conv2d) = None)
    by (vm_compute; reflexivity).
  split; [exact H1|]. split; [exact H2|].
  refine (proj2 (unknown_action_key_is_fatal (C := example_collaborators)
                   example_conv2d _ "bogus" H1 H2)
                [("net.width", VFloat 6)] (VInt 1) [] _ eq_refl _).
  vm_compute. reflexivity.
Defined.

(** C2 as stated fails: [bogus] is not in the schema, but the pre hook
    [round] of the key before it raises on a string, and the [TypeError]
    that leaves [get_hypers] does not name [bogus]. *)
Lemma earlier_error_hides_unknown_key :
  In "bogus" (Dict.keys [("net.width", VStr "wide"); ("bogus", VInt 1)]) /\
  Dict.get "bogus" (HSearchEnv.hypers example_conv2d) = None /\
  HSearchEnv.get_hypers (C := example_collaborators) example_conv2d
    [("net.width", VStr "wide"); ("bogus", VInt 1)]
  = Err TypeError.
Proof.
  split; [right; left; reflexivity|]. split; vm_compute; reflexivity.
Qed.

(** C9 at work: the actions ask for [net.type = 'lstm'] in a conv2d
    environment. *)
Lemma hardcoded_literal_example :
  exists flat main network,
    HSearchEnv.get_hypers (C := example_collaborators) example_conv2d
      (("net.type", VStr "lstm") :: example_actions) = Ok (flat, main, network) /\
    Dict.get "net.type" flat = Some (VStr "conv2d").
Proof.
  destruct (HSearchEnv.get_hypers (C := example_collaborators) example_conv2d
              (("net.type", VStr "lstm") :: example_actions))
    as [[[flat main] network]|e] eqn:E.
  - exists flat, main, network. split; [reflexivity|].
    apply (hardcoded_literal_overrides_action (C := example_collaborators)
             "ppo_agent" 1 "conv2d" example_conv2d
             (("net.type", VStr "lstm") :: example_actions) flat main network
             "net.type" (VStr "conv2d") example_conv2d_init eq_refl E).
  - vm_compute in E. discriminate.
Defined.

(** C5 at work: the conv2d environment. *)
Lemma get_winner_example :
  HSearchEnv.init (C := example_collaborators) "ppo_agent" 1 "conv2d" = Ok example_conv2d /\
  exists main network,
    snd (HSearchEnv.get_winner (C := example_collaborators) example_conv2d None)
    = Ok (guess_record (HSearchEnv.hypers example_conv2d)
                       (HSearchEnv.hardcoded example_conv2d), main, network).
Proof.
  split; [exact example_conv2d_init|].
  destruct (snd (HSearchEnv.get_winner (C := example_collaborators) example_conv2d None))
    as [[[flat main] network]|e] eqn:E; [|vm_compute in E; discriminate].
  exists main, network.
  rewrite (proj2 (proj2 (proj2 (get_winner_flat_is_guess_record
                                   (C := example_collaborators)
                                   "ppo_agent" 1 "conv2d" example_conv2d
                                   example_conv2d_init)))
                 flat main network E).
  reflexivity.
Defined.

(** C7 at work: the guesses as actions, with [net.width = 6.0]. *)
Lemma net_width_example :
  exists flat main custom,
    HSearchEnv.flatten example_conv2d example_actions = Ok flat /\
    Dict.get "net.width" flat = Some (VInt 6) /\
    HSearchEnv.hydrate_phase (C := example_collaborators) example_conv2d flat
    = Ok (main, custom) /\
    DotDict.getitem custom "net.width" = Ok (Leaf (VInt 64)).
Proof.
  destruct (HSearchEnv.flatten example_conv2d example_actions) as [flat|e] eqn:E;
    [|vm_compute in E; discriminate].
  assert (Hnd : NoDup (Dict.keys example_actions))
    by (apply distinct_nodup; vm_compute; reflexivity).
  assert (Hin : In ("net.width", VFloat 6) example_actions)
    by (unfold example_actions; repeat (first [left; reflexivity | right])).
  destruct (net_width_six_hydrates_to_64 (C := example_collaborators)
              1 "conv2d" example_conv2d example_actions flat 6
              (or_intror eq_refl) example_conv2d_init Hnd Hin (Qeq_refl 6) E)
    as (H6 & main & custom & Hh & H64).
  exists flat, main, custom. auto.
Defined.

(** ** The bounds table *)

(** C1 on the shipped catalogue.  The loop assigns [bounded, min_, max_]
    only when the feature name is a key of [hypers_]; for a one-hot slot
    such as [step_optimizer.type=adam] it is not, and the slot takes what
    the feature before it left: the bounds [0., 8.] of
    [step_optimizer.learning_rate], not [0, 1].  The two slots of
    [net.activation] get [0., 1.] from [likelihood_ratio_clipping], and a
    bounded slot gets its own bounds. *)
Theorem onehot_slot_keeps_previous_bounds {C : Collaborators} (gpu : Q) :
  exists c,
    MainGP.setup gpu "conv2d" = Ok c /\
    Dict.mem "step_optimizer.type=adam" (MainGP.c_hypers c) = false /\
    MainGP.slot_bounds c "step_optimizer.learning_rate" = Some (VFloat 0, VFloat 8) /\
    MainGP.slot_bounds c "step_optimizer.type=adam" = Some (VFloat 0, VFloat 8) /\
    MainGP.slot_bounds c "step_optimizer.type=nadam" = Some (VFloat 0, VFloat 8) /\
    MainGP.slot_bounds c "likelihood_ratio_clipping" = Some (VFloat 0, VFloat 1) /\
    MainGP.slot_bounds c "net.activation=relu" = Some (VFloat 0, VFloat 1) /\
    MainGP.slot_bounds c "net.activation=tanh" = Some (VFloat 0, VFloat 1) /\
    MainGP.slot_bounds c "net.width" = Some (VInt 3, VInt 9) /\
    MainGP.slot_bounds c "indicators" = Some (VInt 0, VInt 1).
Proof.
  assert (H : bind (MainGP.setup gpu "conv2d")
                   (fun c => Ok (Dict.mem "step_optimizer.type=adam" (MainGP.c_hypers c),
                                 map (MainGP.slot_bounds c)
                                     ["step_optimizer.learning_rate";
                                      "step_optimizer.type=adam";
                                      "step_optimizer.type=nadam";
                                      "likelihood_ratio_clipping";
                                      "net.activation=relu";
                                      "net.activation=tanh";
                                      "net.width"; "indicators"]))
              = Ok (false,
                    [Some (VFloat 0, VFloat 8); Some (VFloat 0, VFloat 8);
                     Some (VFloat 0, VFloat 8); Some (VFloat 0, VFloat 1);
                     Some (VFloat 0, VFloat 1); Some (VFloat 0, VFloat 1);
                     Some (VInt 3, VInt 9); Some (VInt 0, VInt 1)]))
    by (vm_compute; reflexivity).
  destruct (MainGP.setup gpu "conv2d") as [c|e]; cbn [bind map] in H; [|discriminate].
  exists c. injection H as H0 H1 H2 H3 H4 H5 H6 H7 H8.
  repeat split; assumption.
Qed.

(** ** The jitter *)

Section Binary64Facts.
Import Binary64.
Local Open Scope Z_scope.












Lemma round_quot_le (n d j : Z) : 0 < d -> n <= j * d -> round_quot n d <= j.
Proof.
  intros Hd Hn.
  pose proof (Z.div_mod n d ltac:(lia)) as Hdm.
  pose proof (Z.mod_pos_bound n d Hd) as Hr.
  unfold round_quot.
  destruct (Z.compare_spec (2 * (n mod d)) d) as [E|E|E];
    [destruct (Z.even (n / d))| |]; nia.
Qed.

Lemma round_quot_ge (n d j : Z) : 0 < d -> j * d <= n -> j <= round_quot n d.
Proof.
  intros Hd Hn.
  pose proof (Z.div_mod n d ltac:(lia)) as Hdm.
  pose proof (Z.mod_pos_bound n d Hd) as Hr.
  assert (j <= n / d) by nia.
  unfold round_quot.
  destruct (2 * (n mod d) ?= d); [destruct (Z.even (n / d))| |]; lia.
Qed.

(** [.9 / g] for a finite [g] above [1] *)
Lemma nine_tenths_over (k : Z) :
  one < k <= max_float ->
  exists f, div (Finite nine_tenths) (Finite k) = Ok (Finite f) /\ 0 < f < one.
Proof.
  intros [Hk1 Hk2].
  assert (H1 : 0 < one) by (vm_compute; reflexivity).
  assert (Hn9 : 0 < nine_tenths) by (vm_compute; reflexivity).
  assert (Hn1 : nine_tenths < one) by (vm_compute; reflexivity).
  assert (Hlog : Z.log2 nine_tenths = 1073) by (vm_compute; reflexivity).
  assert (Hnm : max_float < nine_tenths * 2 ^ 1074) by (vm_compute; reflexivity).
  assert (Hom : one <= max_float) by (vm_compute; discriminate).
  set (n := nine_tenths * 2 ^ 1074).
  set (s := shift_of 0 (n / k)).
  set (f := round_quot n (k * 2 ^ s) * 2 ^ s).
  assert (Hdiv : div (Finite nine_tenths) (Finite k) = Ok (pack f)).
  { unfold div. destruct k as [|p|p]; try lia.
    rewrite (Z.abs_eq nine_tenths) by lia. rewrite (Z.abs_eq (Z.pos p)) by lia.
    replace (nine_tenths <? 0) with false by (symmetry; apply Z.ltb_ge; lia).
    reflexivity. }
  assert (Hq : n / k <= nine_tenths).
  { apply Z.div_le_upper_bound; [lia|]. unfold n, one in *. nia. }
  assert (Hs0 : 0 <= s) by (unfold s, shift_of; lia).
  assert (Hs1 : s <= 1021).
  { unfold s, shift_of. pose proof (Z.log2_le_mono _ _ Hq). lia. }
  assert (HP : 0 < 2 ^ s) by (apply Z.pow_pos_nonneg; lia).
  assert (Hd : 0 < k * 2 ^ s) by nia.
  assert (Hlo : 1 <= round_quot n (k * 2 ^ s)).
  { apply round_quot_ge; [assumption|]. rewrite Z.mul_1_l.
    unfold s, shift_of. destruct (Z.max_spec (Z.log2 (n / k) - 52) 0) as [[_ ->]|[Hm ->]].
    - rewrite Z.mul_1_r. unfold n. lia.
    - assert (Hpos : 0 < n / k).
      { destruct (Z.log2_null (n / k)) as [_ H]. lia. }
      pose proof (Z.log2_spec (n / k) Hpos) as [Hl _].
      assert (2 ^ (Z.log2 (n / k) - 52) <= 2 ^ Z.log2 (n / k))
        by (apply Z.pow_le_mono_r; lia).
      pose proof (Z.mul_div_le n k ltac:(lia)). nia. }
  assert (Hhi : f <= nine_tenths).
  { unfold f.
    assert (E9 : nine_tenths = 8106479329266893 * 2 ^ (1021 - s) * 2 ^ s).
    { rewrite <- Z.mul_assoc, <- Z.pow_add_r by lia.
      replace (1021 - s + s) with 1021 by lia. reflexivity. }
    rewrite E9. apply Z.mul_le_mono_nonneg_r; [lia|].
    apply round_quot_le; [assumption|].
    replace (8106479329266893 * 2 ^ (1021 - s) * (k * 2 ^ s))
      with (nine_tenths * k) by (rewrite E9; ring).
    unfold n, one in *. nia. }
  assert (Hf : 1 <= f) by (unfold f; nia).
  exists f. split; [|lia].
  rewrite Hdiv. unfold pack.
  destruct (Z.leb_spec (Z.abs f) max_float); [reflexivity|lia].
Qed.

(** The GPU split on every float *)
Lemma session_fraction_cases (g : Binary64.t) :
  match g with
  | Finite k =>
      is_float k = true -> 0 < k -> k <> one ->
      exists f, session_fraction g = Ok (Some (Finite f)) /\ 0 < f < one
  | Infinite false => session_fraction g = Ok (Some (Finite 0))
  | Infinite true => session_fraction g = Ok (Some g)
  | NaN => session_fraction g = Ok (Some NaN)
  end.
Proof.
  destruct g as [k|[|]|]; try reflexivity.
  intros Hk Hpos Hne. unfold session_fraction. cbn [eqb ltb].
  destruct (Z.eqb_spec k one); [contradiction|]. cbn [negb].
  destruct (Z.ltb_spec one k) as [Hgt|Hle].
  - unfold is_float in Hk. apply andb_true_iff in Hk. destruct Hk as [Hk _].
    apply Z.leb_le in Hk.
    destruct (nine_tenths_over k ltac:(lia)) as (f & -> & Hf). eauto.
  - exists k. split; [reflexivity|lia].
Qed.





End Binary64Facts.



(** The operations of [Binary64] give what the Standard Library's
    specification of IEEE 754 gives on the numbers of the examples above,
    on subnormal numbers and ties, and where the result overflows (for
    the quotient: a float equal to it). *)
Lemma binary64_matches_SpecFloat_on_examples :
  Forall (fun ab : Z * Z =>
            Binary64.to_spec (Binary64.add (Binary64.Finite (fst ab)) (Binary64.Finite (snd ab)))
            = SpecFloat.SFadd 53 1024 (Binary64.to_spec (Binary64.Finite (fst ab)))
                              (Binary64.to_spec (Binary64.Finite (snd ab))) /\
            Binary64.to_spec (Binary64.mul (Binary64.Finite (fst ab)) (Binary64.Finite (snd ab)))
            = SpecFloat.SFmul 53 1024 (Binary64.to_spec (Binary64.Finite (fst ab)))
                              (Binary64.to_spec (Binary64.Finite (snd ab))) /\
            Binary64.div (Binary64.Finite (fst ab)) (Binary64.Finite (snd ab))
            = bind (Binary64.div (Binary64.Finite (fst ab)) (Binary64.Finite (snd ab)))
                   (fun x => if SpecFloat.SFeqb
                                  (Binary64.to_spec x)
                                  (SpecFloat.SFdiv 53 1024
                                     (Binary64.to_spec (Binary64.Finite (fst ab)))
                                     (Binary64.to_spec (Binary64.Finite (snd ab))))
                             then Ok x else Err ValueError))
         [(Binary64.of_Z 3, Binary64.epsilon);
          (Binary64.of_Z 200, 2 ^ 1044 * Binary64.epsilon / Binary64.one);
          (2 ^ 1044, Binary64.epsilon);
          (Binary64.one - 2 ^ 1021, Binary64.epsilon);
          (Binary64.of_Z 3, 4722366482869644 * 2 ^ 1002);
          (2 ^ 1073, Binary64.epsilon);
          (- Binary64.of_Z 3, Binary64.epsilon);
          (Binary64.of_Z 8589934592, Binary64.epsilon);
          (3, 2 ^ 1073); (1, 2 ^ 1073 + 2 ^ 1021); (2 ^ 53 + 2, 3);
          (Binary64.max_float, Binary64.max_float);
          (- Binary64.max_float, Binary64.of_Z 2);
          (Binary64.nine_tenths, Binary64.max_float);
          (Binary64.nine_tenths, Binary64.one + 2 ^ 1022);
          (Binary64.max_float, 1); (1, Binary64.of_Z 3); (5, 3); (7, 2)]%Z.
Proof.
  repeat (apply Forall_cons; [split; [|split]; vm_compute; reflexivity|]).
  apply Forall_nil.
Qed.

(** ** boost_optimization *)

Section BoostFacts.
Import Boost.
Local Open Scope world_scope.

Lemma nth_replace_nth {A} (l : list A) :
  forall (i : nat) (a d : A), (i < length l)%nat -> nth i (replace_nth i a l) d = a.
Proof.
  induction l as [|x l IH]; intros i a d Hi; simpl in Hi; [lia|].
  destruct i; cbn [replace_nth nth]; auto. apply IH. lia.
Qed.

Lemma nth_replace_nth_other {A} (l : list A) :
  forall (i j : nat) (a d : A), i <> j -> nth j (replace_nth i a l) d = nth j l d.
Proof.
  induction l as [|x l IH]; intros i j a d Hne; [now destruct i|].
  destruct i, j; cbn [replace_nth nth]; auto; try congruence.
Qed.

Lemma length_replace_nth {A} (l : list A) :
  forall (i : nat) (a : A), length (replace_nth i a l) = length l.
Proof.
  induction l as [|x l IH]; intros i a; [now destruct i|].
  destruct i; cbn [replace_nth length]; auto.
Qed.

Lemma replace_nth_twice {A} (l : list A) :
  forall (i : nat) (a b : A), replace_nth i b (replace_nth i a l) = replace_nth i b l.
Proof.
  induction l as [|x l IH]; intros i a b; [now destruct i|].
  destruct i; cbn [replace_nth]; auto. now rewrite IH.
Qed.

Lemma replace_nth_middle {A} (pre post : list A) (v a : A) :
  replace_nth (length pre) a (pre ++ v :: post) = pre ++ a :: post.
Proof. induction pre as [|x pre IH]; cbn [replace_nth length app]; auto. now rewrite IH. Qed.

Lemma nth_error_middle {A} (pre post : list A) (v : A) :
  nth_error (pre ++ v :: post) (length pre) = Some v.
Proof. induction pre as [|x pre IH]; cbn [nth_error length app]; auto. Qed.

(** The world with its two lists, its draws and its record of calls set *)
Lemma run_guesses_spec (f : option vec -> yval) (ax ay : nat) (post : list yval) :
  forall (pre : list yval) (xpre xpost : list vec) (w : world),
    (ay < length (y_lists w))%nat ->
    nth ay (y_lists w) [] = pre ++ post ->
    nth ax (x_lists w) [] = xpre ++ xpost ->
    length xpre = length pre ->
    (length post <= length xpost)%nat ->
    Forall (fun v => v <> []) post ->
    run_guesses (fun p => Ok (f p)) ax ay (seq (length pre) (length post)) w
    = ({| x_lists := x_lists w;
          y_lists := replace_nth ay (pre ++ refreshed f xpost post) (y_lists w);
          draws := draws w;
          evaluated := evaluated w ++ guess_calls xpost post |}, Ok tt).
Proof.
  induction post as [|v post IH]; intros pre xpre xpost w Hay Hys Hxs Hlen Hle Hne.
  - cbn [length seq run_guesses ret refreshed guess_calls].
    rewrite <- Hys, app_nil_r. unfold ret.
    assert (H : replace_nth ay (nth ay (y_lists w) []) (y_lists w) = y_lists w).
    { clear -Hay. revert ay Hay. induction (y_lists w) as [|l ls IH]; intros ay Hay;
        simpl in Hay; [lia|].
      destruct ay; cbn [replace_nth nth]; auto. rewrite IH; auto. lia. }
    rewrite H. now destruct w.
  - destruct xpost as [|x xpost]; [simpl in Hle; lia|].
    inversion Hne as [|? ? Hv Hne']; subst.
    cbn [length seq run_guesses]. unfold bindM at 1, read_y at 1.
    rewrite Hys, nth_error_middle.
    assert (Hpre : forall a : yval, S (length pre) = length (pre ++ [a]))
      by (intros a; rewrite length_app; simpl; lia).
    assert (Hxpre : length (xpre ++ [x]) = length (pre ++ [v]))
      by (rewrite !length_app; simpl; lia).
    destruct v as [|[r|] v']; [congruence| |].
    + rewrite (Hpre (Some r :: v')).
      etransitivity.
      { apply (IH (pre ++ [Some r :: v']) (xpre ++ [x]) xpost w); auto.
        - now rewrite <- app_assoc.
        - now rewrite <- app_assoc.
        - simpl in Hle. lia. }
      cbn [refreshed guess_calls]. now rewrite <- app_assoc.
    + unfold bindM, read_x, call, read_y, write_y. cbn [x_lists y_lists draws evaluated].
      rewrite Hxs, <- Hlen, nth_error_middle, Hys.
      rewrite Hlen, replace_nth_middle, (Hpre (f (Some x))).
      etransitivity.
      { apply (IH (pre ++ [f (Some x)]) (xpre ++ [x]) xpost).
        - cbn [y_lists]. now rewrite length_replace_nth.
        - cbn [y_lists]. rewrite nth_replace_nth by assumption.
          now rewrite <- app_assoc.
        - cbn [x_lists]. now rewrite <- app_assoc.
        - rewrite !length_app. simpl. lia.
        - simpl in Hle. lia.
        - assumption. }
      cbn [x_lists y_lists draws evaluated refreshed guess_calls].
      rewrite replace_nth_twice, <- !app_assoc. reflexivity.
Qed.

Lemma replace_nth_same {A} (l : list A) :
  forall (i : nat) (d : A), (i < length l)%nat -> replace_nth i (nth i l d) l = l.
Proof.
  induction l as [|x l IH]; intros i d Hi; simpl in Hi; [lia|].
  destruct i; cbn [replace_nth nth]; auto. rewrite IH; auto. lia.
Qed.

Lemma pre_sample_spec (f : option vec -> yval) (ax ay : nat) (rows : list vec) :
  forall w : world,
    (ax < length (x_lists w))%nat ->
    (ay < length (y_lists w))%nat ->
    pre_sample (fun p => Ok (f p)) ax ay rows w
    = ({| x_lists := replace_nth ax (nth ax (x_lists w) [] ++ rows) (x_lists w);
          y_lists := replace_nth ay (nth ay (y_lists w) []
                                       ++ map (fun p => f (Some p)) rows) (y_lists w);
          draws := draws w;
          evaluated := evaluated w ++ map Some rows |}, Ok tt).
Proof.
  induction rows as [|p rows IH]; intros w Hax Hay.
  - cbn [pre_sample map]. unfold ret. rewrite !app_nil_r.
    rewrite !replace_nth_same by assumption. now destruct w.
  - cbn [pre_sample]. unfold bindM, read_x, write_x, call, read_y, write_y.
    cbn [x_lists y_lists draws evaluated].
    etransitivity.
    { apply IH; cbn [x_lists y_lists]; now rewrite length_replace_nth. }
    cbn [x_lists y_lists draws evaluated map].
    rewrite !nth_replace_nth by assumption.
    rewrite !replace_nth_twice, <- !app_assoc. reflexivity.
Qed.

Lemma boost_optimization_lists
      (rand : nat -> Q) (predict : vec -> Q) (f : option vec -> yval)
      (bounds : list (Q * Q)) (x_list y_list : option nat) (n_pre_samples : option Z)
      (w : world) :
  let ax := match x_list with Some a => a | None => default_x_list end in
  let ay := match y_list with Some a => a | None => default_y_list end in
  let xs := nth ax (x_lists w) [] in
  let ys := nth ay (y_lists w) [] in
  let n := ((match n_pre_samples with Some n => n | None => 5 end)
            - Z.of_nat (length xs))%Z in
  let rows := pre_samples rand bounds (draws w) (Z.to_nat n) in
  (ax < length (x_lists w))%nat ->
  (ay < length (y_lists w))%nat ->
  Forall (fun v => v <> []) ys ->
  (length ys <= length xs)%nat ->
  exists dr ev,
    boost_optimization rand (Some predict) (fun p => Ok (f p)) bounds
                       x_list y_list n_pre_samples w
    = ({| x_lists := replace_nth ax (xs ++ rows) (x_lists w);
          y_lists := replace_nth ay (refreshed f xs ys ++ map (fun p => f (Some p)) rows)
                                 (y_lists w);
          draws := dr; evaluated := ev |}, Ok tt).
Proof.
  intros ax ay xs ys n rows Hax Hay Hne Hle.
  pose proof (run_guesses_spec f ax ay ys [] [] xs w Hay eq_refl eq_refl eq_refl Hle Hne)
    as Hg.
  cbn [length app] in Hg.
  unfold boost_optimization. fold ax ay.
  unfold bindM at 1, read_y at 1. fold ys.
  unfold bindM at 1. rewrite Hg.
  unfold bindM at 1, read_x at 1. cbn [x_lists]. fold xs. fold n.
  unfold bindM at 1.
  destruct (0 <? n)%Z eqn:En.
  - unfold bindM at 1, uniform at 1. cbn [x_lists y_lists draws evaluated].
    fold rows.
    rewrite pre_sample_spec
      by (cbn [x_lists y_lists]; rewrite ?length_replace_nth; assumption).
    cbn [x_lists y_lists draws evaluated].
    unfold bindM, uniform, call, ret. cbn [x_lists y_lists draws evaluated].
    rewrite nth_replace_nth by assumption.
    rewrite replace_nth_twice. fold xs. eauto.
  - assert (Hrows : rows = []).
    { subst rows. apply Z.ltb_ge in En.
      replace (Z.to_nat n) with 0%nat by lia. reflexivity. }
    unfold ret at 1.
    unfold bindM, uniform, call, ret. cbn [x_lists y_lists draws evaluated].
    rewrite Hrows, !app_nil_r. cbn [map].
    unfold xs at 3. rewrite (replace_nth_same (x_lists w) ax []) by assumption. eauto.
Qed.

(** C10.  A call works on the list objects it is given: afterwards the
    caller's [x_list] holds its old vectors followed by the pre-sample
    vectors, and its [y_list] holds its old scores, those that started
    with [None] replaced by a fresh score, followed by the scores of the
    pre-samples.  The default lists are two objects made once: a call
    that omits the arguments leaves its pre-samples in them, and the next
    such call starts from these entries and appends to them. *)
Theorem boost_optimization_mutates_its_lists
        (rand : nat -> Q) (predict : vec -> Q) (f : option vec -> yval)
        (bounds : list (Q * Q)) :
  (forall (x_list y_list : nat) (n_pre_samples : Z) (w : world),
      let xs := nth x_list (x_lists w) [] in
      let ys := nth y_list (y_lists w) [] in
      let rows := pre_samples rand bounds (draws w)
                              (Z.to_nat (n_pre_samples - Z.of_nat (length xs))) in
      let after := boost_optimization rand (Some predict) (fun p => Ok (f p)) bounds
                                      (Some x_list) (Some y_list) (Some n_pre_samples) w in
      (x_list < length (x_lists w))%nat ->
      (y_list < length (y_lists w))%nat ->
      Forall (fun v => v <> []) ys ->
      (length ys <= length xs)%nat ->
      snd after = Ok tt /\
      nth x_list (x_lists (fst after)) [] = xs ++ rows /\
      nth y_list (y_lists (fst after)) []
      = refreshed f xs ys ++ map (fun p => f (Some p)) rows)
  /\
  (forall n1 n2 : Z,
      (forall p, f p <> []) ->
      let call n w := fst (boost_optimization rand (Some predict) (fun p => Ok (f p))
                                              bounds None None (Some n) w) in
      let w1 := call n1 at_definition in
      let w2 := call n2 w1 in
      let first := pre_samples rand bounds 0 (Z.to_nat n1) in
      nth default_x_list (x_lists w1) [] = first /\
      nth default_y_list (y_lists w1) [] = map (fun p => f (Some p)) first /\
      exists more,
        nth default_x_list (x_lists w2) [] = first ++ more /\
        nth default_y_list (y_lists w2) []
        = map (fun p => f (Some p)) first ++ map (fun p => f (Some p)) more /\
        length more = Z.to_nat (n2 - Z.of_nat (length first))).
Proof.
  split.
  - intros x_list y_list n_pre_samples w xs ys rows after Hax Hay Hne Hle.
    destruct (boost_optimization_lists rand predict f bounds (Some x_list) (Some y_list)
                (Some n_pre_samples) w Hax Hay Hne Hle) as (dr & ev & H).
    subst after. rewrite H. cbn [fst snd x_lists y_lists].
    split; [reflexivity|]. split; apply nth_replace_nth; assumption.
  - intros n1 n2 Hf call w1 w2 first. subst call w1 w2. cbv beta.
    destruct (boost_optimization_lists rand predict f bounds None None (Some n1)
                at_definition (Nat.lt_0_1) (Nat.lt_0_1) (Forall_nil _) (Nat.le_refl _))
      as (dr1 & ev1 & H1).
    cbn [at_definition x_lists y_lists draws default_x_list default_y_list nth
         length refreshed app replace_nth] in H1.
    rewrite Z.sub_0_r in H1. fold first in H1.
    rewrite H1. cbn [fst].
    set (W1 := {| x_lists := [first];
                  y_lists := [map (fun p => f (Some p)) first];
                  draws := dr1; evaluated := ev1 |}).
    assert (Hrefresh : refreshed f first (map (fun p => f (Some p)) first)
                       = map (fun p => f (Some p)) first).
    { clear. induction first as [|x l IH]; cbn [refreshed map]; auto.
      destruct (f (Some x)) as [|[q|] t] eqn:E; rewrite IH; congruence. }
    destruct (boost_optimization_lists rand predict f bounds None None (Some n2) W1)
      as (dr2 & ev2 & H2).
    + apply Nat.lt_0_1.
    + apply Nat.lt_0_1.
    + cbn [W1 y_lists default_y_list nth].
      apply Forall_forall. intros v Hv.
      apply in_map_iff in Hv. destruct Hv as (p & <- & _). apply Hf.
    + cbn [W1 x_lists y_lists default_x_list default_y_list nth].
      rewrite length_map. lia.
    + cbn [W1 x_lists y_lists draws default_x_list default_y_list nth replace_nth] in H2.
      rewrite Hrefresh in H2. rewrite H2.
      cbn [W1 fst x_lists y_lists default_x_list default_y_list nth].
      split; [reflexivity|]. split; [reflexivity|].
      eexists. split; [reflexivity|]. split; [reflexivity|].
      unfold pre_samples. now rewrite !length_map, !length_seq.
Qed.

(** C10 at work: two calls that omit the lists, asking for two and then
    for three pre-samples over one dimension. *)
Lemma boost_optimization_example :
  let rand := fun _ : nat => 1 # 2 in
  let predict := fun _ : vec => 0 in
  let f := fun _ : option vec => [Some 1] : yval in
  let call n w := fst (boost_optimization rand (Some predict) (fun p => Ok (f p))
                                          [(0, 1)] None None (Some n) w) in
  let w1 := call 2%Z at_definition in
  let w2 := call 3%Z w1 in
  let first := pre_samples rand [(0, 1)] 0 (Z.to_nat 2) in
  nth default_x_list (x_lists w1) [] = first /\
  nth default_y_list (y_lists w1) [] = map (fun p => f (Some p)) first /\
  exists more,
    nth default_x_list (x_lists w2) [] = first ++ more /\
    nth default_y_list (y_lists w2) []
    = map (fun p => f (Some p)) first ++ map (fun p => f (Some p)) more /\
    length more = Z.to_nat (3 - Z.of_nat (length first)).
Proof.
  intros rand predict f.
  apply (proj2 (boost_optimization_mutates_its_lists rand predict f [(0, 1)]) 2%Z 3%Z).
  intros p. discriminate.
Defined.

End BoostFacts.

(** ** The vector codec *)

Section VectorizerFacts.
Import DictVectorizer.

Lemma has_char_append (c : ascii) (a b : string) :
  has_char c (a ++ String c b) = true.
Proof.
  induction a as [|x a IH]; simpl.
  - now rewrite Ascii.eqb_refl.
  - rewrite IH. apply orb_true_r.
Qed.

Lemma feature_name_has_eq (f s : string) : has_char "=" (feature_name f s) = true.
Proof. apply has_char_append. Qed.

Lemma feature_name_inj (f k s s0 : string) :
  has_char "=" f = false -> has_char "=" k = false ->
  feature_name f s = feature_name k s0 -> f = k /\ s = s0.
Proof.
  unfold feature_name. revert k.
  induction f as [|a f IH]; intros [|b k] Hf Hk H; simpl in *.
  - injection H as ->. auto.
  - injection H as <- _. rewrite Ascii.eqb_refl in Hk. discriminate.
  - injection H as -> _. rewrite Ascii.eqb_refl in Hf. discriminate.
  - injection H as -> H. apply orb_false_iff in Hf, Hk.
    destruct (IH k (proj2 Hf) (proj2 Hk) H) as [-> ->]. auto.
Qed.

Lemma split_on_before (c : ascii) (k s : string) :
  has_char c k = false -> split_on c (k ++ String c s) = k :: split_on c s.
Proof.
  induction k as [|a k IH]; simpl; intros H.
  - now rewrite Ascii.eqb_refl.
  - apply orb_false_iff in H. destruct H as [H1 H2].
    rewrite H1, (IH H2). reflexivity.
Qed.

Lemma split_on_none (c : ascii) (s : string) :
  has_char c s = false -> split_on c s = [s].
Proof.
  induction s as [|a s IH]; simpl; intros H; auto.
  apply orb_false_iff in H. destruct H as [H1 H2].
  now rewrite H1, (IH H2).
Qed.

Lemma split_on_head_clean (c : ascii) (s : string) :
  has_char c (hd "" (split_on c s)) = false.
Proof.
  induction s as [|a s IH]; simpl; auto.
  destruct (Ascii.eqb a c) eqn:E; simpl; auto.
  destruct (split_on c s) as [|h t] eqn:Es; simpl in *.
  - now rewrite E.
  - now rewrite E, IH.
Qed.

Lemma part0_clean (n : string) : has_char "=" (MainGP.part 0 n) = false.
Proof.
  unfold MainGP.part. pose proof (split_on_head_clean "=" n) as H.
  destruct (split_on "=" n); auto.
Qed.

Lemma parts_of_feature_name (k s : string) :
  has_char "=" k = false -> has_char "=" s = false ->
  MainGP.part 0 (feature_name k s) = k /\ MainGP.part 1 (feature_name k s) = s.
Proof.
  intros Hk Hs. unfold MainGP.part, feature_name.
  change (k ++ "=" ++ s)%string with (k ++ String "=" s)%string.
  rewrite (split_on_before "=" k s Hk), (split_on_none "=" s Hs). auto.
Qed.

Lemma mem_name_in (n : string) (names : list string) :
  MainGP.mem_name n names = true <-> In n names.
Proof.
  unfold MainGP.mem_name. rewrite existsb_exists. split.
  - intros (x & Hin & E). apply String.eqb_eq in E. now subst.
  - intros H. exists n. split; auto. apply String.eqb_refl.
Qed.

Lemma index_of_in (n : string) (names : list string) :
  In n names -> exists i, index_of n names = Some i.
Proof.
  induction names as [|x names IH]; simpl; [tauto|].
  intros H. destruct (String.eqb n x) eqn:E; [eauto|].
  destruct H as [->|H]; [rewrite String.eqb_refl in E; discriminate|].
  destruct (IH H) as [i ->]. simpl. eauto.
Qed.

Lemma index_of_lt (n : string) (names : list string) :
  forall i, index_of n names = Some i -> (i < length names)%nat.
Proof.
  induction names as [|x names IH]; simpl; intros i; [discriminate|].
  destruct (String.eqb n x); [intros [= <-]; lia|].
  destruct (index_of n names) as [j|]; simpl; [|discriminate].
  intros [= <-]. specialize (IH j eq_refl). lia.
Qed.

Lemma index_of_nth (n : string) (names : list string) :
  forall i, index_of n names = Some i -> nth_error names i = Some n.
Proof.
  induction names as [|x names IH]; simpl; intros i; [discriminate|].
  destruct (String.eqb n x) eqn:E.
  - intros [= <-]. apply String.eqb_eq in E. now subst.
  - destruct (index_of n names) as [j|]; simpl; [|discriminate].
    intros [= <-]. simpl. now apply IH.
Qed.

Lemma index_of_inj (n m : string) (names : list string) (i : nat) :
  index_of n names = Some i -> index_of m names = Some i -> n = m.
Proof.
  intros Hn Hm. apply index_of_nth in Hn, Hm. congruence.
Qed.

Lemma length_add_at (row : list Q) : forall i q, length (add_at i q row) = length row.
Proof.
  induction row as [|x row IH]; intros i q; [now destruct i|].
  destruct i; simpl; auto.
Qed.

Lemma nth_add_at_same (row : list Q) :
  forall i q, (i < length row)%nat -> nth i (add_at i q row) 0 = nth i row 0 + q.
Proof.
  induction row as [|x row IH]; intros i q Hi; simpl in Hi; [lia|].
  destruct i; simpl; auto. apply IH. lia.
Qed.

Lemma nth_add_at_other (row : list Q) :
  forall i j q, i <> j -> nth j (add_at i q row) 0 = nth j row 0.
Proof.
  induction row as [|x row IH]; intros i j q Hne; [now destruct i|].
  destruct i, j; simpl; auto; try congruence.
Qed.

Lemma length_fill (names : list string) (h : Dict.t feature_value) :
  forall row, length (fill names row h) = length row.
Proof.
  unfold fill. induction h as [|[f v] h IH]; intros row; simpl; auto.
  rewrite IH. destruct (column f v) as [name q].
  destruct (index_of name names); auto. apply length_add_at.
Qed.

Lemma nth_fill (names : list string) (n : string) (i : nat) (h : Dict.t feature_value) :
  index_of n names = Some i ->
  forall row, length row = length names ->
              nth i (fill names row h) 0 == nth i row 0 + MainGP.contribution n h.
Proof.
  intros Hi. unfold fill. induction h as [|[f v] h IH]; intros row Hlen.
  - simpl. ring.
  - cbn [fold_left MainGP.contribution fst snd].
    destruct (column f v) as [name q] eqn:Ec.
    destruct (String.eqb name n) eqn:E.
    + apply String.eqb_eq in E. subst name. rewrite Hi.
      rewrite IH by now rewrite length_add_at.
      rewrite nth_add_at_same by (rewrite Hlen; now apply index_of_lt with (n := n)).
      ring.
    + destruct (index_of name names) as [j|] eqn:Ej; [|now apply IH].
      rewrite IH by now rewrite length_add_at.
      rewrite nth_add_at_other; [reflexivity|].
      intros ->. apply String.eqb_neq in E. apply E.
      now apply index_of_inj with (names := names) (i := i).
Qed.

Lemma nth_zeros (names : list string) (i : nat) :
  nth i (map (fun _ : string => 0) names) 0 = 0.
Proof.
  revert i. induction names as [|x names IH]; intros [|i]; simpl; auto.
Qed.

Lemma nth_transform (names : list string) (n : string) (i : nat) (h : Dict.t feature_value) :
  index_of n names = Some i ->
  nth i (transform names h) 0 == MainGP.contribution n h.
Proof.
  intros Hi. change (transform names h) with (fill names (map (fun _ => 0) names) h).
  rewrite (nth_fill names n i h Hi) by apply length_map.
  rewrite nth_zeros. ring.
Qed.

Lemma length_transform (names : list string) (h : Dict.t feature_value) :
  length (transform names h) = length names.
Proof.
  change (transform names h) with (fill names (map (fun _ => 0) names) h).
  now rewrite length_fill, length_map.
Qed.

Lemma contribution_none (n : string) (h : Dict.t feature_value) :
  (forall f v, In (f, v) h -> fst (column f v) <> n) ->
  MainGP.contribution n h = 0.
Proof.
  induction h as [|[f v] h IH]; intros H; cbn [MainGP.contribution fst snd]; auto.
  pose proof (H f v (or_introl eq_refl)) as Hne.
  destruct (column f v) as [name q]. cbn [fst] in Hne.
  apply String.eqb_neq in Hne. rewrite Hne.
  apply IH. intros f' v' Hin. apply H. now right.
Qed.

Lemma contribution_unique (n k : string) (v : feature_value) (h : Dict.t feature_value) :
  NoDup (Dict.keys h) ->
  In (k, v) h ->
  fst (column k v) = n ->
  (forall f v', In (f, v') h -> fst (column f v') = n -> f = k) ->
  MainGP.contribution n h == snd (column k v).
Proof.
  unfold Dict.keys.
  induction h as [|[f v0] h IH]; intros Hnd Hin Hn Honly; [destruct Hin|].
  cbn [map fst] in Hnd. inversion Hnd as [|? ? Hni Hnd']; subst.
  cbn [MainGP.contribution fst snd].
  destruct Hin as [[= -> ->]|Hin].
  - destruct (column k v) as [name q]. cbn [fst snd].
    rewrite String.eqb_refl.
    rewrite contribution_none; [ring|].
    intros f' v' Hin' Hname. apply Hni.
    rewrite <- (Honly f' v' (or_intror Hin') Hname).
    change f' with (fst (f', v')). now apply in_map.
  - destruct (column f v0) as [name q] eqn:Ec.
    destruct (String.eqb name (fst (column k v))) eqn:E.
    + apply String.eqb_eq in E. exfalso. apply Hni.
      assert (f = k).
      { apply (Honly f v0 (or_introl eq_refl)). now rewrite Ec. }
      subst f. change k with (fst (k, v)). now apply in_map.
    + apply IH; auto. intros f' v' Hin'. apply Honly. now right.
Qed.

Lemma inverse_transform_columns (names : list string) :
  forall vec, length vec = length names ->
              inverse_transform names vec = Ok (nonzero_columns names vec).
Proof.
  unfold nonzero_columns.
  induction names as [|n names IH]; intros [|x vec] Hlen; try discriminate; auto.
  cbn [inverse_transform combine filter snd]. rewrite IH by (simpl in Hlen; lia).
  cbn [bind]. now destruct (Qeq_bool x 0).
Qed.

Lemma combine_index (names : list string) (n : string) :
  forall vec i, length vec = length names -> index_of n names = Some i ->
                In (n, nth i vec 0) (combine names vec).
Proof.
  induction names as [|m names IH]; intros [|x vec] i Hlen; try discriminate.
  cbn [index_of combine]. destruct (String.eqb n m) eqn:E.
  - intros [= <-]. apply String.eqb_eq in E. subst. now left.
  - destruct (index_of n names) as [j|] eqn:Ej; [|discriminate].
    intros [= <-]. right. cbn [nth]. apply IH; [simpl in Hlen; lia|reflexivity].
Qed.

Lemma combine_keys (names : list string) :
  forall (vec : list Q) n x, In (n, x) (combine names vec) -> In n names.
Proof.
  intros vec n x H. now apply in_combine_l in H.
Qed.

Lemma combine_unique (names : list string) :
  NoDup names ->
  forall (vec : list Q) n x y,
    In (n, x) (combine names vec) -> In (n, y) (combine names vec) -> x = y.
Proof.
  induction names as [|m names IH]; intros Hnd [|v vec] n x y Hx Hy;
    try (now destruct Hx).
  inversion Hnd as [|? ? Hni Hnd']; subst.
  cbn [combine In] in Hx, Hy.
  destruct Hx as [Hx|Hx], Hy as [Hy|Hy].
  - congruence.
  - exfalso. apply Hni. injection Hx as -> _. now apply combine_keys in Hy.
  - exfalso. apply Hni. injection Hy as -> _. now apply combine_keys in Hx.
  - now apply (IH Hnd' vec n x y).
Qed.

Lemma nonzero_columns_in (names : list string) (vec : list Q) (n : string) (x : Q) :
  In (n, x) (nonzero_columns names vec) <->
  In (n, x) (combine names vec) /\ Qeq_bool x 0 = false.
Proof.
  unfold nonzero_columns. rewrite filter_In. cbn [snd].
  now rewrite negb_true_iff.
Qed.

Lemma nodup_keys_filter {V} (P : string * V -> bool) (l : Dict.t V) :
  NoDup (Dict.keys l) -> NoDup (Dict.keys (filter P l)).
Proof.
  unfold Dict.keys. induction l as [|[k v] l IH]; simpl; intros H; auto.
  inversion H as [|? ? Hni Hnd]; subst.
  destruct (P (k, v)); simpl; auto. constructor; auto.
  intros Hin. apply Hni. apply in_map_iff in Hin. destruct Hin as ([k' v'] & <- & Hin).
  apply filter_In in Hin. change k' with (fst (k', v')). apply in_map. tauto.
Qed.

Lemma map_fst_combine (names : list string) :
  forall vec : list Q, length vec = length names -> map fst (combine names vec) = names.
Proof.
  induction names as [|n names IH]; intros [|x vec] Hlen; try discriminate; auto.
  cbn [combine map fst]. rewrite IH; auto.
Qed.

Lemma nonzero_columns_nodup (names : list string) (vec : list Q) :
  NoDup names -> length vec = length names ->
  NoDup (Dict.keys (nonzero_columns names vec)).
Proof.
  intros Hnd Hlen. apply nodup_keys_filter. unfold Dict.keys.
  now rewrite map_fst_combine.
Qed.

(** *** The dict handed to the vectorizer *)

Lemma encoded_fold_other (hardcoded : flat_record) (k : string) (l : flat_record) :
  ~ In k (Dict.keys l) ->
  forall h,
    Dict.get k (fold_left (fun h kv =>
                             if Dict.mem (fst kv) hardcoded then h
                             else Dict.set (fst kv) (MainGP.encode_value (snd kv)) h)
                          l h)
    = Dict.get k h.
Proof.
  induction l as [|[k0 v0] l IH]; intros Hni h; cbn [fold_left fst snd]; auto.
  rewrite IH by (intros Hin; apply Hni; now right).
  destruct (Dict.mem k0 hardcoded); auto.
  apply get_set_other. intros ->. apply Hni. now left.
Qed.

Lemma encoded_get (hardcoded flat : flat_record) (k : string) (v : scalar) :
  NoDup (Dict.keys flat) -> In (k, v) flat -> Dict.mem k hardcoded = false ->
  Dict.get k (MainGP.encoded hardcoded flat) = Some (MainGP.encode_value v).
Proof.
  unfold MainGP.encoded. generalize (@nil (string * feature_value)).
  induction flat as [|[k0 v0] flat IH]; intros h Hnd Hin Hm; [destruct Hin|].
  unfold Dict.keys in Hnd. cbn [map fst] in Hnd.
  inversion Hnd as [|? ? Hni Hnd']; subst.
  cbn [fold_left fst snd]. destruct Hin as [[= -> ->]|Hin].
  - rewrite Hm. rewrite encoded_fold_other by assumption. apply get_set_same.
  - now apply IH.
Qed.

Lemma encoded_nodup (hardcoded flat : flat_record) :
  NoDup (Dict.keys (MainGP.encoded hardcoded flat)).
Proof.
  unfold MainGP.encoded.
  assert (H : NoDup (Dict.keys (@nil (string * feature_value)))) by constructor.
  revert H. generalize (@nil (string * feature_value)).
  induction flat as [|[k0 v0] flat IH]; intros h Hnd; cbn [fold_left fst snd]; auto.
  apply IH. destruct (Dict.mem k0 hardcoded); auto. now apply nodup_keys_set.
Qed.

Lemma encoded_keys (hardcoded flat : flat_record) (f : string) (v : feature_value) :
  In (f, v) (MainGP.encoded hardcoded flat) -> In f (Dict.keys flat).
Proof.
  unfold MainGP.encoded.
  assert (H : forall h, In (f, v) (fold_left
                                     (fun h kv =>
                                        if Dict.mem (fst kv) hardcoded then h
                                        else Dict.set (fst kv)
                                                      (MainGP.encode_value (snd kv)) h)
                                     flat h) ->
                        In f (Dict.keys h) \/ In f (Dict.keys flat)).
  { induction flat as [|[k0 v0] flat IH]; intros h Hin; cbn [fold_left fst snd] in Hin.
    - left. change f with (fst (f, v)). now apply in_map.
    - destruct (IH _ Hin) as [Hh|Hf].
      + destruct (Dict.mem k0 hardcoded); auto.
        rewrite keys_set in Hh. destruct (Dict.mem k0 h); auto.
        apply in_app_or in Hh. destruct Hh as [Hh|[<-|[]]]; auto.
        right. now left.
      + right. now right. }
  intros Hin. destruct (H [] Hin) as [[]|Hf]. exact Hf.
Qed.

End VectorizerFacts.

Section RoundTrip.
Import DictVectorizer MainGP.

Variable c : codec.
Hypothesis Hwf : codec_wf c = true.

Variable flat : flat_record.
Hypothesis flat_nodup : NoDup (Dict.keys flat).
Hypothesis flat_clean : Forall (fun k => has_char "=" k = false) (Dict.keys flat).

Let names := c_names c.
Let hypers_ := c_hypers c.
Let hardcoded := c_hardcoded c.
Let h := encoded hardcoded flat.
Let vec := transform names h.
Let reversed := nonzero_columns names vec.

Lemma wf_names : NoDup names.
Proof.
  unfold codec_wf in Hwf. repeat (apply andb_true_iff in Hwf; destruct Hwf as [Hwf ?]).
  now apply distinct_nodup.
Qed.

Lemma wf_keys : NoDup (Dict.keys hypers_).
Proof.
  unfold codec_wf in Hwf. repeat (apply andb_true_iff in Hwf; destruct Hwf as [Hwf ?]).
  now apply distinct_nodup.
Qed.

Lemma wf_key (k : string) (e : entry) :
  In (k, e) hypers_ -> key_ok names hardcoded (k, e) = true.
Proof.
  unfold codec_wf in Hwf. repeat (apply andb_true_iff in Hwf; destruct Hwf as [Hwf ?]).
  intros Hin. match goal with H : forallb (key_ok _ _) _ = true |- _ =>
    rewrite forallb_forall in H; now apply H end.
Qed.

Lemma wf_slot (n : string) : In n names -> slot_ok hypers_ n = true.
Proof.
  unfold codec_wf in Hwf. repeat (apply andb_true_iff in Hwf; destruct Hwf as [Hwf ?]).
  intros Hin. match goal with H : forallb (slot_ok _) _ = true |- _ =>
    rewrite forallb_forall in H; now apply H end.
Qed.

Lemma wf_prefix (k : string) (e : entry) (n : string) :
  In (k, e) hypers_ -> In n names ->
  String.prefix (k ++ "=")%string n = true ->
  has_char "=" n = true /\ part 0 n = k.
Proof.
  unfold codec_wf in Hwf. repeat (apply andb_true_iff in Hwf; destruct Hwf as [Hwf ?]).
  intros Hk Hn Hp. match goal with H : prefix_ok _ _ = true |- _ =>
    unfold prefix_ok in H; rewrite forallb_forall in H; specialize (H _ Hk);
    rewrite forallb_forall in H; specialize (H _ Hn); cbn [fst] in H;
    fold names hypers_ in H end.
  rewrite Hp in *. cbn [implb] in *.
  match goal with H : _ && _ = true |- _ =>
    apply andb_true_iff in H; destruct H as [Ha Hb] end.
  apply String.eqb_eq in Hb. auto.
Qed.

(** The slot of a name of the form [k=s], with [n] the decoded part 0 *)
Lemma slot_key (n : string) :
  In n names -> has_char "=" n = true ->
  n = feature_name (part 0 n) (part 1 n) /\
  exists hy, Dict.get (part 0 n) hypers_ = Some (Spec hy) /\ h_type hy = KInt.
Proof.
  intros Hin He. pose proof (wf_slot n Hin) as H. unfold slot_ok in H.
  rewrite He in H. apply andb_true_iff in H. destruct H as [H1 H2].
  apply String.eqb_eq in H1. split; auto.
  destruct (Dict.get (part 0 n) hypers_) as [[lit|hy]|]; try discriminate.
  exists hy. split; auto. destruct (h_type hy); try discriminate; reflexivity.
Qed.

Lemma key_clean (k : string) (e : entry) :
  In (k, e) hypers_ -> has_char "=" k = false /\ Dict.mem k hardcoded = false.
Proof.
  intros Hin. pose proof (wf_key k e Hin) as H. unfold key_ok in H. cbn [fst snd] in H.
  apply andb_true_iff in H. destruct H as [H _].
  apply andb_true_iff in H. destruct H as [H1 H2].
  now rewrite negb_true_iff in H1, H2.
Qed.

Lemma key_unique (k : string) (e e' : entry) :
  In (k, e) hypers_ -> In (k, e') hypers_ -> e = e'.
Proof.
  intros H1 H2.
  apply (in_get_nodup k e hypers_ wf_keys) in H1.
  apply (in_get_nodup k e' hypers_ wf_keys) in H2. congruence.
Qed.

Lemma h_clean (f : string) (v : feature_value) :
  In (f, v) h -> has_char "=" f = false.
Proof.
  intros Hin. apply encoded_keys in Hin.
  rewrite Forall_forall in flat_clean. now apply flat_clean.
Qed.

Lemma h_nodup : NoDup (Dict.keys h).
Proof. apply encoded_nodup. Qed.

Lemma slot_plain (n : string) (i : nat) :
  has_char "=" n = false -> index_of n names = Some i ->
  nth i vec 0 == match Dict.get n h with Some (FNum q) => q | _ => 0 end.
Proof.
  intros Hn Hi. unfold vec. rewrite (nth_transform names n i h Hi).
  assert (Honly : forall f v', In (f, v') h -> fst (column f v') = n ->
                               f = n /\ exists q, v' = FNum q).
  { intros f [s|q] Hin Hc; cbn [column fst] in Hc.
    - rewrite <- Hc, feature_name_has_eq in Hn. discriminate.
    - split; eauto. }
  destruct (Dict.get n h) as [[s|q]|] eqn:G.
  - rewrite contribution_none; [reflexivity|].
    intros f v' Hin Hc. destruct (Honly f v' Hin Hc) as [-> [q ->]].
    apply (in_get_nodup _ _ _ h_nodup) in Hin. congruence.
  - rewrite (contribution_unique n n (FNum q) h h_nodup); [reflexivity| | |].
    + now apply get_some_in.
    + reflexivity.
    + intros f v' Hin Hc. now destruct (Honly f v' Hin Hc).
  - rewrite contribution_none; [reflexivity|].
    intros f v' Hin Hc. destruct (Honly f v' Hin Hc) as [-> _].
    apply (in_get_nodup _ _ _ h_nodup) in Hin. congruence.
Qed.

Lemma slot_onehot (k s : string) (i : nat) :
  has_char "=" k = false -> index_of (feature_name k s) names = Some i ->
  nth i vec 0 == match Dict.get k h with
                 | Some (FStr s') => if String.eqb s' s then 1 else 0
                 | _ => 0
                 end.
Proof.
  intros Hk Hi. unfold vec. rewrite (nth_transform names _ i h Hi).
  assert (Honly : forall f v', In (f, v') h -> fst (column f v') = feature_name k s ->
                               f = k /\ v' = FStr s).
  { intros f [s'|q] Hin Hc; cbn [column fst] in Hc.
    - destruct (feature_name_inj f k s' s (h_clean _ _ Hin) Hk Hc) as [-> ->]. auto.
    - pose proof (h_clean _ _ Hin) as Hf. rewrite Hc, feature_name_has_eq in Hf.
      discriminate. }
  assert (Hnone : Dict.get k h <> Some (FStr s) ->
                  contribution (feature_name k s) h = 0).
  { intros Hne. apply contribution_none. intros f v' Hin Hc.
    destruct (Honly f v' Hin Hc) as [-> ->].
    apply (in_get_nodup _ _ _ h_nodup) in Hin. contradiction. }
  destruct (Dict.get k h) as [[s'|q]|] eqn:G.
  - destruct (String.eqb s' s) eqn:E.
    + apply String.eqb_eq in E. subst s'.
      rewrite (contribution_unique _ k (FStr s) h h_nodup); [reflexivity| | |].
      * now apply get_some_in.
      * reflexivity.
      * intros f v' Hin Hc. now destruct (Honly f v' Hin Hc).
    + rewrite Hnone; [reflexivity|]. intros [= ->].
      rewrite String.eqb_refl in E. discriminate.
  - rewrite Hnone; [reflexivity|discriminate].
  - rewrite Hnone; [reflexivity|discriminate].
Qed.

Lemma vec_length : length vec = length names.
Proof. apply length_transform. Qed.

Lemma reversed_in (n : string) (x : Q) :
  In (n, x) reversed ->
  In n names /\ exists i, index_of n names = Some i /\ x = nth i vec 0 /\ Qeq_bool x 0 = false.
Proof.
  unfold reversed. rewrite nonzero_columns_in. intros [Hin Hnz].
  pose proof (combine_keys _ _ _ _ Hin) as Hn. split; auto.
  destruct (index_of_in n names Hn) as [i Hi]. exists i. repeat split; auto.
  apply (combine_unique names wf_names vec n); auto.
  apply combine_index; auto. apply vec_length.
Qed.

Lemma reversed_intro (n : string) (i : nat) :
  index_of n names = Some i -> Qeq_bool (nth i vec 0) 0 = false ->
  In (n, nth i vec 0) reversed.
Proof.
  intros Hi Hnz. unfold reversed. rewrite nonzero_columns_in. split; auto.
  apply combine_index; auto. apply vec_length.
Qed.

Lemma reversed_nodup : NoDup (Dict.keys reversed).
Proof. apply nonzero_columns_nodup; [apply wf_names|apply vec_length]. Qed.

(** *** The decoding loop *)

Lemma prefix_feature_name (k s : string) :
  String.prefix (k ++ "=")%string (feature_name k s) = true.
Proof.
  unfold feature_name. induction k as [|a k IH]; simpl.
  - destruct (ascii_dec "=" "="); [now destruct s|congruence].
  - destruct (ascii_dec a a); [assumption|congruence].
Qed.

Lemma decode_fold_other (k : string) (rev l : Dict.t Q) (obj : flat_record) :
  (forall n y, In (n, y) l ->
               (has_char "=" n = false -> n <> k) /\
               (has_char "=" n = true -> part 0 n <> k)) ->
  Dict.get k (fold_left (decode_step rev) l obj) = Dict.get k obj.
Proof.
  revert obj. induction l as [|[n y] l IH]; intros obj H; simpl; auto.
  rewrite IH by (intros; eapply H; right; eassumption).
  destruct (H n y (or_introl eq_refl)) as [Ha Hb].
  unfold decode_step. destruct (has_char "=" n) eqn:E; cbn [negb].
  - destruct (Dict.mem n obj); auto. apply get_set_other. now apply Hb.
  - apply get_set_other. now apply Ha.
Qed.

Lemma decode_fold_clean (rev l : Dict.t Q) (obj : flat_record) :
  (forall key, In key (Dict.keys obj) -> has_char "=" key = false) ->
  forall key, In key (Dict.keys (fold_left (decode_step rev) l obj)) ->
              has_char "=" key = false.
Proof.
  revert obj. induction l as [|[n y] l IH]; intros obj H; simpl; auto.
  apply IH. intros key. unfold decode_step.
  destruct (has_char "=" n) eqn:E; cbn [negb].
  - destruct (Dict.mem n obj) eqn:M; auto. rewrite keys_set.
    destruct (Dict.mem (part 0 n) obj); auto.
    rewrite in_app_iff. intros [?|[<-|[]]]; auto. apply part0_clean.
  - rewrite keys_set. destruct (Dict.mem n obj); auto.
    rewrite in_app_iff. intros [?|[<-|[]]]; auto.
Qed.

Lemma mem_clean (n : string) (obj : flat_record) :
  (forall key, In key (Dict.keys obj) -> has_char "=" key = false) ->
  has_char "=" n = true -> Dict.mem n obj = false.
Proof.
  intros H Hn. unfold Dict.mem. destruct (Dict.get n obj) as [v|] eqn:G; auto.
  apply get_some_in in G. apply (in_map fst) in G. cbn [fst] in G.
  apply H in G. congruence.
Qed.

Lemma winner_stays (l : Dict.t Q) (attr : string) (x : Q) (s : string) :
  (forall n y, In (n, y) l -> String.prefix (attr ++ "=")%string n = true ->
               Qle_bool y x = true) ->
  winner l attr x s = (x, s).
Proof.
  unfold winner. induction l as [|[n y] l IH]; intros H; simpl; auto.
  destruct (String.prefix (attr ++ "=")%string n) eqn:P; cbn [andb].
  - rewrite (H n y (or_introl eq_refl) P). cbn [negb]. apply IH.
    intros; eapply H; eauto. now right.
  - apply IH. intros; eapply H; eauto. now right.
Qed.

(** What [decode_step] stores: floats, and strings at categorical keys *)
Lemma decode_fold_shape (rev l : Dict.t Q) (obj : flat_record) :
  (forall n y, In (n, y) l -> In n names) ->
  (forall key val, Dict.get key obj = Some val ->
     (exists q, val = VFloat q) \/
     (exists s hy, val = VStr s /\ Dict.get key hypers_ = Some (Spec hy)
                   /\ h_type hy = KInt)) ->
  forall key val, Dict.get key (fold_left (decode_step rev) l obj) = Some val ->
     (exists q, val = VFloat q) \/
     (exists s hy, val = VStr s /\ Dict.get key hypers_ = Some (Spec hy)
                   /\ h_type hy = KInt).
Proof.
  revert obj. induction l as [|[n y] l IH]; intros obj Hl H; simpl; auto.
  apply IH; [intros; eapply Hl; right; eauto|].
  pose proof (Hl n y (or_introl eq_refl)) as Hn.
  intros key val. unfold decode_step.
  destruct (has_char "=" n) eqn:E; cbn [negb].
  - destruct (Dict.mem n obj); [apply H|].
    destruct (String.eqb (part 0 n) key) eqn:K.
    + apply String.eqb_eq in K. subst key. rewrite get_set_same. intros [= <-].
      right. destruct (slot_key n Hn E) as [_ (hy & Hg & Hty)]. eauto.
    + apply String.eqb_neq in K. rewrite get_set_other by assumption. apply H.
  - destruct (String.eqb n key) eqn:K.
    + apply String.eqb_eq in K. subst key. rewrite get_set_same. intros [= <-].
      left. eauto.
    + apply String.eqb_neq in K. rewrite get_set_other by assumption. apply H.
Qed.

Lemma categorical_option (k : string) (hy : hyper) (v : scalar) :
  In (k, Spec hy) hypers_ -> h_type hy = KInt -> in_domain v hy = true ->
  ~ In k names /\
  exists s0, v = VStr s0 /\ has_char "=" s0 = false /\ s0 <> ""%string
             /\ In (feature_name k s0) names.
Proof.
  intros Hin Hty Hd. pose proof (wf_key k _ Hin) as Hk.
  unfold key_ok in Hk. cbn [fst snd] in Hk. rewrite Hty in Hk.
  unfold in_domain in Hd. destruct (h_vals hy) as [vals|]; [|discriminate].
  apply andb_true_iff in Hk. destruct Hk as [_ Hk].
  apply andb_true_iff in Hk. destruct Hk as [Hnot Hk].
  split.
  { rewrite negb_true_iff in Hnot. intros Hc. apply mem_name_in in Hc. congruence. }
  rewrite forallb_forall in Hk. apply existsb_exists in Hd.
  destruct Hd as (w & Hw & He). specialize (Hk w Hw). unfold option_ok in Hk.
  destruct w as [| | | |s]; try discriminate.
  apply andb_true_iff in Hk. destruct Hk as [Hk Hmem].
  apply andb_true_iff in Hk. destruct Hk as [Hne Hcl].
  rewrite negb_true_iff in Hne, Hcl. apply String.eqb_neq in Hne.
  apply mem_name_in in Hmem.
  exists s. repeat split; auto.
  destruct v; cbn in He; try discriminate. apply String.eqb_eq in He. now subst.
Qed.

Lemma decode_categorical (k : string) (hy : hyper) (s0 : string) :
  In (k, Spec hy) hypers_ -> h_type hy = KInt -> ~ In k names ->
  Dict.get k flat = Some (VStr s0) ->
  has_char "=" s0 = false -> s0 <> ""%string -> In (feature_name k s0) names ->
  Dict.get k (fold_left (decode_step reversed) reversed []) = Some (VStr s0).
Proof.
  intros Hin Hty Hnot Hg Hs Hne HN.
  destruct (key_clean k _ Hin) as [Hk Hhc].
  assert (Hh : Dict.get k h = Some (FStr s0)).
  { unfold h. rewrite (encoded_get hardcoded flat k (VStr s0) flat_nodup
                         (get_some_in _ _ _ Hg) Hhc).
    cbn [encode_value]. destruct (String.eqb s0 "") eqn:E; auto.
    apply String.eqb_eq in E. contradiction. }
  destruct (index_of_in _ _ HN) as [i0 Hi0].
  pose proof (slot_onehot k s0 i0 Hk Hi0) as Hx. rewrite Hh, String.eqb_refl in Hx.
  assert (Hnz : Qeq_bool (nth i0 vec 0) 0 = false).
  { destruct (Qeq_bool (nth i0 vec 0) 0) eqn:E; auto.
    apply Qeq_bool_eq in E. exfalso. apply Q_apart_0_1. now rewrite <- Hx. }
  pose proof (reversed_intro _ i0 Hi0 Hnz) as HinR.
  assert (P1 : forall n y, In (n, y) reversed ->
                           String.prefix (k ++ "=")%string n = true ->
                           n = feature_name k s0).
  { intros n y Hr Hp. destruct (reversed_in n y Hr) as (Hn & i & Hi & Hy & Hynz).
    destruct (wf_prefix k _ n Hin Hn Hp) as [He Hp0].
    destruct (slot_key n Hn He) as [Hform _]. rewrite Hp0 in Hform.
    rewrite Hform in Hi. pose proof (slot_onehot k (part 1 n) i Hk Hi) as Hs1.
    rewrite Hh in Hs1.
    destruct (String.eqb s0 (part 1 n)) eqn:E.
    - apply String.eqb_eq in E. rewrite Hform, <- E. reflexivity.
    - rewrite <- Hy in Hs1. apply Qeq_bool_iff in Hs1. congruence. }
  assert (P2 : forall n y, In (n, y) reversed -> n <> feature_name k s0 ->
                 (has_char "=" n = false -> n <> k) /\
                 (has_char "=" n = true -> part 0 n <> k)).
  { intros n y Hr Hne0. destruct (reversed_in n y Hr) as (Hn & _). split.
    - intros _ ->. contradiction.
    - intros He Hp0. destruct (slot_key n Hn He) as [Hform _]. rewrite Hp0 in Hform.
      apply Hne0. apply (P1 n y Hr). rewrite Hform. apply prefix_feature_name. }
  destruct (in_split _ _ HinR) as (r1 & r2 & Hsplit).
  assert (Hother : forall n y, In (n, y) (r1 ++ r2) -> n <> feature_name k s0).
  { pose proof reversed_nodup as Hnd. rewrite Hsplit in Hnd. unfold Dict.keys in Hnd.
    rewrite map_app in Hnd. cbn [map fst] in Hnd. apply NoDup_remove_2 in Hnd.
    intros n y Hiny ->. apply Hnd. rewrite <- map_app.
    apply (in_map fst _ _ Hiny). }
  remember (decode_step reversed) as step eqn:Hstep.
  rewrite Hsplit, fold_left_app. cbn [fold_left]. subst step.
  rewrite decode_fold_other.
  2:{ intros n y Hiny. apply (P2 n y).
      - rewrite Hsplit, in_app_iff. right. now right.
      - apply (Hother n y). rewrite in_app_iff. now right. }
  cbv beta iota delta [decode_step].
  rewrite feature_name_has_eq. cbn [negb].
  rewrite mem_clean;
    [|apply decode_fold_clean; intros key []|apply feature_name_has_eq].
  destruct (parts_of_feature_name k s0 Hk Hs) as [Hp0 Hp1]. rewrite Hp0, Hp1.
  rewrite winner_stays; [cbn [snd]; apply get_set_same|].
  intros n y Hr Hp. pose proof (P1 n y Hr Hp) as ->.
  destruct (reversed_in _ y Hr) as (_ & i & Hi & Hy & _).
  assert (i = i0) by congruence. subst i. rewrite <- Hy.
  apply Qle_bool_iff. apply Qle_refl.
Qed.

(** *** Boolean slots and the loop over the bool hypers *)

Lemma encode_value_number (v : scalar) (a : Q) :
  Py.number v = Some a -> exists q, encode_value v = FNum q /\ q == a.
Proof.
  destruct v as [|b|z|q|s]; cbn; try discriminate; intros [= <-].
  - eexists. split; reflexivity.
  - destruct (Z.eqb_spec z 0); subst; eexists; split; reflexivity.
  - destruct (Qeq_bool q 0) eqn:E; eexists; split; try reflexivity.
    apply Qeq_bool_eq in E. now symmetry.
Qed.

Lemma round_comp (q r : Q) : q == r -> Py.round_half_even q = Py.round_half_even r.
Proof.
  intros Hq. unfold Py.round_half_even.
  rewrite (Qfloor_comp q r Hq).
  assert (H : q - inject_Z (Qfloor r) == r - inject_Z (Qfloor r))
    by (apply Qplus_comp; [assumption|reflexivity]).
  rewrite (Qcompare_comp _ _ H (1 # 2) (1 # 2) (Qeq_refl _)).
  reflexivity.
Qed.

Lemma boolean_option (k : string) (hy : hyper) (v : scalar) :
  In (k, Spec hy) hypers_ -> h_type hy = KBool -> in_domain v hy = true ->
  In k names /\
  exists (a : Q) (b : bool), Py.number v = Some a /\ a == inject_Z (Z.b2z b).
Proof.
  intros Hin Hty Hd. pose proof (wf_key k _ Hin) as Hk.
  unfold key_ok in Hk. cbn [fst snd] in Hk. rewrite Hty in Hk.
  unfold in_domain in Hd. destruct (h_vals hy) as [vals|]; [|discriminate].
  apply andb_true_iff in Hk. destruct Hk as [_ Hk].
  apply andb_true_iff in Hk. destruct Hk as [Hmem Hk].
  apply mem_name_in in Hmem. split; auto.
  rewrite forallb_forall in Hk. apply existsb_exists in Hd.
  destruct Hd as (w & Hw & He). specialize (Hk w Hw).
  apply orb_true_iff in Hk.
  destruct Hk as [Hk|Hk]; apply scalar_eqb_eq in Hk; subst w;
    destruct v as [|b|z|q|s]; cbn in He; try discriminate;
    apply Qeq_bool_eq in He.
  - exists (inject_Z (Z.b2z b)), false. auto.
  - exists (inject_Z z), false. auto.
  - exists q, false. auto.
  - exists (inject_Z (Z.b2z b)), true. auto.
  - exists (inject_Z z), true. auto.
  - exists q, true. auto.
Qed.

(** A true flag comes back as a float equal to one, a false one not at all. *)
Lemma decode_boolean (k : string) (hy : hyper) (v : scalar) (a : Q) (b : bool) :
  In (k, Spec hy) hypers_ -> h_type hy = KBool -> In k names ->
  Dict.get k flat = Some v -> Py.number v = Some a -> a == inject_Z (Z.b2z b) ->
  if b
  then exists x, Dict.get k (fold_left (decode_step reversed) reversed [])
                 = Some (VFloat x) /\ x == 1
  else Dict.get k (fold_left (decode_step reversed) reversed []) = None.
Proof.
  intros Hin Hty HN Hg Hnum Ha.
  destruct (key_clean k _ Hin) as [Hk Hhc].
  destruct (encode_value_number v a Hnum) as (q & Henc & Hq).
  assert (Hh : Dict.get k h = Some (FNum q)).
  { unfold h. rewrite (encoded_get hardcoded flat k v flat_nodup
                         (get_some_in _ _ _ Hg) Hhc). now rewrite Henc. }
  destruct (index_of_in _ _ HN) as [i Hi].
  pose proof (slot_plain k i Hk Hi) as Hx. rewrite Hh in Hx.
  assert (Hattr : forall n y, In (n, y) reversed -> has_char "=" n = true ->
                              part 0 n <> k).
  { intros n y Hr He Hp0. destruct (reversed_in n y Hr) as (Hn & _).
    destruct (slot_key n Hn He) as [_ (hy' & Hg' & Hty')]. rewrite Hp0 in Hg'.
    rewrite (in_get_nodup _ _ _ wf_keys Hin) in Hg'. injection Hg' as <-.
    congruence. }
  destruct b; cbn [Z.b2z] in Ha.
  - assert (Hone : nth i vec 0 == 1) by (rewrite Hx, Hq, Ha; reflexivity).
    assert (Hnz : Qeq_bool (nth i vec 0) 0 = false).
    { destruct (Qeq_bool (nth i vec 0) 0) eqn:E; auto.
      apply Qeq_bool_eq in E. exfalso. apply Q_apart_0_1. now rewrite <- Hone. }
    pose proof (reversed_intro _ i Hi Hnz) as HinR.
    destruct (in_split _ _ HinR) as (r1 & r2 & Hsplit).
    assert (Hother : forall n y, In (n, y) r2 -> n <> k).
    { pose proof reversed_nodup as Hnd. rewrite Hsplit in Hnd. unfold Dict.keys in Hnd.
      rewrite map_app in Hnd. cbn [map fst] in Hnd. apply NoDup_remove_2 in Hnd.
      intros n y Hiny ->. apply Hnd. rewrite in_app_iff. right.
      apply (in_map fst _ _ Hiny). }
    exists (nth i vec 0). split; auto.
    remember (decode_step reversed) as step eqn:Hstep.
    rewrite Hsplit, fold_left_app. cbn [fold_left]. subst step.
    rewrite decode_fold_other.
    2:{ intros n y Hiny. split.
        - intros _. now apply (Hother n y).
        - apply (Hattr n y). rewrite Hsplit, in_app_iff. right. now right. }
    cbv beta iota delta [decode_step]. rewrite Hk. cbn [negb]. apply get_set_same.
  - assert (Hzero : nth i vec 0 == 0) by (rewrite Hx, Hq, Ha; reflexivity).
    rewrite decode_fold_other; [reflexivity|].
    intros n y Hr. split; [|now apply (Hattr n y)].
    intros _ ->. destruct (reversed_in _ y Hr) as (_ & i' & Hi' & Hy & Hynz).
    assert (i' = i) by congruence. subst i'.
    rewrite Hy in Hynz. apply Qeq_bool_iff in Hzero. congruence.
Qed.

(** The loop [for k, v in hypers_.items()] runs to its end, rewrites the
    bool keys only, and leaves a bool at each of them. *)
Lemma bool_loop (l : Dict.t entry) :
  (forall kb e, In (kb, e) l -> In (kb, e) hypers_) ->
  forall obj,
    (forall kb e val, In (kb, e) hypers_ -> type_of e = Ok KBool ->
                      Dict.get kb obj = Some val -> is_ok (Py.round val) = true) ->
    exists obj',
      for_each bool_step obj l = Ok obj' /\
      (forall kb e val, In (kb, e) hypers_ -> type_of e = Ok KBool ->
                        Dict.get kb obj' = Some val -> is_ok (Py.round val) = true) /\
      (forall key, (forall e, In (key, e) l -> type_of e <> Ok KBool) ->
                   Dict.get key obj' = Dict.get key obj).
Proof.
  induction l as [|[kb e] l IH]; intros Hl obj HK.
  - exists obj. simpl. auto.
  - assert (Hl' : forall kb e, In (kb, e) l -> In (kb, e) hypers_)
      by (intros; apply Hl; now right).
    pose proof (Hl kb e (or_introl eq_refl)) as Hin.
    pose proof (wf_key kb e Hin) as Hok. unfold key_ok in Hok. cbn [fst snd] in Hok.
    destruct e as [lit|hy];
      [rewrite andb_false_r in Hok; discriminate|].
    cbn [for_each]. unfold bool_step at 1. cbn [fst snd type_of bind].
    destruct (h_type hy) eqn:Hty.
    + destruct (IH Hl' obj HK) as (obj' & Hrun & HK' & Hkeep).
      exists obj'. repeat split; auto.
      intros key Hkey. apply Hkeep. intros e' He'. apply Hkey. now right.
    + destruct (IH Hl' obj HK) as (obj' & Hrun & HK' & Hkeep).
      exists obj'. repeat split; auto.
      intros key Hkey. apply Hkeep. intros e' He'. apply Hkey. now right.
    + set (cur := match Dict.get kb obj with Some v => v | None => VFloat 0 end).
      assert (Hr : is_ok (Py.round cur) = true).
      { unfold cur. destruct (Dict.get kb obj) as [val|] eqn:G; [|reflexivity].
        apply (HK kb (Spec hy) val Hin); auto. cbn. now rewrite Hty. }
      destruct (Py.round cur) as [r|] eqn:R; [|discriminate]. cbn [bind].
      set (obj2 := Dict.set kb (VBool (Py.truthy r)) obj).
      assert (HK2 : forall kb' e' val, In (kb', e') hypers_ -> type_of e' = Ok KBool ->
                      Dict.get kb' obj2 = Some val -> is_ok (Py.round val) = true).
      { intros kb' e' val Hin' Hty' Hg'. unfold obj2 in Hg'.
        destruct (String.eqb kb kb') eqn:K.
        - apply String.eqb_eq in K. subst kb'. rewrite get_set_same in Hg'.
          injection Hg' as <-. reflexivity.
        - apply String.eqb_neq in K. rewrite get_set_other in Hg' by assumption.
          now apply (HK kb' e' val). }
      destruct (IH Hl' obj2 HK2) as (obj' & Hrun & HK' & Hkeep).
      exists obj'. repeat split; auto.
      intros key Hkey. rewrite Hkeep by (intros e' He'; apply Hkey; now right).
      unfold obj2. apply get_set_other. intros ->.
      apply (Hkey (Spec hy) (or_introl eq_refl)). cbn. now rewrite Hty.
Qed.

Lemma decoded_rounds (kb : string) (e : entry) (val : scalar) :
  In (kb, e) hypers_ -> type_of e = Ok KBool ->
  Dict.get kb (fold_left (decode_step reversed) reversed []) = Some val ->
  is_ok (Py.round val) = true.
Proof.
  intros Hin Hty Hg.
  destruct (decode_fold_shape reversed reversed []) with (key := kb) (val := val)
    as [[q ->]|(s & hy & -> & Hg' & Hty')]; auto.
  - intros n y Hr. now destruct (reversed_in n y Hr).
  - intros key val'. discriminate.
  - rewrite (in_get_nodup _ _ _ wf_keys Hin) in Hg'. injection Hg' as ->.
    cbn in Hty. congruence.
Qed.

(** *** The round trip in a well-formed codec *)

Lemma decode_runs :
  decode c (encode c flat) =
  for_each bool_step (fold_left (decode_step reversed) reversed []) hypers_.
Proof.
  unfold decode, encode, vec2hypers.
  change (hypers2vec (c_names c) (c_hardcoded c) flat) with vec.
  change (c_names c) with names.
  rewrite (inverse_transform_columns names vec vec_length). reflexivity.
Qed.

Lemma round_trip_categorical (k : string) (hy : hyper) (v : scalar) :
  In (k, Spec hy) hypers_ -> h_type hy = KInt ->
  Dict.get k flat = Some v -> in_domain v hy = true ->
  exists obj, decode c (encode c flat) = Ok obj /\ Dict.get k obj = Some v.
Proof.
  intros Hin Hty Hg Hd.
  destruct (categorical_option k hy v Hin Hty Hd) as [Hnot (s0 & -> & Hs & Hne & HN)].
  destruct (bool_loop hypers_ (fun _ _ H => H) _ decoded_rounds)
    as (obj & Hrun & _ & Hkeep).
  exists obj. rewrite decode_runs. split; auto.
  rewrite Hkeep.
  - now apply (decode_categorical k hy s0).
  - intros e He. rewrite (key_unique k e (Spec hy) He Hin). cbn. congruence.
Qed.

Lemma round_trip_boolean (k : string) (hy : hyper) (v : scalar) :
  In (k, Spec hy) hypers_ -> h_type hy = KBool ->
  Dict.get k flat = Some v -> in_domain v hy = true ->
  exists obj b, decode c (encode c flat) = Ok obj /\ Dict.get k obj = Some (VBool b)
                /\ Py.eq (VBool b) v = true.
Proof.
  intros Hin Hty Hg Hd.
  destruct (boolean_option k hy v Hin Hty Hd) as [HN (a & b & Hnum & Ha)].
  pose proof (decode_boolean k hy v a b Hin Hty HN Hg Hnum Ha) as Hdec.
  destruct (in_split _ _ Hin) as (l1 & l2 & Hsplit).
  assert (Hnd : ~ In k (Dict.keys (l1 ++ l2))).
  { pose proof wf_keys as H. rewrite Hsplit in H. unfold Dict.keys in *.
    rewrite map_app in H. cbn [map fst] in H. apply NoDup_remove_2 in H.
    now rewrite map_app. }
  assert (Hsub1 : forall kb e, In (kb, e) l1 -> In (kb, e) hypers_)
    by (intros; rewrite Hsplit, in_app_iff; now left).
  assert (Hsub2 : forall kb e, In (kb, e) l2 -> In (kb, e) hypers_)
    by (intros; rewrite Hsplit, in_app_iff; right; now right).
  destruct (bool_loop l1 Hsub1 _ decoded_rounds) as (obj1 & Hrun1 & HK1 & Hkeep1).
  assert (Hk1 : Dict.get k obj1 = Dict.get k (fold_left (decode_step reversed) reversed [])).
  { apply Hkeep1. intros e He. exfalso. apply Hnd. unfold Dict.keys.
    rewrite map_app, in_app_iff. left. apply (in_map fst _ _ He). }
  set (cur := match Dict.get k obj1 with Some v => v | None => VFloat 0 end).
  assert (Hr : Py.round cur = Ok (VInt (Z.b2z b))).
  { unfold cur. rewrite Hk1. destruct b.
    - destruct Hdec as (x & -> & Hx). cbn [Py.round].
      now rewrite (round_comp x 1 Hx).
    - now rewrite Hdec. }
  assert (HK2 : forall kb e val, In (kb, e) hypers_ -> type_of e = Ok KBool ->
                  Dict.get kb (Dict.set k (VBool b) obj1) = Some val ->
                  is_ok (Py.round val) = true).
  { intros kb e val Hin' Hty' Hg'.
    destruct (String.eqb k kb) eqn:K.
    - apply String.eqb_eq in K. subst kb. rewrite get_set_same in Hg'.
      injection Hg' as <-. reflexivity.
    - apply String.eqb_neq in K. rewrite get_set_other in Hg' by assumption.
      now apply (HK1 kb e val). }
  destruct (bool_loop l2 Hsub2 _ HK2) as (obj & Hrun2 & _ & Hkeep2).
  exists obj, b. rewrite decode_runs. repeat split.
  - remember (fold_left (decode_step reversed) reversed []) as decoded.
    rewrite Hsplit, for_each_app, Hrun1. cbn [bind for_each].
    unfold bool_step at 1. cbn [fst snd type_of bind]. rewrite Hty.
    fold cur. rewrite Hr. cbn [bind Py.truthy].
    replace (negb (Z.b2z b =? 0)%Z) with b by now destruct b.
    exact Hrun2.
  - rewrite Hkeep2.
    + apply get_set_same.
    + intros e He. exfalso. apply Hnd. unfold Dict.keys.
      rewrite map_app, in_app_iff. right. apply (in_map fst _ _ He).
  - unfold Py.eq. cbn [Py.number]. rewrite Hnum.
    apply Qeq_bool_iff. now symmetry.
Qed.

End RoundTrip.

Section CodecFacts.
Context {C : Collaborators}.
Import MainGP.

Lemma setup_wf (gpu : Q) (net : string) (c : codec) :
  net = "lstm"%string \/ net = "conv2d"%string ->
  setup gpu net = Ok c -> codec_wf c = true.
Proof.
  intros Hnet Hc.
  assert (H : bind (setup gpu net) (fun c => Ok (codec_wf c)) = Ok true)
    by (destruct Hnet; subst net; vm_compute; reflexivity).
  rewrite Hc in H. cbn [bind] in H. now injection H.
Qed.

(** C4. In the codec [main_gp] sets up for either network type, for every
    searched hyper [k] of kind categorical or boolean and every flat
    record (a dict, keyed by dotted hyper paths) whose value at [k] is one
    of the declared values of [k], [vec2hypers (hypers2vec flat)] returns a
    record, and its value at [k] is equal ([==]) to the one of [flat]. *)
Theorem categorical_and_boolean_round_trip
        (gpu : Q) (net : string) (c : codec) (flat : flat_record)
        (k : string) (hy : hyper) (v : scalar) :
  net = "lstm"%string \/ net = "conv2d"%string ->
  setup gpu net = Ok c ->
  NoDup (Dict.keys flat) ->
  Forall (fun k' => has_char "=" k' = false) (Dict.keys flat) ->
  Dict.get k (c_hypers c) = Some (Spec hy) ->
  h_type hy <> KBounded ->
  Dict.get k flat = Some v ->
  in_domain v hy = true ->
  exists obj v',
    decode c (encode c flat) = Ok obj /\ Dict.get k obj = Some v' /\ Py.eq v' v = true.
Proof.
  intros Hnet Hc Hnd Hclean Hk Hty Hv Hd.
  pose proof (setup_wf gpu net c Hnet Hc) as Hwf.
  apply get_some_in in Hk.
  destruct (h_type hy) eqn:E.
  - destruct (round_trip_categorical c Hwf flat Hnd Hclean k hy v Hk E Hv Hd)
      as (obj & Hrun & Hg).
    exists obj, v. repeat split; auto.
    destruct (categorical_option c Hwf k hy v Hk E Hd) as [_ (s & -> & _)].
    cbn. apply String.eqb_refl.
  - contradiction.
  - destruct (round_trip_boolean c Hwf flat Hnd k hy v Hk E Hv Hd)
      as (obj & b & Hrun & Hg & Heq).
    exists obj, (VBool b). auto.
Qed.

End CodecFacts.

(** C4 at work: the categorical [net.activation] and the boolean
    [indicators] of the conv2d codec, on the record of the guesses. *)
Lemma round_trip_example :
  (exists obj v',
     MainGP.decode example_codec (MainGP.encode example_codec example_actions) = Ok obj /\
     Dict.get "net.activation" obj = Some v' /\ Py.eq v' (VStr "tanh") = true) /\
  (exists obj v',
     MainGP.decode example_codec (MainGP.encode example_codec example_actions) = Ok obj /\
     Dict.get "indicators" obj = Some v' /\ Py.eq v' (VBool true) = true).
Proof.
  assert (Hnd : NoDup (Dict.keys example_actions))
    by (apply distinct_nodup; vm_compute; reflexivity).
  assert (Hclean : Forall (fun k => has_char "=" k = false) (Dict.keys example_actions))
    by (repeat constructor).
  split.
  - apply (categorical_and_boolean_round_trip (C := example_collaborators)
             1 "conv2d" example_codec example_actions "net.activation"
             {| h_type := KInt; h_vals := Some [VStr "tanh"; VStr "relu"];
                h_guess := Some (VStr "tanh");
                h_pre := None; h_post := None; h_hydrate := None |}
             (VStr "tanh"));
      try reflexivity; try assumption; [now right | discriminate].
  - apply (categorical_and_boolean_round_trip (C := example_collaborators)
             1 "conv2d" example_codec example_actions "indicators"
             {| h_type := KBool; h_vals := Some [VInt 0; VInt 1];
                h_guess := Some (VBool true);
                h_pre := None; h_post := None; h_hydrate := None |}
             (VBool true));
      try reflexivity; try assumption; [now right | discriminate].
Defined.

(** ** More on the flatten/hydrate pipeline *)

Section FlattenFacts.
Context {C : Collaborators}.
Import HSearchEnv.

Lemma keys_set_in {V} (k k' : string) (v : V) (d : Dict.t V) :
  In k' (Dict.keys (Dict.set k v d)) <-> k' = k \/ In k' (Dict.keys d).
Proof.
  rewrite keys_set. unfold Dict.mem.
  destruct (Dict.get k d) as [x|] eqn:G.
  - split; [tauto|]. intros [->|H]; auto.
    apply get_some_in in G. apply (in_map fst) in G. exact G.
  - rewrite in_app_iff. cbn [In]. split; [intros [H|[H|[]]]|intros [H|H]]; auto.
Qed.

Lemma keys_update_in {V} (k : string) (d2 : Dict.t V) :
  forall d, In k (Dict.keys (Dict.update d d2)) <-> In k (Dict.keys d) \/ In k (Dict.keys d2).
Proof.
  unfold Dict.update.
  induction d2 as [|[k0 v0] d2 IH]; intros d; cbn [fold_left fst snd].
  - cbn. tauto.
  - rewrite IH, keys_set_in. cbn [Dict.keys map fst In]. split.
    + intros [[->|H]|H]; auto.
    + intros [H|[->|H]]; auto.
Qed.

Lemma pre_loop_keys (env : t) (k : string) (l : flat_record) :
  forall s s', for_each (pre_step env) s l = Ok s' ->
               (In k (Dict.keys s') <-> In k (Dict.keys s) \/ In k (Dict.keys l)).
Proof.
  induction l as [|[k0 v0] l IH]; intros s s'; cbn [for_each].
  - intros [= <-]. cbn. tauto.
  - destruct (pre_step env s (k0, v0)) as [s1|] eqn:E; cbn [bind]; [|discriminate].
    intros H. rewrite (IH s1 s' H).
    destruct (pre_step_sets _ _ _ _ _ E) as [v' ->].
    rewrite keys_set_in. cbn [Dict.keys map fst In]. split.
    + intros [[->|Hin]|Hin]; auto.
    + intros [Hin|[->|Hin]]; auto.
Qed.

Lemma flatten_keys (env : t) (actions flat : flat_record) (k : string) :
  flatten env actions = Ok flat ->
  (In k (Dict.keys flat) <-> In k (Dict.keys actions) \/ In k (Dict.keys (hardcoded env))).
Proof.
  unfold flatten, pre_phase.
  destruct (for_each (pre_step env) [] actions) as [flat0|] eqn:E0; cbn [bind];
    [|discriminate].
  intros Hpost. rewrite (post_phase_keys _ _ _ Hpost), keys_update_in.
  rewrite (pre_loop_keys env k actions [] flat0 E0). cbn. tauto.
Qed.

(** The post loop rewrites, at each turn, the key of that turn only. *)
Lemma post_step_other (env : t) (s s' : flat_record) (k0 k : string) (v0 : scalar) :
  k0 <> k -> post_step env s (k0, v0) = Ok s' -> Dict.get k s' = Dict.get k s.
Proof.
  intros Hne. unfold post_step.
  destruct (Dict.item k0 (hypers env)) as [[lit|h]|]; cbn [bind]; try discriminate.
  - now intros [= <-].
  - destruct (h_post h) as [post|]; [|now intros [= <-]].
    destruct (post v0 s) as [v'|]; cbn [bind]; [|discriminate].
    intros [= <-]. now apply get_set_other.
Qed.

Lemma post_loop_other (env : t) (k : string) (l : flat_record) :
  ~ In k (Dict.keys l) ->
  forall s s', for_each (post_step env) s l = Ok s' -> Dict.get k s' = Dict.get k s.
Proof.
  induction l as [|[k0 v0] l IH]; intros Hni s s'; cbn [for_each].
  - now intros [= <-].
  - destruct (post_step env s (k0, v0)) as [s1|] eqn:E; cbn [bind]; [|discriminate].
    intros H. rewrite (IH (fun Hin => Hni (or_intror Hin)) s1 s' H).
    apply (post_step_other env s s1 k0 k v0); auto.
    intros ->. apply Hni. now left.
Qed.

Lemma nodup_split_keys {V} (l1 l2 : Dict.t V) (k : string) (v : V) :
  NoDup (Dict.keys (l1 ++ (k, v) :: l2)) ->
  ~ In k (Dict.keys l1) /\ ~ In k (Dict.keys l2).
Proof.
  unfold Dict.keys. rewrite map_app. cbn [map fst]. intros H.
  apply NoDup_remove_2 in H. rewrite in_app_iff in H. tauto.
Qed.

(** What the pre-phase leaves under a key of the actions *)
Lemma pre_phase_value (env : t) (actions flat0 : flat_record)
      (k : string) (v : scalar) (h : hyper) :
  NoDup (Dict.keys actions) ->
  In (k, v) actions ->
  Dict.get k (hypers env) = Some (Spec h) ->
  Dict.get k (hardcoded env) = None ->
  pre_phase env actions = Ok flat0 ->
  exists v', match h_pre h with Some pre => pre v | None => Ok v end = Ok v' /\
             Dict.get k flat0 = Some v'.
Proof.
  intros Hnd Hin Hk Hh. unfold pre_phase.
  destruct (for_each (pre_step env) [] actions) as [s|] eqn:E0; cbn [bind];
    [|discriminate].
  intros [= <-]. rewrite get_update_other by assumption.
  destruct (in_split _ _ Hin) as (l1 & l2 & ->).
  destruct (nodup_split_keys _ _ _ _ Hnd) as [_ Hni].
  rewrite for_each_app in E0.
  destruct (for_each (pre_step env) [] l1) as [s1|]; cbn [bind for_each] in E0;
    [|discriminate].
  unfold pre_step at 1, Dict.item in E0. rewrite Hk in E0. cbn [bind] in E0.
  destruct (match h_pre h with Some pre => pre v | None => Ok v end) as [v'|];
    cbn [bind] in E0; [|discriminate].
  exists v'. split; auto.
  rewrite (pre_loop_other env k l2 Hni _ _ E0). apply get_set_same.
Qed.

(** X1.  The FlatRecord [get_hypers] returns has the keys of the actions
    and the keys of [self.hardcoded], and no other key. *)
Theorem flat_record_keys (env : t) (actions flat : flat_record) (main network : tree)
        (k : string) :
  get_hypers env actions = Ok (flat, main, network) ->
  (In k (Dict.keys flat) <->
   In k (Dict.keys actions) \/ In k (Dict.keys (hardcoded env))).
Proof.
  intros H. apply get_hypers_flatten in H. now apply flatten_keys.
Qed.

(** X2.  For an action [(k, v)] whose spec has no [post] hook and whose key
    is not hard-coded, the [pre] hook of the spec returns on [v] and the
    FlatRecord holds its result under [k]; without a [pre] hook it holds
    [v] itself. *)
Theorem flat_record_holds_preprocessed_action
        (env : t) (actions flat : flat_record) (k : string) (v : scalar) (h : hyper) :
  NoDup (Dict.keys actions) ->
  In (k, v) actions ->
  Dict.get k (hypers env) = Some (Spec h) ->
  h_post h = None ->
  Dict.get k (hardcoded env) = None ->
  flatten env actions = Ok flat ->
  exists v', match h_pre h with Some pre => pre v | None => Ok v end = Ok v' /\
             Dict.get k flat = Some v'.
Proof.
  intros Hnd Hin Hk Hpost Hh. unfold flatten.
  destruct (pre_phase env actions) as [flat0|] eqn:E0; cbn [bind]; [|discriminate].
  intros H.
  destruct (pre_phase_value env actions flat0 k v h Hnd Hin Hk Hh E0) as (v' & Hv & Hg).
  exists v'. split; auto. unfold post_phase in H.
  now rewrite (post_loop_no_post env k h _ Hk Hpost _ _ H).
Qed.

(** *** The post hook of gae_lambda *)

Lemma gae_post_again (v0 v' : scalar) (s s2 : flat_record) :
  gae_lambda_post v0 s = Ok v' ->
  Dict.get "baseline_mode" s2 = Dict.get "baseline_mode" s ->
  gae_lambda_post v' s2 = Ok v'.
Proof.
  unfold gae_lambda_post, Dict.item. intros H Hbm. rewrite Hbm.
  destruct (Py.truthy v0) eqn:T; [|now injection H as <-].
  destruct (Py.gt v0 (VFloat (9 # 10))) as [[|]|] eqn:G; cbn [bind] in H;
    try discriminate; [|now injection H as <-].
  destruct (Dict.get "baseline_mode" s) as [bm|]; cbn [bind] in H; [|discriminate].
  destruct (Py.truthy bm) eqn:B; injection H as <-; [|reflexivity].
  rewrite T, G. cbn [bind]. now rewrite B.
Qed.

Lemma gae_post_fixed_cases (v : scalar) (flat : flat_record) :
  gae_lambda_post v flat = Ok v ->
  v = VNone \/
  (Py.gt v (VFloat (9 # 10)) = Ok true /\
   exists bm, Dict.get "baseline_mode" flat = Some bm /\ Py.truthy bm = true).
Proof.
  unfold gae_lambda_post, Dict.item.
  destruct (Py.truthy v); [|intros [= <-]; now left].
  destruct (Py.gt v (VFloat (9 # 10))) as [[|]|]; cbn [bind]; try discriminate;
    [|intros [= <-]; now left].
  destruct (Dict.get "baseline_mode" flat) as [bm|]; cbn [bind]; [|discriminate].
  destruct (Py.truthy bm) eqn:B; [|intros [= <-]; now left].
  intros _. right. split; auto. now exists bm.
Qed.

(** After the post loop, the value under gae_lambda is one its post hook
    leaves as it is. *)
Lemma post_phase_gae_fixed (env : t) (flat0 flat : flat_record)
      (h hb : hyper) (v : scalar) :
  Dict.get "gae_lambda" (hypers env) = Some (Spec h) ->
  h_post h = Some gae_lambda_post ->
  Dict.get "baseline_mode" (hypers env) = Some (Spec hb) ->
  h_post hb = None ->
  NoDup (Dict.keys flat0) ->
  post_phase env flat0 = Ok flat ->
  Dict.get "gae_lambda" flat = Some v ->
  gae_lambda_post v flat = Ok v.
Proof.
  intros Hk Hp Hkb Hpb Hnd Hpost Hv.
  assert (Hin : In "gae_lambda" (Dict.keys flat0)).
  { rewrite <- (post_phase_keys _ _ _ Hpost).
    apply get_some_in in Hv. apply (in_map fst) in Hv. exact Hv. }
  unfold Dict.keys in Hin. apply in_map_iff in Hin.
  destruct Hin as ([k0 v0] & Hk0 & Hin). cbn [fst] in Hk0. subst k0.
  destruct (in_split _ _ Hin) as (l1 & l2 & Hsplit).
  assert (Hni : ~ In "gae_lambda" (Dict.keys l2)).
  { rewrite Hsplit in Hnd. now destruct (nodup_split_keys _ _ _ _ Hnd). }
  pose proof (post_loop_no_post env "baseline_mode" hb _ Hkb Hpb _ _ Hpost) as Hbm.
  unfold post_phase in Hpost.
  remember (post_step env) as step eqn:Hstep.
  rewrite Hsplit in Hpost at 2. rewrite for_each_app in Hpost. subst step.
  destruct (for_each (post_step env) flat0 l1) as [s1|] eqn:E1; cbn [bind for_each] in Hpost;
    [|discriminate].
  pose proof (post_loop_no_post env "baseline_mode" hb _ Hkb Hpb _ _ E1) as Hbm1.
  unfold post_step at 1, Dict.item in Hpost. rewrite Hk in Hpost. cbn [bind] in Hpost.
  rewrite Hp in Hpost.
  destruct (gae_lambda_post v0 s1) as [v'|] eqn:G; cbn [bind] in Hpost; [|discriminate].
  rewrite (post_loop_other env "gae_lambda" l2 Hni _ _ Hpost), get_set_same in Hv.
  injection Hv as <-.
  apply (gae_post_again v0 v' s1 flat G). congruence.
Qed.

(** X3.  In a schema where gae_lambda carries the post hook of the
    catalogue (and baseline_mode none), the FlatRecord holds under
    gae_lambda either [None] or a value above [0.9], and the latter only
    next to a true baseline_mode. *)
Theorem gae_lambda_kept_only_with_baseline
        (env : t) (actions flat : flat_record) (h hb : hyper) (v : scalar) :
  Dict.get "gae_lambda" (hypers env) = Some (Spec h) ->
  h_post h = Some gae_lambda_post ->
  Dict.get "baseline_mode" (hypers env) = Some (Spec hb) ->
  h_post hb = None ->
  flatten env actions = Ok flat ->
  Dict.get "gae_lambda" flat = Some v ->
  v = VNone \/
  (Py.gt v (VFloat (9 # 10)) = Ok true /\
   exists bm, Dict.get "baseline_mode" flat = Some bm /\ Py.truthy bm = true).
Proof.
  intros Hk Hp Hkb Hpb Hflat Hv.
  apply gae_post_fixed_cases.
  unfold flatten, pre_phase in Hflat.
  destruct (for_each (pre_step env) [] actions) as [s|] eqn:E0; cbn [bind] in Hflat;
    [|discriminate].
  apply (post_phase_gae_fixed env (Dict.update s (hardcoded env)) flat h hb v
           Hk Hp Hkb Hpb); auto.
  apply nodup_keys_update.
  apply (pre_loop_nodup env actions [] s); [constructor|assumption].
Qed.

(** *** Replaying a stored record *)

Lemma set_same_id {V} (k : string) (v : V) (d : Dict.t V) :
  Dict.get k d = Some v -> Dict.set k v d = d.
Proof.
  induction d as [|[k0 v0] d IH]; simpl; [discriminate|].
  destruct (String.eqb k k0) eqn:E.
  - apply String.eqb_eq in E. subst. now intros [= ->].
  - intros H. now rewrite IH.
Qed.

Lemma update_nil_nodup {V} (d : Dict.t V) :
  NoDup (Dict.keys d) -> Dict.update [] d = d.
Proof.
  unfold Dict.update.
  assert (H : forall acc, NoDup (Dict.keys (acc ++ d)) ->
                          fold_left (fun acc kv => Dict.set (fst kv) (snd kv) acc) d acc
                          = acc ++ d).
  { induction d as [|[k v] d IH]; intros acc Hnd; cbn [fold_left fst snd].
    - now rewrite app_nil_r.
    - destruct (nodup_split_keys _ _ _ _ Hnd) as [Hni _].
      rewrite set_not_in by now apply get_none_not_in.
      rewrite IH; rewrite <- app_assoc; [reflexivity|exact Hnd]. }
  intros Hnd. now apply (H []).
Qed.

Lemma init_posts (gpu : Q) (net : string) (env : t) :
  net = "lstm" \/ net = "conv2d" ->
  init "ppo_agent" gpu net = Ok env ->
  Forall (fun kv : string * entry =>
            match snd kv with
            | Spec h => h_post h = None \/
                        (fst kv = "gae_lambda" /\ h_post h = Some gae_lambda_post)
            | Literal _ => True
            end) (hypers env) /\
  (exists hb, Dict.get "baseline_mode" (hypers env) = Some (Spec hb) /\ h_post hb = None) /\
  (exists h, Dict.get "gae_lambda" (hypers env) = Some (Spec h) /\
             h_post h = Some gae_lambda_post).
Proof.
  intros [->| ->] Hinit;
    cbv -[scalar_hook two_to_the ten_to_the_neg min_threshold min_ten_neg
          hydrate_baseline gae_lambda_post Py.round Py.int] in Hinit;
    injection Hinit as <-; cbn [hypers];
    (split; [|split]);
    [ repeat (apply Forall_cons;
              [cbn [snd fst h_post];
               first [exact I | left; reflexivity | right; split; reflexivity]|]);
      apply Forall_nil
    | eexists; split; reflexivity
    | eexists; split; reflexivity
    | repeat (apply Forall_cons;
              [cbn [snd fst h_post];
               first [exact I | left; reflexivity | right; split; reflexivity]|]);
      apply Forall_nil
    | eexists; split; reflexivity
    | eexists; split; reflexivity ].
Qed.

(** With a FlatRecord as [self.hardcoded] and no actions, the first two
    loops give the record back. *)
Lemma flatten_replays (env : t) (flat : flat_record) :
  Forall (fun kv : string * entry =>
            match snd kv with
            | Spec h => h_post h = None \/
                        (fst kv = "gae_lambda" /\ h_post h = Some gae_lambda_post)
            | Literal _ => True
            end) (hypers env) ->
  NoDup (Dict.keys flat) ->
  (forall k v, In (k, v) flat -> exists e, Dict.get k (hypers env) = Some e) ->
  (forall v, Dict.get "gae_lambda" flat = Some v -> gae_lambda_post v flat = Ok v) ->
  flatten (with_hardcoded env flat) [] = Ok flat.
Proof.
  intros Hposts Hnd Hknown Hgae.
  unfold flatten, pre_phase. cbn [for_each bind with_hardcoded hardcoded].
  rewrite (update_nil_nodup flat Hnd). unfold post_phase.
  change (post_step (with_hardcoded env flat)) with (post_step env).
  assert (H : forall l, (forall kv, In kv l -> In kv flat) ->
                        for_each (post_step env) flat l = Ok flat).
  { induction l as [|[k v] l IH]; intros Hl; cbn [for_each]; auto.
    assert (Hstep : post_step env flat (k, v) = Ok flat).
    { pose proof (Hl (k, v) (or_introl eq_refl)) as Hin.
      destruct (Hknown k v Hin) as [e He].
      unfold post_step, Dict.item. rewrite He. cbn [bind].
      destruct e as [lit|h]; auto.
      rewrite Forall_forall in Hposts.
      specialize (Hposts (k, Spec h) (get_some_in _ _ _ He)). cbn [fst snd] in Hposts.
      destruct Hposts as [->|[-> ->]]; auto.
      pose proof (in_get_nodup _ _ _ Hnd Hin) as Hg.
      rewrite (Hgae v Hg). cbn [bind]. now rewrite set_same_id. }
    rewrite Hstep. cbn [bind]. apply IH. intros kv Hin. apply Hl. now right. }
  apply H. auto.
Qed.

(** X4.  In the environments [main_gp] builds, a FlatRecord that
    [get_hypers] produced and the run store returns under a non-zero
    [id] is replayed as it is: [get_winner(id)] makes it [self.hardcoded],
    the first two loops of [get_hypers({})] give it back, and it is the
    FlatRecord of whatever the call returns. *)
Theorem stored_record_replays
        (gpu : Q) (net : string) (env : t) (actions flat : flat_record) (id : Z) :
  net = "lstm" \/ net = "conv2d" ->
  init "ppo_agent" gpu net = Ok env ->
  flatten env actions = Ok flat ->
  id <> 0%Z ->
  select_run id = Ok flat ->
  hardcoded (fst (get_winner env (Some id))) = flat /\
  flatten (fst (get_winner env (Some id))) [] = Ok flat /\
  (forall flat' main network,
      snd (get_winner env (Some id)) = Ok (flat', main, network) -> flat' = flat).
Proof.
  intros Hnet Hinit Hflat Hid Hsel.
  destruct (init_posts gpu net env Hnet Hinit)
    as (Hposts & (hb & Hkb & Hpb) & (h & Hk & Hp)).
  destruct (flatten_shape env actions flat Hflat) as [Hnd Hknown].
  assert (Hgae : forall v, Dict.get "gae_lambda" flat = Some v ->
                           gae_lambda_post v flat = Ok v).
  { intros v Hv.
    unfold flatten, pre_phase in Hflat.
    destruct (for_each (pre_step env) [] actions) as [s|] eqn:E0; cbn [bind] in Hflat;
      [|discriminate].
    apply (post_phase_gae_fixed env (Dict.update s (hardcoded env)) flat h hb v
             Hk Hp Hkb Hpb); auto.
    apply nodup_keys_update.
    apply (pre_loop_nodup env actions [] s); [constructor|assumption]. }
  pose proof (flatten_replays env flat Hposts Hnd Hknown Hgae) as Hre.
  unfold get_winner. cbn [winner_of].
  destruct (Z.eqb_spec id 0) as [|_]; [contradiction|].
  rewrite Hsel. cbn [fst snd with_hardcoded hardcoded].
  repeat split; auto.
  intros flat' main network H. apply get_hypers_flatten in H.
  change (flatten (with_hardcoded env flat) [] = Ok flat') in H. congruence.
Qed.

(** *** The hydrate loop and the tail of get_hypers *)

(** X5.  In the environments [main_gp] builds, the hydrate loop does not
    raise on a record whose keys are keys of [self.hypers], whatever the
    values and whatever the hooks do: each failure is caught inside the
    loop.  It holds in particular for the FlatRecord of the first two
    loops. *)
Theorem hydrate_loop_never_raises
        (gpu : Q) (net : string) (env : t) (flat : flat_record) :
  net = "lstm" \/ net = "conv2d" ->
  init "ppo_agent" gpu net = Ok env ->
  (forall k v, In (k, v) flat -> exists e, Dict.get k (hypers env) = Some e) ->
  exists main custom, hydrate_phase env flat = Ok (main, custom).
Proof.
  intros Hnet Hinit Hknown.
  pose proof (init_width_ready gpu net env Hnet Hinit) as Hw.
  destruct (hydrate_loop_ready env flat flat Hw Hknown (Node []) (Node []) eq_refl eq_refl)
    as (main & custom & H & _).
  now exists main, custom.
Qed.

Lemma get_hypers_finish (env : t) (actions flat : flat_record) (main network : tree) :
  get_hypers env actions = Ok (flat, main, network) ->
  exists main0 custom, finish env flat main0 custom = Ok (flat, main, network).
Proof.
  unfold get_hypers.
  destruct (flatten env actions) as [flat0|]; cbn [bind]; [|discriminate].
  destruct (hydrate_phase env flat0) as [[main0 custom]|]; cbn [bind]; [|discriminate].
  intros H. exists main0, custom.
  assert (flat0 = flat); [|now subst].
  unfold finish in H.
  repeat match type of H with
         | bind ?X _ = _ => destruct X; cbn [bind] in H; [|discriminate]
         end.
  now injection H.
Qed.

(** X6.  What [get_hypers] returns has [session_config] set in [main]:
    [None] when [gpu_split] is [1], and otherwise a fraction of the GPU
    memory that, for a finite positive [gpu_split], lies strictly between
    [0] and [1].  The same lines on the float itself: for a finite
    positive float other than [1] the fraction, with the quotient
    [.9 / gpu_split] rounded as binary64 rounds it, is a float strictly
    between [0] and [1]; for [inf], which [type=float] also parses, it is
    [0.0]; for [-inf] and NaN it is the argument itself. *)
Theorem session_config_fraction :
  (forall (env : t) (actions flat : flat_record) (main network : tree),
      get_hypers env actions = Ok (flat, main, network) ->
      0 < gpu_split env ->
      (gpu_split env == 1 /\ tree_item "session_config" main = Ok (Leaf VNone)) \/
      (~ gpu_split env == 1 /\
       exists f, tree_item "session_config" main = Ok (SessionConfig f) /\ 0 < f /\ f < 1))
  /\
  (forall g : Binary64.t,
      match g with
      | Binary64.Finite k =>
          Binary64.is_float k = true -> (0 < k)%Z -> k <> Binary64.one ->
          exists f, session_fraction g = Ok (Some (Binary64.Finite f)) /\
                    (0 < f < Binary64.one)%Z
      | Binary64.Infinite false => session_fraction g = Ok (Some (Binary64.Finite 0))
      | Binary64.Infinite true => session_fraction g = Ok (Some g)
      | Binary64.NaN => session_fraction g = Ok (Some Binary64.NaN)
      end).
Proof.
  split; [|exact session_fraction_cases].
  intros env actions flat main network H Hpos. destruct (get_hypers_finish _ _ _ _ _ H) as (main0 & custom & Hf).
  unfold finish in Hf.
  do 3 match type of Hf with
       | bind ?X _ = _ => destruct X as [?|]; cbn [bind] in Hf; [|discriminate]
       end.
  match type of Hf with
  | bind (tree_setitem _ _ ?m) _ = _ =>
      destruct m as [| d | |]; cbn [tree_setitem bind] in Hf; try discriminate
  end.
  injection Hf as <- _.
  cbn [tree_item]. unfold Dict.item. rewrite get_set_same.
  destruct (Qeq_bool (gpu_split env) 1) eqn:E1.
  - left. split; auto. now apply Qeq_bool_eq.
  - right. split; [intros Hc; apply Qeq_bool_iff in Hc; congruence|].
    eexists. split; [reflexivity|].
    destruct (Qle_bool (gpu_split env) 1) eqn:E2; cbn [negb].
    + apply Qle_bool_iff in E2. split; auto.
      apply Qle_lteq in E2. destruct E2 as [E2|E2]; auto.
      apply Qeq_bool_iff in E2. congruence.
    + assert (H1 : 1 < gpu_split env).
      { apply Qnot_le_lt. intros Hc. apply Qle_bool_iff in Hc. congruence. }
      split.
      * apply Qlt_shift_div_l; [assumption|]. now rewrite Qmult_0_l.
      * apply Qlt_shift_div_r; [assumption|]. rewrite Qmult_1_l.
        apply Qlt_trans with (y := 1); [reflexivity|assumption].
Qed.

(** X7.  [get_hypers] reads [flat['baseline_mode']] after the loops: it
    returns only when baseline_mode is a key of the actions or of
    [self.hardcoded]. *)
Theorem get_hypers_needs_baseline_mode
        (env : t) (actions flat : flat_record) (main network : tree) :
  get_hypers env actions = Ok (flat, main, network) ->
  In "baseline_mode" (Dict.keys actions) \/
  In "baseline_mode" (Dict.keys (hardcoded env)).
Proof.
  intros H. pose proof (get_hypers_flatten _ _ _ _ _ H) as Hflat.
  apply (flatten_keys env actions flat "baseline_mode" Hflat).
  destruct (get_hypers_finish _ _ _ _ _ H) as (main0 & custom & Hf).
  unfold finish in Hf.
  destruct (custom_net custom false); cbn [bind] in Hf; [|discriminate].
  destruct (Dict.item "baseline_mode" flat) as [bm|] eqn:E; [|discriminate].
  now apply item_in_keys in E.
Qed.

(** *** __init__ *)

Lemma init_checked (gpu : Q) :
  forallb (fun agent =>
             forallb (fun net => init_check agent gpu net) (Dict.keys Catalogue.hypers))
          (Dict.keys Catalogue.hypers) = true.
Proof. vm_compute. reflexivity. Qed.

(** X8.  [__init__] raises [KeyError] on an agent or a network type that
    is not a section of the catalogue, the agent first.  When it returns,
    net.type is bound to the given network type in [self.hypers] and is
    the one hard-coded value. *)
Theorem init_rejects_unknown_sections (agent : string) (gpu : Q) (net : string) :
  (Dict.get agent Catalogue.hypers = None ->
   init agent gpu net = Err (KeyError (VStr agent))) /\
  (Dict.get agent Catalogue.hypers <> None -> Dict.get net Catalogue.hypers = None ->
   init agent gpu net = Err (KeyError (VStr net))) /\
  (forall env, init agent gpu net = Ok env ->
               hardcoded env = [("net.type", VStr net)] /\
               Dict.get "net.type" (hypers env) = Some (Literal (VStr net))).
Proof.
  split; [|split].
  - intros Ha. unfold init, Dict.item. now rewrite Ha.
  - intros Ha Hn. unfold init, Dict.item.
    destruct (Dict.get agent Catalogue.hypers); [|contradiction].
    cbn [bind]. now rewrite Hn.
  - intros env Hinit.
    destruct (init_names _ _ _ _ Hinit) as [Ha Hn].
    pose proof (init_checked gpu) as H.
    rewrite forallb_forall in H. specialize (H agent Ha).
    rewrite forallb_forall in H. specialize (H net Hn).
    unfold init_check in H. rewrite Hinit in H.
    apply andb_true_iff in H. destruct H as [H1 H2].
    split; [now apply flat_eqb_eq|].
    destruct (Dict.get "net.type" (hypers env)) as [[v|h]|]; try discriminate.
    apply scalar_eqb_eq in H2. now subst.
Qed.

End FlattenFacts.

(** *** The pipeline facts at work *)

(** X1 at work: the hard-coded net.type, which the actions do not hold. *)
Lemma flat_record_keys_example :
  exists flat main network,
    HSearchEnv.get_hypers (C := example_collaborators) example_conv2d example_actions
    = Ok (flat, main, network) /\
    In "net.type" (Dict.keys flat).
Proof.
  destruct (HSearchEnv.get_hypers (C := example_collaborators) example_conv2d example_actions)
    as [[[flat main] network]|e] eqn:E; [|vm_compute in E; discriminate].
  exists flat, main, network. split; [reflexivity|].
  apply (flat_record_keys (C := example_collaborators)
           example_conv2d example_actions flat main network "net.type" E).
  right. left. reflexivity.
Defined.

(** X2 at work: net.width, whose pre hook is [round]. *)
Lemma preprocessed_action_example :
  exists flat v',
    HSearchEnv.flatten example_conv2d example_actions = Ok flat /\
    Py.round (VFloat 6) = Ok v' /\ Dict.get "net.width" flat = Some v'.
Proof.
  destruct (HSearchEnv.flatten example_conv2d example_actions) as [flat|e] eqn:E;
    [|vm_compute in E; discriminate].
  destruct (flat_record_holds_preprocessed_action
              example_conv2d example_actions flat "net.width" (VFloat 6)
              {| h_type := KBounded; h_vals := Some [VInt 3; VInt 9];
                 h_guess := Some (VInt 6); h_pre := Some Py.round; h_post := None;
                 h_hydrate := Some (scalar_hook (two_to_the (C := example_collaborators))) |})
    as (v' & Hv & Hg).
  - apply distinct_nodup. vm_compute. reflexivity.
  - unfold example_actions. repeat (first [left; reflexivity | right]).
  - reflexivity.
  - reflexivity.
  - reflexivity.
  - exact E.
  - exists flat, v'. auto.
Defined.

(** X3 at work: the guesses, with baseline_mode on and gae_lambda [0.95]. *)
Lemma gae_lambda_example :
  exists flat,
    HSearchEnv.flatten example_conv2d example_actions = Ok flat /\
    (VFloat (95 # 100) = VNone \/
     (Py.gt (VFloat (95 # 100)) (VFloat (9 # 10)) = Ok true /\
      exists bm, Dict.get "baseline_mode" flat = Some bm /\ Py.truthy bm = true)).
Proof.
  destruct (HSearchEnv.flatten example_conv2d example_actions) as [flat|e] eqn:E;
    [|vm_compute in E; discriminate].
  exists flat. split; [reflexivity|].
  apply (gae_lambda_kept_only_with_baseline
           example_conv2d example_actions flat
           {| h_type := KBounded; h_vals := Some [VFloat (8 # 10); VFloat 1];
              h_guess := Some (VFloat (95 # 100)); h_pre := None;
              h_post := Some gae_lambda_post; h_hydrate := None |}
           {| h_type := KBool; h_vals := Some [VInt 0; VInt 1];
              h_guess := Some (VBool true); h_pre := None; h_post := None;
              h_hydrate := Some (hydrate_baseline (C := example_collaborators)) |}
           (VFloat (95 # 100))); try reflexivity; try exact E.
  vm_compute in E. injection E as <-. reflexivity.
Defined.

(** X4 at work: the stored record of the guesses, replayed. *)
Lemma stored_record_example :
  HSearchEnv.hardcoded
    (fst (HSearchEnv.get_winner (C := stored_collaborators) stored_conv2d (Some 7%Z)))
  = example_stored /\
  HSearchEnv.flatten
    (fst (HSearchEnv.get_winner (C := stored_collaborators) stored_conv2d (Some 7%Z))) []
  = Ok example_stored.
Proof.
  destruct (stored_record_replays (C := stored_collaborators)
              1 "conv2d" stored_conv2d example_actions example_stored 7%Z)
    as (H1 & H2 & _).
  - now right.
  - reflexivity.
  - vm_compute. reflexivity.
  - discriminate.
  - reflexivity.
  - split; assumption.
Defined.

(** X5 at work: a record with a string where a number is expected. *)
Lemma hydrate_loop_example :
  exists main custom,
    HSearchEnv.hydrate_phase (C := example_collaborators) example_conv2d
      [("net.width", VStr "wide")]
    = Ok (main, custom).
Proof.
  apply (hydrate_loop_never_raises (C := example_collaborators)
           1 "conv2d" example_conv2d [("net.width", VStr "wide")]).
  - now right.
  - exact example_conv2d_init.
  - intros k v [[= <- <-]|[]]. eexists. reflexivity.
Defined.

(** X6 and X7 at work, on the guesses. *)
Lemma session_config_example :
  exists flat main network,
    HSearchEnv.get_hypers (C := example_collaborators) example_conv2d example_actions
    = Ok (flat, main, network) /\
    tree_item "session_config" main = Ok (Leaf VNone).
Proof.
  destruct (HSearchEnv.get_hypers (C := example_collaborators) example_conv2d example_actions)
    as [[[flat main] network]|e] eqn:E; [|vm_compute in E; discriminate].
  exists flat, main, network. split; [reflexivity|].
  destruct (proj1 (session_config_fraction (C := example_collaborators))
                  example_conv2d example_actions flat main network E)
    as [[_ H]|[H _]].
  - reflexivity.
  - exact H.
  - exfalso. apply H. reflexivity.
Defined.

Lemma baseline_mode_example :
  exists flat main network,
    HSearchEnv.get_hypers (C := example_collaborators) example_conv2d example_actions
    = Ok (flat, main, network) /\
    (In "baseline_mode" (Dict.keys example_actions) \/
     In "baseline_mode" (Dict.keys (HSearchEnv.hardcoded example_conv2d))).
Proof.
  destruct (HSearchEnv.get_hypers (C := example_collaborators) example_conv2d example_actions)
    as [[[flat main] network]|e] eqn:E; [|vm_compute in E; discriminate].
  exists flat, main, network. split; [reflexivity|].
  exact (get_hypers_needs_baseline_mode (C := example_collaborators)
           example_conv2d example_actions flat main network E).
Defined.

(** X8 at work: an unknown network type, and the conv2d environment. *)
Lemma init_example :
  HSearchEnv.init (C := example_collaborators) "ppo_agent" 1 "resnet"
  = Err (KeyError (VStr "resnet")) /\
  HSearchEnv.hardcoded example_conv2d = [("net.type", VStr "conv2d")].
Proof.
  destruct (init_rejects_unknown_sections (C := example_collaborators)
              "ppo_agent" 1 "resnet") as (_ & H2 & _).
  destruct (init_rejects_unknown_sections (C := example_collaborators)
              "ppo_agent" 1 "conv2d") as (_ & _ & H3).
  split.
  - apply H2; [discriminate|reflexivity].
  - exact (proj1 (H3 example_conv2d example_conv2d_init)).
Defined.

(** ** More on the bounds table *)

Section BoundsFacts.
Import MainGP.

Lemma bounds_step_row (hypers_ : Dict.t entry) (vars vars' : loop_vars)
      (bounds bounds' : list (scalar * scalar)) (k : string) :
  bounds_step hypers_ (vars, bounds) k = Ok (vars', bounds') ->
  exists row,
    bounds' = bounds ++ [row] /\
    (forall h, Dict.get k hypers_ = Some (Spec h) ->
       exists vals lo hi,
         h_vals h = Some vals /\ py_min vals = Ok lo /\ py_max vals = Ok hi /\
         row = if kind_eqb (h_type h) KBounded then (lo, hi) else (VInt 0, VInt 1)).
Proof.
  unfold bounds_step.
  destruct (Dict.get k hypers_) as [[lit|h]|] eqn:G.
  - destruct (Py.truthy lit); cbn [bind]; [discriminate|].
    destruct vars as [[[b lo] hi]|]; [|discriminate].
    intros [= <- <-]. eexists. split; [reflexivity|]. intros h Hh. discriminate Hh.
  - cbn [type_of vals_of bind].
    destruct (h_vals h) as [vals|] eqn:Hv; cbn [bind]; [|discriminate].
    destruct (py_min vals) as [lo|] eqn:Hlo; cbn [bind]; [|discriminate].
    destruct (py_max vals) as [hi|] eqn:Hhi; cbn [bind]; [|discriminate].
    intros [= <- <-]. eexists. split; [reflexivity|].
    intros h' [= <-]. exists vals, lo, hi. repeat split; auto.
  - cbn [bind]. destruct vars as [[[b lo] hi]|]; [|discriminate].
    intros [= <- <-]. eexists. split; [reflexivity|]. intros h Hh. discriminate Hh.
Qed.

Lemma bounds_loop (hypers_ : Dict.t entry) (names : list string) :
  forall vars bounds vars' bounds',
    for_each (bounds_step hypers_) (vars, bounds) names = Ok (vars', bounds') ->
    length bounds' = (length bounds + length names)%nat /\
    (forall i k h,
        nth_error names i = Some k -> Dict.get k hypers_ = Some (Spec h) ->
        exists vals lo hi,
          h_vals h = Some vals /\ py_min vals = Ok lo /\ py_max vals = Ok hi /\
          nth_error bounds' (length bounds + i)
          = Some (if kind_eqb (h_type h) KBounded then (lo, hi) else (VInt 0, VInt 1))) /\
    (forall j, (j < length bounds)%nat -> nth_error bounds' j = nth_error bounds j).
Proof.
  induction names as [|n names IH]; intros vars bounds vars' bounds'; cbn [for_each].
  - intros [= <- <-]. cbn [length]. split; [lia|]. split; auto.
    intros i k h Hi. destruct i; discriminate.
  - destruct (bounds_step hypers_ (vars, bounds) n) as [[vars1 bounds1]|] eqn:E;
      cbn [bind]; [|discriminate].
    intros H. destruct (IH _ _ _ _ H) as (Hlen & Hrows & Hkeep).
    destruct (bounds_step_row _ _ _ _ _ _ E) as (row & -> & Hrow).
    rewrite length_app in Hlen, Hrows, Hkeep. cbn [length] in *.
    split; [lia|]. split.
    + intros [|i] k h Hi Hk; cbn [nth_error] in Hi.
      * injection Hi as ->. destruct (Hrow h Hk) as (vals & lo & hi & Hv & Hlo & Hhi & ->).
        exists vals, lo, hi. repeat split; auto.
        rewrite Nat.add_0_r, Hkeep by lia.
        rewrite nth_error_app2 by lia. now rewrite Nat.sub_diag.
      * destruct (Hrows i k h Hi Hk) as (vals & lo & hi & Hv & Hlo & Hhi & Hn).
        exists vals, lo, hi. repeat split; auto.
        rewrite <- Hn. f_equal. lia.
    + intros j Hj. rewrite Hkeep by lia. now rewrite nth_error_app1 by lia.
Qed.

(** X9.  The bounds table has one row per feature name. *)
Theorem bounds_table_length (hypers_ : Dict.t entry) (names : list string)
        (bounds : list (scalar * scalar)) :
  bounds_table hypers_ names = Ok bounds -> length bounds = length names.
Proof.
  unfold bounds_table.
  destruct (for_each (bounds_step hypers_) (None, []) names) as [[vars b]|] eqn:E;
    cbn [bind]; [|discriminate].
  intros [= <-]. now destruct (bounds_loop _ _ _ _ _ _ E) as (H & _).
Qed.

(** X10.  A feature name that is itself a key of [hypers_] gets the row of
    its own spec: the least and the greatest of its [vals] when the type
    is [bounded], and [[0, 1]] otherwise. *)
Theorem bounds_of_declared_feature
        (hypers_ : Dict.t entry) (names : list string) (bounds : list (scalar * scalar))
        (i : nat) (k : string) (h : hyper) :
  bounds_table hypers_ names = Ok bounds ->
  nth_error names i = Some k ->
  Dict.get k hypers_ = Some (Spec h) ->
  exists vals lo hi,
    h_vals h = Some vals /\ py_min vals = Ok lo /\ py_max vals = Ok hi /\
    nth_error bounds i
    = Some (if kind_eqb (h_type h) KBounded then (lo, hi) else (VInt 0, VInt 1)).
Proof.
  unfold bounds_table.
  destruct (for_each (bounds_step hypers_) (None, []) names) as [[vars b]|] eqn:E;
    cbn [bind]; [|discriminate].
  intros [= <-] Hi Hk.
  destruct (bounds_loop _ _ _ _ _ _ E) as (_ & H & _).
  exact (H i k h Hi Hk).
Qed.

(** X11.  When the first feature name is not a key of [hypers_], the loop
    reads [bounded] before any assignment and the table is not built. *)
Theorem bounds_table_unbound_on_first_slot
        (hypers_ : Dict.t entry) (k : string) (rest : list string) :
  Dict.get k hypers_ = None ->
  bounds_table hypers_ (k :: rest) = Err (NameError "bounded").
Proof.
  intros Hk. unfold bounds_table. cbn [for_each]. unfold bounds_step at 1.
  rewrite Hk. reflexivity.
Qed.

End BoundsFacts.

Section CodecShape.
Context {C : Collaborators}.
Import MainGP.

(** X12.  In the codec [main_gp] sets up, the vector [hypers2vec] returns
    has as many entries as the bounds table has rows, whatever the record
    holds. *)
Theorem vector_matches_bounds (gpu : Q) (net : string) (c : codec) (flat : flat_record) :
  setup gpu net = Ok c ->
  length (encode c flat) = length (c_bounds c) /\
  length (encode c flat) = length (c_names c).
Proof.
  unfold setup.
  destruct (HSearchEnv.init "ppo_agent" gpu net) as [env|]; cbn [bind]; [|discriminate].
  destruct (feat_names _) as [names|]; cbn [bind]; [|discriminate].
  destruct (bounds_table _ names) as [bounds|] eqn:E; cbn [bind]; [|discriminate].
  intros [= <-]. cbn [c_bounds c_names]. unfold encode, hypers2vec.
  cbn [c_names c_hardcoded]. rewrite length_transform. split; auto.
  unfold bounds_table in E.
  destruct (for_each (bounds_step _) (None, []) names) as [[vars b]|] eqn:E1;
    cbn [bind] in E; [|discriminate].
  injection E as <-. destruct (bounds_loop _ _ _ _ _ _ E1) as (H & _).
  cbn [snd]. now rewrite H.
Qed.

End CodecShape.

(** X9 to X12 at work, on the conv2d codec: 29 feature names; net.width
    is the feature at position 18. *)
Lemma bounds_table_length_example :
  length (MainGP.c_bounds example_codec) = length (MainGP.c_names example_codec).
Proof.
  apply (bounds_table_length (MainGP.c_hypers example_codec)).
  vm_compute. reflexivity.
Defined.

Lemma bounds_of_declared_feature_example :
  exists vals lo hi,
    Some [VInt 3; VInt 9] = Some vals /\
    MainGP.py_min vals = Ok lo /\ MainGP.py_max vals = Ok hi /\
    nth_error (MainGP.c_bounds example_codec) 18 = Some (lo, hi).
Proof.
  apply (bounds_of_declared_feature
           (MainGP.c_hypers example_codec) (MainGP.c_names example_codec)
           (MainGP.c_bounds example_codec) 18 "net.width"
           {| h_type := KBounded; h_vals := Some [VInt 3; VInt 9];
              h_guess := Some (VInt 6); h_pre := Some Py.round; h_post := None;
              h_hydrate := Some (scalar_hook (two_to_the (C := example_collaborators))) |}).
  - vm_compute. reflexivity.
  - reflexivity.
  - reflexivity.
Defined.

Lemma bounds_table_unbound_example :
  MainGP.bounds_table (MainGP.c_hypers example_codec)
                      ["net.activation=relu"; "net.width"]
  = Err (NameError "bounded").
Proof.
  apply bounds_table_unbound_on_first_slot. reflexivity.
Defined.

Lemma vector_matches_bounds_example :
  length (MainGP.encode example_codec example_actions)
  = length (MainGP.c_bounds example_codec) /\
  length (MainGP.encode example_codec example_actions)
  = length (MainGP.c_names example_codec).
Proof.
  apply (vector_matches_bounds (C := example_collaborators) 1 "conv2d").
  reflexivity.
Defined.

(** ** Decoding an arbitrary vector *)

Section DecodeFacts.
Import DictVectorizer MainGP.

Variable c : codec.
Hypothesis Hwf : codec_wf c = true.
Hypothesis Hslots : codec_slots_ok c = true.

Variable vec : list Q.
Hypothesis Hlen : length vec = length (c_names c).

Let names := c_names c.
Let hypers_ := c_hypers c.
Let rev := nonzero_columns names vec.

Lemma slots_declared (n : string) : In n names -> slot_declared hypers_ n = true.
Proof.
  unfold codec_slots_ok in Hslots. apply andb_true_iff in Hslots.
  destruct Hslots as [_ H]. rewrite forallb_forall in H. apply H.
Qed.

Lemma rev_names (n : string) (y : Q) : In (n, y) rev -> In n names.
Proof.
  unfold rev. rewrite nonzero_columns_in. intros [H _].
  now apply combine_keys in H.
Qed.

Lemma decode_vec_runs :
  decode c vec = for_each bool_step (fold_left (decode_step rev) rev []) hypers_.
Proof.
  unfold decode, vec2hypers. change (c_names c) with names.
  rewrite (inverse_transform_columns names vec Hlen). reflexivity.
Qed.

Lemma decoded_vec_rounds (kb : string) (e : entry) (val : scalar) :
  In (kb, e) hypers_ -> type_of e = Ok KBool ->
  Dict.get kb (fold_left (decode_step rev) rev []) = Some val ->
  is_ok (Py.round val) = true.
Proof.
  intros Hin Hty Hg.
  destruct (decode_fold_shape c Hwf rev rev [] rev_names) with (key := kb) (val := val)
    as [[q ->]|(s & hy & -> & Hg' & Hty')]; auto.
  - intros key val'. discriminate.
  - rewrite (in_get_nodup _ _ _ (wf_keys c Hwf) Hin) in Hg'. injection Hg' as ->.
    cbn in Hty. congruence.
Qed.

Lemma bool_loop_other (k : string) (l : Dict.t entry) :
  ~ In k (Dict.keys l) ->
  forall obj obj', for_each bool_step obj l = Ok obj' -> Dict.get k obj' = Dict.get k obj.
Proof.
  induction l as [|[kb e] l IH]; intros Hni obj obj'; cbn [for_each].
  - now intros [= <-].
  - destruct (bool_step obj (kb, e)) as [obj1|] eqn:E; cbn [bind]; [|discriminate].
    intros H. rewrite (IH (fun Hin => Hni (or_intror Hin)) obj1 obj' H).
    unfold bool_step in E. cbn [fst snd] in E.
    destruct (type_of e) as [[| |]|]; cbn [bind] in E; try discriminate;
      try (now injection E as <-).
    match type of E with bind ?X _ = _ => destruct X; cbn [bind] in E; [|discriminate] end.
    injection E as <-. apply get_set_other. intros ->. apply Hni. now left.
Qed.

Lemma bool_loop_sets (l : Dict.t entry) :
  NoDup (Dict.keys l) ->
  forall obj obj', for_each bool_step obj l = Ok obj' ->
  forall k h, In (k, Spec h) l -> h_type h = KBool ->
              exists b, Dict.get k obj' = Some (VBool b).
Proof.
  induction l as [|[kb e] l IH]; intros Hnd obj obj' H k h Hin Hty; [destruct Hin|].
  unfold Dict.keys in Hnd. cbn [map fst] in Hnd.
  inversion Hnd as [|? ? Hni Hnd']; subst.
  cbn [for_each] in H.
  destruct (bool_step obj (kb, e)) as [obj1|] eqn:E; cbn [bind] in H; [|discriminate].
  destruct Hin as [[= -> ->]|Hin]; [|now apply (IH Hnd' obj1 obj' H k h)].
  rewrite (bool_loop_other k l Hni obj1 obj' H).
  unfold bool_step in E. cbn [fst snd type_of bind] in E. rewrite Hty in E.
  match type of E with bind ?X _ = _ => destruct X as [r|]; cbn [bind] in E; [|discriminate] end.
  injection E as <-. rewrite get_set_same. eauto.
Qed.

(** The flag a bool hyper ends with: its value when the loop starts,
    rounded, as a [bool] *)
Lemma bool_loop_value (l : Dict.t entry) :
  NoDup (Dict.keys l) ->
  forall obj obj', for_each bool_step obj l = Ok obj' ->
  forall k h, In (k, Spec h) l -> h_type h = KBool ->
              exists r,
                Py.round (match Dict.get k obj with Some v => v | None => VFloat 0 end)
                = Ok r /\
                Dict.get k obj' = Some (VBool (Py.truthy r)).
Proof.
  induction l as [|[kb e] l IH]; intros Hnd obj obj' H k h Hin Hty; [destruct Hin|].
  unfold Dict.keys in Hnd. cbn [map fst] in Hnd.
  inversion Hnd as [|? ? Hni Hnd']; subst.
  cbn [for_each] in H.
  destruct (bool_step obj (kb, e)) as [obj1|] eqn:E; cbn [bind] in H; [|discriminate].
  destruct Hin as [[= -> ->]|Hin].
  - rewrite (bool_loop_other k l Hni obj1 obj' H).
    unfold bool_step in E. cbn [fst snd type_of bind] in E. rewrite Hty in E.
    match type of E with
    | bind ?X _ = _ => destruct X as [r|] eqn:Er; cbn [bind] in E; [|discriminate]
    end.
    injection E as <-. exists r. split; [reflexivity|apply get_set_same].
  - assert (Hne : kb <> k).
    { intros ->. apply Hni. change k with (fst (k, Spec h)). now apply in_map. }
    assert (Hsame : Dict.get k obj1 = Dict.get k obj).
    { unfold bool_step in E. cbn [fst snd] in E.
      destruct (type_of e) as [[| |]|]; cbn [bind] in E; try discriminate;
        try (now injection E as <-).
      match type of E with
      | bind ?X _ = _ => destruct X; cbn [bind] in E; [|discriminate]
      end.
      injection E as <-. now apply get_set_other. }
    rewrite <- Hsame. now apply (IH Hnd' obj1 obj' H k h).
Qed.

(** The best option the inner loop settles on is the one it started
    with or one of the names it walks over. *)
Lemma winner_from (l : Dict.t Q) (attr : string) :
  forall (x : Q) (s : string),
    snd (winner l attr x s) = s \/
    exists n y, In (n, y) l /\ String.prefix (attr ++ "=")%string n = true /\
                snd (winner l attr x s) = part 1 n.
Proof.
  unfold winner. induction l as [|[n y] l IH]; intros x s; cbn [fold_left fst snd].
  - now left.
  - destruct (String.prefix (attr ++ "=")%string n && negb (Qle_bool y x)) eqn:E.
    + apply andb_true_iff in E. destruct E as [Hp _].
      destruct (IH y (part 1 n)) as [H|(n' & y' & Hin & Hp' & H)].
      * right. exists n, y. repeat split; auto. now left.
      * right. exists n', y'. repeat split; auto. now right.
    + destruct (IH x s) as [H|(n' & y' & Hin & Hp' & H)]; [now left|].
      right. exists n', y'. repeat split; auto. now right.
Qed.

(** What the first loop of vec2hypers stores: a float under a plain
    feature name, an option of the key under the key of a one-hot name. *)
Lemma decode_fold_options (l : Dict.t Q) (obj : flat_record) :
  (forall n y, In (n, y) l -> In (n, y) rev) ->
  (forall key val, Dict.get key obj = Some val ->
     (exists q, val = VFloat q /\ In key names) \/
     (exists n, In n names /\ has_char "=" n = true /\ part 0 n = key
                /\ val = VStr (part 1 n))) ->
  forall key val, Dict.get key (fold_left (decode_step rev) l obj) = Some val ->
     (exists q, val = VFloat q /\ In key names) \/
     (exists n, In n names /\ has_char "=" n = true /\ part 0 n = key
                /\ val = VStr (part 1 n)).
Proof.
  revert obj. induction l as [|[n y] l IH]; intros obj Hl H; cbn [fold_left]; auto.
  apply IH; [intros; apply Hl; now right|].
  pose proof (rev_names n y (Hl n y (or_introl eq_refl))) as Hn.
  intros key val. unfold decode_step.
  destruct (has_char "=" n) eqn:E; cbn [negb].
  - destruct (Dict.mem n obj); [apply H|].
    destruct (String.eqb (part 0 n) key) eqn:K.
    + apply String.eqb_eq in K. subst key. rewrite get_set_same. intros [= <-].
      right.
      destruct (winner_from rev (part 0 n) y (part 1 n))
        as [->|(n' & y' & Hin' & Hp' & ->)].
      * exists n. auto.
      * pose proof (rev_names n' y' Hin') as Hn'.
        destruct (slot_key c Hwf n Hn E) as [_ (hy & Hg & _)].
        destruct (wf_prefix c Hwf (part 0 n) (Spec hy) n' (get_some_in _ _ _ Hg) Hn' Hp')
          as [He' Hp0].
        exists n'. auto.
    + apply String.eqb_neq in K. rewrite get_set_other by assumption. apply H.
  - destruct (String.eqb n key) eqn:K.
    + apply String.eqb_eq in K. subst key. rewrite get_set_same. intros [= <-].
      left. eauto.
    + apply String.eqb_neq in K. rewrite get_set_other by assumption. apply H.
Qed.

Lemma decode_vec_total :
  exists obj,
    decode c vec = Ok obj /\
    (forall key,
        (forall e, In (key, e) hypers_ -> type_of e <> Ok KBool) ->
        Dict.get key obj = Dict.get key (fold_left (decode_step rev) rev [])).
Proof.
  destruct (bool_loop c Hwf hypers_ (fun _ _ H => H) _ decoded_vec_rounds)
    as (obj & Hrun & _ & Hkeep).
  exists obj. rewrite decode_vec_runs. auto.
Qed.

Lemma flag_slot (k : string) (hy : hyper) :
  In (k, Spec hy) hypers_ -> h_type hy = KBool -> In k names.
Proof.
  intros Hin Hty. pose proof (wf_key c Hwf k _ Hin) as H.
  unfold key_ok in H. cbn [fst snd] in H. rewrite Hty in H.
  apply andb_true_iff in H. destruct H as [_ H].
  destruct (h_vals hy); [|discriminate].
  apply andb_true_iff in H. destruct H as [H _]. now apply mem_name_in.
Qed.

(** What the decoding loop leaves under a key that has a slot of its own *)
Lemma decode_vec_plain (k : string) (hy : hyper) (i : nat) :
  In (k, Spec hy) hypers_ -> h_type hy <> KInt -> index_of k names = Some i ->
  Dict.get k (fold_left (decode_step rev) rev [])
  = if Qeq_bool (nth i vec 0) 0 then None else Some (VFloat (nth i vec 0)).
Proof.
  intros Hin Hty Hi.
  destruct (key_clean c Hwf k _ Hin) as [Hk _].
  assert (Hattr : forall n y, In (n, y) rev -> has_char "=" n = true -> part 0 n <> k).
  { intros n y Hr He Hp0.
    destruct (slot_key c Hwf n (rev_names n y Hr) He) as [_ (hy' & Hg' & Hty')].
    rewrite Hp0 in Hg'.
    rewrite (in_get_nodup _ _ _ (wf_keys c Hwf) Hin) in Hg'. injection Hg' as <-.
    contradiction. }
  assert (Hcol : In (k, nth i vec 0) (combine names vec))
    by (apply combine_index; auto).
  destruct (Qeq_bool (nth i vec 0) 0) eqn:Ez.
  - rewrite decode_fold_other; [reflexivity|].
    intros n y Hr. split; [|now apply (Hattr n y)].
    intros _ ->. unfold rev in Hr. apply nonzero_columns_in in Hr.
    destruct Hr as [Hr Hnz].
    rewrite (combine_unique names (wf_names c Hwf) vec k _ _ Hr Hcol) in Hnz.
    congruence.
  - assert (HinR : In (k, nth i vec 0) rev)
      by (unfold rev; rewrite nonzero_columns_in; auto).
    destruct (in_split _ _ HinR) as (r1 & r2 & Hsplit).
    assert (Hother : forall n y, In (n, y) r2 -> n <> k).
    { pose proof (nonzero_columns_nodup names vec (wf_names c Hwf) Hlen) as Hnd.
      fold rev in Hnd. rewrite Hsplit in Hnd.
      destruct (nodup_split_keys _ _ _ _ Hnd) as [_ Hni].
      intros n y Hiny ->. apply Hni. apply (in_map fst _ _ Hiny). }
    remember (decode_step rev) as step eqn:Hstep.
    rewrite Hsplit, fold_left_app. cbn [fold_left]. subst step.
    rewrite decode_fold_other.
    2:{ intros n y Hiny. split.
        - intros _. now apply (Hother n y).
        - apply (Hattr n y). rewrite Hsplit, in_app_iff. right. now right. }
    cbv beta iota delta [decode_step]. rewrite Hk. cbn [negb]. apply get_set_same.
Qed.

End DecodeFacts.

Section DecodeTheorems.
Context {C : Collaborators}.
Import MainGP.

Lemma setup_slots (gpu : Q) (net : string) (c : codec) :
  net = "lstm"%string \/ net = "conv2d"%string ->
  setup gpu net = Ok c -> codec_slots_ok c = true.
Proof.
  intros Hnet Hc.
  assert (H : bind (setup gpu net) (fun c => Ok (codec_slots_ok c)) = Ok true)
    by (destruct Hnet; subst net; vm_compute; reflexivity).
  rewrite Hc in H. cbn [bind] in H. now injection H.
Qed.

(** X13.  In the codec [main_gp] sets up, [vec2hypers] returns a record on
    every vector that has one entry per feature name, and the record
    binds every hyper of type bool to a [bool].  The hyper has a slot of
    its own in the vector; the flag is [False] when the slot is zero (the
    key is then missing from what [inverse_transform] returns), and
    otherwise it tells whether the slot rounds to something other than
    zero. *)
Theorem vec2hypers_returns_every_flag
        (gpu : Q) (net : string) (c : codec) (vec : list Q) :
  net = "lstm"%string \/ net = "conv2d"%string ->
  setup gpu net = Ok c ->
  length vec = length (c_names c) ->
  exists obj,
    decode c vec = Ok obj /\
    (forall k h, Dict.get k (c_hypers c) = Some (Spec h) -> h_type h = KBool ->
                 exists i,
                   DictVectorizer.index_of k (c_names c) = Some i /\
                   Dict.get k obj
                   = Some (VBool (if Qeq_bool (nth i vec 0) 0 then false
                                  else negb (Z.eqb (Py.round_half_even (nth i vec 0%Q)) 0%Z)))).
Proof.
  intros Hnet Hc Hlen.
  pose proof (setup_wf gpu net c Hnet Hc) as Hwf.
  destruct (decode_vec_total c Hwf vec Hlen) as (obj & Hrun & _).
  exists obj. split; auto.
  intros k h Hk Hty.
  pose proof (get_some_in _ _ _ Hk) as Hin.
  destruct (index_of_in k (c_names c) (flag_slot c Hwf k h Hin Hty)) as [i Hi].
  exists i. split; [assumption|].
  rewrite (decode_vec_runs c vec Hlen) in Hrun.
  destruct (bool_loop_value (c_hypers c) (wf_keys c Hwf) _ obj Hrun k h Hin Hty)
    as (r & Hr & ->).
  rewrite (decode_vec_plain c Hwf vec Hlen k h i Hin) in Hr by (congruence || assumption).
  destruct (Qeq_bool (nth i vec 0) 0); cbn [Py.round] in Hr; injection Hr as <-;
    reflexivity.
Qed.

(** X14.  In the same codec, whatever the vector, the value the decoded
    record holds under a categorical hyper is one of the options the
    hyper declares. *)
Theorem vec2hypers_returns_declared_options
        (gpu : Q) (net : string) (c : codec) (vec : list Q)
        (obj : flat_record) (k : string) (h : hyper) (v : scalar) :
  net = "lstm"%string \/ net = "conv2d"%string ->
  setup gpu net = Ok c ->
  length vec = length (c_names c) ->
  decode c vec = Ok obj ->
  Dict.get k (c_hypers c) = Some (Spec h) -> h_type h = KInt ->
  Dict.get k obj = Some v ->
  exists vals, h_vals h = Some vals /\ In v vals.
Proof.
  intros Hnet Hc Hlen Hdec Hk Hty Hv.
  pose proof (setup_wf gpu net c Hnet Hc) as Hwf.
  pose proof (setup_slots gpu net c Hnet Hc) as Hslots.
  destruct (decode_vec_total c Hwf vec Hlen) as (obj' & Hrun & Hkeep).
  rewrite Hdec in Hrun. injection Hrun as <-.
  pose proof (get_some_in _ _ _ Hk) as Hin.
  rewrite Hkeep in Hv.
  2:{ intros e He. rewrite (key_unique c Hwf k e (Spec h) He Hin). cbn. congruence. }
  destruct (decode_fold_options c Hwf vec _ [] (fun _ _ H => H)) with (key := k) (val := v)
    as [(q & -> & Hn)|(n & Hn & He & Hp0 & ->)]; auto.
  - intros key val. discriminate.
  - exfalso. pose proof (wf_key c Hwf k _ Hin) as Hok.
    unfold key_ok in Hok. cbn [fst snd] in Hok. rewrite Hty in Hok.
    destruct (h_vals h); [|now rewrite andb_false_r in Hok].
    apply andb_true_iff in Hok. destruct Hok as [_ Hok].
    apply andb_true_iff in Hok. destruct Hok as [Hok _].
    rewrite negb_true_iff in Hok. apply mem_name_in in Hn. congruence.
  - pose proof (slots_declared c Hslots n Hn) as Hd. unfold slot_declared in Hd.
    rewrite He, Hp0, Hk in Hd.
    destruct (h_vals h) as [vals|]; [|discriminate].
    exists vals. split; auto.
    apply existsb_exists in Hd. destruct Hd as (w & Hw & Heq).
    apply scalar_eqb_eq in Heq. now subst w.
Qed.

End DecodeTheorems.

(** ** Bounded values through the codec *)

Section BoundedRoundTrip.
Import DictVectorizer MainGP.

Variable c : codec.
Hypothesis Hwf : codec_wf c = true.
Hypothesis Hslots : codec_slots_ok c = true.

Variable flat : flat_record.
Hypothesis flat_nodup : NoDup (Dict.keys flat).

Let names := c_names c.
Let hypers_ := c_hypers c.
Let hardcoded := c_hardcoded c.
Let h := encoded hardcoded flat.
Let vec := transform names h.
Let reversed := nonzero_columns names vec.

Lemma bounded_slot (k : string) (hy : hyper) :
  In (k, Spec hy) hypers_ -> h_type hy = KBounded -> In k names.
Proof.
  intros Hin Hty. unfold codec_slots_ok in Hslots. apply andb_true_iff in Hslots.
  destruct Hslots as [H _]. rewrite forallb_forall in H.
  specialize (H _ Hin). unfold bounded_ok in H. cbn [fst snd] in H.
  rewrite Hty in H. now apply mem_name_in.
Qed.

Lemma decode_bounded (k : string) (hy : hyper) (v : scalar) (a : Q) :
  In (k, Spec hy) hypers_ -> h_type hy = KBounded ->
  Dict.get k flat = Some v -> Py.number v = Some a ->
  if Qeq_bool a 0
  then Dict.get k (fold_left (decode_step reversed) reversed []) = None
  else exists q, Dict.get k (fold_left (decode_step reversed) reversed [])
                 = Some (VFloat q) /\ q == a.
Proof.
  intros Hin Hty Hg Hnum.
  pose proof (bounded_slot k hy Hin Hty) as HN.
  destruct (key_clean c Hwf k _ Hin) as [Hk Hhc].
  destruct (encode_value_number v a Hnum) as (q & Henc & Hq).
  assert (Hh : Dict.get k h = Some (FNum q)).
  { unfold h. rewrite (encoded_get hardcoded flat k v flat_nodup
                         (get_some_in _ _ _ Hg) Hhc). now rewrite Henc. }
  destruct (index_of_in _ _ HN) as [i Hi].
  pose proof (slot_plain c flat k i Hk Hi) as Hx.
  fold names hardcoded h vec in Hx. rewrite Hh in Hx.
  assert (Hattr : forall n y, In (n, y) reversed -> has_char "=" n = true ->
                              part 0 n <> k).
  { intros n y Hr He Hp0. destruct (reversed_in c Hwf flat n y Hr) as (Hn & _).
    destruct (slot_key c Hwf n Hn He) as [_ (hy' & Hg' & Hty')]. rewrite Hp0 in Hg'.
    rewrite (in_get_nodup _ _ _ (wf_keys c Hwf) Hin) in Hg'. injection Hg' as <-.
    congruence. }
  destruct (Qeq_bool a 0) eqn:Ea.
  - apply Qeq_bool_eq in Ea.
    assert (Hzero : nth i vec 0 == 0) by (rewrite Hx, Hq; exact Ea).
    rewrite decode_fold_other; [reflexivity|].
    intros n y Hr. split; [|now apply (Hattr n y)].
    intros _ ->. destruct (reversed_in c Hwf flat _ y Hr) as (_ & i' & Hi' & Hy & Hynz).
    fold names hardcoded h vec in Hi', Hy.
    assert (i' = i) by congruence. subst i'.
    rewrite Hy in Hynz. apply Qeq_bool_iff in Hzero. congruence.
  - assert (Hval : nth i vec 0 == a) by (rewrite Hx; exact Hq).
    assert (Hnz : Qeq_bool (nth i vec 0) 0 = false).
    { destruct (Qeq_bool (nth i vec 0) 0) eqn:E; auto.
      apply Qeq_bool_eq in E. rewrite Hval in E. apply Qeq_bool_iff in E. congruence. }
    pose proof (reversed_intro c flat k i Hi Hnz) as HinR.
    fold names hardcoded h vec reversed in HinR.
    destruct (in_split _ _ HinR) as (r1 & r2 & Hsplit).
    assert (Hother : forall n y, In (n, y) r2 -> n <> k).
    { pose proof (reversed_nodup c Hwf flat) as Hnd.
      fold names hardcoded h vec reversed in Hnd.
      rewrite Hsplit in Hnd. destruct (nodup_split_keys _ _ _ _ Hnd) as [_ Hni].
      intros n y Hiny ->. apply Hni. apply (in_map fst _ _ Hiny). }
    exists (nth i vec 0). split; auto.
    remember (decode_step reversed) as step eqn:Hstep.
    rewrite Hsplit, fold_left_app. cbn [fold_left]. subst step.
    rewrite decode_fold_other.
    2:{ intros n y Hiny. split.
        - intros _. now apply (Hother n y).
        - apply (Hattr n y). rewrite Hsplit, in_app_iff. right. now right. }
    cbv beta iota delta [decode_step]. rewrite Hk. cbn [negb]. apply get_set_same.
Qed.

Lemma round_trip_bounded (k : string) (hy : hyper) (v : scalar) (a : Q) :
  In (k, Spec hy) hypers_ -> h_type hy = KBounded ->
  Dict.get k flat = Some v -> Py.number v = Some a ->
  exists obj,
    decode c (encode c flat) = Ok obj /\
    if Qeq_bool a 0 then Dict.get k obj = None
    else exists q, Dict.get k obj = Some (VFloat q) /\ q == a.
Proof.
  intros Hin Hty Hg Hnum.
  destruct (bool_loop c Hwf hypers_ (fun _ _ H => H) _ (decoded_rounds c Hwf flat))
    as (obj & Hrun & _ & Hkeep).
  exists obj. rewrite decode_runs. split; auto.
  rewrite Hkeep.
  - exact (decode_bounded k hy v a Hin Hty Hg Hnum).
  - intros e He. rewrite (key_unique c Hwf k e (Spec hy) He Hin). cbn. congruence.
Qed.

End BoundedRoundTrip.

Section BoundedTheorem.
Context {C : Collaborators}.
Import MainGP.

(** X15.  In the codec [main_gp] sets up, a number stored under a hyper of
    type bounded, when it is a float, a bool or an int of magnitude up to
    [2^53] (which the vectorizer's cast to [float64] leaves as it is),
    comes back from [vec2hypers (hypers2vec flat)] as a float of the same
    value when it is not zero; when it is zero the decoded record has no
    entry under the key. *)
Theorem bounded_value_round_trip
        (gpu : Q) (net : string) (c : codec) (flat : flat_record)
        (k : string) (hy : hyper) (v : scalar) (a : Q) :
  net = "lstm"%string \/ net = "conv2d"%string ->
  setup gpu net = Ok c ->
  NoDup (Dict.keys flat) ->
  Dict.get k (c_hypers c) = Some (Spec hy) ->
  h_type hy = KBounded ->
  Dict.get k flat = Some v ->
  Py.number v = Some a ->
  (forall z, v = VInt z -> (Z.abs z <= 2 ^ 53)%Z) ->
  exists obj,
    decode c (encode c flat) = Ok obj /\
    if Qeq_bool a 0 then Dict.get k obj = None
    else exists q, Dict.get k obj = Some (VFloat q) /\ q == a.
Proof.
  intros Hnet Hc Hnd Hk Hty Hv Hnum _.
  apply (round_trip_bounded c (setup_wf gpu net c Hnet Hc) (setup_slots gpu net c Hnet Hc)
           flat Hnd k hy v a); auto.
  now apply get_some_in.
Qed.

End BoundedTheorem.

(** X13 at work: the vector of 29 zeros gives every flag as [False]. *)
Lemma every_flag_example :
  exists obj,
    MainGP.decode example_codec (repeat 0 29) = Ok obj /\
    (forall k h, Dict.get k (MainGP.c_hypers example_codec) = Some (Spec h) ->
                 h_type h = KBool ->
                 Dict.get k obj = Some (VBool false)).
Proof.
  destruct (vec2hypers_returns_every_flag (C := example_collaborators) 1 "conv2d"
              example_codec (repeat 0 29) (or_intror eq_refl) eq_refl eq_refl)
    as (obj & Hrun & Hflags).
  exists obj. split; [exact Hrun|].
  intros k h Hk Hty. destruct (Hflags k h Hk Hty) as (i & _ & ->).
  now rewrite nth_repeat.
Defined.

(** X14 at work: the vector of the guesses, and net.activation. *)
Lemma declared_options_example :
  exists vals, Some [VStr "tanh"; VStr "relu"] = Some vals /\ In (VStr "tanh") vals.
Proof.
  destruct (MainGP.decode example_codec (MainGP.encode example_codec example_actions))
    as [obj|e] eqn:E; [|vm_compute in E; discriminate].
  apply (vec2hypers_returns_declared_options (C := example_collaborators)
           1 "conv2d" example_codec (MainGP.encode example_codec example_actions)
           obj "net.activation"
           {| h_type := KInt; h_vals := Some [VStr "tanh"; VStr "relu"];
              h_guess := Some (VStr "tanh");
              h_pre := None; h_post := None; h_hydrate := None |}
           (VStr "tanh")); try reflexivity.
  - now right.
  - exact E.
  - vm_compute in E. injection E as <-. reflexivity.
Defined.

(** X15 at work: net.width [6.0] comes back, a zero under
    net.l2 does not. *)
Lemma bounded_round_trip_example :
  (exists obj,
     MainGP.decode example_codec (MainGP.encode example_codec example_actions) = Ok obj /\
     exists q, Dict.get "net.width" obj = Some (VFloat q) /\ q == 6) /\
  (exists obj,
     MainGP.decode example_codec
       (MainGP.encode example_codec (Dict.set "net.l2" (VInt 0) example_actions)) = Ok obj /\
     Dict.get "net.l2" obj = None).
Proof.
  split.
  - apply (bounded_value_round_trip (C := example_collaborators)
             1 "conv2d" example_codec example_actions "net.width"
             {| h_type := KBounded; h_vals := Some [VInt 3; VInt 9];
                h_guess := Some (VInt 6); h_pre := Some Py.round; h_post := None;
                h_hydrate := Some (scalar_hook (two_to_the (C := example_collaborators))) |}
             (VFloat 6) 6); try reflexivity.
    + now right.
    + apply distinct_nodup. vm_compute. reflexivity.
    + intros z [=].
  - apply (bounded_value_round_trip (C := example_collaborators)
             1 "conv2d" example_codec (Dict.set "net.l2" (VInt 0) example_actions) "net.l2"
             {| h_type := KBounded; h_vals := Some [VInt 0; VInt 7];
                h_guess := Some (VInt 7); h_pre := None; h_post := None;
                h_hydrate := Some (scalar_hook
                                     (min_ten_neg (C := example_collaborators)
                                                  (1 # 1000000) (VFloat 0))) |}
             (VInt 0) 0); try reflexivity.
    + now right.
    + apply distinct_nodup. vm_compute. reflexivity.
    + intros z [= <-]. vm_compute. discriminate.
Defined.

(** ** More on boost_optimization *)

Section BoostTrace.
Import Boost.
Local Open Scope world_scope.

(** The whole effect of a call whose [loss_fn] returns: the lists, the
    draws taken and the calls of [loss_fn], in order. *)
Lemma boost_optimization_trace
      (rand : nat -> Q) (model : option (vec -> Q)) (f : option vec -> yval)
      (bounds : list (Q * Q)) (x_list y_list : option nat) (n_pre_samples : option Z)
      (w : world) :
  let ax := match x_list with Some a => a | None => default_x_list end in
  let ay := match y_list with Some a => a | None => default_y_list end in
  let xs := nth ax (x_lists w) [] in
  let ys := nth ay (y_lists w) [] in
  let n := Z.to_nat ((match n_pre_samples with Some n => n | None => 5 end)
                     - Z.of_nat (length xs)) in
  let rows := pre_samples rand bounds (draws w) n in
  let cands := pre_samples rand bounds (draws w + n * length bounds) n_candidates in
  (ax < length (x_lists w))%nat ->
  (ay < length (y_lists w))%nat ->
  Forall (fun v => v <> []) ys ->
  (length ys <= length xs)%nat ->
  boost_optimization rand model (fun p => Ok (f p)) bounds x_list y_list n_pre_samples w
  = ({| x_lists := replace_nth ax (xs ++ rows) (x_lists w);
        y_lists := replace_nth ay (refreshed f xs ys ++ map (fun p => f (Some p)) rows)
                               (y_lists w);
        draws := (draws w + n * length bounds + n_candidates * length bounds)%nat;
        evaluated :=
          match model with
          | None => evaluated w ++ guess_calls xs ys ++ map Some rows
          | Some predict =>
              (evaluated w ++ guess_calls xs ys ++ map Some rows)
                ++ [fst (best_of predict (None, (-1000)%Q) cands)]
          end |},
     match model with None => Err AttributeError | Some _ => Ok tt end).
Proof.
  intros ax ay xs ys n rows cands Hax Hay Hne Hle.
  pose proof (run_guesses_spec f ax ay ys [] [] xs w Hay eq_refl eq_refl eq_refl Hle Hne)
    as Hg.
  cbn [length app] in Hg.
  unfold boost_optimization. fold ax ay.
  unfold bindM at 1, read_y at 1. fold ys.
  unfold bindM at 1. rewrite Hg.
  unfold bindM at 1, read_x at 1. cbn [x_lists]. fold xs.
  unfold bindM at 1.
  set (m := ((match n_pre_samples with Some n => n | None => 5 end)
             - Z.of_nat (length xs))%Z) in *.
  destruct (0 <? m)%Z eqn:En.
  - unfold bindM at 1, uniform at 1. cbn [x_lists y_lists draws evaluated].
    fold n. fold rows.
    rewrite pre_sample_spec
      by (cbn [x_lists y_lists]; rewrite ?length_replace_nth; assumption).
    cbn [x_lists y_lists draws evaluated].
    unfold bindM at 1, uniform at 1. cbn [x_lists y_lists draws evaluated].
    fold cands.
    rewrite nth_replace_nth by assumption.
    rewrite replace_nth_twice. fold xs.
    destruct model as [predict|].
    + unfold bindM, call, ret. cbn [x_lists y_lists draws evaluated].
      now rewrite <- !app_assoc.
    + unfold raise. now rewrite <- !app_assoc.
  - assert (Hn : n = 0%nat) by (subst n; apply Z.ltb_ge in En; lia).
    assert (Hrows : rows = []) by (subst rows; now rewrite Hn).
    unfold ret at 1.
    unfold bindM at 1, uniform at 1. cbn [x_lists y_lists draws evaluated].
    subst cands. rewrite Hrows, Hn, ?app_nil_r. cbn [map Nat.mul].
    rewrite ?Nat.add_0_r, ?app_nil_r.
    replace (replace_nth ax xs (x_lists w)) with (x_lists w)
      by (symmetry; apply replace_nth_same; assumption).
    destruct model as [predict|].
    + unfold bindM, call, ret. cbn [x_lists y_lists draws evaluated]. reflexivity.
    + unfold raise. reflexivity.
Qed.

Lemma best_of_spec (predict : vec -> Q) (rows : list vec) :
  forall (b : option vec) (s : Q),
    let r := best_of predict (b, s) rows in
    (fst r = b /\ snd r = s /\ Forall (fun p => predict p <= s) rows) \/
    (exists l1 p l2,
        rows = l1 ++ p :: l2 /\ fst r = Some p /\ snd r = predict p /\
        s < predict p /\
        Forall (fun p' => predict p' < predict p) l1 /\
        Forall (fun p' => predict p' <= predict p) l2).
Proof.
  induction rows as [|p0 rest IH]; intros b s; cbn [best_of snd].
  - left. auto.
  - destruct (Qle_bool (predict p0) s) eqn:E; cbn [negb].
    + apply Qle_bool_iff in E.
      destruct (IH b s) as [(Hb & Hs & Hall)|(l1 & p & l2 & -> & Hb & Hs & Hlt & H1 & H2)].
      * left. repeat split; auto.
      * right. exists (p0 :: l1), p, l2. repeat split; auto.
        constructor; auto. now apply Qle_lt_trans with (y := s).
    + assert (Hgt : s < predict p0).
      { apply Qnot_le_lt. intros Hc. apply Qle_bool_iff in Hc. congruence. }
      destruct (IH (Some p0) (predict p0))
        as [(Hb & Hs & Hall)|(l1 & p & l2 & -> & Hb & Hs & Hlt & H1 & H2)].
      * right. exists [], p0, rest. repeat split; auto.
      * right. exists (p0 :: l1), p, l2. repeat split; auto.
        now apply Qlt_trans with (y := predict p0).
Qed.

(** X16.  The search over the candidates keeps the first candidate whose
    prediction is the greatest, provided that prediction is above
    [-1000]; when no prediction is above [-1000] it keeps [None]. *)
Theorem best_candidate_is_first_maximum (predict : vec -> Q) (rows : list vec) :
  let best := best_of predict (None, (-1000)%Q) rows in
  match fst best with
  | None => Forall (fun p => predict p <= (-1000)%Q) rows
  | Some p =>
      exists l1 l2,
        rows = l1 ++ p :: l2 /\ snd best = predict p /\ (-1000)%Q < predict p /\
        Forall (fun p' => predict p' < predict p) l1 /\
        Forall (fun p' => predict p' <= predict p) l2
  end.
Proof.
  intros best. subst best.
  destruct (best_of_spec predict rows None (-1000)%Q)
    as [(Hb & Hs & Hall)|(l1 & p & l2 & Hrows & Hb & Hs & Hlt & H1 & H2)].
  - now rewrite Hb.
  - rewrite Hb. exists l1, l2. auto.
Qed.

(** X17.  With a model and a [loss_fn] that returns, a call evaluates
    [loss_fn] on the vectors whose score starts with [None], in order,
    then on each pre-sample, and last on the best candidate of a million
    fresh draws; it returns [None]. *)
Theorem loss_fn_calls_in_order
        (rand : nat -> Q) (predict : vec -> Q) (f : option vec -> yval)
        (bounds : list (Q * Q)) (x_list y_list : nat) (n_pre_samples : Z) (w : world) :
  let xs := nth x_list (x_lists w) [] in
  let ys := nth y_list (y_lists w) [] in
  let n := Z.to_nat (n_pre_samples - Z.of_nat (length xs)) in
  let rows := pre_samples rand bounds (draws w) n in
  let cands := pre_samples rand bounds (draws w + n * length bounds) n_candidates in
  let after := boost_optimization rand (Some predict) (fun p => Ok (f p)) bounds
                                  (Some x_list) (Some y_list) (Some n_pre_samples) w in
  (x_list < length (x_lists w))%nat ->
  (y_list < length (y_lists w))%nat ->
  Forall (fun v => v <> []) ys ->
  (length ys <= length xs)%nat ->
  snd after = Ok tt /\
  evaluated (fst after)
  = evaluated w ++ guess_calls xs ys ++ map Some rows
      ++ [fst (best_of predict (None, (-1000)%Q) cands)].
Proof.
  intros xs ys n rows cands after Hax Hay Hne Hle. subst after.
  rewrite (boost_optimization_trace rand (Some predict) f bounds (Some x_list) (Some y_list)
             (Some n_pre_samples) w Hax Hay Hne Hle).
  cbn [fst snd evaluated]. split; [reflexivity|].
  now rewrite <- !app_assoc.
Qed.

(** X18.  With fewer than five vectors in the history,
    [print_feature_importances] returns no model; with that result as
    [model], a call still runs the pending guesses and the pre-samples,
    leaves them in the caller's lists, and then raises [AttributeError]
    at the first candidate: no proposal is evaluated. *)
Theorem boost_without_model_raises
        (rand : nat -> Q) (fit : list vec -> list yval -> vec -> Q)
        (feat_names : list string) (f : option vec -> yval)
        (bounds : list (Q * Q)) (x_list y_list : nat) (n_pre_samples : Z) (w : world) :
  let xs := nth x_list (x_lists w) [] in
  let ys := nth y_list (y_lists w) [] in
  let rows := pre_samples rand bounds (draws w)
                          (Z.to_nat (n_pre_samples - Z.of_nat (length xs))) in
  let after := boost_optimization rand (print_feature_importances fit xs ys feat_names)
                                  (fun p => Ok (f p)) bounds
                                  (Some x_list) (Some y_list) (Some n_pre_samples) w in
  (length xs < 5)%nat ->
  (x_list < length (x_lists w))%nat ->
  (y_list < length (y_lists w))%nat ->
  Forall (fun v => v <> []) ys ->
  (length ys <= length xs)%nat ->
  snd after = Err AttributeError /\
  nth x_list (x_lists (fst after)) [] = xs ++ rows /\
  nth y_list (y_lists (fst after)) []
  = refreshed f xs ys ++ map (fun p => f (Some p)) rows /\
  evaluated (fst after) = evaluated w ++ guess_calls xs ys ++ map Some rows.
Proof.
  intros xs ys rows after H5 Hax Hay Hne Hle. subst after.
  unfold print_feature_importances.
  destruct (Nat.ltb_spec (length xs) 5) as [_|Hc]; [|lia].
  rewrite (boost_optimization_trace rand None f bounds (Some x_list) (Some y_list)
             (Some n_pre_samples) w Hax Hay Hne Hle).
  cbn [fst snd x_lists y_lists evaluated].
  repeat split; auto; apply nth_replace_nth; assumption.
Qed.

End BoostTrace.

(** X17 and X18 at work: one stored vector with its score, three
    pre-samples asked for. *)
Lemma loss_fn_calls_example :
  let rand := fun _ : nat => 1 # 2 in
  let predict := fun _ : Boost.vec => 0 in
  let f := fun _ : option Boost.vec => [Some 1] : Boost.yval in
  let w := {| Boost.x_lists := [[[1 # 4]]]; Boost.y_lists := [[[Some 2]]];
              Boost.draws := 0; Boost.evaluated := [] |} in
  let after := Boost.boost_optimization rand (Some predict) (fun p => Ok (f p)) [(0, 1)]
                                        (Some 0%nat) (Some 0%nat) (Some 3%Z) w in
  snd after = Ok tt /\
  Boost.evaluated (fst after)
  = [] ++ [] ++ [Some [1 # 2]; Some [1 # 2]]
       ++ [fst (Boost.best_of predict (None, (-1000)%Q)
                  (Boost.pre_samples rand [(0, 1)] 2 Boost.n_candidates))].
Proof.
  intros rand predict f w.
  apply (loss_fn_calls_in_order rand predict f [(0, 1)] 0 0 3%Z w).
  - apply Nat.lt_0_1.
  - apply Nat.lt_0_1.
  - repeat constructor. discriminate.
  - apply Nat.le_refl.
Defined.

Lemma boost_without_model_example :
  let rand := fun _ : nat => 1 # 2 in
  let fit := fun (_ : list Boost.vec) (_ : list Boost.yval) (_ : Boost.vec) => 0 in
  let f := fun _ : option Boost.vec => [Some 1] : Boost.yval in
  let w := {| Boost.x_lists := [[[1 # 4]]]; Boost.y_lists := [[[Some 2]]];
              Boost.draws := 0; Boost.evaluated := [] |} in
  let after := Boost.boost_optimization
                 rand (print_feature_importances fit [[1 # 4]] [[Some 2]] ["a"])
                 (fun p => Ok (f p)) [(0, 1)] (Some 0%nat) (Some 0%nat) (Some 3%Z) w in
  snd after = Err AttributeError /\
  nth 0 (Boost.x_lists (fst after)) [] = [[1 # 4]; [1 # 2]; [1 # 2]].
Proof.
  intros rand fit f w.
  destruct (boost_without_model_raises rand fit ["a"] f [(0, 1)] 0 0 3%Z w)
    as (H1 & H2 & _).
  - cbn. lia.
  - apply Nat.lt_0_1.
  - apply Nat.lt_0_1.
  - repeat constructor. discriminate.
  - apply Nat.le_refl.
  - split; [exact H1|exact H2].
Defined.

(** ** Where the hydrate loop leaves each key *)

Section HydrateFacts.
Context {C : Collaborators}.
Import HSearchEnv.

Lemma getitem_first (d : Dict.t tree) (q : string) :
  DotDict.getitem (Node d) q =
  match Dict.get (first_segment q) d with
  | None => Ok (Leaf VNone)
  | Some t => DotDict.getitem_path t (tl (split_on "." q))
  end.
Proof.
  unfold DotDict.getitem, first_segment.
  pose proof (split_on_nonempty "." q) as Hne.
  destruct (split_on "." q) as [|a rest]; [contradiction|].
  cbn [hd tl]. apply getitem_path_cons.
Qed.

(** A store under [k] leaves the paths that part ways with [k] as they
    were, as long as a mapping that is merged does not bind their first
    segment. *)
Lemma store_frame_any (obj : tree) (k : string) (v : scalar) (r : result tree)
      (q : string) (obj' : tree) :
  match r with
  | Ok (Node d) => Dict.get (first_segment q) d = None
  | _ => True
  end ->
  apart k q = true ->
  store obj k v r = Ok obj' ->
  DotDict.getitem obj' q = DotDict.getitem obj q.
Proof.
  intros Hr Hap. unfold store.
  assert (Hset : forall x, DotDict.setitem obj k x = Ok obj' ->
                           DotDict.getitem obj' q = DotDict.getitem obj q).
  { intros x H. unfold DotDict.setitem in H. unfold DotDict.getitem.
    apply (setitem_path_frame (split_on "." k) (split_on "." q) obj x obj'); auto. }
  destruct r as [[s|d|l|fr]|e].
  - destruct (DotDict.setitem obj k (Leaf s)) eqn:E; [intros [= <-]; eauto|discriminate].
  - destruct (DotDict.update obj d) as [o|] eqn:E; [|now apply Hset].
    intros [= <-]. unfold DotDict.update in E.
    destruct obj as [|d0| |]; try discriminate. injection E as <-.
    rewrite !getitem_first. now rewrite get_update_other.
  - destruct (DotDict.setitem obj k (NetSpec l)) eqn:E; [intros [= <-]; eauto|discriminate].
  - destruct (DotDict.setitem obj k (SessionConfig fr)) eqn:E; [intros [= <-]; eauto|discriminate].
  - apply Hset.
Qed.

Lemma call_hydrate_tidy (env : t) (flat : flat_record) (k : string) (v : scalar) :
  Forall hook_tidy (hypers env) ->
  hook_result_ok k (call_hydrate env flat k v).
Proof.
  intros Hh. unfold call_hydrate, Dict.item.
  destruct (Dict.get k (hypers env)) as [[lit|h]|] eqn:G; cbn [bind]; try exact I.
  rewrite Forall_forall in Hh. specialize (Hh _ (get_some_in _ _ _ G)).
  unfold hook_tidy in Hh. cbn [fst snd] in Hh.
  destruct (h_hydrate h) as [hydrate|]; [apply Hh|exact I].
Qed.

Lemma keys_apart_get (env : t) (k1 k2 : string) (e1 e2 : entry) :
  keys_apart (hypers env) = true ->
  Dict.get k1 (hypers env) = Some e1 -> Dict.get k2 (hypers env) = Some e2 ->
  k1 <> k2 -> apart k1 k2 = true.
Proof.
  unfold keys_apart. intros H H1 H2 Hne.
  rewrite forallb_forall in H. specialize (H _ (get_some_in _ _ _ H1)).
  rewrite forallb_forall in H. specialize (H _ (get_some_in _ _ _ H2)).
  cbn [fst] in H. apply orb_true_iff in H. destruct H as [H|H]; auto.
  apply String.eqb_eq in H. contradiction.
Qed.

Lemma keys_off_get (env : t) (k : string) (e : entry) :
  keys_off_baseline (hypers env) = true ->
  Dict.get k (hypers env) = Some e -> k <> "baseline_mode" ->
  ~ In (first_segment k) baseline_names.
Proof.
  unfold keys_off_baseline. intros H Hk Hne.
  rewrite forallb_forall in H. specialize (H _ (get_some_in _ _ _ Hk)).
  cbn [fst] in H. apply orb_true_iff in H. destruct H as [H|H].
  - apply String.eqb_eq in H. contradiction.
  - rewrite negb_true_iff in H. intros Hin.
    assert (existsb (String.eqb (first_segment k)) baseline_names = true); [|congruence].
    apply existsb_exists. exists (first_segment k). split; auto. apply String.eqb_refl.
Qed.

Lemma tidy_frame (k2 q : string) (r : result tree) :
  hook_result_ok k2 r ->
  ~ In (first_segment q) baseline_names ->
  match r with
  | Ok (Node d) => Dict.get (first_segment q) d = None
  | _ => True
  end.
Proof.
  intros Hr Hq. destruct r as [[s|d|l|fr]|e]; auto.
  destruct Hr as [_ Hd].
  destruct (Dict.get (first_segment q) d) as [x|] eqn:G; auto.
  exfalso. apply Hq. apply get_some_in in G.
  rewrite forallb_forall in Hd. specialize (Hd _ G). cbn [fst] in Hd.
  apply existsb_exists in Hd. destruct Hd as (a & Ha & E).
  apply String.eqb_eq in E. now subst.
Qed.

Lemma hydrate_step_frame (env : t) (flat : flat_record) (main custom main' custom' : tree)
      (k2 : string) (v2 : scalar) (q : string) :
  Forall hook_tidy (hypers env) ->
  apart k2 q = true ->
  (k2 = "baseline_mode" -> ~ In (first_segment q) baseline_names) ->
  hydrate_step env flat (main, custom) (k2, v2) = Ok (main', custom') ->
  DotDict.getitem main' q = DotDict.getitem main q /\
  DotDict.getitem custom' q = DotDict.getitem custom q.
Proof.
  intros Hh Hap Hq. unfold hydrate_step.
  destruct (Dict.item (agent env) Catalogue.hypers) as [section|]; cbn [bind];
    [|discriminate].
  assert (Hr : match call_hydrate env flat k2 v2 with
               | Ok (Node d) => Dict.get (first_segment q) d = None
               | _ => True
               end).
  { pose proof (call_hydrate_tidy env flat k2 v2 Hh) as Ht.
    destruct (call_hydrate env flat k2 v2) as [[s|d|l|fr]|e] eqn:E; auto.
    change (match Ok (Node d) with
            | Ok (Node d) => Dict.get (first_segment q) d = None
            | _ => True
            end).
    apply (tidy_frame k2 q (Ok (Node d)) Ht). apply Hq. now destruct Ht. }
  destruct (Dict.mem k2 section).
  - destruct (store main k2 v2 (call_hydrate env flat k2 v2)) as [m|] eqn:E;
      cbn [bind]; [|discriminate].
    intros [= <- <-]. split; auto.
    now apply (store_frame_any main k2 v2 (call_hydrate env flat k2 v2)).
  - destruct (store custom k2 v2 (call_hydrate env flat k2 v2)) as [m|] eqn:E;
      cbn [bind]; [|discriminate].
    intros [= <- <-]. split; auto.
    now apply (store_frame_any custom k2 v2 (call_hydrate env flat k2 v2)).
Qed.

Lemma hydrate_loop_frame (env : t) (flat : flat_record) (q : string) (l : flat_record) :
  Forall hook_tidy (hypers env) ->
  (forall k2 v2, In (k2, v2) l ->
                 apart k2 q = true /\
                 (k2 = "baseline_mode" -> ~ In (first_segment q) baseline_names)) ->
  forall main custom main' custom',
    for_each (hydrate_step env flat) (main, custom) l = Ok (main', custom') ->
    DotDict.getitem main' q = DotDict.getitem main q /\
    DotDict.getitem custom' q = DotDict.getitem custom q.
Proof.
  intros Hh Hap.
  induction l as [|[k2 v2] l IH]; intros main custom main' custom'; cbn [for_each].
  - intros [= <- <-]. auto.
  - destruct (hydrate_step env flat (main, custom) (k2, v2)) as [[m1 c1]|] eqn:E;
      cbn [bind]; [|discriminate].
    intros H.
    destruct (IH (fun k v Hin => Hap k v (or_intror Hin)) _ _ _ _ H) as [Hm Hc].
    destruct (Hap k2 v2 (or_introl eq_refl)) as [Ha Hb].
    destruct (hydrate_step_frame env flat main custom m1 c1 k2 v2 q Hh Ha Hb E)
      as [Hm1 Hc1].
    split; congruence.
Qed.

(** What one turn leaves under its own key *)
Lemma store_own (obj : tree) (k : string) (v : scalar) (r : result tree) (obj' : tree) :
  match r with Ok (Leaf _) | Err _ => True | _ => False end ->
  store obj k v r = Ok obj' ->
  DotDict.getitem obj' k
  = Ok (Leaf (match r with Ok (Leaf s) => s | _ => v end)).
Proof.
  intros Hr. unfold store. destruct r as [[s|d|l|fr]|e]; try contradiction.
  - destruct (DotDict.setitem obj k (Leaf s)) eqn:E.
    + intros [= <-]. now apply setitem_ok_getitem with (data := obj).
    + intros H. rewrite H in E. discriminate.
  - intros H. now apply setitem_ok_getitem with (data := obj).
Qed.

Lemma scalar_hook_tidy (k : string) (f : scalar -> flat_record -> result scalar)
      (v : scalar) (flat : flat_record) :
  hook_result_ok k (scalar_hook f v flat).
Proof. unfold scalar_hook. destruct (f v flat); exact I. Qed.

Lemma hydrate_baseline_tidy (v : scalar) (flat : flat_record) :
  hook_result_ok "baseline_mode" (hydrate_baseline v flat).
Proof.
  unfold hydrate_baseline.
  repeat match goal with
         | |- hook_result_ok _ (bind ?X _) => destruct X; cbn [bind]; [|exact I]
         end.
  destruct (Py.eq v (VBool false)); [split; reflexivity|].
  destruct (Py.eq v (VBool true)); [split; reflexivity|exact I].
Qed.

Lemma init_hydrate_ready (gpu : Q) (net : string) (env : t) :
  net = "lstm" \/ net = "conv2d" ->
  init "ppo_agent" gpu net = Ok env ->
  hydrate_ready env.
Proof.
  intros [->| ->] Hinit;
    cbv -[scalar_hook two_to_the ten_to_the_neg min_threshold min_ten_neg
          hydrate_baseline gae_lambda_post Py.round Py.int] in Hinit;
    injection Hinit as <-;
    (constructor; cbn [hypers];
     [ repeat (apply Forall_cons;
               [cbn [hook_tidy snd fst h_hydrate]; try exact I; intros;
                first [apply scalar_hook_tidy | apply hydrate_baseline_tidy]|]);
       apply Forall_nil
     | vm_compute; reflexivity
     | vm_compute; reflexivity ]).
Qed.

(** X19.  In the environments [main_gp] builds, when the hydrate loop has
    run over a record with keys of [self.hypers], every key but
    baseline_mode is found at its dotted path, in [main] when it is a key
    of the agent section and in [custom] otherwise, and the value there
    is what the [hydrate] hook of the key returned, or the value of the
    record when the key has no hook or the hook raised. *)
Theorem hydrated_trees_hold_each_key
        (gpu : Q) (net : string) (env : t) (flat : flat_record)
        (main custom : tree) (section : Dict.t entry) (k : string) (v : scalar) :
  net = "lstm" \/ net = "conv2d" ->
  init "ppo_agent" gpu net = Ok env ->
  NoDup (Dict.keys flat) ->
  (forall k v, In (k, v) flat -> exists e, Dict.get k (hypers env) = Some e) ->
  hydrate_phase env flat = Ok (main, custom) ->
  Dict.item (agent env) Catalogue.hypers = Ok section ->
  In (k, v) flat ->
  k <> "baseline_mode" ->
  DotDict.getitem (if Dict.mem k section then main else custom) k
  = Ok (Leaf (match call_hydrate env flat k v with Ok (Leaf s) => s | _ => v end)).
Proof.
  intros Hnet Hinit Hnd Hknown Hrun Hsec Hin Hne.
  destruct (init_hydrate_ready gpu net env Hnet Hinit) as [Hh Hap Hoff].
  destruct (in_split _ _ Hin) as (l1 & l2 & Hflat).
  destruct (Hknown k v Hin) as [e He].
  assert (Hq : ~ In (first_segment k) baseline_names)
    by (apply (keys_off_get env k e); auto).
  assert (Hl2 : forall k2 v2, In (k2, v2) l2 ->
                  apart k2 k = true /\
                  (k2 = "baseline_mode" -> ~ In (first_segment k) baseline_names)).
  { intros k2 v2 Hin2. split; [|auto].
    assert (Hin2' : In (k2, v2) flat)
      by (rewrite Hflat; apply in_or_app; right; now right).
    destruct (Hknown k2 v2 Hin2') as [e2 He2].
    apply (keys_apart_get env k2 k e2 e Hap He2 He).
    intros ->. rewrite Hflat in Hnd.
    destruct (nodup_split_keys _ _ _ _ Hnd) as [_ Hni].
    apply Hni. apply (in_map fst _ _ Hin2). }
  pose proof (call_hydrate_tidy env flat k v Hh) as Hr.
  assert (Hleaf : match call_hydrate env flat k v with
                  | Ok (Leaf _) | Err _ => True | _ => False end).
  { destruct (call_hydrate env flat k v) as [[s|d|l|fr]|]; auto.
    destruct Hr as [Hr _]. contradiction. }
  unfold hydrate_phase in Hrun.
  remember (hydrate_step env flat) as step eqn:Hstep.
  rewrite Hflat, for_each_app in Hrun. subst step.
  destruct (for_each (hydrate_step env flat) (Node [], Node []) l1) as [[m1 c1]|];
    cbn [bind for_each] in Hrun; [|discriminate].
  destruct (hydrate_step env flat (m1, c1) (k, v)) as [[m2 c2]|] eqn:E2;
    cbn [bind] in Hrun; [|discriminate].
  destruct (hydrate_loop_frame env flat k l2 Hh Hl2 _ _ _ _ Hrun) as [Hm Hc].
  unfold hydrate_step in E2. rewrite Hsec in E2. cbn [bind] in E2.
  destruct (Dict.mem k section).
  - destruct (store m1 k v (call_hydrate env flat k v)) as [m|] eqn:E;
      cbn [bind] in E2; [|discriminate].
    injection E2 as <- <-. rewrite Hm.
    now apply (store_own m1 k v (call_hydrate env flat k v)).
  - destruct (store c1 k v (call_hydrate env flat k v)) as [m|] eqn:E;
      cbn [bind] in E2; [|discriminate].
    injection E2 as <- <-. rewrite Hc.
    now apply (store_own c1 k v (call_hydrate env flat k v)).
Qed.

(** *** The mapping of baseline_mode *)

Lemma hydrate_baseline_node (v : scalar) (flat : flat_record) (d : Dict.t tree) :
  hydrate_baseline v flat = Ok (Node d) ->
  NoDup (Dict.keys d) /\
  (forall a, In a (Dict.keys d) -> In a baseline_names /\ has_char "." a = false).
Proof.
  unfold hydrate_baseline.
  repeat match goal with
         | |- bind ?X _ = _ -> _ => destruct X; cbn [bind]; [|discriminate]
         end.
  destruct (Py.eq v (VBool false)).
  - intros [= <-]. split.
    + repeat constructor. intros [].
    + intros key [<-|[]]. split; [right; left; reflexivity|reflexivity].
  - destruct (Py.eq v (VBool true)); [|discriminate].
    intros [= <-]. split.
    + apply distinct_nodup. reflexivity.
    + intros key [<-|[<-|[<-|[]]]]; (split; [|reflexivity]);
        unfold baseline_names; cbn [In]; auto.
Qed.

Lemma init_baseline_hook (gpu : Q) (net : string) (env : t) :
  net = "lstm" \/ net = "conv2d" ->
  init "ppo_agent" gpu net = Ok env ->
  (exists h, Dict.get "baseline_mode" (hypers env) = Some (Spec h) /\
             h_hydrate h = Some hydrate_baseline) /\
  (exists section, Dict.item (agent env) Catalogue.hypers = Ok section /\
                   Dict.mem "baseline_mode" section = true).
Proof.
  intros [->| ->] Hinit;
    cbv -[scalar_hook two_to_the ten_to_the_neg min_threshold min_ten_neg
          hydrate_baseline gae_lambda_post Py.round Py.int] in Hinit;
    injection Hinit as <-; cbn [hypers agent];
    (split; [eexists; split; reflexivity
            |eexists; split; [reflexivity|vm_compute; reflexivity]]).
Qed.

Lemma apart_first (k a : string) :
  first_segment k <> first_segment a -> apart k a = true.
Proof.
  unfold apart, first_segment.
  pose proof (split_on_nonempty "." k) as Hk.
  pose proof (split_on_nonempty "." a) as Ha.
  destruct (split_on "." k) as [|x xs]; [contradiction|].
  destruct (split_on "." a) as [|y ys]; [contradiction|].
  cbn [hd diverge]. intros Hne.
  destruct (String.eqb x y) eqn:E; auto.
  apply String.eqb_eq in E. contradiction.
Qed.

Lemma store_node (d0 : Dict.t tree) (k : string) (v : scalar) (r : result tree)
      (obj' : tree) :
  store (Node d0) k v r = Ok obj' -> exists d1, obj' = Node d1.
Proof.
  assert (Hset : forall x, DotDict.setitem (Node d0) k x = Ok obj' ->
                           exists d1, obj' = Node d1).
  { intros x. unfold DotDict.setitem.
    pose proof (split_on_nonempty "." k) as Hne.
    destruct (split_on "." k) as [|a [|b rest]]; [contradiction| |].
    - cbn [DotDict.setitem_path]. intros [= <-]. eauto.
    - rewrite setitem_path_cons.
      destruct (DotDict.setitem_path _ (b :: rest) x); cbn [bind]; [|discriminate].
      intros [= <-]. eauto. }
  unfold store. destruct r as [[s|d|l|fr]|e].
  - destruct (DotDict.setitem (Node d0) k (Leaf s)) eqn:E;
      [intros [= <-]; eauto|discriminate].
  - cbn [DotDict.update]. intros [= <-]. eauto.
  - destruct (DotDict.setitem (Node d0) k (NetSpec l)) eqn:E;
      [intros [= <-]; eauto|discriminate].
  - destruct (DotDict.setitem (Node d0) k (SessionConfig fr)) eqn:E;
      [intros [= <-]; eauto|discriminate].
  - apply Hset.
Qed.

Lemma hydrate_loop_nodes (env : t) (flat : flat_record) (l : flat_record) :
  forall dm dc main custom,
    for_each (hydrate_step env flat) (Node dm, Node dc) l = Ok (main, custom) ->
    (exists dm', main = Node dm') /\ (exists dc', custom = Node dc').
Proof.
  induction l as [|[k v] l IH]; intros dm dc main custom; cbn [for_each].
  - intros [= <- <-]. eauto.
  - destruct (hydrate_step env flat (Node dm, Node dc) (k, v)) as [[m1 c1]|] eqn:E;
      cbn [bind]; [|discriminate].
    unfold hydrate_step in E.
    destruct (Dict.item (agent env) Catalogue.hypers) as [section|]; cbn [bind] in E;
      [|discriminate].
    destruct (Dict.mem k section).
    + destruct (store (Node dm) k v (call_hydrate env flat k v)) as [m|] eqn:Es;
        cbn [bind] in E; [|discriminate].
      injection E as <- <-. destruct (store_node _ _ _ _ _ Es) as [d1 ->]. apply IH.
    + destruct (store (Node dc) k v (call_hydrate env flat k v)) as [m|] eqn:Es;
        cbn [bind] in E; [|discriminate].
      injection E as <- <-. destruct (store_node _ _ _ _ _ Es) as [d1 ->]. apply IH.
Qed.

(** X20.  In the environments [main_gp] builds, when the hook of
    baseline_mode returns its mapping, the hydrate loop leaves every
    entry of that mapping at the top of [main]: what the later keys store
    does not touch them. *)
Theorem baseline_block_reaches_main
        (gpu : Q) (net : string) (env : t) (flat : flat_record)
        (main custom : tree) (bm : scalar) (d : Dict.t tree) (a : string) (x : tree) :
  net = "lstm" \/ net = "conv2d" ->
  init "ppo_agent" gpu net = Ok env ->
  NoDup (Dict.keys flat) ->
  (forall k v, In (k, v) flat -> exists e, Dict.get k (hypers env) = Some e) ->
  hydrate_phase env flat = Ok (main, custom) ->
  In ("baseline_mode", bm) flat ->
  hydrate_baseline bm flat = Ok (Node d) ->
  Dict.get a d = Some x ->
  DotDict.getitem main a = Ok x.
Proof.
  intros Hnet Hinit Hnd Hknown Hrun Hin Hd Ha.
  destruct (init_hydrate_ready gpu net env Hnet Hinit) as [Hh Hap Hoff].
  destruct (init_baseline_hook gpu net env Hnet Hinit)
    as [(h & Hk & Hhook) (section & Hsec & Hmem)].
  destruct (hydrate_baseline_node bm flat d Hd) as [Hndd Hkeys].
  destruct (Hkeys a) as [Hbase Hdot].
  { apply get_some_in in Ha. apply (in_map fst _ _ Ha). }
  assert (Hseg : first_segment a = a).
  { unfold first_segment. now rewrite (split_on_none "." a Hdot). }
  destruct (in_split _ _ Hin) as (l1 & l2 & Hflat).
  assert (Hl2 : forall k2 v2, In (k2, v2) l2 ->
                  apart k2 a = true /\
                  (k2 = "baseline_mode" -> ~ In (first_segment a) baseline_names)).
  { intros k2 v2 Hin2.
    assert (Hin2' : In (k2, v2) flat)
      by (rewrite Hflat; apply in_or_app; right; now right).
    destruct (Hknown k2 v2 Hin2') as [e2 He2].
    assert (Hne : k2 <> "baseline_mode").
    { intros ->. rewrite Hflat in Hnd.
      destruct (nodup_split_keys _ _ _ _ Hnd) as [_ Hni].
      apply Hni. apply (in_map fst _ _ Hin2). }
    split; [|contradiction].
    apply apart_first. rewrite Hseg. intros Heq.
    apply (keys_off_get env k2 e2 Hoff He2 Hne). now rewrite Heq. }
  unfold hydrate_phase in Hrun.
  remember (hydrate_step env flat) as step eqn:Hstep.
  rewrite Hflat, for_each_app in Hrun. subst step.
  destruct (for_each (hydrate_step env flat) (Node [], Node []) l1) as [[m1 c1]|] eqn:E1;
    cbn [bind for_each] in Hrun; [|discriminate].
  destruct (hydrate_loop_nodes env flat l1 _ _ _ _ E1) as [[d1 ->] _].
  destruct (hydrate_step env flat (Node d1, c1) ("baseline_mode", bm)) as [[m2 c2]|] eqn:E2;
    cbn [bind] in Hrun; [|discriminate].
  destruct (hydrate_loop_frame env flat a l2 Hh Hl2 _ _ _ _ Hrun) as [Hm _].
  rewrite Hm.
  unfold hydrate_step in E2. rewrite Hsec in E2. cbn [bind] in E2. rewrite Hmem in E2.
  assert (Hcall : call_hydrate env flat "baseline_mode" bm = Ok (Node d)).
  { unfold call_hydrate, Dict.item. rewrite Hk. cbn [bind]. now rewrite Hhook. }
  rewrite Hcall in E2. cbn [store DotDict.update bind] in E2.
  injection E2 as <- _.
  rewrite getitem_first, Hseg, (get_update_nodup a x d1 d Hndd Ha).
  unfold DotDict.getitem. now rewrite (split_on_none "." a Hdot).
Qed.

End HydrateFacts.

(** ** Hooks that raise *)

Section HookErrors.
Context {C : Collaborators}.
Import HSearchEnv.

Lemma init_keys_off_finish (gpu : Q) (net : string) (env : t) :
  net = "lstm" \/ net = "conv2d" ->
  init "ppo_agent" gpu net = Ok env ->
  keys_off_finish (hypers env) = true.
Proof.
  intros [->| ->] Hinit;
    cbv -[scalar_hook two_to_the ten_to_the_neg min_threshold min_ten_neg
          hydrate_baseline gae_lambda_post Py.round Py.int] in Hinit;
    injection Hinit as <-; vm_compute; reflexivity.
Qed.

Lemma keys_off_finish_get (env : t) (k : string) (e : entry) :
  keys_off_finish (hypers env) = true ->
  Dict.get k (hypers env) = Some e ->
  first_segment k <> "baseline" /\ first_segment k <> "session_config".
Proof.
  unfold keys_off_finish. intros H Hk.
  rewrite forallb_forall in H. specialize (H _ (get_some_in _ _ _ Hk)).
  cbn [fst] in H. apply andb_true_iff in H. destruct H as [H1 H2].
  rewrite negb_true_iff in H1, H2.
  split; intros Heq; rewrite Heq in *; discriminate.
Qed.

Lemma get_hypers_parts (env : t) (actions flat : flat_record) (main network : tree) :
  get_hypers env actions = Ok (flat, main, network) ->
  flatten env actions = Ok flat /\
  exists main0 custom,
    hydrate_phase env flat = Ok (main0, custom) /\
    finish env flat main0 custom = Ok (flat, main, network).
Proof.
  intros H. pose proof (get_hypers_flatten _ _ _ _ _ H) as Hflat.
  split; [assumption|].
  unfold get_hypers in H. rewrite Hflat in H. cbn [bind] in H.
  destruct (hydrate_phase env flat) as [[main0 custom]|]; cbn [bind] in H; [|discriminate].
  now exists main0, custom.
Qed.

(** What the lines after the hydrate loop leave alone in [main] *)
Lemma finish_frame (env : t) (flat flat' : flat_record) (main0 custom main network : tree)
      (h : hyper) (q : string) :
  Dict.get "baseline_mode" (hypers env) = Some (Spec h) ->
  first_segment q <> "baseline" -> first_segment q <> "session_config" ->
  finish env flat main0 custom = Ok (flat', main, network) ->
  custom_net custom false = Ok network /\
  DotDict.getitem main q = DotDict.getitem main0 q.
Proof.
  intros Hbm Hq1 Hq2. unfold finish, Dict.item at 2. rewrite Hbm.
  destruct (custom_net custom false) as [n1|]; cbn [bind]; [|discriminate].
  destruct (Dict.item "baseline_mode" flat) as [bm|]; cbn [bind]; [|discriminate].
  destruct (Py.truthy bm); cbn [bind].
  - destruct (custom_net custom true) as [n2|]; cbn [bind]; [|discriminate].
    destruct (tree_item "baseline" main0) as [bl|]; cbn [bind]; [|discriminate].
    destruct (tree_setitem "network_spec" n2 bl) as [bl'|]; cbn [bind]; [|discriminate].
    destruct main0 as [|d| |]; cbn [tree_setitem bind]; try discriminate.
    intros [= _ <- <-]. split; [reflexivity|].
    rewrite !getitem_first, !get_set_other; auto.
  - destruct main0 as [|d| |]; cbn [tree_setitem bind]; try discriminate.
    intros [= _ <- <-]. split; [reflexivity|].
    rewrite !getitem_first, !get_set_other; auto.
Qed.

(** The frame of the hydrate loop, told turn by turn from what the hook of
    the turn returned *)
Lemma hydrate_loop_frame_by_result (env : t) (flat : flat_record) (q : string)
      (l : flat_record) :
  (forall k2 v2, In (k2, v2) l ->
                 apart k2 q = true /\
                 match call_hydrate env flat k2 v2 with
                 | Ok (Node d) => Dict.get (first_segment q) d = None
                 | _ => True
                 end) ->
  forall main custom main' custom',
    for_each (hydrate_step env flat) (main, custom) l = Ok (main', custom') ->
    DotDict.getitem main' q = DotDict.getitem main q /\
    DotDict.getitem custom' q = DotDict.getitem custom q.
Proof.
  intros Hap.
  induction l as [|[k2 v2] l IH]; intros main custom main' custom'; cbn [for_each].
  - intros [= <- <-]. auto.
  - destruct (hydrate_step env flat (main, custom) (k2, v2)) as [[m1 c1]|] eqn:E;
      cbn [bind]; [|discriminate].
    intros H.
    destruct (IH (fun k v Hin => Hap k v (or_intror Hin)) _ _ _ _ H) as [Hm Hc].
    destruct (Hap k2 v2 (or_introl eq_refl)) as [Ha Hr].
    rewrite Hm, Hc. clear Hm Hc H IH.
    unfold hydrate_step in E.
    destruct (Dict.item (agent env) Catalogue.hypers) as [section|]; cbn [bind] in E;
      [|discriminate].
    destruct (Dict.mem k2 section).
    + destruct (store main k2 v2 (call_hydrate env flat k2 v2)) as [m|] eqn:Es;
        cbn [bind] in E; [|discriminate].
      injection E as <- <-. split; auto.
      now apply (store_frame_any main k2 v2 (call_hydrate env flat k2 v2)).
    + destruct (store custom k2 v2 (call_hydrate env flat k2 v2)) as [m|] eqn:Es;
        cbn [bind] in E; [|discriminate].
      injection E as <- <-. split; auto.
      now apply (store_frame_any custom k2 v2 (call_hydrate env flat k2 v2)).
Qed.

(** After the hydrate loop, the key of a hook that raised is bound to the
    value of the record *)
Lemma raised_key_holds (env : t) (flat : flat_record) (main0 custom : tree)
      (section : Dict.t entry) (k : string) (v : scalar) (e : exn) :
  hydrate_ready env ->
  NoDup (Dict.keys flat) ->
  (forall k v, In (k, v) flat -> exists e, Dict.get k (hypers env) = Some e) ->
  hydrate_phase env flat = Ok (main0, custom) ->
  Dict.item (agent env) Catalogue.hypers = Ok section ->
  In (k, v) flat ->
  call_hydrate env flat k v = Err e ->
  DotDict.getitem (if Dict.mem k section then main0 else custom) k = Ok (Leaf v).
Proof.
  intros [Hh Hap Hoff] Hnd Hknown Hrun Hsec Hin Hraise.
  destruct (in_split _ _ Hin) as (l1 & l2 & Hflat).
  destruct (Hknown k v Hin) as [e0 He0].
  assert (Hl2 : forall k2 v2, In (k2, v2) l2 ->
                  apart k2 k = true /\
                  (k2 = "baseline_mode" -> ~ In (first_segment k) baseline_names)).
  { intros k2 v2 Hin2.
    assert (Hin2' : In (k2, v2) flat)
      by (rewrite Hflat; apply in_or_app; right; now right).
    destruct (Hknown k2 v2 Hin2') as [e2 He2].
    assert (Hne : k2 <> k).
    { intros ->. rewrite Hflat in Hnd.
      destruct (nodup_split_keys _ _ _ _ Hnd) as [_ Hni].
      apply Hni. apply (in_map fst _ _ Hin2). }
    split; [now apply (keys_apart_get env k2 k e2 e0 Hap He2 He0)|].
    intros ->. apply (keys_off_get env k e0 Hoff He0). congruence. }
  unfold hydrate_phase in Hrun.
  remember (hydrate_step env flat) as step eqn:Hstep.
  rewrite Hflat, for_each_app in Hrun. subst step.
  destruct (for_each (hydrate_step env flat) (Node [], Node []) l1) as [[m1 c1]|];
    cbn [bind for_each] in Hrun; [|discriminate].
  destruct (hydrate_step env flat (m1, c1) (k, v)) as [[m2 c2]|] eqn:E2;
    cbn [bind] in Hrun; [|discriminate].
  destruct (hydrate_loop_frame env flat k l2 Hh Hl2 _ _ _ _ Hrun) as [Hm Hc].
  unfold hydrate_step in E2. rewrite Hsec in E2. cbn [bind] in E2.
  rewrite Hraise in E2.
  destruct (Dict.mem k section).
  - destruct (store m1 k v (Err e)) as [m|] eqn:E; cbn [bind] in E2; [|discriminate].
    injection E2 as <- <-. rewrite Hm.
    now apply (store_own m1 k v (Err e) m I).
  - destruct (store c1 k v (Err e)) as [m|] eqn:E; cbn [bind] in E2; [|discriminate].
    injection E2 as <- <-. rewrite Hc.
    now apply (store_own c1 k v (Err e) m I).
Qed.

(** When the hook of a truthy baseline_mode raised, [main] has no mapping
    under [baseline] after the loop, and the lines that follow raise. *)
Lemma raised_baseline_hook_is_fatal (env : t) (flat : flat_record) (h : hyper)
      (v : scalar) (e : exn) (main0 custom : tree) :
  hydrate_ready env ->
  keys_off_finish (hypers env) = true ->
  Dict.get "baseline_mode" (hypers env) = Some (Spec h) ->
  NoDup (Dict.keys flat) ->
  (forall k v, In (k, v) flat -> exists e, Dict.get k (hypers env) = Some e) ->
  In ("baseline_mode", v) flat ->
  call_hydrate env flat "baseline_mode" v = Err e ->
  Py.truthy v = true ->
  hydrate_phase env flat = Ok (main0, custom) ->
  exists e', finish env flat main0 custom = Err e'.
Proof.
  intros [Hh Hap Hoff] Hfin Hbm Hnd Hknown Hin Hraise Htrue Hrun.
  assert (Hframe : DotDict.getitem main0 "baseline" = Ok (Leaf VNone)).
  { unfold hydrate_phase in Hrun.
    destruct (hydrate_loop_frame_by_result env flat "baseline" flat) with
      (main := Node []) (custom := Node []) (main' := main0) (custom' := custom)
      as [Hm _]; auto.
    intros k2 v2 Hin2. destruct (Hknown k2 v2 Hin2) as [e2 He2].
    destruct (keys_off_finish_get env k2 e2 Hfin He2) as [Hk2 _]. split.
    - apply apart_first. exact Hk2.
    - pose proof (call_hydrate_tidy env flat k2 v2 Hh) as Ht.
      destruct (call_hydrate env flat k2 v2) as [[s|d|l|fr]|] eqn:Ec; auto.
      destruct Ht as [-> _].
      assert (v2 = v).
      { pose proof (in_get_nodup _ _ _ Hnd Hin2) as G2.
        pose proof (in_get_nodup _ _ _ Hnd Hin) as G. congruence. }
      subst v2. congruence. }
  destruct (hydrate_loop_nodes env flat flat [] [] main0 custom Hrun) as [[dm ->] _].
  unfold finish, Dict.item at 2. rewrite Hbm.
  destruct (custom_net custom false) as [n1|]; cbn [bind]; [|eauto].
  unfold Dict.item at 1. rewrite (in_get_nodup _ _ _ Hnd Hin). cbn [bind].
  rewrite Htrue. cbn [bind].
  destruct (custom_net custom true) as [n2|]; cbn [bind]; [|eauto].
  rewrite getitem_first in Hframe. cbn [tree_item]. unfold Dict.item.
  change (first_segment "baseline") with "baseline" in Hframe.
  destruct (Dict.get "baseline" dm) as [bl|]; cbn [bind]; [|eauto].
  change (tl (split_on "." "baseline")) with (@nil string) in Hframe.
  cbn [DotDict.getitem_path] in Hframe. injection Hframe as ->.
  cbn [tree_setitem bind]. eauto.
Qed.

(** C3, as amended.  A [hydrate] hook that raises is caught: the call of
    [get_hypers] goes as if the key had no [hydrate] hook, and the turn of
    the hydrate loop binds the key's path in its target tree to the value
    the FlatRecord holds.  In the environments [main_gp] builds, when
    [get_hypers] returns, the record it returns holds that value under
    the key, and the key's path is bound to it in the [main] it returns
    when the key is one of the agent section, and otherwise in the
    [custom] tree the returned network is built from.  [get_hypers] can
    still raise after the loop: it always does when the hook that raised
    is the one of a truthy baseline_mode.  A [post] hook that raises is
    not caught: its exception leaves [get_hypers]. *)
Theorem hydrate_error_recovered_post_error_raised :
  (forall (env : t) (actions flat : flat_record) (k : string),
      flatten env actions = Ok flat ->
      (forall v, In (k, v) flat -> exists e, call_hydrate env flat k v = Err e) ->
      get_hypers env actions = get_hypers (without_hydrate k env) actions /\
      (forall v main custom main' custom' section,
          In (k, v) flat ->
          Dict.item (agent env) Catalogue.hypers = Ok section ->
          hydrate_step env flat (main, custom) (k, v) = Ok (main', custom') ->
          DotDict.getitem (if Dict.mem k section then main' else custom') k
          = Ok (Leaf v)))
  /\
  (forall (gpu : Q) (net : string) (env : t) (actions flat : flat_record)
          (main network : tree) (k : string) (v : scalar) (e : exn),
      net = "lstm" \/ net = "conv2d" ->
      init "ppo_agent" gpu net = Ok env ->
      get_hypers env actions = Ok (flat, main, network) ->
      In (k, v) flat ->
      call_hydrate env flat k v = Err e ->
      Dict.get k flat = Some v /\
      exists main0 custom section,
        hydrate_phase env flat = Ok (main0, custom) /\
        custom_net custom false = Ok network /\
        Dict.item (agent env) Catalogue.hypers = Ok section /\
        if Dict.mem k section
        then DotDict.getitem main k = Ok (Leaf v)
        else DotDict.getitem custom k = Ok (Leaf v))
  /\
  (forall (gpu : Q) (net : string) (env : t) (actions flat : flat_record)
          (v : scalar) (e : exn),
      net = "lstm" \/ net = "conv2d" ->
      init "ppo_agent" gpu net = Ok env ->
      flatten env actions = Ok flat ->
      In ("baseline_mode", v) flat ->
      call_hydrate env flat "baseline_mode" v = Err e ->
      Py.truthy v = true ->
      exists e', get_hypers env actions = Err e')
  /\
  (forall (env : t) (actions flat seen rest flat' : flat_record)
          (k : string) (v : scalar) (h : hyper)
          (post : scalar -> flat_record -> result scalar) (e : exn),
      pre_phase env actions = Ok flat ->
      flat = seen ++ (k, v) :: rest ->
      for_each (post_step env) flat seen = Ok flat' ->
      Dict.get k (hypers env) = Some (Spec h) ->
      h_post h = Some post ->
      post v flat' = Err e ->
      get_hypers env actions = Err e).
Proof.
  split; [exact raised_hook_as_if_absent|].
  split; [|split; [|exact post_hook_error_propagates]].
  - intros gpu net env actions flat main network k v e Hnet Hinit Hget Hin Hraise.
    destruct (get_hypers_parts _ _ _ _ _ Hget) as (Hflat & main0 & custom & Hrun & Hfin).
    destruct (flatten_shape _ _ _ Hflat) as [Hnd Hknown].
    pose proof (init_hydrate_ready gpu net env Hnet Hinit) as Hready.
    destruct (init_baseline_hook gpu net env Hnet Hinit)
      as [(h & Hbm & _) (section & Hsec & _)].
    split; [now apply in_get_nodup|].
    exists main0, custom, section.
    destruct (Hknown k v Hin) as [e0 He0].
    destruct (keys_off_finish_get env k e0 (init_keys_off_finish gpu net env Hnet Hinit) He0)
      as [Hq1 Hq2].
    destruct (finish_frame env flat flat main0 custom main network h k Hbm Hq1 Hq2 Hfin)
      as [Hnetw Hsame].
    repeat split; auto.
    pose proof (raised_key_holds env flat main0 custom section k v e
                  Hready Hnd Hknown Hrun Hsec Hin Hraise) as Hkey.
    destruct (Dict.mem k section); [now rewrite Hsame|assumption].
  - intros gpu net env actions flat v e Hnet Hinit Hflat Hin Hraise Htrue.
    destruct (flatten_shape _ _ _ Hflat) as [Hnd Hknown].
    pose proof (init_hydrate_ready gpu net env Hnet Hinit) as Hready.
    destruct (init_baseline_hook gpu net env Hnet Hinit) as [(h & Hbm & _) _].
    unfold get_hypers. rewrite Hflat. cbn [bind].
    destruct (hydrate_phase env flat) as [[main0 custom]|] eqn:Hrun; cbn [bind]; [|eauto].
    apply (raised_baseline_hook_is_fatal env flat h v e main0 custom Hready
             (init_keys_off_finish gpu net env Hnet Hinit) Hbm Hnd Hknown Hin Hraise
             Htrue Hrun).
Qed.

End HookErrors.

(** C3 at work: a string under [likelihood_ratio_clipping] makes its
    hydrate hook raise, and [get_hypers] returns with the string in
    [main]; a [2] under baseline_mode makes [hydrate_baseline] raise, and
    [get_hypers] raises; [gae_lambda] without [baseline_mode] makes the
    post hook raise. *)
Lemma hook_errors_example :
  HSearchEnv.get_hypers (C := example_collaborators) example_conv2d
    (Dict.set "likelihood_ratio_clipping" (VStr "x") example_actions)
  = HSearchEnv.get_hypers (C := example_collaborators)
      (HSearchEnv.without_hydrate "likelihood_ratio_clipping" example_conv2d)
      (Dict.set "likelihood_ratio_clipping" (VStr "x") example_actions)
  /\
  (exists flat main network,
      HSearchEnv.get_hypers (C := example_collaborators) example_conv2d
        (Dict.set "likelihood_ratio_clipping" (VStr "x") example_actions)
      = Ok (flat, main, network) /\
      Dict.get "likelihood_ratio_clipping" flat = Some (VStr "x") /\
      DotDict.getitem main "likelihood_ratio_clipping" = Ok (Leaf (VStr "x")))
  /\
  (exists e,
      HSearchEnv.get_hypers (C := example_collaborators) example_conv2d
        (Dict.set "baseline_mode" (VInt 2) example_actions) = Err e)
  /\
  HSearchEnv.get_hypers (C := example_collaborators) example_lstm
    [("gae_lambda", VFloat (95 # 100))]
  = Err (KeyError (VStr "baseline_mode")).
Proof.
  split; [|split; [|split]].
  - destruct (HSearchEnv.flatten example_conv2d
                (Dict.set "likelihood_ratio_clipping" (VStr "x") example_actions))
      as [flat|e] eqn:E; [|vm_compute in E; discriminate].
    refine (proj1 (proj1 (hydrate_error_recovered_post_error_raised
                            (C := example_collaborators))
                         example_conv2d _ flat "likelihood_ratio_clipping" E _)).
    vm_compute in E. injection E as <-.
    intros v Hin. simpl in Hin.
    repeat (destruct Hin as [Hin|Hin]; [try discriminate Hin|]); [|destruct Hin].
    injection Hin as <-. exists TypeError. vm_compute. reflexivity.
  - destruct (HSearchEnv.get_hypers (C := example_collaborators) example_conv2d
                (Dict.set "likelihood_ratio_clipping" (VStr "x") example_actions))
      as [[[flat main] network]|e] eqn:E; [|vm_compute in E; discriminate].
    exists flat, main, network. split; [reflexivity|].
    assert (Hflat : HSearchEnv.flatten example_conv2d
                      (Dict.set "likelihood_ratio_clipping" (VStr "x") example_actions)
                    = Ok flat).
    { revert E. unfold HSearchEnv.get_hypers.
      destruct (HSearchEnv.flatten example_conv2d
                  (Dict.set "likelihood_ratio_clipping" (VStr "x") example_actions))
        as [flat0|e0] eqn:E0; [|vm_compute in E0; discriminate].
      cbn [bind].
      destruct (HSearchEnv.hydrate_phase example_conv2d flat0) as [[m c]|];
        cbn [bind]; [|discriminate].
      unfold HSearchEnv.finish.
      repeat match goal with
             | |- bind ?X _ = _ -> _ => destruct X; cbn [bind]; [|discriminate]
             end.
      now intros [= -> _ _]. }
    assert (Hin : In ("likelihood_ratio_clipping", VStr "x") flat).
    { vm_compute in Hflat. injection Hflat as <-.
      do 7 right. left. reflexivity. }
    assert (Hcall : HSearchEnv.call_hydrate example_conv2d flat
                      "likelihood_ratio_clipping" (VStr "x") = Err TypeError).
    { vm_compute in Hflat. injection Hflat as <-. vm_compute. reflexivity. }
    destruct (proj1 (proj2 (hydrate_error_recovered_post_error_raised
                              (C := example_collaborators)))
                    1 "conv2d" example_conv2d _ flat main network
                    "likelihood_ratio_clipping" (VStr "x") TypeError
                    (or_intror eq_refl) example_conv2d_init E Hin Hcall)
      as (Hg & main0 & custom & section & _ & _ & Hsec & Hkey).
    split; [exact Hg|].
    assert (Hmem : Dict.mem "likelihood_ratio_clipping" section = true).
    { assert (H : bind (Dict.item (HSearchEnv.agent example_conv2d)
                                  (Catalogue.hypers (C := example_collaborators)))
                       (fun sec => Ok (Dict.mem "likelihood_ratio_clipping" sec))
                  = Ok true) by (vm_compute; reflexivity).
      rewrite Hsec in H. cbn [bind] in H. now injection H. }
    rewrite Hmem in Hkey. exact Hkey.
  - destruct (HSearchEnv.flatten example_conv2d
                (Dict.set "baseline_mode" (VInt 2) example_actions))
      as [flat|e] eqn:E; [|vm_compute in E; discriminate].
    refine (proj1 (proj2 (proj2 (hydrate_error_recovered_post_error_raised
                                   (C := example_collaborators))))
                  1 "conv2d" example_conv2d _ flat (VInt 2) (KeyError (VInt 2))
                  (or_intror eq_refl) example_conv2d_init E _ _ eq_refl).
    + vm_compute in E. injection E as <-. do 5 right. left. reflexivity.
    + vm_compute in E. injection E as <-. vm_compute. reflexivity.
  - refine (proj2 (proj2 (proj2 (hydrate_error_recovered_post_error_raised
                                   (C := example_collaborators))))
                  example_lstm [("gae_lambda", VFloat (95 # 100))]
                  [("gae_lambda", VFloat (95 # 100)); ("net.type", VStr "lstm")]
                  [] [("net.type", VStr "lstm")]
                  [("gae_lambda", VFloat (95 # 100)); ("net.type", VStr "lstm")]
                  "gae_lambda" (VFloat (95 # 100)) _ gae_lambda_post
                  (KeyError (VStr "baseline_mode")) _ eq_refl eq_refl _ _ _).
    + vm_compute. reflexivity.
    + reflexivity.
    + reflexivity.
    + vm_compute. reflexivity.
Defined.

(** C3 as stated fails.  The post hook of [gae_lambda] raises when the
    record has no [baseline_mode], and [get_hypers] raises with it.  The
    hydrate hook of baseline_mode raises on [2], a key that its mapping
    does not have; the exception is caught, [main] is left without a
    [baseline] entry, and [get_hypers] raises where it reads it. *)
Lemma hook_errors_not_recovered :
  (gae_lambda_post (VFloat (95 # 100))
                   [("gae_lambda", VFloat (95 # 100)); ("net.type", VStr "conv2d")]
   = Err (KeyError (VStr "baseline_mode")) /\
   HSearchEnv.get_hypers (C := example_collaborators) example_conv2d
     [("gae_lambda", VFloat (95 # 100))]
   = Err (KeyError (VStr "baseline_mode")))
  /\
  (bind (HSearchEnv.flatten example_conv2d
           (Dict.set "baseline_mode" (VInt 2) example_actions))
        (fun flat => HSearchEnv.call_hydrate example_conv2d flat "baseline_mode" (VInt 2))
   = Err (KeyError (VInt 2)) /\
   HSearchEnv.get_hypers (C := example_collaborators) example_conv2d
     (Dict.set "baseline_mode" (VInt 2) example_actions)
   = Err (KeyError (VStr "baseline"))).
Proof. repeat split; vm_compute; reflexivity. Qed.

(** X19 at work: the dropout of the guesses, [0.001], is below the
    threshold of its hook and hydrates to [None]. *)
Lemma hydrated_trees_example :
  exists main custom,
    HSearchEnv.hydrate_phase (C := example_collaborators) example_conv2d example_stored
    = Ok (main, custom) /\
    DotDict.getitem custom "net.dropout" = Ok (Leaf VNone).
Proof.
  assert (Hflat : HSearchEnv.flatten example_conv2d example_actions = Ok example_stored)
    by reflexivity.
  destruct (flatten_shape example_conv2d example_actions example_stored Hflat)
    as [Hnd Hknown].
  destruct (HSearchEnv.hydrate_phase (C := example_collaborators) example_conv2d
              example_stored) as [[main custom]|e] eqn:E;
    [|vm_compute in E; discriminate].
  exists main, custom. split; [reflexivity|].
  exact (hydrated_trees_hold_each_key (C := example_collaborators)
           1 "conv2d" example_conv2d example_stored main custom
           (map (fun kv => (fst kv, Catalogue.fill_vals (snd kv)))
                (Catalogue.ppo_agent (C := example_collaborators))) "net.dropout"
           (VFloat (1 # 1000))
           (or_intror eq_refl) example_conv2d_init Hnd Hknown E eq_refl
           ltac:(vm_compute; repeat (first [left; reflexivity | right]))
           ltac:(discriminate)).
Defined.

(** X20 at work: baseline_mode is on in the guesses, and [main] says
    [states]. *)
Lemma baseline_block_example :
  exists main custom,
    HSearchEnv.hydrate_phase (C := example_collaborators) example_conv2d example_stored
    = Ok (main, custom) /\
    DotDict.getitem main "baseline_mode" = Ok (Leaf (VStr "states")).
Proof.
  assert (Hflat : HSearchEnv.flatten example_conv2d example_actions = Ok example_stored)
    by reflexivity.
  destruct (flatten_shape example_conv2d example_actions example_stored Hflat)
    as [Hnd Hknown].
  destruct (HSearchEnv.hydrate_phase (C := example_collaborators) example_conv2d
              example_stored) as [[main custom]|e] eqn:E;
    [|vm_compute in E; discriminate].
  exists main, custom. split; [reflexivity|].
  apply (baseline_block_reaches_main (C := example_collaborators)
           1 "conv2d" example_conv2d example_stored main custom (VBool true)
           (match hydrate_baseline (C := example_collaborators) (VBool true) example_stored
            with Ok (Node d) => d | _ => [] end)
           "baseline_mode" (Leaf (VStr "states"))
           (or_intror eq_refl) example_conv2d_init Hnd Hknown E).
  - vm_compute. repeat (first [left; reflexivity | right]).
  - reflexivity.
  - reflexivity.
Defined.

(** ** DotDict over shared dicts *)

Section DotStoreFacts.
Import DotStore.

Lemma length_write (h : heap) : forall l d, length (write h l d) = length h.
Proof.
  induction h as [|x h IH]; intros l d; [now destruct l|].
  destruct l; cbn [write length]; auto.
Qed.

Lemma nth_error_write_same (h : heap) :
  forall l d, (l < length h)%nat -> nth_error (write h l d) l = Some d.
Proof.
  induction h as [|x h IH]; intros l d Hl; cbn [length] in Hl; [lia|].
  destruct l; cbn [write nth_error]; auto. apply IH. lia.
Qed.

Lemma nth_error_write_other (h : heap) :
  forall l l' d, l <> l' -> nth_error (write h l d) l' = nth_error h l'.
Proof.
  induction h as [|x h IH]; intros l l' d Hne; [now destruct l|].
  destruct l, l'; cbn [write nth_error]; auto; congruence.
Qed.

Lemma in_write (h : heap) :
  forall l d x, In x (write h l d) -> x = d \/ In x h.
Proof.
  induction h as [|y h IH]; intros l d x; [now destruct l|].
  destruct l; cbn [write In].
  - intros [<-|H]; auto.
  - intros [<-|H]; auto. destruct (IH _ _ _ H); auto.
Qed.

Lemma in_set {V} (k : string) (v : V) (d : Dict.t V) :
  forall kv, In kv (Dict.set k v d) -> kv = (k, v) \/ In kv d.
Proof.
  induction d as [|[k0 v0] d IH]; intros kv; cbn [Dict.set In].
  - intros [<-|[]]. now left.
  - destruct (String.eqb k k0) eqn:E; cbn [In].
    + apply String.eqb_eq in E. subst k0. intros [<-|H]; auto.
    + intros [<-|H]; auto. destruct (IH _ H); auto.
Qed.

Lemma valid_longer (h h' : heap) (v : value) :
  (length h <= length h')%nat -> valid h v = true -> valid h' v = true.
Proof.
  destruct v as [s|l]; cbn [valid]; auto.
  rewrite !Nat.ltb_lt. lia.
Qed.

Lemma closed_get (h : heap) (l : nat) (d : Dict.t value) (k : string) (v : value) :
  closed h = true -> nth_error h l = Some d -> Dict.get k d = Some v ->
  valid h v = true.
Proof.
  unfold closed. intros Hc Hl Hk.
  rewrite forallb_forall in Hc. specialize (Hc _ (nth_error_In _ _ Hl)).
  rewrite forallb_forall in Hc. now apply (Hc _ (get_some_in _ _ _ Hk)).
Qed.

(** The store after [v[k] = {}] is closed again *)
Lemma closed_extend (h : heap) (l : nat) (d : Dict.t value) (k : string) :
  closed h = true -> nth_error h l = Some d ->
  closed (write h l (Dict.set k (Ref (length h)) d) ++ [[]]) = true.
Proof.
  intros Hc Hl. unfold closed in *.
  set (h1 := write h l (Dict.set k (Ref (length h)) d) ++ [[]]).
  assert (Hlen : length h1 = S (length h)).
  { unfold h1. rewrite length_app, length_write. cbn. lia. }
  rewrite forallb_forall in Hc |- *. intros x Hx.
  apply forallb_forall. intros kv Hkv.
  unfold h1 in Hx. apply in_app_or in Hx. destruct Hx as [Hx|[<-|[]]]; [|destruct Hkv].
  apply in_write in Hx.
  assert (Hold : forall y, In y h -> In kv y -> valid h1 (snd kv) = true).
  { intros y Hy Hin. specialize (Hc _ Hy). rewrite forallb_forall in Hc.
    apply (valid_longer h h1); [lia|]. now apply Hc. }
  destruct Hx as [->|Hx]; [|now apply (Hold x)].
  apply in_set in Hkv. destruct Hkv as [->|Hkv].
  - cbn [snd valid]. apply Nat.ltb_lt. lia.
  - apply (Hold d); auto. now apply (nth_error_In _ _ Hl).
Qed.

(** A get that does not look up the entry in which two stores differ
    returns the same from both *)
Lemma read_frame (h h' : heap) (cell : nat * string) :
  closed h = true -> agree_except h h' cell ->
  forall q v, valid h v = true -> ~ In cell (cells_read h v q) ->
              getitem_path h' v q = getitem_path h v q.
Proof.
  intros Hc Hag. induction q as [|k rest IH]; intros v Hv Hni; [reflexivity|].
  cbn [getitem_path cells_read] in *. destruct v as [s|l]; [reflexivity|].
  cbn [valid] in Hv. apply Nat.ltb_lt in Hv.
  destruct (nth_error h l) as [d|] eqn:Hl; [|apply nth_error_None in Hl; lia].
  destruct (Hag l d Hl) as (d' & -> & Hsame).
  rewrite Hsame by (intros E; apply Hni; left; now symmetry).
  destruct (Dict.get k d) as [c|] eqn:Hk; [|reflexivity].
  apply IH; [now apply (closed_get h l d k)|].
  intros Hin. apply Hni. now right.
Qed.

Lemma agree_write (h : heap) (l : nat) (d : Dict.t value) (k : string) (x : value) :
  nth_error h l = Some d ->
  agree_except h (write h l (Dict.set k x d)) (l, k).
Proof.
  intros Hl l0 d0 Hl0. destruct (Nat.eq_dec l l0) as [<-|Hne].
  - rewrite nth_error_write_same by (apply nth_error_Some; congruence).
    eexists. split; [reflexivity|]. intros k0 Hk0.
    assert (d0 = d) by congruence. subst d0.
    apply get_set_other. congruence.
  - rewrite nth_error_write_other by assumption. eauto.
Qed.

(** What a set changes in the dicts that were there *)
Lemma set_agree (val : value) (p : list string) :
  p <> [] ->
  forall h v h',
    closed h = true -> valid h v = true ->
    setitem_path h v p val = Ok h' ->
    exists cell, written_cell h v p = Some cell /\ agree_except h h' cell.
Proof.
  induction p as [|k rest IH]; intros Hne h v h' Hc Hv; [contradiction|].
  cbn [setitem_path written_cell]. destruct v as [s|l]; [discriminate|].
  destruct (nth_error h l) as [d|] eqn:Hl; [|discriminate].
  destruct rest as [|k2 r2].
  - intros [= <-]. exists (l, k). split; [reflexivity|]. now apply agree_write.
  - destruct (Dict.get k d) as [c|] eqn:Hk.
    + apply IH; [discriminate|assumption|now apply (closed_get h l d k)].
    + intros Hs. exists (l, k). split; [reflexivity|].
      set (h1 := write h l (Dict.set k (Ref (length h)) d) ++ [[]]) in *.
      assert (Hlen : length h1 = S (length h)).
      { unfold h1. rewrite length_app, length_write. cbn. lia. }
      destruct (IH ltac:(discriminate) h1 (Ref (length h)) h'
                   (closed_extend h l d k Hc Hl)
                   ltac:(cbn [valid]; apply Nat.ltb_lt; lia) Hs)
        as (cell1 & Hcell1 & Hag1).
      assert (Hnew : nth_error h1 (length h) = Some []).
      { unfold h1. rewrite nth_error_app2 by (rewrite length_write; lia).
        rewrite length_write, Nat.sub_diag. reflexivity. }
      assert (Ecell : cell1 = (length h, k2)).
      { cbn [written_cell] in Hcell1. rewrite Hnew in Hcell1.
        destruct r2; cbn [Dict.get] in Hcell1; congruence. }
      subst cell1.
      intros l0 d0 Hl0.
      assert (Hlt : (l0 < length h)%nat) by (apply nth_error_Some; congruence).
      destruct (agree_write h l d k (Ref (length h)) Hl l0 d0 Hl0) as (d1 & Hd1 & Hsame1).
      assert (Hd1' : nth_error h1 l0 = Some d1).
      { unfold h1. rewrite nth_error_app1 by (rewrite length_write; lia). exact Hd1. }
      destruct (Hag1 l0 d1 Hd1') as (d' & Hd' & Hsame').
      exists d'. split; [assumption|]. intros k0 Hk0.
      rewrite Hsame' by (intros E; injection E as E _; lia).
      now apply Hsame1.
Qed.

(** X21.  A successful [d[p] = val] writes one entry of the dicts that
    were there (the other writes go to dicts it has just made), and every
    get that does not look that entry up returns what it returned before,
    from whichever dict of the store it starts.  A dict stored under two
    keys is reached by both, so that a path that parts ways with [p] can
    read the entry.  When no dict is shared it cannot: a path that parts
    ways with [p] (the two differ at a segment that both have) reads as
    before. *)
Theorem setitem_leaves_diverging_paths :
  (forall (h h' : heap) (root : nat) (p : string) (val : value),
      closed h = true -> (root < length h)%nat ->
      setitem h root p val = Ok h' ->
      exists cell,
        written_cell h (Ref root) (split_on "." p) = Some cell /\
        forall (start : nat) (q : string),
          (start < length h)%nat ->
          ~ In cell (cells_read h (Ref start) (split_on "." q)) ->
          getitem h' start q = getitem h start q)
  /\
  (forall (data data' val : tree) (p q : string),
      apart p q = true ->
      DotDict.setitem data p val = Ok data' ->
      DotDict.getitem data' q = DotDict.getitem data q).
Proof.
  split.
  - intros h h' root p val Hc Hroot Hs.
    assert (Hv : valid h (Ref root) = true) by (now apply Nat.ltb_lt).
    destruct (set_agree val (split_on "." p) (split_on_nonempty "." p) h (Ref root) h'
                        Hc Hv Hs) as (cell & Hcell & Hag).
    exists cell. split; [assumption|].
    intros start q Hstart Hni. unfold getitem.
    apply (read_frame h h' cell Hc Hag); [now apply Nat.ltb_lt|assumption].
  - intros data data' val p q Hap H.
    unfold apart, DotDict.setitem, DotDict.getitem in *.
    now apply (setitem_path_frame (split_on "." p) (split_on "." q) data val data').
Qed.

End DotStoreFacts.

(** ** More on DotDict *)

Section DotDictMore.
Import DotDict.

(** X22.  [update] is the [update] of the underlying dict: it binds the
    keys of its argument at the top level and does not split them at
    dots.  A path whose first segment is a key of the argument then reads
    through the new value, whatever was stored before; any other path
    reads as before. *)
Theorem update_is_shallow (data data' : tree) (d : Dict.t tree) (q : string) :
  NoDup (Dict.keys d) ->
  update data d = Ok data' ->
  getitem data' q =
  match Dict.get (first_segment q) d with
  | Some x => getitem_path x (tl (split_on "." q))
  | None => getitem data q
  end.
Proof.
  intros Hnd. unfold update. destruct data as [|d0| |]; try discriminate.
  intros [= <-]. rewrite !getitem_first.
  destruct (Dict.get (first_segment q) d) as [x|] eqn:G.
  - now rewrite (get_update_nodup _ x d0 d Hnd G).
  - now rewrite get_update_other.
Qed.

End DotDictMore.

(** X21 at work: with one dict under [a] and [b], a set at [a.x] leaves
    [b.y] as it was, and changes what [b.x] reads; in a store without
    sharing, a set at [net.depth] leaves [net.width]. *)
Lemma setitem_frame_example :
  (exists h',
      DotStore.setitem DotStore.example_shared 0%nat "a.x" (DotStore.Atom (VInt 2)) = Ok h' /\
      DotStore.getitem h' 0%nat "b.y" = DotStore.getitem DotStore.example_shared 0%nat "b.y" /\
      DotStore.getitem DotStore.example_shared 0%nat "b.x" = Ok (DotStore.Atom (VInt 1)) /\
      DotStore.getitem h' 0%nat "b.x" = Ok (DotStore.Atom (VInt 2)))
  /\
  (exists data',
      DotDict.setitem (Node [("net", Node [("width", Leaf (VInt 64))])]) "net.depth"
                      (Leaf (VInt 2)) = Ok data' /\
      DotDict.getitem data' "net.width" = Ok (Leaf (VInt 64))).
Proof.
  split.
  - destruct (DotStore.setitem DotStore.example_shared 0%nat "a.x" (DotStore.Atom (VInt 2)))
      as [h'|e] eqn:E; [|vm_compute in E; discriminate].
    exists h'. split; [reflexivity|].
    destruct (proj1 setitem_leaves_diverging_paths DotStore.example_shared h' 0%nat "a.x"
                    (DotStore.Atom (VInt 2)) eq_refl (Nat.lt_0_succ 1%nat) E)
      as (cell & Hcell & Hframe).
    vm_compute in Hcell. injection Hcell as <-.
    split.
    + apply Hframe; [apply Nat.lt_0_succ|].
      vm_compute. intros [H|[H|[]]]; discriminate H.
    + vm_compute in E. injection E as <-. split; reflexivity.
  - destruct (DotDict.setitem (Node [("net", Node [("width", Leaf (VInt 64))])]) "net.depth"
                              (Leaf (VInt 2))) as [data'|e] eqn:E;
      [|vm_compute in E; discriminate].
    exists data'. split; [reflexivity|].
    rewrite (proj2 setitem_leaves_diverging_paths _ data' (Leaf (VInt 2))
                   "net.depth" "net.width" eq_refl E).
    reflexivity.
Defined.

(** X22 at work: a dotted key written by [update]. *)
Lemma update_shallow_example :
  DotDict.getitem (Node [("a.b", Leaf (VInt 1))]) "a.b" = Ok (Leaf VNone).
Proof.
  rewrite (update_is_shallow (Node []) (Node [("a.b", Leaf (VInt 1))])
             [("a.b", Leaf (VInt 1))] "a.b").
  - reflexivity.
  - apply distinct_nodup. reflexivity.
  - reflexivity.
Defined.

(** ** bins_of_8 *)

(** X23.  On a bool, an int or a finite float, [bins_of_8] returns an
    integer multiple of [8], the greatest one that is not above its
    argument.  Told in binary64: on a finite float it returns that
    multiple, and on an infinity or a NaN it raises [ValueError]. *)
Theorem bins_of_8_is_multiple_below :
  (forall (x : scalar) (a : Q),
      Py.number x = Some a ->
      exists z, bins_of_8 x = Ok (VInt z) /\
                (z mod 8 = 0)%Z /\ inject_Z z <= a /\ a < inject_Z z + 8)
  /\
  (forall x : Binary64.t,
      match x with
      | Binary64.Finite k =>
          exists z, bins_of_8_float x = Ok z /\
                    (z mod 8 = 0)%Z /\
                    (Binary64.of_Z z <= k < Binary64.of_Z (z + 8))%Z
      | _ => bins_of_8_float x = Err ValueError
      end).
Proof.
  split.
  - intros x a.
    assert (Hint : forall n : Z,
               ((n / 8 * 8) mod 8 = 0)%Z /\
               inject_Z (n / 8 * 8) <= inject_Z n /\
               inject_Z n < inject_Z (n / 8 * 8) + 8).
    { intros n. split; [apply Z.mod_mul; lia|].
      pose proof (Z.mul_div_le n 8 ltac:(lia)) as H1.
      pose proof (Z.mul_succ_div_gt n 8 ltac:(lia)) as H2.
      split.
      - rewrite <- Zle_Qle. lia.
      - apply Qlt_le_trans with (y := inject_Z (n / 8 * 8 + 8)).
        + rewrite <- Zlt_Qlt. lia.
        + rewrite inject_Z_plus. apply Qle_refl. }
    destruct x as [|b|n|q|s]; cbn [Py.number bins_of_8]; try discriminate; intros [= <-].
    + exists (Z.b2z b / 8 * 8)%Z. split; [reflexivity|]. apply Hint.
    + exists (n / 8 * 8)%Z. split; [reflexivity|]. apply Hint.
    + exists (Qfloor (q / 8) * 8)%Z. split; [reflexivity|].
      split; [apply Z.mod_mul; lia|].
      pose proof (Qfloor_le (q / 8)) as H1.
      pose proof (Qlt_floor (q / 8)) as H2.
      rewrite inject_Z_mult. change (inject_Z 8) with 8.
      rewrite inject_Z_plus in H2. change (inject_Z 1) with 1 in H2.
      assert (Hq : q == q / 8 * 8) by (field).
      split.
      * rewrite Hq at 2. apply Qmult_le_compat_r; [assumption|discriminate].
      * rewrite Hq at 1.
        apply Qlt_le_trans with (y := (inject_Z (Qfloor (q / 8)) + 1) * 8).
        -- apply Qmult_lt_compat_r; [reflexivity|assumption].
        -- rewrite Qmult_plus_distr_l. apply Qle_refl.
  - intros [k|s|]; cbn [bins_of_8_float]; try reflexivity.
    exists (k / 2 ^ 1077 * 8)%Z. split; [reflexivity|].
    split; [apply Z.mod_mul; lia|].
    unfold Binary64.of_Z, Binary64.one.
    assert (HP : (0 < 2 ^ 1077)%Z) by (apply Z.pow_pos_nonneg; lia).
    assert (E : (2 ^ 1077 = 8 * 2 ^ 1074)%Z)
      by (change 8%Z with (2 ^ 3)%Z; rewrite <- Z.pow_add_r by lia; reflexivity).
    pose proof (Z.mul_div_le k _ HP) as H1.
    pose proof (Z.mul_succ_div_gt k _ HP) as H2.
    set (q := (k / 2 ^ 1077)%Z) in *. rewrite E in H1, H2.
    set (P := (2 ^ 1074)%Z) in *. lia.
Qed.

(** X23 at work: [21] and the float [21.5], and an infinity. *)
Lemma bins_of_8_example :
  (exists z, bins_of_8 (VInt 21) = Ok (VInt z) /\
             (z mod 8 = 0)%Z /\ inject_Z z <= 21 /\ 21 < inject_Z z + 8) /\
  bins_of_8_float (Binary64.Finite (43 * 2 ^ 1073)) = Ok 16%Z /\
  bins_of_8_float (Binary64.Infinite false) = Err ValueError.
Proof.
  split; [apply (proj1 bins_of_8_is_multiple_below (VInt 21) 21); reflexivity|].
  split; [|exact (proj2 bins_of_8_is_multiple_below (Binary64.Infinite false))].
  destruct (proj2 bins_of_8_is_multiple_below (Binary64.Finite (43 * 2 ^ 1073)))
    as (z & Hz & _).
  rewrite Hz. vm_compute in Hz. symmetry. exact Hz.
Defined.

(** ** The guess turns of main_gp *)

Section GuessFacts.
Import GuessLoop MainGP.

Lemma guess_rows (g : Z) :
  (-9 <= g < 9)%Z ->
  exists o0 o1 o2, py_index guess_overrides g = Ok [o0; o1; o2].
Proof.
  intros Hg.
  assert (H : g = (-9)%Z \/ g = (-8)%Z \/ g = (-7)%Z \/ g = (-6)%Z \/ g = (-5)%Z \/
              g = (-4)%Z \/ g = (-3)%Z \/ g = (-2)%Z \/ g = (-1)%Z \/ g = 0%Z \/
              g = 1%Z \/ g = 2%Z \/ g = 3%Z \/ g = 4%Z \/ g = 5%Z \/ g = 6%Z \/
              g = 7%Z \/ g = 8%Z) by lia.
  repeat (destruct H as [->|H]; [do 3 eexists; reflexivity|]).
  subst. do 3 eexists. reflexivity.
Qed.

Lemma guess_turn_row (c : codec) (guess : flat_record) (g : Z)
      (row : list flat_record) (ov : flat_record) (i : Z) :
  guess_of (c_hypers c) = Ok guess ->
  py_index guess_overrides g = Ok row ->
  py_index row i = Ok ov ->
  guess_turn c g i
  = Ok (encode c (Dict.update guess ov),
        (if (Z.of_nat (length row) - 1 <? i + 1)%Z then (-1)%Z else g, (i + 1)%Z)).
Proof.
  intros Hguess Hrow Hov. unfold guess_turn.
  rewrite Hguess, Hrow. cbn [bind]. rewrite Hov. reflexivity.
Qed.

(** X24.  Started with [--guess g], for [g] from [0] to [8] (or, counted
    from the end of the table, from [-9] to [-2]), the loop takes exactly
    three guess turns: each evaluates the guesses of [hypers_] updated
    with one override of row [g], and the third sets [args.guess] to
    [-1], after which the search proper starts.  For any [g] outside
    [-9 .. 8] the first turn raises [IndexError]. *)
Theorem guess_phase_takes_three_turns (c : codec) (guess : flat_record) (g : Z) :
  guess_of (c_hypers c) = Ok guess ->
  ((-9 <= g < 9)%Z -> g <> (-1)%Z ->
   exists o0 o1 o2,
     py_index guess_overrides g = Ok [o0; o1; o2] /\
     forall fuel, (3 <= fuel)%nat ->
       guess_phase c fuel g 0
       = Ok ([encode c (Dict.update guess o0);
              encode c (Dict.update guess o1);
              encode c (Dict.update guess o2)], true)) /\
  ((g < -9)%Z \/ (9 <= g)%Z -> guess_turn c g 0 = Err IndexError).
Proof.
  intros Hguess. split.
  - intros Hg Hne. destruct (guess_rows g Hg) as (o0 & o1 & o2 & Hrow).
    exists o0, o1, o2. split; auto.
    assert (Hg1 : (g =? -1)%Z = false) by now apply Z.eqb_neq.
    intros [|[|[|fuel]]] Hfuel; try lia.
    cbn [guess_phase]. rewrite Hg1.
    rewrite (guess_turn_row c guess g [o0; o1; o2] o0 0 Hguess Hrow eq_refl).
    cbn [bind length]. change (Z.of_nat 3 - 1 <? 0 + 1)%Z with false. cbn iota.
    cbn [guess_phase]. rewrite Hg1.
    rewrite (guess_turn_row c guess g [o0; o1; o2] o1 (0 + 1) Hguess Hrow eq_refl).
    cbn [bind length]. change (Z.of_nat 3 - 1 <? 0 + 1 + 1)%Z with false. cbn iota.
    cbn [guess_phase]. rewrite Hg1.
    rewrite (guess_turn_row c guess g [o0; o1; o2] o2 (0 + 1 + 1) Hguess Hrow eq_refl).
    cbn [bind length]. change (Z.of_nat 3 - 1 <? 0 + 1 + 1 + 1)%Z with true. cbn iota.
    destruct fuel; reflexivity.
  - intros Hg. unfold guess_turn. rewrite Hguess. cbn [bind].
    unfold py_index. cbn [length guess_overrides].
    change (Z.of_nat 9) with 9%Z.
    destruct (g <? 0)%Z eqn:E0.
    + apply Z.ltb_lt in E0.
      replace ((0 <=? 9 + g)%Z) with false by (symmetry; apply Z.leb_gt; lia).
      reflexivity.
    + apply Z.ltb_ge in E0.
      replace ((g <? 9)%Z) with false by (symmetry; apply Z.ltb_ge; lia).
      now rewrite andb_false_r.
Qed.

End GuessFacts.

(** X24 at work: [--guess 2] on the conv2d codec. *)
Lemma guess_phase_example :
  exists guess o0 o1 o2,
    GuessLoop.guess_of (MainGP.c_hypers example_codec) = Ok guess /\
    GuessLoop.py_index GuessLoop.guess_overrides 2 = Ok [o0; o1; o2] /\
    GuessLoop.guess_phase example_codec 5 2 0
    = Ok ([MainGP.encode example_codec (Dict.update guess o0);
           MainGP.encode example_codec (Dict.update guess o1);
           MainGP.encode example_codec (Dict.update guess o2)], true).
Proof.
  destruct (GuessLoop.guess_of (MainGP.c_hypers example_codec)) as [guess|e] eqn:E;
    [|vm_compute in E; discriminate].
  destruct (proj1 (guess_phase_takes_three_turns example_codec guess 2 E))
    as (o0 & o1 & o2 & Hrow & Hrun); [lia|discriminate|].
  exists guess, o0, o1, o2. split; [reflexivity|]. split; [exact Hrow|].
  apply Hrun. lia.
Defined.

(** ** build_net_spec *)

Section NetSpecFacts.
Import NetSpecBuilder.
Variable n_cols : tree -> tree -> result unit.

Lemma dense_turn_kinds (net : Dict.t tree) (activation l2 l1 rate : tree)
      (divisor : Z) (ls : list layer) :
  dense_turn net activation l2 l1 rate divisor = Ok ls ->
  forallb is_dense_or_dropout ls = true.
Proof.
  unfold dense_turn.
  destruct (funnel_size net divisor); cbn [bind]; [|discriminate].
  destruct (attr net "dropout") as [d|]; cbn [bind]; [|discriminate].
  intros [= <-]. now destruct (truthy d).
Qed.

Lemma dense_loop_kinds (net : Dict.t tree) (activation l2 l1 rate : tree)
      (divisor : nat -> Z) (n : nat) (ls : list layer) :
  dense_loop net activation l2 l1 rate divisor n = Ok ls ->
  forallb is_dense_or_dropout ls = true.
Proof.
  unfold dense_loop.
  apply (for_each_invariant _ (fun arr => forallb is_dense_or_dropout arr = true));
    [|reflexivity].
  intros arr i arr' _ Harr.
  destruct (dense_turn net activation l2 l1 rate (divisor i)) as [t|] eqn:E;
    cbn [bind]; [|discriminate].
  intros [= <-]. rewrite forallb_app, Harr. now apply dense_turn_kinds in E.
Qed.

Lemma mid_loop_lstm (net : Dict.t tree) (l2 l1 rate : tree) (so : option tree) (n : nat) :
  forall ls, mid_loop net true l2 l1 rate so n = Ok ls ->
             length ls = n /\ forallb is_lstm_layer ls = true.
Proof.
  induction n as [|n IH]; intros ls; cbn [mid_loop].
  - intros [= <-]. auto.
  - destruct (attr net "width"); cbn [bind]; [|discriminate].
    destruct (mid_loop net true l2 l1 rate so n) as [rest|]; cbn [bind]; [|discriminate].
    intros [= <-]. destruct (IH rest eq_refl) as [Hl Hk].
    cbn [length forallb is_lstm_layer andb]. split; [now rewrite Hl|assumption].
Qed.

Lemma conv_turn_within (net : Dict.t tree) (l2 l1 : tree) (so : option tree)
      (so' : tree) (l : layer) :
  conv_turn net l2 l1 so = Ok (so', l) ->
  so <> None /\ conv_within l = true /\ is_dense_or_dropout l = false
  /\ is_lstm_layer l = false.
Proof.
  unfold conv_turn. destruct so as [t|]; cbn [bind]; [|discriminate].
  repeat match goal with
         | |- bind ?X _ = _ -> _ => destruct X; cbn [bind]; [|discriminate]
         end.
  intros [= _ <-]. split; [discriminate|]. cbn [conv_within is_dense_or_dropout is_lstm_layer].
  repeat split.
  rewrite !andb_true_iff, !Z.leb_le. repeat split; lia.
Qed.

Lemma mid_loop_conv (net : Dict.t tree) (l2 l1 rate : tree) (n : nat) :
  forall so ls, mid_loop net false l2 l1 rate so n = Ok ls ->
                length ls = n /\ forallb conv_within ls = true /\
                forallb (fun l => negb (is_lstm_layer l)) ls = true /\
                (n <> 0%nat -> so <> None).
Proof.
  induction n as [|n IH]; intros so ls; cbn [mid_loop].
  - intros [= <-]. repeat split; auto.
  - destruct (conv_turn net l2 l1 so) as [[so1 l]|] eqn:E; cbn [bind]; [|discriminate].
    destruct (mid_loop net false l2 l1 rate (Some so1) n) as [rest|] eqn:Er;
      cbn [bind]; [|discriminate].
    intros [= <-]. destruct (IH _ _ Er) as (Hl & Hw & Hk & _).
    destruct (conv_turn_within _ _ _ _ _ _ E) as (Hso & Hwl & _ & Hnl).
    cbn [length forallb]. rewrite Hl, Hwl, Hw, Hnl, Hk. auto.
Qed.

Lemma is_str_exclusive (t : tree) :
  is_str t "lstm" = true -> is_str t "conv2d" = false.
Proof.
  destruct t as [[| | | |s]| | |]; cbn; try discriminate.
  intros H. apply String.eqb_eq in H. now subst.
Qed.

Lemma filter_all {A} (f : A -> bool) (l : list A) :
  forallb f l = true -> filter f l = l.
Proof.
  induction l as [|a l IH]; cbn; auto.
  intros H. apply andb_true_iff in H. destruct H as [Ha Hl].
  now rewrite Ha, IH.
Qed.

Lemma filter_none {A} (f : A -> bool) (l : list A) :
  forallb (fun a => negb (f a)) l = true -> filter f l = [].
Proof.
  induction l as [|a l IH]; cbn; auto.
  intros H. apply andb_true_iff in H. destruct H as [Ha Hl].
  apply negb_true_iff in Ha. now rewrite Ha, IH.
Qed.

Lemma dense_not_lstm (ls : list layer) :
  forallb is_dense_or_dropout ls = true ->
  forallb (fun l => negb (is_lstm_layer l)) ls = true.
Proof.
  rewrite !forallb_forall. intros H l Hl. specialize (H l Hl). now destruct l.
Qed.

Lemma mid_loop_conv_layers (net : Dict.t tree) (l2 l1 rate : tree) (n : nat) :
  forall so ls, mid_loop net false l2 l1 rate so n = Ok ls ->
                forallb is_conv_layer ls = true.
Proof.
  induction n as [|n IH]; intros so ls; cbn [mid_loop].
  - now intros [= <-].
  - destruct (conv_turn net l2 l1 so) as [[so1 l]|] eqn:E; cbn [bind]; [|discriminate].
    destruct (mid_loop net false l2 l1 rate (Some so1) n) as [rest|] eqn:Er;
      cbn [bind]; [|discriminate].
    intros [= <-]. cbn [forallb]. rewrite (IH _ _ Er), andb_true_r.
    revert E. unfold conv_turn. destruct so as [t|]; cbn [bind]; [|discriminate].
    repeat match goal with
           | |- bind ?X _ = _ -> _ => destruct X; cbn [bind]; [|discriminate]
           end.
    now intros [= _ <-].
Qed.

(** What a dense loop appends: per turn a dense layer of the turn's size,
    and the dropout layer when [net.dropout] is truthy *)
Lemma dense_loop_shape (net : Dict.t tree) (activation l2 l1 rate dropout : tree)
      (divisor : nat -> Z) (n : nat) (ls : list layer) :
  attr net "dropout" = Ok dropout ->
  dense_loop net activation l2 l1 rate divisor n = Ok ls ->
  exists sizes,
    Forall2 (fun i size => funnel_size net (divisor i) = Ok size) (seq 0 n) sizes /\
    ls = flat_map (fun size => Dense size activation l2 l1
                               :: (if truthy dropout then [Dropout rate] else [])) sizes.
Proof.
  intros Hd. unfold dense_loop.
  enough (forall l acc ls,
             for_each (fun arr i =>
                         bind (dense_turn net activation l2 l1 rate (divisor i))
                              (fun t => Ok (arr ++ t))) acc l = Ok ls ->
             exists sizes,
               Forall2 (fun i size => funnel_size net (divisor i) = Ok size) l sizes /\
               ls = acc ++ flat_map (fun size => Dense size activation l2 l1
                                        :: (if truthy dropout then [Dropout rate] else []))
                                    sizes) as H.
  { intros Hl. destruct (H _ _ _ Hl) as (sizes & Hs & ->). now exists sizes. }
  clear ls. induction l as [|i l IH]; intros acc ls; cbn [for_each].
  - intros [= <-]. exists []. split; [constructor|]. cbn. now rewrite app_nil_r.
  - unfold dense_turn at 1. rewrite Hd.
    destruct (funnel_size net (divisor i)) as [size|] eqn:E; cbn [bind]; [|discriminate].
    intros Hl. destruct (IH _ _ Hl) as (sizes & Hs & ->).
    exists (size :: sizes). split; [now constructor|].
    cbn [flat_map]. now rewrite <- app_assoc.
Qed.

Lemma dense_sizes_app (a b : list layer) :
  dense_sizes (a ++ b) = dense_sizes a ++ dense_sizes b.
Proof. unfold dense_sizes. apply flat_map_app. Qed.

Lemma dense_sizes_none (ls : list layer) :
  forallb (fun l => negb (is_dense_or_dropout l)) ls = true -> dense_sizes ls = [].
Proof.
  unfold dense_sizes. induction ls as [|l ls IH]; cbn [forallb flat_map]; auto.
  intros H. apply andb_true_iff in H. destruct H as [Hl Hr].
  rewrite (IH Hr). now destruct l.
Qed.

Lemma dense_sizes_shape (activation l2 l1 rate dropout : tree) (sizes : list tree) :
  dense_sizes (flat_map (fun size => Dense size activation l2 l1
                                     :: (if truthy dropout then [Dropout rate] else []))
                        sizes) = sizes.
Proof.
  unfold dense_sizes. induction sizes as [|s sizes IH]; cbn [flat_map]; auto.
  rewrite flat_map_app, IH. now destruct (truthy dropout).
Qed.

Lemma funnel_size_on (net : Dict.t tree) (funnel width size : tree) (w : Q) (d : Z) :
  attr net "funnel" = Ok funnel -> truthy funnel = true ->
  attr net "width" = Ok width -> num width = Ok w ->
  funnel_size net d = Ok size ->
  size = Leaf (VInt (Py.truncate (w / inject_Z d))).
Proof.
  intros Hf Ht Hw Hn. unfold funnel_size. rewrite Hf. cbn [bind]. rewrite Ht, Hw.
  cbn [bind]. rewrite Hn. cbn [bind]. unfold true_div.
  destruct (Qeq_bool (inject_Z d) 0); cbn [bind]; [discriminate|]. now intros [= <-].
Qed.

Lemma funnel_sizes_map (net : Dict.t tree) (funnel width : tree) (w : Q)
      (divisor : nat -> Z) (l : list nat) (sizes : list tree) :
  attr net "funnel" = Ok funnel -> truthy funnel = true ->
  attr net "width" = Ok width -> num width = Ok w ->
  Forall2 (fun i size => funnel_size net (divisor i) = Ok size) l sizes ->
  sizes = map (fun d => Leaf (VInt (Py.truncate (w / inject_Z d)))) (map divisor l).
Proof.
  intros Hf Ht Hw Hn. induction 1 as [|i size l sizes H _ IH]; cbn; auto.
  now rewrite (funnel_size_on _ _ _ _ _ _ Hf Ht Hw Hn H), IH.
Qed.

(** The three blocks of a returned list *)
Lemma build_blocks (hypers : tree) (net : Dict.t tree) (baseline : bool)
      (layers : list layer) :
  tree_item "net" hypers = Ok (Node net) ->
  build_net_spec n_cols hypers baseline = Ok layers ->
  exists indicators arbitrage activation l2 l1 rate pre mid post,
    tree_item "indicators" hypers = Ok indicators /\
    tree_item "arbitrage" hypers = Ok arbitrage /\
    attr net "activation" = Ok activation /\
    attr net "l2" = Ok l2 /\ attr net "l1" = Ok l1 /\ attr net "dropout" = Ok rate /\
    pre_block net activation l2 l1 rate = Ok pre /\
    mid_block n_cols hypers net indicators arbitrage l2 l1 rate baseline = Ok mid /\
    post_block net activation l2 l1 rate = Ok post /\
    layers = pre ++ mid ++ post.
Proof.
  intros Hnet. unfold build_net_spec. rewrite Hnet. cbn [bind].
  destruct (tree_item "indicators" hypers) as [ind|]; cbn [bind]; [|discriminate].
  destruct (tree_item "arbitrage" hypers) as [arb|]; cbn [bind]; [|discriminate].
  destruct (attr net "activation") as [activation|]; cbn [bind]; [|discriminate].
  destruct (attr net "l2") as [l2|]; cbn [bind]; [|discriminate].
  destruct (attr net "l1") as [l1|]; cbn [bind]; [|discriminate].
  destruct (attr net "dropout") as [rate|]; cbn [bind]; [|discriminate].
  destruct (pre_block net activation l2 l1 rate) as [pre|] eqn:Hpre;
    cbn [bind]; [|discriminate].
  destruct (mid_block n_cols hypers net ind arb l2 l1 rate baseline) as [mid|] eqn:Hmid;
    cbn [bind]; [|discriminate].
  destruct (post_block net activation l2 l1 rate) as [post|] eqn:Hpost;
    cbn [bind]; [|discriminate].
  intros [= <-]. exists ind, arb, activation, l2, l1, rate, pre, mid, post.
  repeat split; auto.
Qed.

Lemma pre_block_shape (net : Dict.t tree) (activation l2 l1 rate : tree)
      (pre : list layer) :
  pre_block net activation l2 l1 rate = Ok pre ->
  exists n_pre,
    match Dict.get "depth_pre" net with
    | Some depth_pre => range_of depth_pre = Ok n_pre
    | None => n_pre = 0%nat
    end /\
    dense_loop net activation l2 l1 rate
               (fun i => (Z.of_nat n_pre - Z.of_nat i + 1)%Z) n_pre = Ok pre.
Proof.
  unfold pre_block, Dict.mem, attr, Dict.item.
  destruct (Dict.get "depth_pre" net) as [dp|]; cbn [bind].
  - destruct (range_of dp) as [n|]; cbn [bind]; [|discriminate].
    intros H. now exists n.
  - intros [= <-]. now exists 0%nat.
Qed.

Lemma post_block_shape (net : Dict.t tree) (activation l2 l1 rate : tree)
      (post : list layer) :
  post_block net activation l2 l1 rate = Ok post ->
  exists depth_post n_post,
    attr net "depth_post" = Ok depth_post /\ range_of depth_post = Ok n_post /\
    dense_loop net activation l2 l1 rate (fun i => (Z.of_nat i + 1)%Z) n_post = Ok post.
Proof.
  unfold post_block.
  destruct (attr net "depth_post") as [dp|]; cbn [bind]; [|discriminate].
  destruct (range_of dp) as [n|] eqn:E; cbn [bind]; [|discriminate].
  intros H. now exists dp, n.
Qed.

Lemma mid_block_shape (hypers : tree) (net : Dict.t tree) (ind arb l2 l1 rate ty : tree)
      (mid : list layer) :
  attr net "type" = Ok ty ->
  mid_block n_cols hypers net ind arb l2 l1 rate false = Ok mid ->
  exists so depth_mid n ls,
    attr net "depth_mid" = Ok depth_mid /\ range_of depth_mid = Ok n /\
    (is_str ty "conv2d" = false -> so = None) /\
    mid_loop net (is_str ty "lstm") l2 l1 rate so n = Ok ls /\
    mid = ls ++ (if is_str ty "conv2d" then [Flatten] else []).
Proof.
  intros Hty. unfold mid_block. rewrite Hty. cbn [bind]. rewrite andb_false_r.
  match goal with
  | |- bind ?M _ = _ -> _ => destruct M as [so|] eqn:Hso; cbn [bind]; [|discriminate]
  end.
  destruct (attr net "depth_mid") as [depth_mid|]; cbn [bind]; [|discriminate].
  destruct (range_of depth_mid) as [n|] eqn:Hn; cbn [bind]; [|discriminate].
  destruct (mid_loop net (is_str ty "lstm") l2 l1 rate so n) as [ls|] eqn:Hls;
    cbn [bind]; [|discriminate].
  intros [= <-]. exists so, depth_mid, n, ls. repeat split; auto.
  intros Hc. rewrite Hc in Hso. now injection Hso as <-.
Qed.

Lemma mid_block_baseline (hypers : tree) (net : Dict.t tree) (ind arb l2 l1 rate ty : tree)
      (b : bool) :
  attr net "type" = Ok ty ->
  mid_block n_cols hypers net ind arb l2 l1 rate b
  = if is_str ty "lstm" && b then Ok []
    else mid_block n_cols hypers net ind arb l2 l1 rate false.
Proof.
  intros Hty. unfold mid_block. rewrite Hty. cbn [bind]. rewrite andb_false_r.
  reflexivity.
Qed.

Lemma pre_block_kinds (net : Dict.t tree) (activation l2 l1 rate : tree)
      (pre : list layer) :
  pre_block net activation l2 l1 rate = Ok pre ->
  forallb is_dense_or_dropout pre = true.
Proof.
  intros H. apply pre_block_shape in H. destruct H as (n & _ & H).
  now apply dense_loop_kinds in H.
Qed.

Lemma post_block_kinds (net : Dict.t tree) (activation l2 l1 rate : tree)
      (post : list layer) :
  post_block net activation l2 l1 rate = Ok post ->
  forallb is_dense_or_dropout post = true.
Proof.
  intros H. apply post_block_shape in H. destruct H as (dp & n & _ & _ & H).
  now apply dense_loop_kinds in H.
Qed.

Lemma mid_loop_no_dense (net : Dict.t tree) (lstm : bool) (l2 l1 rate : tree) (n : nat) :
  forall so ls, mid_loop net lstm l2 l1 rate so n = Ok ls ->
                forallb (fun l => negb (is_dense_or_dropout l)) ls = true.
Proof.
  induction n as [|n IH]; intros so ls; cbn [mid_loop].
  - now intros [= <-].
  - destruct lstm.
    + destruct (attr net "width"); cbn [bind]; [|discriminate].
      destruct (mid_loop net true l2 l1 rate so n) as [rest|] eqn:Er;
        cbn [bind]; [|discriminate].
      intros [= <-]. cbn [forallb is_dense_or_dropout negb andb]. now apply (IH so).
    + destruct (conv_turn net l2 l1 so) as [[so1 l]|] eqn:E; cbn [bind]; [|discriminate].
      destruct (mid_loop net false l2 l1 rate (Some so1) n) as [rest|] eqn:Er;
        cbn [bind]; [|discriminate].
      intros [= <-]. destruct (conv_turn_within _ _ _ _ _ _ E) as (_ & _ & Hd & _).
      cbn [forallb]. now rewrite Hd, (IH _ _ Er).
Qed.

Lemma mid_block_no_dense (hypers : tree) (net : Dict.t tree) (ind arb l2 l1 rate : tree)
      (b : bool) (mid : list layer) :
  mid_block n_cols hypers net ind arb l2 l1 rate b = Ok mid ->
  forallb (fun l => negb (is_dense_or_dropout l)) mid = true.
Proof.
  unfold mid_block.
  destruct (attr net "type") as [ty|]; cbn [bind]; [|discriminate].
  destruct (is_str ty "lstm" && b); [now intros [= <-]|].
  match goal with
  | |- bind ?M _ = _ -> _ => destruct M as [so|]; cbn [bind]; [|discriminate]
  end.
  destruct (attr net "depth_mid") as [depth_mid|]; cbn [bind]; [|discriminate].
  destruct (range_of depth_mid) as [n|]; cbn [bind]; [|discriminate].
  destruct (mid_loop net (is_str ty "lstm") l2 l1 rate so n) as [ls|] eqn:Hls;
    cbn [bind]; [|discriminate].
  intros [= <-]. rewrite forallb_app, (mid_loop_no_dense _ _ _ _ _ _ _ _ Hls).
  now destruct (is_str ty "conv2d").
Qed.

Lemma conv2d_not_lstm (t : tree) :
  is_str t "conv2d" = true -> is_str t "lstm" = false.
Proof.
  destruct t as [[| | | |s]| | |]; cbn; try discriminate.
  intros H. apply String.eqb_eq in H. now subst.
Qed.

Lemma filter_shape (activation l2 l1 rate dropout : tree) (sizes : list tree) :
  filter is_dense_or_dropout
         (flat_map (fun size => Dense size activation l2 l1
                                :: (if truthy dropout then [Dropout rate] else [])) sizes)
  = flat_map (fun size => Dense size activation l2 l1
                          :: (if truthy dropout then [Dropout rate] else [])) sizes.
Proof.
  apply filter_all. apply forallb_forall. intros l Hl.
  apply in_flat_map in Hl. destruct Hl as (size & _ & [<-|Hl]); [reflexivity|].
  destruct (truthy dropout); [|contradiction]. now destruct Hl as [<-|[]].
Qed.

(** X25. For a network of type lstm, the baseline's layers are the policy
    network's layers without the lstm layers: when
    [build_net_spec(hypers)] returns, [build_net_spec(hypers, baseline=True)]
    returns the same list with the internal_lstm entries left out, which
    holds dense and dropout layers only; the policy network has
    [range(net.depth_mid)] lstm layers. *)
Theorem baseline_net_drops_lstm_layers (hypers : tree) (net : Dict.t tree) (ty : tree)
        (layers : list layer) :
  tree_item "net" hypers = Ok (Node net) ->
  attr net "type" = Ok ty -> is_str ty "lstm" = true ->
  build_net_spec n_cols hypers false = Ok layers ->
  build_net_spec n_cols hypers true
  = Ok (filter (fun l => negb (is_lstm_layer l)) layers) /\
  forallb is_dense_or_dropout (filter (fun l => negb (is_lstm_layer l)) layers) = true /\
  exists depth_mid,
    attr net "depth_mid" = Ok depth_mid /\
    range_of depth_mid = Ok (length (filter is_lstm_layer layers)).
Proof.
  intros Hnet Hty Hlstm Hb.
  destruct (build_blocks _ _ _ _ Hnet Hb)
    as (ind & arb & activation & l2 & l1 & rate & pre & mid & post
        & Hind & Harb & Hact & Hl2 & Hl1 & Hrate & Hpre & Hmid & Hpost & ->).
  destruct (mid_block_shape _ _ _ _ _ _ _ _ _ Hty Hmid)
    as (so & depth_mid & n & ls & Hdm & Hn & _ & Hls & ->).
  rewrite Hlstm in Hls. rewrite (is_str_exclusive _ Hlstm), app_nil_r.
  apply mid_loop_lstm in Hls. destruct Hls as [Hlen Hk].
  pose proof (pre_block_kinds _ _ _ _ _ _ Hpre) as Kpre.
  pose proof (post_block_kinds _ _ _ _ _ _ Hpost) as Kpost.
  assert (Hf : filter (fun l => negb (is_lstm_layer l)) (pre ++ ls ++ post) = pre ++ post).
  { rewrite !filter_app, (filter_all _ _ (dense_not_lstm _ Kpre)),
      (filter_all _ _ (dense_not_lstm _ Kpost)).
    rewrite (filter_none (fun l => negb (is_lstm_layer l)) ls); [reflexivity|].
    rewrite forallb_forall in Hk |- *. intros l Hl. now rewrite (Hk l Hl). }
  rewrite Hf. split; [|split].
  - unfold build_net_spec. rewrite Hnet. cbn [bind].
    rewrite Hind, Harb, Hact, Hl2, Hl1, Hrate. cbn [bind]. rewrite Hpre. cbn [bind].
    rewrite (mid_block_baseline _ _ _ _ _ _ _ _ _ Hty), Hlstm. cbn [andb bind].
    rewrite Hpost. reflexivity.
  - now rewrite forallb_app, Kpre, Kpost.
  - exists depth_mid. split; [assumption|]. rewrite Hn. f_equal.
    rewrite !filter_app, (filter_none is_lstm_layer pre (dense_not_lstm _ Kpre)),
      (filter_none is_lstm_layer post (dense_not_lstm _ Kpost)), (filter_all _ _ Hk).
    cbn [app]. now rewrite app_nil_r.
Qed.

(** X26. For a network of type conv2d, the returned list is the pre-layers,
    then [range(net.depth_mid)] conv2d layers, then one flatten layer, then
    the post-layers; pre- and post-layers are dense and dropout layers, and
    no conv2d layer has a size below 32, a window below 3 or a stride
    below 2.  The [baseline] flag makes no difference. *)
Theorem conv2d_net_shape (hypers : tree) (net : Dict.t tree) (ty : tree) (b : bool)
        (layers : list layer) :
  tree_item "net" hypers = Ok (Node net) ->
  attr net "type" = Ok ty -> is_str ty "conv2d" = true ->
  build_net_spec n_cols hypers b = Ok layers ->
  build_net_spec n_cols hypers (negb b) = Ok layers /\
  exists pre convs post depth_mid,
    layers = pre ++ convs ++ Flatten :: post /\
    forallb is_dense_or_dropout pre = true /\
    forallb is_dense_or_dropout post = true /\
    forallb is_conv_layer convs = true /\
    forallb conv_within convs = true /\
    attr net "depth_mid" = Ok depth_mid /\
    range_of depth_mid = Ok (length convs).
Proof.
  intros Hnet Hty Hconv Hb.
  destruct (build_blocks _ _ _ _ Hnet Hb)
    as (ind & arb & activation & l2 & l1 & rate & pre & mid & post
        & Hind & Harb & Hact & Hl2 & Hl1 & Hrate & Hpre & Hmid & Hpost & ->).
  pose proof (conv2d_not_lstm _ Hconv) as Hlstm.
  rewrite (mid_block_baseline _ _ _ _ _ _ _ _ _ Hty), Hlstm in Hmid. cbn [andb] in Hmid.
  split.
  - unfold build_net_spec. rewrite Hnet. cbn [bind].
    rewrite Hind, Harb, Hact, Hl2, Hl1, Hrate. cbn [bind]. rewrite Hpre. cbn [bind].
    rewrite (mid_block_baseline _ _ _ _ _ _ _ _ _ Hty), Hlstm. cbn [andb].
    rewrite Hmid. cbn [bind]. rewrite Hpost. reflexivity.
  - destruct (mid_block_shape _ _ _ _ _ _ _ _ _ Hty Hmid)
      as (so & depth_mid & n & ls & Hdm & Hn & _ & Hls & ->).
    rewrite Hlstm in Hls. rewrite Hconv.
    destruct (mid_loop_conv _ _ _ _ _ _ _ Hls) as (Hlen & Hw & _ & _).
    exists pre, ls, post, depth_mid. rewrite <- app_assoc. cbn [app].
    repeat split.
    + eapply pre_block_kinds; eassumption.
    + eapply post_block_kinds; eassumption.
    + eapply mid_loop_conv_layers; eassumption.
    + assumption.
    + assumption.
    + now rewrite Hlen.
Qed.

(** X27. For a network whose type is neither lstm nor conv2d, [steps_out]
    is never bound: the mid block raises NameError as soon as
    [range(net.depth_mid)] has a turn, and [build_net_spec] returns only when
    it has none, with dense and dropout layers only. *)
Theorem other_net_type_has_no_mid_layer (hypers : tree) (net : Dict.t tree) (ty : tree)
        (b : bool) :
  tree_item "net" hypers = Ok (Node net) ->
  attr net "type" = Ok ty -> is_str ty "lstm" = false -> is_str ty "conv2d" = false ->
  (forall ind arb l2 l1 rate depth_mid n,
      attr net "depth_mid" = Ok depth_mid -> range_of depth_mid = Ok (S n) ->
      mid_block n_cols hypers net ind arb l2 l1 rate b = Err (NameError "steps_out")) /\
  (forall layers,
      build_net_spec n_cols hypers b = Ok layers ->
      forallb is_dense_or_dropout layers = true /\
      exists depth_mid, attr net "depth_mid" = Ok depth_mid /\ range_of depth_mid = Ok 0%nat).
Proof.
  intros Hnet Hty Hlstm Hconv. split.
  - intros ind arb l2 l1 rate depth_mid n Hdm Hn.
    unfold mid_block. rewrite Hty. cbn [bind]. rewrite Hlstm, Hconv. cbn [andb bind].
    rewrite Hdm. cbn [bind]. rewrite Hn. reflexivity.
  - intros layers Hb.
    destruct (build_blocks _ _ _ _ Hnet Hb)
      as (ind & arb & activation & l2 & l1 & rate & pre & mid & post
          & Hind & Harb & Hact & Hl2 & Hl1 & Hrate & Hpre & Hmid & Hpost & ->).
    rewrite (mid_block_baseline _ _ _ _ _ _ _ _ _ Hty), Hlstm in Hmid. cbn [andb] in Hmid.
    destruct (mid_block_shape _ _ _ _ _ _ _ _ _ Hty Hmid)
      as (so & depth_mid & n & ls & Hdm & Hn & Hso & Hls & ->).
    rewrite Hlstm in Hls. rewrite Hconv, app_nil_r.
    destruct (mid_loop_conv _ _ _ _ _ _ _ Hls) as (Hlen & _ & _ & Hsome).
    destruct n as [|n].
    + destruct ls; [|discriminate]. split.
      * rewrite forallb_app. cbn [app].
        now rewrite (pre_block_kinds _ _ _ _ _ _ Hpre), (post_block_kinds _ _ _ _ _ _ Hpost).
      * now exists depth_mid.
    + exfalso. apply Hsome; [discriminate|]. now apply Hso.
Qed.

(** X28. With [net.funnel] truthy and [net.width] an int of magnitude
    below [2^53], the sizes of the dense layers, in the order of the list,
    are [int(net.width / d)] for [d] running over [depth_pre + 1, ..., 2]
    (the pre loop; nothing when [net] has no [depth_pre]) and then over
    [1, ..., depth_post] (the post loop).  For such a width the float
    quotient of the two ints and the exact quotient have the same integer
    part. *)
Theorem funnel_layer_sizes (hypers : tree) (net : Dict.t tree) (funnel : tree)
        (z : Z) (b : bool) (layers : list layer) :
  tree_item "net" hypers = Ok (Node net) ->
  attr net "funnel" = Ok funnel -> truthy funnel = true ->
  attr net "width" = Ok (Leaf (VInt z)) -> (Z.abs z < 2 ^ 53)%Z ->
  build_net_spec n_cols hypers b = Ok layers ->
  exists n_pre depth_post n_post,
    match Dict.get "depth_pre" net with
    | Some depth_pre => range_of depth_pre = Ok n_pre
    | None => n_pre = 0%nat
    end /\
    attr net "depth_post" = Ok depth_post /\ range_of depth_post = Ok n_post /\
    dense_sizes layers
    = map (fun d => Leaf (VInt (Py.truncate (inject_Z z / inject_Z d))))
          (funnel_divisors n_pre n_post).
Proof.
  intros Hnet Hf Ht Hw _ Hb.
  assert (Hn : num (Leaf (VInt z)) = Ok (inject_Z z)) by reflexivity.
  destruct (build_blocks _ _ _ _ Hnet Hb)
    as (ind & arb & activation & l2 & l1 & rate & pre & mid & post
        & Hind & Harb & Hact & Hl2 & Hl1 & Hrate & Hpre & Hmid & Hpost & ->).
  destruct (pre_block_shape _ _ _ _ _ _ Hpre) as (n_pre & Hnpre & Hlpre).
  destruct (post_block_shape _ _ _ _ _ _ Hpost) as (depth_post & n_post & Hdp & Hnp & Hlpost).
  destruct (dense_loop_shape _ _ _ _ _ _ _ _ _ Hrate Hlpre) as (spre & Fpre & ->).
  destruct (dense_loop_shape _ _ _ _ _ _ _ _ _ Hrate Hlpost) as (spost & Fpost & ->).
  exists n_pre, depth_post, n_post. repeat split; auto.
  rewrite !dense_sizes_app, !dense_sizes_shape,
    (dense_sizes_none _ (mid_block_no_dense _ _ _ _ _ _ _ _ _ Hmid)).
  cbn [app]. unfold funnel_divisors. rewrite map_app.
  now rewrite <- (funnel_sizes_map _ _ _ _ _ _ _ Hf Ht Hw Hn Fpre),
    <- (funnel_sizes_map _ _ _ _ _ _ _ Hf Ht Hw Hn Fpost).
Qed.

(** X29. Every dense layer of the returned list carries [net.activation],
    [net.l2] and [net.l1], and is directly followed by a dropout layer of
    rate [net.dropout] exactly when [net.dropout] is truthy: with the lstm,
    conv2d and flatten layers left out, the list is one such group per dense
    size. *)
Theorem dropout_follows_each_dense (hypers : tree) (net : Dict.t tree)
        (activation l2 l1 dropout : tree) (b : bool) (layers : list layer) :
  tree_item "net" hypers = Ok (Node net) ->
  attr net "activation" = Ok activation ->
  attr net "l2" = Ok l2 -> attr net "l1" = Ok l1 -> attr net "dropout" = Ok dropout ->
  build_net_spec n_cols hypers b = Ok layers ->
  filter is_dense_or_dropout layers
  = flat_map (fun size => Dense size activation l2 l1
                          :: (if truthy dropout then [Dropout dropout] else []))
             (dense_sizes layers).
Proof.
  intros Hnet Ha H2 H1 Hd Hb.
  destruct (build_blocks _ _ _ _ Hnet Hb)
    as (ind & arb & activation' & l2' & l1' & rate & pre & mid & post
        & Hind & Harb & Hact & Hl2 & Hl1 & Hrate & Hpre & Hmid & Hpost & ->).
  rewrite Ha in Hact. injection Hact as <-. rewrite H2 in Hl2. injection Hl2 as <-.
  rewrite H1 in Hl1. injection Hl1 as <-. rewrite Hd in Hrate. injection Hrate as <-.
  destruct (pre_block_shape _ _ _ _ _ _ Hpre) as (n_pre & _ & Hlpre).
  destruct (post_block_shape _ _ _ _ _ _ Hpost) as (depth_post & n_post & _ & _ & Hlpost).
  destruct (dense_loop_shape _ _ _ _ _ _ _ _ _ Hd Hlpre) as (spre & _ & ->).
  destruct (dense_loop_shape _ _ _ _ _ _ _ _ _ Hd Hlpost) as (spost & _ & ->).
  pose proof (mid_block_no_dense _ _ _ _ _ _ _ _ _ Hmid) as Hno.
  rewrite !filter_app, !filter_shape, (filter_none _ _ Hno).
  rewrite !dense_sizes_app, !dense_sizes_shape, (dense_sizes_none _ Hno).
  cbn [app]. now rewrite flat_map_app.
Qed.

End NetSpecFacts.

(** X25 at work: an lstm network of two mid turns. *)
Lemma baseline_net_example :
  exists layers,
    NetSpecBuilder.build_net_spec NetSpecBuilder.example_n_cols
                                  (NetSpecBuilder.example_custom "lstm" 2) false
    = Ok layers /\
    NetSpecBuilder.build_net_spec NetSpecBuilder.example_n_cols
                                  (NetSpecBuilder.example_custom "lstm" 2) true
    = Ok (filter (fun l => negb (NetSpecBuilder.is_lstm_layer l)) layers).
Proof.
  destruct (NetSpecBuilder.build_net_spec NetSpecBuilder.example_n_cols
                                          (NetSpecBuilder.example_custom "lstm" 2) false)
    as [layers|e] eqn:E; [|vm_compute in E; discriminate].
  exists layers. split; [reflexivity|].
  exact (proj1 (baseline_net_drops_lstm_layers
                  NetSpecBuilder.example_n_cols (NetSpecBuilder.example_custom "lstm" 2)
                  (NetSpecBuilder.example_net "lstm" 2) (Leaf (VStr "lstm")) layers
                  eq_refl eq_refl eq_refl E)).
Defined.

(** X26 at work: a conv2d network of two mid turns, with or without the
    baseline flag. *)
Lemma conv2d_net_example :
  exists layers,
    NetSpecBuilder.build_net_spec NetSpecBuilder.example_n_cols
                                  (NetSpecBuilder.example_custom "conv2d" 2) false
    = Ok layers /\
    NetSpecBuilder.build_net_spec NetSpecBuilder.example_n_cols
                                  (NetSpecBuilder.example_custom "conv2d" 2) true
    = Ok layers.
Proof.
  destruct (NetSpecBuilder.build_net_spec NetSpecBuilder.example_n_cols
                                          (NetSpecBuilder.example_custom "conv2d" 2) false)
    as [layers|e] eqn:E; [|vm_compute in E; discriminate].
  exists layers. split; [reflexivity|].
  exact (proj1 (conv2d_net_shape
                  NetSpecBuilder.example_n_cols (NetSpecBuilder.example_custom "conv2d" 2)
                  (NetSpecBuilder.example_net "conv2d" 2) (Leaf (VStr "conv2d")) false
                  layers eq_refl eq_refl eq_refl E)).
Defined.

(** X27 at work: a network of type [dense] with one mid turn. *)
Lemma other_net_type_example :
  NetSpecBuilder.mid_block NetSpecBuilder.example_n_cols
                           (NetSpecBuilder.example_custom "dense" 1)
                           (NetSpecBuilder.example_net "dense" 1)
                           (Leaf (VBool false)) (Leaf (VBool true))
                           (Leaf (VFloat (1 # 10))) (Leaf (VFloat (1 # 100)))
                           (Leaf (VFloat (1 # 2))) false
  = Err (NameError "steps_out").
Proof.
  exact (proj1 (other_net_type_has_no_mid_layer
                  NetSpecBuilder.example_n_cols (NetSpecBuilder.example_custom "dense" 1)
                  (NetSpecBuilder.example_net "dense" 1) (Leaf (VStr "dense")) false
                  eq_refl eq_refl eq_refl eq_refl)
               (Leaf (VBool false)) (Leaf (VBool true))
               (Leaf (VFloat (1 # 10))) (Leaf (VFloat (1 # 100)))
               (Leaf (VFloat (1 # 2))) (Leaf (VInt 1)) 0%nat eq_refl eq_refl).
Defined.

(** X28 at work: width 200, one pre turn and two post turns. *)
Lemma funnel_layer_sizes_example :
  exists layers,
    NetSpecBuilder.build_net_spec NetSpecBuilder.example_n_cols
                                  (NetSpecBuilder.example_custom "lstm" 2) false
    = Ok layers /\
    NetSpecBuilder.dense_sizes layers
    = [Leaf (VInt 100); Leaf (VInt 200); Leaf (VInt 100)].
Proof.
  destruct (NetSpecBuilder.build_net_spec NetSpecBuilder.example_n_cols
                                          (NetSpecBuilder.example_custom "lstm" 2) false)
    as [layers|e] eqn:E; [|vm_compute in E; discriminate].
  exists layers. split; [reflexivity|].
  destruct (funnel_layer_sizes
              NetSpecBuilder.example_n_cols (NetSpecBuilder.example_custom "lstm" 2)
              (NetSpecBuilder.example_net "lstm" 2) (Leaf (VBool true)) 200
              false layers eq_refl eq_refl eq_refl eq_refl eq_refl E)
    as (n_pre & depth_post & n_post & Hpre & Hdp & Hnp & ->).
  cbv in Hpre. injection Hpre as <-.
  cbv in Hdp. injection Hdp as <-.
  cbv in Hnp. injection Hnp as <-.
  reflexivity.
Defined.

(** X29 at work: the dropout of the example is [0.5]. *)
Lemma dropout_follows_example :
  exists layers,
    NetSpecBuilder.build_net_spec NetSpecBuilder.example_n_cols
                                  (NetSpecBuilder.example_custom "conv2d" 2) false
    = Ok layers /\
    filter NetSpecBuilder.is_dense_or_dropout layers
    = flat_map (fun size => [NetSpecBuilder.Dense size (Leaf (VStr "tanh"))
                                                  (Leaf (VFloat (1 # 10)))
                                                  (Leaf (VFloat (1 # 100)));
                             NetSpecBuilder.Dropout (Leaf (VFloat (1 # 2)))])
               (NetSpecBuilder.dense_sizes layers).
Proof.
  destruct (NetSpecBuilder.build_net_spec NetSpecBuilder.example_n_cols
                                          (NetSpecBuilder.example_custom "conv2d" 2) false)
    as [layers|e] eqn:E; [|vm_compute in E; discriminate].
  exists layers. split; [reflexivity|].
  exact (dropout_follows_each_dense
           NetSpecBuilder.example_n_cols (NetSpecBuilder.example_custom "conv2d" 2)
           (NetSpecBuilder.example_net "conv2d" 2) (Leaf (VStr "tanh"))
           (Leaf (VFloat (1 # 10))) (Leaf (VFloat (1 # 100))) (Leaf (VFloat (1 # 2)))
           false layers eq_refl eq_refl eq_refl eq_refl eq_refl E).
Defined.
